(** * Hyperlane network exporter: lifecycle and polling engine

    A shallow embedding of [hyperlane_network_exporter.py].

    The program is a set of [async] functions run by a single-threaded
    asyncio event loop.  Every coroutine is cut at its [await]
    expressions: a coroutine is a function in a state-and-exception monad
    over the shared [world] that either finishes or suspends on an
    awaitable at a program point named after the source line of the
    [await].  The event loop (ready queue, tasks, cancellation, done
    callbacks, [asyncio.Event], [asyncio.sleep]) is an executable
    transition function on [world]; the chain client, the HTTP session and
    the clock are the environment, which completes pending awaits. *)

From Stdlib Require Import ZArith QArith Qabs String List Bool Lia.
From stdpp Require Import base option list gmap strings.

Local Open Scope string_scope.
Local Open Scope list_scope.

(** ** Exceptions and values *)

(** Python values that travel through an [await] in this program. *)
Inductive pyvalue : Type :=
| VNone
| VBool (b : bool)
| VInt (z : Z)
| VCheckpoint (root : list Byte.byte) (index : Z).
    (* the pair returned by latestCheckpoint(): (bytes32 root, uint32 index) *)

Inductive exn : Type :=
| RuntimeError (msg : string) (args : list pyvalue)
| AttributeError (attr : string)
| TypeError (msg : string)
| ZeroDivisionError (msg : string)
| OverflowError (msg : string)
| CancelledError
| ClientError (msg : string)          (* transport failure of the RPC client *)
| ContractLogicError (msg : string).  (* the contract call reverted *)

(** Result of running a piece of code: a value, or a raised exception. *)
Inductive res (A : Type) : Type :=
| Val (a : A)
| Err (e : exn).
Arguments Val {A} a.
Arguments Err {A} e.

(** What an [await] evaluates to when the coroutine is resumed. *)
Inductive outcome : Type :=
| Ok (v : pyvalue)
| Exc (e : exn).

(** ** Floats: the true division of two ints

    [a / b] on two [int]s is the binary64 float nearest to the exact
    quotient, ties going to the even significand; it raises
    [ZeroDivisionError] when [b] is zero and [OverflowError] when the
    rounded quotient is too large for a float.  A finite float is
    represented by the rational [m * 2^s] it denotes. *)

Definition DBL_MANT_DIG : Z := 53.
Definition DBL_MIN_EXP : Z := -1021.
Definition DBL_MAX_EXP : Z := 1024.

(** The integer nearest to [n / d], ties to even ([0 <= n], [0 < d]). *)
Definition round_half_even (n d : Z) : Z :=
  let q := (n / d)%Z in
  let r := (n mod d)%Z in
  if (2 * r <? d)%Z then q
  else if (d <? 2 * r)%Z then (q + 1)%Z
  else if Z.even q then q else (q + 1)%Z.

(** [n * 2^s] for [0 <= s], and [n] otherwise: one side of a comparison
    of [n / d] with a power of two, cleared of denominators. *)
Definition scaled (n s : Z) : Z := (n * 2 ^ Z.max 0 s)%Z.

(** The [e] with [2^e <= n / d < 2^(e+1)] ([0 < n], [0 < d]). *)
Definition quotient_exponent (n d : Z) : Z :=
  let e := (Z.log2 n - Z.log2 d)%Z in
  if (scaled n (- e) <? scaled d e)%Z then (e - 1)%Z else e.

(** The float nearest to [a / b], as a significand [m] of at most 53 bits
    (54 when the rounding carries) and the exponent [s] of its last bit;
    below the normal range the exponent stays at that of the subnormals. *)
Definition nearest_float (a b : Z) : Z * Z :=
  let n := Z.abs a in
  let d := Z.abs b in
  let s := Z.max (quotient_exponent n d + 1 - DBL_MANT_DIG)
                 (DBL_MIN_EXP - DBL_MANT_DIG) in
  ((Z.sgn a * Z.sgn b * round_half_even (scaled n (- s)) (scaled d s))%Z, s).

Definition float_value (f : Z * Z) : Q :=
  let (m, s) := f in
  Qmake (scaled m s) (Z.to_pos (2 ^ Z.max 0 (- s))).

Definition int_true_divide (a b : Z) : res Q :=
  if (b =? 0)%Z then Err (ZeroDivisionError "division by zero")
  else
    let (m, s) := nearest_float a b in
    if (2 ^ DBL_MAX_EXP <=? scaled (Z.abs m) s)%Z
    then Err (OverflowError "integer division result too large for a float")
    else Val (float_value (m, s)).
Arguments nearest_float : simpl never.
Arguments float_value : simpl never.
Arguments int_true_divide : simpl never.

(** ** Supported Ethereum networks (lines 51-67) *)

Inductive SupportedNetworks : Type := MAINNET | HOLESKY.

Definition value (self : SupportedNetworks) : string :=
  match self with
  | MAINNET => "mainnet"
  | HOLESKY => "holesky"
  end.

(** [__str__] *)
Definition str (self : SupportedNetworks) : string := value self.

(** The members are [str] instances, so the value patterns of the [match]
    statement compare [self.value] with the member by string equality, in
    the order HOLESKY, MAINNET; falling through raises. *)
Definition hyperlane_merkle_tree_hook_contract (self : SupportedNetworks) : res string :=
  if String.eqb (value self) (value HOLESKY) then
    Val "0x98AAE089CaD930C64a76dD2247a2aC5773a4B8cE"
  else if String.eqb (value self) (value MAINNET) then
    Val "0x48e6c30B97748d1e2e03bf3e9FbE3890ca5f8CCA"
  else
    Err (RuntimeError "Can not derive hyperlane merkle tree hook address for network" []).

(** ** Contracts and awaitables *)

(** The ABI is the constant content of [contract/MerkleTreeHook.json]. *)
Inductive abi : Type := MerkleTreeHook_json.

Record AsyncContract : Type := { address : string; contract_abi : abi }.

Definition get_hyperlane_merkle_tree_hook_contract_abi : abi := MerkleTreeHook_json.

Definition get_hyperlane_merkle_tree_hook_contract (network : SupportedNetworks)
  : res AsyncContract :=
  let abi := get_hyperlane_merkle_tree_hook_contract_abi in
  match hyperlane_merkle_tree_hook_contract network with
  | Val address => Val {| address := address; contract_abi := abi |}
  | Err e => Err e
  end.

(** The things the program awaits. *)
Inductive awaitable : Type :=
| aw_cache_async_session                      (* w3.provider.cache_async_session(session) *)
| aw_chain_id                                 (* w3.eth.chain_id *)
| aw_call (c : AsyncContract) (fn : string)   (* c.functions.<fn>().call() *)
| aw_sleep (delay : Q)                        (* asyncio.sleep(delay), seconds *)
| aw_event_wait                               (* stopped.wait() *)
| aw_session_close                            (* session.close() *)
| aw_signal.                                  (* the caller idles until told to go on *)

(** ** Program points *)

Inductive init_pc : Type := init_L170.
Inductive tick_pc : Type := tick_L181.
Inductive sleep_pc : Type := sleep_L166.
Inductive run_pc : Type := run_L189 (p : sleep_pc).
Inductive stop_pc : Type := stop_L161 | stop_L162.
Inductive startup_pc : Type :=
| startup_L83
| startup_L84 (p : init_pc)
| startup_L86 (p : tick_pc).
Inductive shutdown_pc : Type := shutdown_L92 (p : stop_pc).

(** The operations a caller can invoke on the exporter, and where the
    caller is inside the one it is currently awaiting. *)
Inductive op : Type :=
| op_init | op_tick | op_start | op_stop
| op_start_exporter_app | op_stop_exporter_app
| op_wait.   (* not an exporter operation: the caller lets the loop run,
                as the server does between startup and shutdown *)

Inductive op_pc : Type :=
| in_init (p : init_pc)
| in_tick (p : tick_pc)
| in_stop (p : stop_pc)
| in_start_exporter_app (p : startup_pc)
| in_stop_exporter_app (p : shutdown_pc)
| in_wait.

Definition op_of (p : op_pc) : op :=
  match p with
  | in_init _ => op_init
  | in_tick _ => op_tick
  | in_stop _ => op_stop
  | in_start_exporter_app _ => op_start_exporter_app
  | in_stop_exporter_app _ => op_stop_exporter_app
  | in_wait => op_wait
  end.

(** The coroutine wrapped by a task; [None] is a coroutine object that has
    been created but not started. *)
Inductive coro : Type :=
| co_run (p : option run_pc)
| co_tick (p : option tick_pc)
| co_main (p : option op_pc).

(** A coroutine step ends by returning ([Done], every coroutine here
    returns [None]) or by suspending at a program point. *)
Inductive susp (PC : Type) : Type :=
| Done
| Yield (aw : awaitable) (pc : PC).
Arguments Done {PC}.
Arguments Yield {PC} aw pc.

Definition susp_map {P Q : Type} (f : P → Q) (s : susp P) : susp Q :=
  match s with
  | Done => Done
  | Yield aw p => Yield aw (f p)
  end.

(** ** The world: exporter attributes, the gauge, the event loop *)

Abbreviation task_id := nat (only parsing).

Inductive callback : Type := cb_on_runner_task_done.

Record task : Type := {
  t_coro : coro;
  t_waiting : option awaitable;   (* the pending future the task is blocked on *)
  t_must_cancel : bool;
  t_result : option (res unit);   (* set once the task is done *)
  t_callbacks : list callback
}.

Inductive handle : Type :=
| h_step (tid : task_id) (inp : outcome)          (* Task.__step / __wakeup *)
| h_callback (cb : callback) (tid : task_id).

(** The attributes of [HyperlaneContractExporter]; [None] is an attribute
    that has not been assigned. *)
Record HyperlaneContractExporter : Type := {
  rpc_address : string;
  interval_ms : Z;
  stopping : bool;
  stopped : bool;     (* the flag of the asyncio.Event; its waiters are
                         the tasks blocked on [aw_event_wait] *)
  network : option SupportedNetworks;
  contract : option AsyncContract;       (* cache of the cached_property *)
  _runner_task : option task_id
}.

(** Observable effects, in program order. *)
Inductive effect : Type :=
| ef_log (msg : string) (args : list pyvalue)   (* logger.info *)
| ef_gauge_set (label : string) (v : Z)         (* Gauge.labels(label).set(v) *)
| ef_create_task (tid : task_id) (c : coro)
| ef_cancel (tid : task_id)
| ef_await (aw : awaitable).

Record world : Type := {
  exporter : HyperlaneContractExporter;
  hyperlane_contract_latest_checkpoint : gmap string Z;
  tasks : list task;
  ready : list handle;
  script_todo : list op;
  script_done : list op;
  trace : list effect
}.

Definition DEFAULT_INTERVAL_MS : Z := 30000.

(** [__init__] *)
Definition new_exporter (rpc_address : string) (interval_ms : Z) : HyperlaneContractExporter :=
  {| rpc_address := rpc_address;
     interval_ms := interval_ms;
     stopping := false;
     stopped := false;
     network := None;
     contract := None;
     _runner_task := None |}.

(** Field updates. *)
Definition with_exporter (f : HyperlaneContractExporter → HyperlaneContractExporter)
  (w : world) : world :=
  {| exporter := f (exporter w);
     hyperlane_contract_latest_checkpoint := hyperlane_contract_latest_checkpoint w;
     tasks := tasks w; ready := ready w;
     script_todo := script_todo w; script_done := script_done w;
     trace := trace w |}.

Definition with_gauge (g : gmap string Z) (w : world) : world :=
  {| exporter := exporter w;
     hyperlane_contract_latest_checkpoint := g;
     tasks := tasks w; ready := ready w;
     script_todo := script_todo w; script_done := script_done w;
     trace := trace w |}.

Definition with_tasks (ts : list task) (w : world) : world :=
  {| exporter := exporter w;
     hyperlane_contract_latest_checkpoint := hyperlane_contract_latest_checkpoint w;
     tasks := ts; ready := ready w;
     script_todo := script_todo w; script_done := script_done w;
     trace := trace w |}.

Definition with_ready (r : list handle) (w : world) : world :=
  {| exporter := exporter w;
     hyperlane_contract_latest_checkpoint := hyperlane_contract_latest_checkpoint w;
     tasks := tasks w; ready := r;
     script_todo := script_todo w; script_done := script_done w;
     trace := trace w |}.

Definition with_script (todo done : list op) (w : world) : world :=
  {| exporter := exporter w;
     hyperlane_contract_latest_checkpoint := hyperlane_contract_latest_checkpoint w;
     tasks := tasks w; ready := ready w;
     script_todo := todo; script_done := done;
     trace := trace w |}.

Definition with_trace (t : list effect) (w : world) : world :=
  {| exporter := exporter w;
     hyperlane_contract_latest_checkpoint := hyperlane_contract_latest_checkpoint w;
     tasks := tasks w; ready := ready w;
     script_todo := script_todo w; script_done := script_done w;
     trace := t |}.

Definition set_stopping (b : bool) (e : HyperlaneContractExporter) :=
  {| rpc_address := rpc_address e; interval_ms := interval_ms e;
     stopping := b; stopped := stopped e; network := network e;
     contract := contract e; _runner_task := _runner_task e |}.

Definition set_stopped (b : bool) (e : HyperlaneContractExporter) :=
  {| rpc_address := rpc_address e; interval_ms := interval_ms e;
     stopping := stopping e; stopped := b; network := network e;
     contract := contract e; _runner_task := _runner_task e |}.

Definition set_network (n : SupportedNetworks) (e : HyperlaneContractExporter) :=
  {| rpc_address := rpc_address e; interval_ms := interval_ms e;
     stopping := stopping e; stopped := stopped e; network := Some n;
     contract := contract e; _runner_task := _runner_task e |}.

Definition set_contract (c : AsyncContract) (e : HyperlaneContractExporter) :=
  {| rpc_address := rpc_address e; interval_ms := interval_ms e;
     stopping := stopping e; stopped := stopped e; network := network e;
     contract := Some c; _runner_task := _runner_task e |}.

Definition set_runner_task (t : task_id) (e : HyperlaneContractExporter) :=
  {| rpc_address := rpc_address e; interval_ms := interval_ms e;
     stopping := stopping e; stopped := stopped e; network := network e;
     contract := contract e; _runner_task := Some t |}.

Definition set_t_coro (c : coro) (t : task) : task :=
  {| t_coro := c; t_waiting := t_waiting t; t_must_cancel := t_must_cancel t;
     t_result := t_result t; t_callbacks := t_callbacks t |}.

Definition set_t_waiting (a : option awaitable) (t : task) : task :=
  {| t_coro := t_coro t; t_waiting := a; t_must_cancel := t_must_cancel t;
     t_result := t_result t; t_callbacks := t_callbacks t |}.

Definition set_t_must_cancel (b : bool) (t : task) : task :=
  {| t_coro := t_coro t; t_waiting := t_waiting t; t_must_cancel := b;
     t_result := t_result t; t_callbacks := t_callbacks t |}.

Definition set_t_result (r : res unit) (t : task) : task :=
  {| t_coro := t_coro t; t_waiting := None; t_must_cancel := false;
     t_result := Some r; t_callbacks := t_callbacks t |}.

Definition add_t_callback (cb : callback) (t : task) : task :=
  {| t_coro := t_coro t; t_waiting := t_waiting t; t_must_cancel := t_must_cancel t;
     t_result := t_result t; t_callbacks := t_callbacks t ++ [cb] |}.

Definition new_task (c : coro) : task :=
  {| t_coro := c; t_waiting := None; t_must_cancel := false;
     t_result := None; t_callbacks := [] |}.

(** ** The monad of synchronous code *)

(** Code between two [await]s mutates the world and may raise; the world
    keeps the mutations made before the exception. *)
Definition M (A : Type) : Type := world → res A * world.

Definition ret {A : Type} (a : A) : M A := λ w, (Val a, w).
Definition raise {A : Type} (e : exn) : M A := λ w, (Err e, w).
Definition bind {A B : Type} (m : M A) (k : A → M B) : M B :=
  λ w, match m w with
       | (Val a, w') => k a w'
       | (Err e, w') => (Err e, w')
       end.

Notation "x <- m ;; k" := (bind m (λ x, k))
  (at level 100, m at next level, right associativity).
Notation "m ;; k" := (bind m (λ _, k))
  (at level 100, right associativity).

Definition get_self : M HyperlaneContractExporter := λ w, (Val (exporter w), w).
Definition modify (f : world → world) : M unit := λ w, (Val tt, f w).
Definition emit (e : effect) : M unit := modify (λ w, with_trace (trace w ++ [e]) w).
Definition lift_res {A : Type} (r : res A) : M A :=
  match r with Val a => ret a | Err e => raise e end.

Definition logger_info (msg : string) (args : list pyvalue) : M unit :=
  emit (ef_log msg args).

Definition await {PC : Type} (aw : awaitable) (pc : PC) : M (susp PC) :=
  emit (ef_await aw);; ret (Yield aw pc).

(** [await f()] for a coroutine function [f] of this program: the caller
    is suspended wherever [f] is, and goes on with [k] when [f] returns;
    an exception raised by [f] propagates through the monad. *)
Definition await_coro {P PC : Type} (f : M (susp P)) (wrap : P → PC)
  (k : M (susp PC)) : M (susp PC) :=
  s <- f;;
  match s with
  | Done => k
  | Yield aw p => ret (Yield aw (wrap p))
  end.

(** Sending [inp] into a coroutine.  An exception thrown into a coroutine
    that has not started is raised at once, before any of its body. *)
Definition enter {PC : Type} (inp : outcome) (body : M (susp PC)) : M (susp PC) :=
  match inp with
  | Exc e => raise e
  | Ok _ => body
  end.

(** ** asyncio primitives used by the exporter *)

(** [loop.create_task(coro)]: the task is registered and its first step
    is scheduled with [call_soon]; nothing of the coroutine runs yet. *)
Definition create_task (c : coro) : M task_id :=
  λ w, let tid := length (tasks w) in
       (Val tid,
        with_trace (trace w ++ [ef_create_task tid c])
          (with_ready (ready w ++ [h_step tid (Ok VNone)])
             (with_tasks (tasks w ++ [new_task c]) w))).

(** [Task.cancel()]: a finished task is left alone; a task blocked on a
    pending future has that future cancelled, which schedules its wake-up
    with [CancelledError]; a task that is already scheduled gets
    [_must_cancel]. *)
Definition task_cancel (tid : task_id) : M bool :=
  λ w, let w := with_trace (trace w ++ [ef_cancel tid]) w in
       match tasks w !! tid with
       | None => (Val false, w)
       | Some t =>
         match t_result t with
         | Some _ => (Val false, w)
         | None =>
           match t_waiting t with
           | Some _ =>
               (Val true,
                with_ready (ready w ++ [h_step tid (Exc CancelledError)])
                  (with_tasks (<[tid := set_t_waiting None t]> (tasks w)) w))
           | None =>
               (Val true,
                with_tasks (<[tid := set_t_must_cancel true t]> (tasks w)) w)
           end
         end
       end.

(** [Task.add_done_callback(cb)] *)
Definition add_done_callback (tid : task_id) (cb : callback) : M unit :=
  λ w, match tasks w !! tid with
       | None => (Val tt, w)
       | Some t =>
         match t_result t with
         | Some _ => (Val tt, with_ready (ready w ++ [h_callback cb tid]) w)
         | None => (Val tt, with_tasks (<[tid := add_t_callback cb t]> (tasks w)) w)
         end
       end.

Definition is_event_wait (a : option awaitable) : bool :=
  match a with
  | Some aw_event_wait => true
  | _ => false
  end.

(** The waiters of the event, woken with the result [True]. *)
Fixpoint wake_waiters (i : task_id) (ts : list task) : list task * list handle :=
  match ts with
  | [] => ([], [])
  | t :: rest =>
      let (ts', hs) := wake_waiters (S i) rest in
      if is_event_wait (t_waiting t)
      then (set_t_waiting None t :: ts', h_step i (Ok (VBool true)) :: hs)
      else (t :: ts', hs)
  end.

(** [Event.set()] on [self.stopped] *)
Definition Event_set : M unit :=
  λ w, if stopped (exporter w) then (Val tt, w)
       else
         let (ts, hs) := wake_waiters 0 (tasks w) in
         (Val tt,
          with_exporter (set_stopped true)
            (with_ready (ready w ++ hs) (with_tasks ts w))).

(** [hyperlane_contract_latest_checkpoint.labels(label).set(v)] *)
Definition gauge_labels_set (label : string) (v : Z) : M unit :=
  λ w, (Val tt,
        with_trace (trace w ++ [ef_gauge_set label v])
          (with_gauge (<[label := v]> (hyperlane_contract_latest_checkpoint w)) w)).

(** ** The exporter (lines 127-190) *)

(** Attribute reads; an attribute that was never assigned raises. *)
Definition self_network : M SupportedNetworks :=
  self <- get_self;;
  match network self with
  | Some n => ret n
  | None => raise (AttributeError "network")
  end.

Definition self_runner_task : M task_id :=
  self <- get_self;;
  match _runner_task self with
  | Some t => ret t
  | None => raise (AttributeError "_runner_task")
  end.

(** [contract], a [functools.cached_property]: computed on first access
    from the network resolved at that moment, then served from the cache. *)
Definition self_contract : M AsyncContract :=
  self <- get_self;;
  match contract self with
  | Some c => ret c
  | None =>
      network <- self_network;;
      c <- lift_res (get_hyperlane_merkle_tree_hook_contract network);;
      modify (with_exporter (set_contract c));;
      ret c
  end.

Definition on_runner_task_done : M unit := Event_set.

Definition start : M unit :=
  t <- create_task (co_run None);;
  modify (with_exporter (set_runner_task t));;
  add_done_callback t cb_on_runner_task_done.

(** [stop] (lines 156-163) *)
Definition stop_L163 : M (susp stop_pc) :=
  logger_info "Stopped components, will exit" [];;
  ret Done.

Definition stop_L162_await : M (susp stop_pc) :=
  await aw_session_close stop_L162.

Definition stop_begin : M (susp stop_pc) :=
  logger_info "Gracefully shutting down application" [];;
  modify (with_exporter (set_stopping true));;
  t <- self_runner_task;;
  _ <- task_cancel t;;
  self <- get_self;;
  if negb (stopped self) then await aw_event_wait stop_L161
  else stop_L162_await.

Definition stop_resume (pc : stop_pc) (inp : outcome) : M (susp stop_pc) :=
  match inp with
  | Exc e => raise e
  | Ok _ =>
      match pc with
      | stop_L161 => stop_L162_await
      | stop_L162 => stop_L163
      end
  end.

(** [sleep] (lines 165-166); its body is a single [await] of
    [asyncio.sleep(self.interval_ms / 1000)]: the division is evaluated
    first and may raise, otherwise the first step suspends. *)
Definition sleep_begin : M (awaitable * sleep_pc) :=
  self <- get_self;;
  delay <- lift_res (int_true_divide (interval_ms self) 1000);;
  let aw := aw_sleep delay in
  emit (ef_await aw);;
  ret (aw, sleep_L166).

Definition sleep_resume (pc : sleep_pc) (inp : outcome) : M (susp sleep_pc) :=
  match inp with
  | Exc e => raise e
  | Ok _ => ret Done
  end.

(** [init] (lines 168-178) *)
Definition py_eq_int (v : pyvalue) (z : Z) : bool :=
  match v with
  | VInt x => (x =? z)%Z
  | _ => false
  end.

Definition init_begin : M (susp init_pc) := await aw_chain_id init_L170.

Definition init_resume (pc : init_pc) (inp : outcome) : M (susp init_pc) :=
  match inp with
  | Exc e => raise e
  | Ok chain_id =>
      if py_eq_int chain_id 1 then
        logger_info "Discovered Ethereum network as MAINNET" [];;
        modify (with_exporter (set_network MAINNET));;
        ret Done
      else if py_eq_int chain_id 17000 then
        logger_info "Discovered Ethereum network as HOLESKY" [];;
        modify (with_exporter (set_network HOLESKY));;
        ret Done
      else
        raise (RuntimeError "Unsupported network with chain id %s" [chain_id])
  end.

(** [tick] (lines 180-183) *)
Definition tick_begin : M (susp tick_pc) :=
  c <- self_contract;;
  await (aw_call c "latestCheckpoint") tick_L181.

Definition tick_resume (pc : tick_pc) (inp : outcome) : M (susp tick_pc) :=
  match inp with
  | Exc e => raise e
  | Ok (VCheckpoint _ value) =>
      logger_info "Fetched checkpoint index from contract: %s" [VInt value];;
      network <- self_network;;
      gauge_labels_set (str network) value;;
      ret Done
  | Ok _ => raise (TypeError "cannot unpack non-iterable object")
  end.

(** [run] (lines 185-190): [run_loop] is the head of the [while]. *)
Definition run_loop : M (susp run_pc) :=
  self <- get_self;;
  if negb (stopping self) then
    _ <- create_task (co_tick None);;
    s <- sleep_begin;;
    let (aw, p) := s in
    ret (Yield aw (run_L189 p))
  else
    Event_set;;
    ret Done.

Definition run_begin : M (susp run_pc) := run_loop.

Definition run_resume (pc : run_pc) (inp : outcome) : M (susp run_pc) :=
  match pc with
  | run_L189 p => await_coro (sleep_resume p inp) run_L189 run_loop
  end.

(** ** Aiohttp hooks (lines 81-92) *)

Definition start_exporter_app_L87 : M (susp startup_pc) :=
  start;;
  ret Done.

Definition start_exporter_app_L86 : M (susp startup_pc) :=
  await_coro tick_begin startup_L86 start_exporter_app_L87.

Definition start_exporter_app_L84 : M (susp startup_pc) :=
  await_coro init_begin startup_L84 start_exporter_app_L86.

Definition start_exporter_app_begin : M (susp startup_pc) :=
  await aw_cache_async_session startup_L83.

Definition start_exporter_app_resume (pc : startup_pc) (inp : outcome)
  : M (susp startup_pc) :=
  match pc with
  | startup_L83 =>
      match inp with
      | Exc e => raise e
      | Ok _ => start_exporter_app_L84
      end
  | startup_L84 p => await_coro (init_resume p inp) startup_L84 start_exporter_app_L86
  | startup_L86 p => await_coro (tick_resume p inp) startup_L86 start_exporter_app_L87
  end.

Definition stop_exporter_app_begin : M (susp shutdown_pc) :=
  await_coro stop_begin shutdown_L92 (ret Done).

Definition stop_exporter_app_resume (pc : shutdown_pc) (inp : outcome)
  : M (susp shutdown_pc) :=
  match pc with
  | shutdown_L92 p => await_coro (stop_resume p inp) shutdown_L92 (ret Done)
  end.

(** ** The caller: a sequence of exporter operations

    The main task invokes the operations of its script one after the
    other, awaiting each to completion, as [await exporter.init()],
    [exporter.start()], ... would; an exception ends the script. *)

Definition op_begin (o : op) : M (susp op_pc) :=
  match o with
  | op_init => await_coro init_begin in_init (ret Done)
  | op_tick => await_coro tick_begin in_tick (ret Done)
  | op_start => start;; ret Done
  | op_stop => await_coro stop_begin in_stop (ret Done)
  | op_start_exporter_app =>
      await_coro start_exporter_app_begin in_start_exporter_app (ret Done)
  | op_stop_exporter_app =>
      await_coro stop_exporter_app_begin in_stop_exporter_app (ret Done)
  | op_wait => await aw_signal in_wait
  end.

Definition op_resume (pc : op_pc) (inp : outcome) : M (susp op_pc) :=
  match pc with
  | in_init p => await_coro (init_resume p inp) in_init (ret Done)
  | in_tick p => await_coro (tick_resume p inp) in_tick (ret Done)
  | in_stop p => await_coro (stop_resume p inp) in_stop (ret Done)
  | in_start_exporter_app p =>
      await_coro (start_exporter_app_resume p inp) in_start_exporter_app (ret Done)
  | in_stop_exporter_app p =>
      await_coro (stop_exporter_app_resume p inp) in_stop_exporter_app (ret Done)
  | in_wait => enter inp (ret Done)
  end.

Definition mark_done (o : op) : M unit :=
  modify (λ w, with_script (script_todo w) (script_done w ++ [o]) w).

Fixpoint main_run (todo : list op) : M (susp op_pc) :=
  match todo with
  | [] => ret Done
  | o :: rest =>
      modify (λ w, with_script rest (script_done w) w);;
      s <- op_begin o;;
      match s with
      | Done => mark_done o;; main_run rest
      | Yield aw p => ret (Yield aw p)
      end
  end.

Definition main_begin : M (susp op_pc) := λ w, main_run (script_todo w) w.

Definition main_resume (pc : op_pc) (inp : outcome) : M (susp op_pc) :=
  s <- op_resume pc inp;;
  match s with
  | Done => mark_done (op_of pc);; main_begin
  | Yield aw p => ret (Yield aw p)
  end.

(** ** The event loop *)

Definition lift_coro {PC : Type} (wrap : option PC → coro) (m : M (susp PC))
  : M (susp coro) :=
  s <- m;; ret (susp_map (λ p, wrap (Some p)) s).

Definition resume (c : coro) (inp : outcome) : M (susp coro) :=
  match c with
  | co_run None => lift_coro co_run (enter inp run_begin)
  | co_run (Some p) => lift_coro co_run (run_resume p inp)
  | co_tick None => lift_coro co_tick (enter inp tick_begin)
  | co_tick (Some p) => lift_coro co_tick (tick_resume p inp)
  | co_main None => lift_coro co_main (enter inp main_begin)
  | co_main (Some p) => lift_coro co_main (main_resume p inp)
  end.

Definition update_task (tid : task_id) (f : task → task) (w : world) : world :=
  match tasks w !! tid with
  | Some t => with_tasks (<[tid := f t]> (tasks w)) w
  | None => w
  end.

(** The task is done: its result is stored and its done callbacks are
    scheduled.  An exception stays in the task object; nothing else
    receives it. *)
Definition finish_task (tid : task_id) (r : res unit) (w : world) : world :=
  match tasks w !! tid with
  | Some t =>
      with_ready (ready w ++ map (λ cb, h_callback cb tid) (t_callbacks t))
        (with_tasks (<[tid := set_t_result r t]> (tasks w)) w)
  | None => w
  end.

(** The task awaits [aw].  [asyncio.sleep] with a delay [<= 0] only yields
    to the loop, which reschedules the task at once; anything else blocks
    the task on a pending future. *)
Definition suspend_task (tid : task_id) (aw : awaitable) (c : coro) (w : world) : world :=
  match aw with
  | aw_sleep d =>
      if Qle_bool d 0
      then with_ready (ready w ++ [h_step tid (Ok VNone)])
             (update_task tid (set_t_coro c) w)
      else update_task tid (λ t, set_t_waiting (Some aw) (set_t_coro c t)) w
  | _ => update_task tid (λ t, set_t_waiting (Some aw) (set_t_coro c t)) w
  end.

(** [Task.__step] *)
Definition task_step (tid : task_id) (inp : outcome) (w : world) : option world :=
  match tasks w !! tid with
  | None => None
  | Some t =>
    match t_result t with
    | Some _ => None
    | None =>
      let inp := if t_must_cancel t then Exc CancelledError else inp in
      let w := update_task tid (set_t_must_cancel false) w in
      match resume (t_coro t) inp w with
      | (Val (Yield aw c), w') => Some (suspend_task tid aw c w')
      | (Val Done, w') => Some (finish_task tid (Val tt) w')
      | (Err e, w') => Some (finish_task tid (Err e) w')
      end
    end
  end.

Definition run_callback (cb : callback) (tid : task_id) (w : world) : world :=
  match cb with
  | cb_on_runner_task_done => snd (on_runner_task_done w)
  end.

Definition run_handle (h : handle) (w : world) : option world :=
  match h with
  | h_step tid inp => task_step tid inp w
  | h_callback cb tid => Some (run_callback cb tid w)
  end.

(** What the environment may answer to an await on the chain client or
    the HTTP session. *)
Definition answers (aw : awaitable) (o : outcome) : bool :=
  match aw, o with
  | aw_cache_async_session, Ok VNone => true
  | aw_chain_id, Ok (VInt _) => true
  | aw_chain_id, Exc (ClientError _) => true
  | aw_call _ _, Ok (VCheckpoint _ _) => true
  | aw_call _ _, Exc (ClientError _) => true
  | aw_call _ _, Exc (ContractLogicError _) => true
  | aw_session_close, Ok VNone => true
  | aw_signal, Ok VNone => true
  | _, _ => false
  end.

Definition is_sleep (aw : awaitable) : bool :=
  match aw with
  | aw_sleep _ => true
  | _ => false
  end.

(** Transitions: the loop runs the next ready handle; the environment
    completes a pending call of a task; a timer expires. *)
Inductive event : Type :=
| run_next
| complete (tid : task_id) (o : outcome)
| timer (tid : task_id).

Definition wake (tid : task_id) (o : outcome) (w : world) : world :=
  with_ready (ready w ++ [h_step tid o]) (update_task tid (set_t_waiting None) w).

Definition exec1 (e : event) (w : world) : option world :=
  match e with
  | run_next =>
      match ready w with
      | [] => None
      | h :: rest => run_handle h (with_ready rest w)
      end
  | complete tid o =>
      match tasks w !! tid with
      | Some t =>
          match t_waiting t with
          | Some aw => if answers aw o then Some (wake tid o w) else None
          | None => None
          end
      | None => None
      end
  | timer tid =>
      match tasks w !! tid with
      | Some t =>
          match t_waiting t with
          | Some aw => if is_sleep aw then Some (wake tid (Ok VNone) w) else None
          | None => None
          end
      | None => None
      end
  end.

Fixpoint exec (evs : list event) (w : world) : option world :=
  match evs with
  | [] => Some w
  | e :: rest =>
      match exec1 e w with
      | Some w' => exec rest w'
      | None => None
      end
  end.

Definition main_tid : task_id := 0.

(** The process at start: a fresh exporter, an empty gauge, and the main
    task about to run its script. *)
Definition initial_world (rpc : string) (interval : Z) (script : list op) : world :=
  {| exporter := new_exporter rpc interval;
     hyperlane_contract_latest_checkpoint := ∅;
     tasks := [new_task (co_main None)];
     ready := [h_step main_tid (Ok VNone)];
     script_todo := script;
     script_done := [];
     trace := [] |}.

Inductive reachable : world → Prop :=
| reachable_initial rpc interval script :
    reachable (initial_world rpc interval script)
| reachable_step w e w' :
    reachable w → exec1 e w = Some w' → reachable w'.

(** * Vocabulary of the properties *)

Local Open Scope nat_scope.

(** ** Network registry *)

Definition fixed_address (n : SupportedNetworks) : string :=
  match n with
  | MAINNET => "0x48e6c30B97748d1e2e03bf3e9FbE3890ca5f8CCA"
  | HOLESKY => "0x98AAE089CaD930C64a76dD2247a2aC5773a4B8cE"
  end.

(** ** [init] *)

Definition task_result (w : world) (tid : task_id) : option (res unit) :=
  match tasks w !! tid with
  | Some t => t_result t
  | None => None
  end.

Definition log (msg : string) (args : list pyvalue) (w : world) : world :=
  with_trace (trace w ++ [ef_log msg args]) w.

(** The names of the exporter's attributes; [only_assigns name w w']:
    everything but the attribute [name] and the trace is the same in
    [w'] as in [w]. *)
Inductive attribute : Type :=
| a_rpc_address | a_interval_ms | a_stopping | a_stopped
| a_network | a_contract | a_runner_task.

Definition only_assigns (name : attribute) (w w' : world) : Prop :=
  (name ≠ a_rpc_address → rpc_address (exporter w') = rpc_address (exporter w))
  ∧ (name ≠ a_interval_ms → interval_ms (exporter w') = interval_ms (exporter w))
  ∧ (name ≠ a_stopping → stopping (exporter w') = stopping (exporter w))
  ∧ (name ≠ a_stopped → stopped (exporter w') = stopped (exporter w))
  ∧ (name ≠ a_network → network (exporter w') = network (exporter w))
  ∧ (name ≠ a_contract → contract (exporter w') = contract (exporter w))
  ∧ (name ≠ a_runner_task → _runner_task (exporter w') = _runner_task (exporter w))
  ∧ hyperlane_contract_latest_checkpoint w' = hyperlane_contract_latest_checkpoint w
  ∧ tasks w' = tasks w ∧ ready w' = ready w
  ∧ script_todo w' = script_todo w ∧ script_done w' = script_done w.

(** The message [init] logs when it resolves a network. *)
Definition discovered (n : SupportedNetworks) : string :=
  match n with
  | MAINNET => "Discovered Ethereum network as MAINNET"
  | HOLESKY => "Discovered Ethereum network as HOLESKY"
  end.

Definition is_discovered (msg : string) : bool :=
  String.eqb msg (discovered MAINNET) || String.eqb msg (discovered HOLESKY).

Definition is_call (aw : awaitable) : bool :=
  match aw with
  | aw_call _ _ => true
  | _ => false
  end.

(** ** The poll loop *)

(** The largest float is [2^1024 - 2^971]; a quotient rounds to a float
    as long as it is below [2^1024 - 2^970], so [interval_ms / 1000]
    overflows from this magnitude of [interval_ms] on. *)
Definition float_overflow_ms : Z := (1000 * (2 ^ 1024 - 2 ^ 970))%Z.

Definition delay_fits (w : world) : Prop :=
  (Z.abs (interval_ms (exporter w)) < float_overflow_ms)%Z.

(** [self.interval_ms / 1000] (line 166) rounded to a float, in seconds:
    the delay passed to [asyncio.sleep] when the division does not
    raise. *)
Definition poll_delay (w : world) : Q :=
  float_value (nearest_float (interval_ms (exporter w)) 1000).

(** The caller has called [start] and idles; the task of [run] is next
    in the ready queue, its coroutine not yet started. *)
Definition loop_entry_world : world :=
  default (initial_world "rpc" 30000 [])
    (exec [run_next] (initial_world "rpc" 30000 [op_start; op_wait])).

(** The same with [interval_ms = 10 ** 400], which [argparse] accepts
    ([type=int]) and a float cannot hold, in seconds or otherwise. *)
Definition loop_overflow_world : world :=
  default (initial_world "rpc" (10 ^ 400) [])
    (exec [run_next] (initial_world "rpc" (10 ^ 400) [op_start; op_wait])).

(** A caller that called [start] twice and then [stop]: the second loop
    task has been cancelled and is done, the first one has slept its
    interval and is the next to run, with [stopping] set. *)
Definition loop_stopping_world : world :=
  default (initial_world "rpc" 30000 [])
    (exec [ run_next;                      (* start(); start(); the caller idles *)
            run_next; run_next;            (* both loops spawn a tick and sleep *)
            run_next; run_next;            (* the two ticks *)
            complete main_tid (Ok VNone);
            run_next;                      (* stop(): cancels the second loop *)
            timer 1;                       (* the first loop's sleep is over *)
            run_next ]                     (* the second loop: CancelledError *)
       (initial_world "rpc" 30000 [op_start; op_start; op_wait; op_stop])).

Definition division_overflow : exn :=
  OverflowError "integer division result too large for a float".

(** ** [tick] *)

Definition contract_of (n : SupportedNetworks) : AsyncContract :=
  {| address := fixed_address n; contract_abi := MerkleTreeHook_json |}.

Definition latestCheckpoint_call (c : AsyncContract) : awaitable :=
  aw_call c "latestCheckpoint".

(** The Metric Store writes recorded in a trace. *)
Definition gauge_sets (tr : list effect) : list (string * Z) :=
  omap (λ e, match e with ef_gauge_set l v => Some (l, v) | _ => None end) tr.

(** ** Predicates preserved by every coroutine *)

Definition preserves {A : Type} (P : world → Prop) (m : M A) : Prop :=
  ∀ w, P w → P (snd (m w)).

Definition unstarted (c : coro) : Prop := c = co_run None ∨ c = co_tick None.

(** A predicate on worlds that survives each primitive mutation the
    exporter's code can perform, whatever its arguments. *)
Record robust (P : world → Prop) : Prop := {
  rb_log : ∀ w msg args, is_discovered msg = false → P w → P (log msg args w);
  rb_await : ∀ w aw,
    is_call aw = false → P w → P (with_trace (trace w ++ [ef_await aw]) w);
  rb_call : ∀ w c,
    contract (exporter w) = Some c →
    P w → P (with_trace (trace w ++ [ef_await (latestCheckpoint_call c)]) w);
  rb_set : ∀ w n v,
    network (exporter w) = Some n →
    P w → P (snd (gauge_labels_set (str n) v w));
  rb_init : ∀ w n,
    P w → P (with_exporter (set_network n) (log (discovered n) [] w));
  rb_stopping : ∀ w, P w → P (with_exporter (set_stopping true) w);
  rb_contract : ∀ w n c,
    network (exporter w) = Some n → contract (exporter w) = None →
    get_hyperlane_merkle_tree_hook_contract n = Val c →
    P w → P (with_exporter (set_contract c) w);
  rb_runner : ∀ w t, P w → P (with_exporter (set_runner_task t) w);
  rb_create : ∀ w c, unstarted c → P w → P (snd (create_task c w));
  rb_cancel : ∀ w t, P w → P (snd (task_cancel t w));
  rb_callback : ∀ w t cb, P w → P (snd (add_done_callback t cb w));
  rb_event : ∀ w, P w → P (snd (Event_set w))
}.

(** The caller's bookkeeping of its script. *)
Record script_robust (P : world → Prop) : Prop := {
  rb_script : ∀ w todo done, P w → P (with_script todo done w)
}.

(** ** Handles and blocked tasks *)

Definition is_step_for (tid : task_id) (h : handle) : bool :=
  match h with
  | h_step t _ => Nat.eqb t tid
  | h_callback _ _ => false
  end.

(** Number of scheduled steps of task [tid] in a queue. *)
Definition steps_of (tid : task_id) (hs : list handle) : nat :=
  length (List.filter (is_step_for tid) hs).

(** 1 if task [tid] is blocked on a pending future, else 0. *)
Definition blocked (ts : list task) (tid : task_id) : nat :=
  match ts !! tid with
  | Some t => match t_waiting t with Some _ => 1 | None => 0 end
  | None => 0
  end.

Arguments steps_of : simpl never.
Arguments blocked : simpl never.

(** ** What the primitives do to the loop state *)

(** Two task records that differ at most in [_must_cancel] and in their
    callbacks. *)
Definition same_task (x x' : task) : Prop :=
  t_coro x' = t_coro x ∧ t_result x' = t_result x ∧ t_waiting x' = t_waiting x.

(** The world is unchanged apart from its trace. *)
Definition same_state (w w' : world) : Prop :=
  exporter w' = exporter w
  ∧ hyperlane_contract_latest_checkpoint w' = hyperlane_contract_latest_checkpoint w
  ∧ script_todo w' = script_todo w ∧ script_done w' = script_done w.

(** ** Facts about the exporter that only become true *)

Record ext (e e' : HyperlaneContractExporter) : Prop := {
  ext_stopping : stopping e = true → stopping e' = true;
  ext_stopped : stopped e = true → stopped e' = true;
  ext_network : is_Some (network e) → is_Some (network e');
  ext_runner : is_Some (_runner_task e) → is_Some (_runner_task e')
}.

Definition extends (e0 : HyperlaneContractExporter) (w : world) : Prop :=
  ext e0 (exporter w).

(** ** One wake-up per task *)

(** A task that is not done is either blocked on a pending future or has
    one step scheduled, never both and never two steps; no handle refers
    to a task that does not exist yet. *)
Definition unique_steps (w : world) : Prop :=
  (∀ tid, steps_of tid (ready w) + blocked (tasks w) tid ≤ 1)
  ∧ (∀ tid, (length (tasks w) ≤ tid)%nat → steps_of tid (ready w) = 0).

(** Task [tid] is the one being run: it is neither queued nor blocked. *)
Definition running (tid : task_id) (w : world) : Prop :=
  tid < length (tasks w)
  ∧ steps_of tid (ready w) = 0
  ∧ blocked (tasks w) tid = 0.

(** ** What each suspended coroutine may rely on *)

(** The coroutine is suspended at [await self.stopped.wait()]. *)
Definition waits_for_stopped (c : coro) : bool :=
  match c with
  | co_main (Some (in_stop stop_L161)) => true
  | co_main (Some (in_stop_exporter_app (shutdown_L92 stop_L161))) => true
  | _ => false
  end.

Definition stop_ok (q : stop_pc) (e : HyperlaneContractExporter) : Prop :=
  stopping e = true
  ∧ is_Some (_runner_task e)
  ∧ (q = stop_L162 → stopped e = true).

(** Facts that hold while a coroutine is suspended at a given point: a
    tick past line 181 has a network; a stop past line 159 has set
    [stopping] and has a runner task, and past line 161 the event is set. *)
Definition local_ok (c : coro) (e : HyperlaneContractExporter) : Prop :=
  match c with
  | co_tick (Some _) => is_Some (network e)
  | co_main (Some (in_tick _)) => is_Some (network e)
  | co_main (Some (in_start_exporter_app (startup_L86 _))) => is_Some (network e)
  | co_main (Some (in_stop q)) => stop_ok q e
  | co_main (Some (in_stop_exporter_app (shutdown_L92 q))) => stop_ok q e
  | _ => True
  end.

Definition consistent (aw : awaitable) (c : coro) : Prop :=
  waits_for_stopped c = true → aw = aw_event_wait.

(** A wake-up with a value addressed to a coroutine that waits for the
    event exists only once the event is set. *)
Definition wakeups_ok (w : world) : Prop :=
  ∀ tid v t,
    In (h_step tid (Ok v)) (ready w) → tasks w !! tid = Some t →
    t_result t = None → waits_for_stopped (t_coro t) = true →
    stopped (exporter w) = true.

Definition tasks_ok (w : world) : Prop :=
  ∀ tid t,
    tasks w !! tid = Some t → t_result t = None →
    local_ok (t_coro t) (exporter w)
    ∧ ∀ aw, t_waiting t = Some aw → consistent aw (t_coro t).

(** The cached contract was computed from a resolved network. *)
Definition cache_ok (w : world) : Prop :=
  is_Some (contract (exporter w)) → is_Some (network (exporter w)).

Definition stop_enter (w : world) : world :=
  with_exporter (set_stopping true)
    (log "Gracefully shutting down application" [] w).

(** ** What a step of the caller establishes *)

Definition op_done_ok (o : op) (e : HyperlaneContractExporter) : Prop :=
  match o with
  | op_stop | op_stop_exporter_app => stopping e = true ∧ stopped e = true
  | op_start | op_start_exporter_app => is_Some (_runner_task e)
  | _ => True
  end.

Definition op_post (o : op) (r : res (susp op_pc)) (w' : world) : Prop :=
  match r with
  | Val Done => op_done_ok o (exporter w')
  | Val (Yield aw p) =>
      local_ok (co_main (Some p)) (exporter w')
      ∧ consistent aw (co_main (Some p))
      ∧ op_of p = o
  | Err _ => True
  end.

(** ** The caller's script *)

Definition stop_done (done : list op) : Prop :=
  In op_stop done ∨ In op_stop_exporter_app done.

Definition start_done (done : list op) : Prop :=
  In op_start done ∨ In op_start_exporter_app done.

(** Once a [stop] has returned, [stopping] and [stopped] are set; once a
    [start] has returned, there is a runner task. *)
Definition script_ok (w : world) : Prop :=
  (stop_done (script_done w) →
   stopping (exporter w) = true ∧ stopped (exporter w) = true)
  ∧ (start_done (script_done w) → is_Some (_runner_task (exporter w))).

Definition script_is (todo done : list op) (w : world) : Prop :=
  script_todo w = todo ∧ script_done w = done.

Definition main_post (r : res (susp op_pc)) (w' : world) : Prop :=
  script_ok w'
  ∧ match r with
    | Val (Yield aw p) =>
        local_ok (co_main (Some p)) (exporter w')
        ∧ consistent aw (co_main (Some p))
    | _ => True
    end.

(** The coroutine families: a task never changes family. *)
Inductive kind : Type := k_run | k_tick | k_main.

Definition kind_of (c : coro) : kind :=
  match c with
  | co_run _ => k_run
  | co_tick _ => k_tick
  | co_main _ => k_main
  end.

(** ** The invariant of the event loop *)

Definition loop_ok (w : world) : Prop :=
  unique_steps w ∧ wakeups_ok w ∧ tasks_ok w ∧ cache_ok w.

(** Bookkeeping of the loop leaves everything but tasks and queue alone. *)
Definition same_program (w w' : world) : Prop :=
  exporter w' = exporter w
  ∧ hyperlane_contract_latest_checkpoint w' = hyperlane_contract_latest_checkpoint w
  ∧ trace w' = trace w
  ∧ script_todo w' = script_todo w ∧ script_done w' = script_done w.

Definition Inv (w : world) : Prop := loop_ok w ∧ script_ok w.

(** A run of [start(); ...; await stop()]: the loop task is cancelled in
    its sleep, its done callback sets the event, [stop] closes the
    session and returns. *)
Definition run_start_stop : list event :=
  [ run_next;                          (* caller: start(), then idles *)
    run_next;                          (* run(): spawns tick 2, sleeps *)
    run_next;                          (* tick 2: no network, fails *)
    complete main_tid (Ok VNone);
    run_next;                          (* caller: stop() cancels, waits *)
    run_next;                          (* run(): CancelledError *)
    run_next;                          (* on_runner_task_done *)
    run_next;                          (* caller: session.close() *)
    complete main_tid (Ok VNone);
    run_next ].                        (* caller: stop() returns *)

Definition after_start_stop : world :=
  default (initial_world "rpc" 30000 [])
    (exec run_start_stop (initial_world "rpc" 30000 [op_start; op_wait; op_stop])).

(** ** [tick] writes once or not at all *)

(** The coroutine is suspended at the [await] of line 181. *)
Definition at_tick_call (c : coro) : bool :=
  match c with
  | co_tick (Some _) => true
  | co_main (Some (in_tick _)) => true
  | co_main (Some (in_start_exporter_app (startup_L86 _))) => true
  | _ => false
  end.

Definition resolved_mainnet : world :=
  with_exporter (set_network MAINNET) (initial_world "rpc" 30000 []).

(** A poll loop in steady state whose tick just had its call fail. *)
Definition steady_failing : world :=
  default (initial_world "rpc" 30000 [])
    (exec [ run_next; complete main_tid (Ok VNone);
            run_next; complete main_tid (Ok (VInt 1));
            run_next; complete main_tid (Ok (VCheckpoint [] 100));
            run_next;                       (* start(); the caller idles *)
            run_next;                       (* run(): spawns tick 2, sleeps *)
            run_next;                       (* tick 2 awaits the call *)
            complete 2 (Exc (ClientError "timeout")) ]
       (initial_world "rpc" 30000 [op_start_exporter_app; op_wait])).

(** ** Server startup *)

Definition chain_id_of (n : SupportedNetworks) : Z :=
  match n with
  | MAINNET => 1
  | HOLESKY => 17000
  end.

Definition startup_world (rpc : string) (interval : Z) : world :=
  initial_world rpc interval [op_start_exporter_app].

(** ** After [stop] *)

(** A tick task that is not done. *)
Definition is_live_tick (t : task) : bool :=
  match kind_of (t_coro t), t_result t with
  | k_tick, None => true
  | _, _ => false
  end.

Definition b2n (b : bool) : nat := if b then 1 else 0.

Definition live_ticks (ts : list task) : nat :=
  sum_list (map (λ t, b2n (is_live_tick t)) ts).

Arguments live_ticks : simpl never.

(** The tasks of [ts'] are those of [ts], each still of the same family
    and still done if it was done. *)
Definition evolves (ts ts' : list task) : Prop :=
  length ts' = length ts
  ∧ ∀ tid t', ts' !! tid = Some t' →
      ∃ t, ts !! tid = Some t
           ∧ kind_of (t_coro t') = kind_of (t_coro t)
           ∧ (t_result t ≠ None → t_result t' ≠ None).

(** Every task of the caller's family is done. *)
Definition main_finished (ts : list task) : Prop :=
  ∀ tid t, ts !! tid = Some t → kind_of (t_coro t) = k_main → t_result t ≠ None.

Definition is_create_task (e : effect) : bool :=
  match e with
  | ef_create_task _ _ => true
  | _ => false
  end.

(** No task is created in this stretch of trace. *)
Definition no_spawn (tr : list effect) : Prop :=
  Forall (λ e, is_create_task e = false) tr.

(** What one transition may do once [stopping] is set and the caller is
    done: no task appears, and each gauge write uses up a live tick. *)
Definition quiet_step (w w' : world) : Prop :=
  stopping (exporter w') = true
  ∧ evolves (tasks w) (tasks w')
  ∧ ∃ extra, trace w' = trace w ++ extra
      ∧ no_spawn extra
      ∧ length (gauge_sets extra) + live_ticks (tasks w') ≤ live_ticks (tasks w).

(** The server's life: startup, one poll iteration whose tick is still
    waiting for the chain when the server shuts down. *)
Definition serve_and_shutdown : list event :=
  [ run_next; complete main_tid (Ok VNone);                (* cache_async_session *)
    run_next; complete main_tid (Ok (VInt 1));             (* init: mainnet *)
    run_next; complete main_tid (Ok (VCheckpoint [] 100)); (* first tick *)
    run_next;                          (* gauge set; start(); the server serves *)
    run_next;                          (* run(): spawns tick 2, sleeps *)
    run_next;                          (* tick 2 awaits latestCheckpoint() *)
    complete main_tid (Ok VNone);      (* shutdown requested *)
    run_next;                          (* stop(): cancels the loop, waits *)
    run_next;                          (* run(): CancelledError in sleep *)
    run_next;                          (* on_runner_task_done sets the event *)
    run_next;                          (* stop(): awaits session.close() *)
    complete main_tid (Ok VNone);
    run_next ].                        (* stop() returns *)

Definition server_script : list op :=
  [op_start_exporter_app; op_wait; op_stop_exporter_app].

Definition after_shutdown : world :=
  default (initial_world "rpc" 30000 [])
    (exec serve_and_shutdown (initial_world "rpc" 30000 server_script)).

(** ** The resolved network and the labels written *)

(** Predicates about the program state only (exporter, gauge, trace,
    script), which the loop's bookkeeping cannot affect. *)
Definition program_pred (P : world → Prop) : Prop :=
  ∀ w w', same_program w w' → P w → P w'.

(** The trace only grows. *)
Definition trace_from (tr0 : list effect) (w : world) : Prop :=
  ∃ extra, trace w = tr0 ++ extra.

(** The networks resolved by the successful [init()] calls so far, read
    off the messages [init] logs. *)
Definition resolution (e : effect) : option SupportedNetworks :=
  match e with
  | ef_log msg _ =>
      if String.eqb msg (discovered MAINNET) then Some MAINNET
      else if String.eqb msg (discovered HOLESKY) then Some HOLESKY
      else None
  | _ => None
  end.

Definition resolutions (tr : list effect) : list SupportedNetworks :=
  omap resolution tr.

(** The contracts on which [latestCheckpoint()] was called. *)
Definition calls (tr : list effect) : list AsyncContract :=
  omap (λ e, match e with ef_await (aw_call c _) => Some c | _ => None end) tr.

Arguments resolutions : simpl never.
Arguments resolution : simpl never.

(** The network attribute is the one of the last successful [init]. *)
Definition last_resolved (w : world) : Prop :=
  network (exporter w) = last (resolutions (trace w)).

(** With no successful [init] yet nothing is cached, called or written;
    with exactly one, which resolved [n], the network is [n], the cached
    contract (if any) is the one of [n], every gauge write has the label
    of [n] and every call went to the contract of [n]. *)
Definition labelled (w : world) : Prop :=
  match resolutions (trace w) with
  | [] =>
      network (exporter w) = None ∧ contract (exporter w) = None
      ∧ gauge_sets (trace w) = [] ∧ calls (trace w) = []
  | [n] =>
      network (exporter w) = Some n
      ∧ (contract (exporter w) = None ∨ contract (exporter w) = Some (contract_of n))
      ∧ Forall (λ lv, lv.1 = str n) (gauge_sets (trace w))
      ∧ Forall (λ c, c = contract_of n) (calls (trace w))
  | _ => True
  end.

(** A caller that calls [init] again after a tick, on an endpoint that
    now reports another chain. *)
Definition reinit_script : list op := [op_init; op_tick; op_init; op_tick].

Definition resolved_once : world :=
  default (initial_world "rpc" 30000 [])
    (exec [ run_next; complete main_tid (Ok (VInt 1));
            run_next; complete main_tid (Ok (VCheckpoint [] 100));
            run_next ]
       (initial_world "rpc" 30000 reinit_script)).

(** * Vocabulary of the further properties *)

(** ** Attributes, gauge and trace along an execution *)

(** A property of the exporter's attributes, the gauge and the trace. *)
Definition on_state
    (F : HyperlaneContractExporter → gmap string Z → list effect → Prop)
    (w : world) : Prop :=
  F (exporter w) (hyperlane_contract_latest_checkpoint w) (trace w).

(** What the code can do to attributes, gauge and trace, one primitive at
    a time. *)
Record state_closed
    (F : HyperlaneContractExporter → gmap string Z → list effect → Prop) : Prop := {
  sc_log : ∀ e g tr msg args,
    is_discovered msg = false → F e g tr → F e g (tr ++ [ef_log msg args]);
  sc_await : ∀ e g tr aw,
    is_call aw = false → F e g tr → F e g (tr ++ [ef_await aw]);
  sc_call : ∀ e g tr c,
    contract e = Some c → F e g tr →
    F e g (tr ++ [ef_await (latestCheckpoint_call c)]);
  sc_set : ∀ e g tr n v,
    network e = Some n → F e g tr →
    F e (<[str n := v]> g) (tr ++ [ef_gauge_set (str n) v]);
  sc_init : ∀ e g tr n,
    F e g tr → F (set_network n e) g (tr ++ [ef_log (discovered n) []]);
  sc_stopping : ∀ e g tr, F e g tr → F (set_stopping true e) g tr;
  sc_contract : ∀ e g tr n,
    network e = Some n → contract e = None →
    F e g tr → F (set_contract (contract_of n) e) g tr;
  sc_runner : ∀ e g tr t, F e g tr → F (set_runner_task t e) g tr;
  sc_create : ∀ e g tr tid c,
    unstarted c → F e g tr → F e g (tr ++ [ef_create_task tid c]);
  sc_cancel : ∀ e g tr t, F e g tr → F e g (tr ++ [ef_cancel t]);
  sc_stopped : ∀ e g tr, F e g tr → F (set_stopped true e) g tr
}.

(** The gauge as the writes recorded in a trace leave it. *)
Definition replay (sets : list (string * Z)) : gmap string Z :=
  foldl (λ g lv, <[lv.1 := lv.2]> g) ∅ sets.

(** The gauge is what the recorded writes leave, and every write carries
    the label of a network. *)
Definition gauge_is_replay : HyperlaneContractExporter → gmap string Z → list effect → Prop :=
  λ _ g tr, g = replay (gauge_sets tr)
            ∧ Forall (λ lv, ∃ n, lv.1 = str n) (gauge_sets tr).

(** The exporter's attributes [e], later in the same execution, seen from
    [e0]. *)
Definition later_than (e0 : HyperlaneContractExporter)
  : HyperlaneContractExporter → gmap string Z → list effect → Prop :=
  λ e _ _,
    rpc_address e = rpc_address e0
    ∧ interval_ms e = interval_ms e0
    ∧ (stopping e0 = true → stopping e = true)
    ∧ (stopped e0 = true → stopped e = true)
    ∧ (is_Some (network e0) → is_Some (network e))
    ∧ (is_Some (_runner_task e0) → is_Some (_runner_task e))
    ∧ (∀ c, contract e0 = Some c → contract e = Some c).

(** Every call so far went to the cached contract, which is the contract
    of a network that [init] resolved. *)
Definition one_contract : HyperlaneContractExporter → gmap string Z → list effect → Prop :=
  λ e _ tr,
    network e = last (resolutions tr)
    ∧ match contract e with
      | None => calls tr = []
      | Some c =>
          Forall (λ c', c' = c) (calls tr)
          ∧ ∃ n, c = contract_of n ∧ In n (resolutions tr)
      end.

(** The values written under a label, in order. *)
Definition written (l : string) (sets : list (string * Z)) : list Z :=
  omap (λ lv : string * Z, if String.eqb lv.1 l then Some lv.2 else None) sets.

(** The caller is suspended in [await self.session.close()]. *)
Definition closing_session (c : coro) : bool :=
  match c with
  | co_main (Some (in_stop stop_L162)) => true
  | co_main (Some (in_stop_exporter_app (shutdown_L92 stop_L162))) => true
  | _ => false
  end.

(** The server during its shutdown: [stop] awaits [session.close()],
    every attribute of the exporter is assigned, and the tick spawned by
    the loop still waits for the chain.  Then the chain replies to that
    tick, the tick publishes, the session closes and [stop] returns. *)
Definition server_closing : world :=
  default (initial_world "rpc" 30000 [])
    (exec (take 14 serve_and_shutdown) (initial_world "rpc" 30000 server_script)).

Definition late_reply : list event :=
  [ complete 2 (Ok (VCheckpoint [] 200));
    run_next;                          (* the tick logs and sets the gauge *)
    complete main_tid (Ok VNone);      (* session.close() is done *)
    run_next ].                        (* stop() returns *)

(** [stop] has been woken by the event and awaits [session.close()]. *)
Definition session_closing : world :=
  default (initial_world "rpc" 30000 [])
    (exec (take 8 run_start_stop)
       (initial_world "rpc" 30000 [op_start; op_wait; op_stop])).

(** ** The loop task without a delay, and under cancellation *)

(** The loop task is at the head of an iteration: at its entry or at the
    return of its sleep. *)
Definition at_loop_head (c : coro) : Prop :=
  c = co_run None ∨ c = co_run (Some (run_L189 sleep_L166)).

(** Only the loop task is ready, at the head of an iteration, and the
    interval is not positive, yet not so large a negative number that
    dividing it by 1000 overflows. *)
Definition spinning (tid : task_id) (w : world) : Prop :=
  ∃ v t,
    ready w = [h_step tid (Ok v)]
    ∧ tasks w !! tid = Some t ∧ t_result t = None ∧ t_must_cancel t = false
    ∧ at_loop_head (t_coro t)
    ∧ stopping (exporter w) = false
    ∧ (- float_overflow_ms < interval_ms (exporter w) ≤ 0)%Z.

(** An exporter built with [interval_ms = 0]: the caller has called
    [start] and idles. *)
Definition spinning_world : world :=
  default (initial_world "rpc" 0 [])
    (exec [run_next] (initial_world "rpc" 0 [op_start; op_wait])).

(** [stop] has cancelled the loop task in its sleep and waits for the
    event. *)
Definition stop_waiting : world :=
  default (initial_world "rpc" 30000 [])
    (exec (take 5 run_start_stop)
       (initial_world "rpc" 30000 [op_start; op_wait; op_stop])).

(** ** What every suspended coroutine waits for *)

(** The awaitable a coroutine suspended at a program point is waiting
    for. *)
Definition awaits (c : coro) (aw : awaitable) : Prop :=
  match c with
  | co_run (Some _) => is_sleep aw = true
  | co_tick (Some _) => is_call aw = true
  | co_main (Some p) =>
      match p with
      | in_init _ => aw = aw_chain_id
      | in_tick _ => is_call aw = true
      | in_stop stop_L161 => aw = aw_event_wait
      | in_stop stop_L162 => aw = aw_session_close
      | in_start_exporter_app startup_L83 => aw = aw_cache_async_session
      | in_start_exporter_app (startup_L84 _) => aw = aw_chain_id
      | in_start_exporter_app (startup_L86 _) => is_call aw = true
      | in_stop_exporter_app (shutdown_L92 stop_L161) => aw = aw_event_wait
      | in_stop_exporter_app (shutdown_L92 stop_L162) => aw = aw_session_close
      | in_wait => aw = aw_signal
      end
  | _ => False
  end.

(** What holds when a coroutine suspends at [c] on [aw], leaving the
    world [w]: [stopped.wait()] is awaited only while the event is not
    set, and the loop sleeps only while [stopping] is not set. *)
Definition suspended_ok (c : coro) (aw : awaitable) (w : world) : Prop :=
  awaits c aw
  ∧ (aw = aw_event_wait → stopped (exporter w) = false)
  ∧ (is_sleep aw = true → stopping (exporter w) = false ∧ aw = aw_sleep (poll_delay w)).

(** Every suspension of the code [m] satisfies [A]. *)
Definition yields {PC : Type} (A : PC → awaitable → world → Prop) (m : M (susp PC)) : Prop :=
  ∀ w, match m w with
       | (Val (Yield aw p), w') => A p aw w'
       | _ => True
       end.

(** What [init], [tick], [stop], the startup hook and the caller's
    operations are suspended on, by program point. *)
Definition A_init : init_pc → awaitable → world → Prop :=
  λ _ aw _, aw = aw_chain_id.

Definition A_tick : tick_pc → awaitable → world → Prop :=
  λ _ aw _, is_call aw = true.

Definition A_stop : stop_pc → awaitable → world → Prop :=
  λ q aw w,
    match q with
    | stop_L161 => aw = aw_event_wait ∧ stopped (exporter w) = false
    | stop_L162 => aw = aw_session_close
    end.

Definition A_startup : startup_pc → awaitable → world → Prop :=
  λ p aw w, suspended_ok (co_main (Some (in_start_exporter_app p))) aw w.

Definition A_op : op_pc → awaitable → world → Prop :=
  λ p aw w, suspended_ok (co_main (Some p)) aw w.

(** ** Code between two awaits, as the event loop sees it *)

(** The tasks, the ready queue and the attributes the loop depends on
    are the same. *)
Definition same_loop (w w' : world) : Prop :=
  tasks w' = tasks w ∧ ready w' = ready w
  ∧ stopping (exporter w') = stopping (exporter w)
  ∧ stopped (exporter w') = stopped (exporter w)
  ∧ _runner_task (exporter w') = _runner_task (exporter w)
  ∧ interval_ms (exporter w') = interval_ms (exporter w).

(** A predicate kept by everything the caller's code and [tick] do to
    the loop between two awaits: nothing, [start()], and the first lines
    of [stop()]. *)
Record block_closed (P : world → Prop) : Prop := {
  bc_neutral : ∀ w w', same_loop w w' → P w → P w';
  bc_start : ∀ w, P w → P (snd (start w));
  bc_stop : ∀ w t,
    _runner_task (exporter w) = Some t → P w → P (snd (task_cancel t (stop_enter w)));
  bc_stop_unstarted : ∀ w,
    _runner_task (exporter w) = None → P w → P (stop_enter w)
}.

(** ** Every live task has exactly one wake-up *)

(** 1 if the task is blocked on a pending future, else 0. *)
Definition waiting_n (t : task) : nat :=
  match t_waiting t with Some _ => 1 | None => 0 end.

(** The number of wake-ups (scheduled steps, pending futures) task [tid]
    must have: none while it is the task being run ([cur]), one
    otherwise. *)
Definition due (cur : option task_id) (tid : task_id) : nat :=
  match cur with
  | Some c => if Nat.eqb c tid then 0 else 1
  | None => 1
  end.

(** What the loop keeps true of each task.  [cur] is the task being
    run, if any. *)
Record task_ok (w : world) (cur : option task_id) (tid : task_id) (t : task) : Prop := {
  to_wakeup :
    match t_result t with
    | None => steps_of tid (ready w) + waiting_n t = due cur tid
    | Some _ => steps_of tid (ready w) = 0 ∧ t_waiting t = None
    end;
  to_current : cur = Some tid → t_result t = None;
  to_callbacks :
    kind_of (t_coro t) = k_run → t_result t = None →
    In cb_on_runner_task_done (t_callbacks t);
  to_event : t_waiting t = Some aw_event_wait → stopped (exporter w) = false;
  to_awaits : ∀ aw, t_waiting t = Some aw → awaits (t_coro t) aw;
  to_cancelled :
    stopping (exporter w) = true → _runner_task (exporter w) = Some tid →
    t_waiting t = None;
  to_must_cancel : t_must_cancel t = true → kind_of (t_coro t) = k_run;
  to_main : kind_of (t_coro t) = k_main → tid = main_tid
}.

Record K_core (cur : option task_id) (w : world) : Prop := {
  k_tasks : ∀ tid t, tasks w !! tid = Some t → task_ok w cur tid t;
  k_fresh : ∀ tid, length (tasks w) ≤ tid → steps_of tid (ready w) = 0;
  k_runner : ∀ r, _runner_task (exporter w) = Some r →
    ∃ t, tasks w !! r = Some t ∧ kind_of (t_coro t) = k_run;
  k_current : ∀ c, cur = Some c → c < length (tasks w)
}.

(** A loop task that is done has had its done callback run, or the
    callback is scheduled. *)
Definition callbacks_pending (w : world) : Prop :=
  ∀ tid t, tasks w !! tid = Some t → kind_of (t_coro t) = k_run →
    is_Some (t_result t) →
    stopped (exporter w) = true
    ∨ In (h_callback cb_on_runner_task_done tid) (ready w).

(** The invariant between two turns of the event loop. *)
Definition K (w : world) : Prop := K_core None w ∧ callbacks_pending w.

(** The invariant while task [tid] is being run. *)
Definition K_running (tid : task_id) (w : world) : Prop :=
  K_core (Some tid) w ∧ callbacks_pending w.

(** Task [tid] belongs to the coroutine family [κ]. *)
Definition has_kind (tid : task_id) (κ : kind) (w : world) : Prop :=
  ∃ t, tasks w !! tid = Some t ∧ kind_of (t_coro t) = κ.

(** ** [stop] does not wait forever *)

(** After a turn of the loop task [j] is as it was, or it was blocked in
    [stopped.wait()] and the turn set the event and scheduled it. *)
Definition woken_or_same (w w1 : world) (j : task_id) (t : task) : Prop :=
  tasks w1 !! j = Some t
  ∨ (t_waiting t = Some aw_event_wait
     ∧ stopped (exporter w1) = true
     ∧ tasks w1 !! j = Some (set_t_waiting None t)
     ∧ In (h_step j (Ok (VBool true))) (ready w1)).

(** The caller's task [m] is blocked in [await self.stopped.wait()]. *)
Record stop_blocked (m : task_id) (t : task) (w : world) : Prop := {
  sb_K : K w;
  sb_stopping : stopping (exporter w) = true;
  sb_task : tasks w !! m = Some t;
  sb_wait : t_waiting t = Some aw_event_wait;
  sb_main : kind_of (t_coro t) = k_main
}.

(** The event is set and the caller's task is scheduled with the result
    of [stopped.wait()]. *)
Record stop_woken (m : task_id) (t : task) (w : world) : Prop := {
  sw_K : K w;
  sw_stopping : stopping (exporter w) = true;
  sw_stopped : stopped (exporter w) = true;
  sw_task : tasks w !! m = Some (set_t_waiting None t);
  sw_handle : In (h_step m (Ok (VBool true))) (ready w)
}.

(** The caller's task [m], at line 161, has been woken and is waiting
    for its turn. *)
Record stop_resuming (m : task_id) (t : task) (w : world) : Prop := {
  sr_K : K w;
  sr_stopping : stopping (exporter w) = true;
  sr_stopped : stopped (exporter w) = true;
  sr_task : tasks w !! m = Some t;
  sr_wait : t_waiting t = None;
  sr_at : waits_for_stopped (t_coro t) = true
}.

(** ** One tick per interval *)

(** The coroutine family of each task, by task id. *)
Definition kinds (w : world) : list kind :=
  map (λ t, kind_of (t_coro t)) (tasks w).

Definition is_kind (κ : kind) (k : kind) : bool :=
  match κ, k with
  | k_run, k_run | k_tick, k_tick | k_main, k_main => true
  | _, _ => false
  end.

(** The tick tasks and the loop tasks created so far. *)
Definition ticks (w : world) : nat := length (List.filter (is_kind k_tick) (kinds w)).
Definition loops (w : world) : nat := length (List.filter (is_kind k_run) (kinds w)).

(** A scheduled step that resumes a loop task with a value: the step at
    which [run] may spawn a tick. *)
Definition armed_handle (ks : list kind) (h : handle) : bool :=
  match h with
  | h_step k (Ok _) =>
      match ks !! k with
      | Some k_run => true
      | _ => false
      end
  | _ => false
  end.

Definition armed_of (ks : list kind) (hs : list handle) : nat :=
  length (List.filter (armed_handle ks) hs).

Definition armed (w : world) : nat := armed_of (kinds w) (ready w).

Definition is_timer (e : event) : bool :=
  match e with
  | timer _ => true
  | _ => false
  end.

(** The timers that fired in a run. *)
Definition timers (evs : list event) : nat := length (List.filter is_timer evs).

(** The ticks spawned are covered by the loops started and the budget
    [b]. *)
Definition rate_le (a b : nat) (w : world) : Prop :=
  ticks w + armed w + a ≤ loops w + b.

Arguments armed_of : simpl never.

(** Handles refer to tasks below [n]. *)
Definition in_range (n : nat) (hs : list handle) : Prop :=
  ∀ k inp, In (h_step k inp) hs → k < n.

(** ** [start] twice, and the two networks *)

(** The task [start] creates for [run], with its done callback. *)
Definition loop_task : task :=
  add_t_callback cb_on_runner_task_done (new_task (co_run None)).

(** ** [stop] returns *)

(** The caller's task [m], past [session.close()], is scheduled and
    waiting for its turn. *)
Record stop_closing (m : task_id) (t : task) (w : world) : Prop := {
  cls_K : K w;
  cls_stopping : stopping (exporter w) = true;
  cls_task : tasks w !! m = Some t;
  cls_wait : t_waiting t = None;
  cls_at : closing_session (t_coro t) = true
}.

(** The step from [w] to [w'] is the return of the [stop] suspended at
    [pc]: the step begins with the log of line 163, and the caller
    records the operation as done before it goes on with its script. *)
Definition returns_from_stop (pc : op_pc) (w w' : world) : Prop :=
  (∃ post, trace w' = trace w ++ ef_log "Stopped components, will exit" [] :: post)
  ∧ (∃ more, script_done w' = script_done w ++ op_of pc :: more).

(** * Properties *)

(** ** Network registry *)

Lemma hyperlane_merkle_tree_hook_contract_eq (n : SupportedNetworks) :
  hyperlane_merkle_tree_hook_contract n = Val (fixed_address n).
Proof. destruct n; reflexivity. Qed.

(** C9: for each member of [SupportedNetworks] (MAINNET, HOLESKY),
    [hyperlane_merkle_tree_hook_contract] returns that network's fixed,
    non-empty address, and never reaches the final [raise RuntimeError]. *)
Theorem C9_contract_address_total (n : SupportedNetworks) :
  hyperlane_merkle_tree_hook_contract n = Val (fixed_address n)
  ∧ fixed_address n ≠ ""
  ∧ (∀ e, hyperlane_merkle_tree_hook_contract n ≠ Err e).
Proof.
  rewrite hyperlane_merkle_tree_hook_contract_eq.
  split; [reflexivity|]. split; [|discriminate].
  destruct n; discriminate.
Qed.

(** ** [init] *)

(** C2: [init] resolves chain id 1 to MAINNET and 17000 to HOLESKY: it
    logs the discovery and assigns [self.network], which then holds that
    network, and changes nothing else; run by a caller on a fresh
    exporter, [init] returns with that network resolved.  For any other
    chain id it raises (the [RuntimeError] "Unsupported network with
    chain id ..." is the exporter's unsupported-network error), the
    exporter is left as it was, and run by a caller on a fresh exporter
    the error ends the caller with no network resolved. *)
Theorem C2_init_resolves_network (w : world) (chain_id : Z) :
  (∃ w', init_resume init_L170 (Ok (VInt 1)) w = (Val Done, w')
     ∧ network (exporter w') = Some MAINNET
     ∧ trace w' = trace w ++ [ef_log "Discovered Ethereum network as MAINNET" []]
     ∧ only_assigns a_network w w'
     ∧ w' = with_exporter (set_network MAINNET)
              (log "Discovered Ethereum network as MAINNET" [] w))
  ∧ (∃ w', init_resume init_L170 (Ok (VInt 17000)) w = (Val Done, w')
     ∧ network (exporter w') = Some HOLESKY
     ∧ trace w' = trace w ++ [ef_log "Discovered Ethereum network as HOLESKY" []]
     ∧ only_assigns a_network w w'
     ∧ w' = with_exporter (set_network HOLESKY)
              (log "Discovered Ethereum network as HOLESKY" [] w))
  ∧ (∀ rpc interval,
       (∃ w', exec [run_next; complete main_tid (Ok (VInt 1)); run_next]
                (initial_world rpc interval [op_init]) = Some w'
              ∧ task_result w' main_tid = Some (Val tt)
              ∧ network (exporter w') = Some MAINNET
              ∧ script_done w' = [op_init])
       ∧ (∃ w', exec [run_next; complete main_tid (Ok (VInt 17000)); run_next]
                  (initial_world rpc interval [op_init]) = Some w'
                ∧ task_result w' main_tid = Some (Val tt)
                ∧ network (exporter w') = Some HOLESKY
                ∧ script_done w' = [op_init]))
  ∧ (chain_id ≠ 1%Z → chain_id ≠ 17000%Z →
     let e := RuntimeError "Unsupported network with chain id %s" [VInt chain_id] in
     init_resume init_L170 (Ok (VInt chain_id)) w = (Err e, w)
     ∧ ∀ rpc interval rest,
         ∃ w', exec [run_next; complete main_tid (Ok (VInt chain_id)); run_next]
                 (initial_world rpc interval (op_init :: rest)) = Some w'
               ∧ task_result w' main_tid = Some (Err e)
               ∧ network (exporter w') = None
               ∧ script_done w' = []).
Proof.
  split; [|split; [|split]].
  - eexists. split; [reflexivity|]. cbn. unfold only_assigns. repeat split;
      try reflexivity; intros Hn; first [reflexivity|contradiction Hn; reflexivity].
  - eexists. split; [reflexivity|]. cbn. unfold only_assigns. repeat split;
      try reflexivity; intros Hn; first [reflexivity|contradiction Hn; reflexivity].
  - intros rpc interval.
    split; eexists; (split; [vm_compute; reflexivity|]); vm_compute; auto.
  - intros H1 H2 e.
    assert (Hres : ∀ w0, init_resume init_L170 (Ok (VInt chain_id)) w0 = (Err e, w0)).
    { intros w0. unfold init_resume, py_eq_int.
      destruct (Z.eqb_spec chain_id 1) as [?|_]; [contradiction|].
      destruct (Z.eqb_spec chain_id 17000) as [?|_]; [contradiction|].
      reflexivity. }
    split; [apply Hres|].
    intros rpc interval rest.
    eexists. split.
    + cbn [exec exec1 initial_world ready run_handle task_step tasks lookup].
      cbn. unfold lift_coro, main_resume, op_resume, await_coro, bind.
      rewrite Hres. cbn. reflexivity.
    + cbn. auto.
Qed.

Lemma C2_init_resolves_network_witness :
  let w := initial_world "rpc" 30000 [op_init] in
  let e := RuntimeError "Unsupported network with chain id %s" [VInt 5] in
  network (exporter w) = None
  ∧ network (exporter (snd (init_resume init_L170 (Ok (VInt 1)) w))) = Some MAINNET
  ∧ network (exporter (snd (init_resume init_L170 (Ok (VInt 17000)) w))) = Some HOLESKY
  ∧ init_resume init_L170 (Ok (VInt 5)) w = (Err e, w)
  ∧ ∃ w', exec [run_next; complete main_tid (Ok (VInt 5)); run_next] w = Some w'
          ∧ task_result w' main_tid = Some (Err e)
          ∧ network (exporter w') = None
          ∧ script_done w' = [].
Proof.
  intros w e.
  destruct (C2_init_resolves_network w 5)
    as ((w1 & E1 & N1 & _) & (w2 & E2 & N2 & _) & _ & H).
  destruct (H ltac:(lia) ltac:(lia)) as [E5 Hrun].
  split; [reflexivity|].
  split; [rewrite E1; exact N1|].
  split; [rewrite E2; exact N2|].
  split; [exact E5|].
  exact (Hrun "rpc" 30000%Z []).
Defined.

(** ** [stop] without [start] *)

(** C10: when [start] was never called the [_runner_task] attribute does
    not exist, and [stop] raises [AttributeError] after it has logged and
    set the stopping flag: [stopping] is true afterwards, the completion
    signal is as it was, nothing else is assigned, nothing is cancelled
    or awaited, the session is not closed; run by a caller on a fresh
    exporter, the error ends the caller with [stopping] set and
    [stopped] not set. *)
Theorem C10_stop_without_start (w : world) :
  _runner_task (exporter w) = None →
  ∃ w', stop_begin w = (Err (AttributeError "_runner_task"), w')
    ∧ stopping (exporter w') = true
    ∧ stopped (exporter w') = stopped (exporter w)
    ∧ _runner_task (exporter w') = None
    ∧ only_assigns a_stopping w w'
    ∧ trace w' = trace w ++ [ef_log "Gracefully shutting down application" []]
    ∧ w' = with_exporter (set_stopping true)
             (log "Gracefully shutting down application" [] w)
    ∧ ∀ rpc interval rest,
        ∃ w1, exec [run_next] (initial_world rpc interval (op_stop :: rest)) = Some w1
              ∧ task_result w1 main_tid = Some (Err (AttributeError "_runner_task"))
              ∧ stopping (exporter w1) = true
              ∧ stopped (exporter w1) = false
              ∧ script_done w1 = []
              ∧ trace w1 = [ef_log "Gracefully shutting down application" []].
Proof.
  intros H. eexists. split.
  - unfold stop_begin, self_runner_task, bind, get_self; cbn.
    rewrite H. reflexivity.
  - cbn. rewrite H. unfold only_assigns. repeat split; try reflexivity;
      try (intros Hn; first [reflexivity|contradiction Hn; reflexivity]).
    intros rpc interval rest. eexists. split; [reflexivity|]. cbn. auto.
Qed.

Lemma C10_stop_without_start_witness :
  let w := initial_world "rpc" 30000 [op_stop] in
  _runner_task (exporter w) = None
  ∧ stopping (exporter w) = false
  ∧ ∃ w', stop_begin w = (Err (AttributeError "_runner_task"), w')
      ∧ stopping (exporter w') = true
      ∧ stopped (exporter w') = stopped (exporter w)
      ∧ _runner_task (exporter w') = None
      ∧ only_assigns a_stopping w w'
      ∧ trace w' = trace w ++ [ef_log "Gracefully shutting down application" []]
      ∧ w' = with_exporter (set_stopping true)
               (log "Gracefully shutting down application" [] w)
      ∧ ∀ rpc interval rest,
          ∃ w1, exec [run_next] (initial_world rpc interval (op_stop :: rest)) = Some w1
                ∧ task_result w1 main_tid = Some (Err (AttributeError "_runner_task"))
                ∧ stopping (exporter w1) = true
                ∧ stopped (exporter w1) = false
                ∧ script_done w1 = []
                ∧ trace w1 = [ef_log "Gracefully shutting down application" []].
Proof.
  split; [reflexivity|]. split; [reflexivity|].
  apply (C10_stop_without_start (initial_world "rpc" 30000 [op_stop])).
  reflexivity.
Defined.

(** The same on the event loop: the caller's task ends with the error. *)
Example stop_without_start_run :
  ∃ w', exec [run_next] (initial_world "rpc" 30000 [op_stop]) = Some w'
        ∧ task_result w' main_tid = Some (Err (AttributeError "_runner_task"))
        ∧ stopping (exporter w') = true
        ∧ stopped (exporter w') = false
        ∧ trace w' = [ef_log "Gracefully shutting down application" []].
Proof. eexists. split; [reflexivity|]. cbn. auto. Qed.

(** ** The poll loop *)

(** *** The float [interval_ms / 1000] *)

Section TrueDivision.
Local Open Scope Z_scope.

Lemma round_half_even_spec (n d : Z) :
  0 ≤ n → 0 < d →
  let m := round_half_even n d in
  0 ≤ m
  ∧ (2 * n - d < 2 * m * d ∨ (2 * n - d = 2 * m * d ∧ Z.even m = true))
  ∧ (2 * m * d < 2 * n + d ∨ (2 * m * d = 2 * n + d ∧ Z.even m = true)).
Proof.
  intros Hn Hd. unfold round_half_even.
  pose proof (Z.div_mod n d ltac:(lia)) as Hdm.
  pose proof (Z.mod_pos_bound n d Hd) as Hr.
  pose proof (Z.div_pos n d Hn Hd) as Hq.
  set (q := n / d) in *. set (r := n mod d) in *.
  destruct (Z.ltb_spec (2 * r) d) as [H1|H1]; cbv zeta.
  - split; [lia|]. split; left; nia.
  - destruct (Z.ltb_spec d (2 * r)) as [H2|H2].
    + split; [lia|]. split; left; nia.
    + assert (2 * r = d) by lia.
      destruct (Z.even q) eqn:E.
      * split; [lia|]. split; [right; split; [nia|exact E]|left; nia].
      * split; [lia|]. split; [left; nia|right; split; [nia|]].
        rewrite Z.even_add, E. reflexivity.
Qed.

Lemma scaled_nonneg (n s : Z) : 0 ≤ s → scaled n s = n * 2 ^ s.
Proof. intros H. unfold scaled. rewrite Z.max_r by lia. reflexivity. Qed.

Lemma scaled_neg (n s : Z) : s ≤ 0 → scaled n s = n.
Proof. intros H. unfold scaled. rewrite Z.max_l by lia. cbn. lia. Qed.

Lemma pow2_pos (k : Z) : 0 ≤ k → 0 < 2 ^ k.
Proof. intros. apply Z.pow_pos_nonneg; lia. Qed.

(** [quotient_exponent] brackets the quotient between two powers of two. *)
Lemma quotient_exponent_spec (n d : Z) :
  0 < n → 0 < d →
  let e := quotient_exponent n d in
  scaled d e ≤ scaled n (- e) < 2 * scaled d e.
Proof.
  intros Hn Hd. unfold quotient_exponent.
  pose proof (Z.log2_spec n Hn) as Ha. pose proof (Z.log2_spec d Hd) as Hb.
  pose proof (Z.log2_nonneg n) as Ha0. pose proof (Z.log2_nonneg d) as Hb0.
  set (a := Z.log2 n) in *. set (b := Z.log2 d) in *.
  rewrite !Z.pow_succ_r in Ha, Hb by lia.
  destruct (Z_le_gt_dec 0 (a - b)) as [He|He].
  - assert (Hab : 2 ^ a = 2 ^ b * 2 ^ (a - b)).
    { rewrite <- Z.pow_add_r by lia. f_equal. lia. }
    pose proof (pow2_pos b Hb0) as HB. pose proof (pow2_pos (a - b) He) as HP.
    rewrite (scaled_neg n (- (a - b))), (scaled_nonneg d (a - b)) by lia.
    destruct (Z.ltb_spec n (d * 2 ^ (a - b))) as [Hlt|Hge]; cbv zeta.
    + destruct (Z.eq_dec (a - b) 0) as [E0|E0].
      * rewrite E0 in *. cbn in Hlt, Hab.
        rewrite (scaled_neg d (0 - 1)), (scaled_nonneg n (- (0 - 1))) by lia.
        cbn. lia.
      * assert (HP2 : 2 ^ (a - b) = 2 * 2 ^ (a - b - 1)).
        { rewrite <- Z.pow_succ_r by lia. f_equal. lia. }
        pose proof (pow2_pos (a - b - 1) ltac:(lia)).
        rewrite (scaled_nonneg d (a - b - 1)), (scaled_neg n (- (a - b - 1))) by lia.
        rewrite Hab, HP2 in Ha.
        assert (d * 2 ^ (a - b - 1) < 2 ^ b * 2 * 2 ^ (a - b - 1)) by nia.
        nia.
    + rewrite (scaled_neg n (- (a - b))), (scaled_nonneg d (a - b)) by lia.
      rewrite Hab in Ha.
      assert (2 ^ b * 2 ^ (a - b) ≤ d * 2 ^ (a - b)) by nia.
      nia.
  - assert (Hab : 2 ^ b = 2 ^ a * 2 ^ (b - a)).
    { rewrite <- Z.pow_add_r by lia. f_equal. lia. }
    pose proof (pow2_pos a Ha0) as HA. pose proof (pow2_pos (b - a) ltac:(lia)) as HK.
    rewrite (scaled_nonneg n (- (a - b))), (scaled_neg d (a - b)) by lia.
    replace (- (a - b)) with (b - a) by lia.
    destruct (Z.ltb_spec (n * 2 ^ (b - a)) d) as [Hlt|Hge]; cbv zeta.
    + rewrite (scaled_nonneg n (- (a - b - 1))), (scaled_neg d (a - b - 1)) by lia.
      replace (- (a - b - 1)) with (Z.succ (b - a)) by lia.
      rewrite Z.pow_succ_r by lia. rewrite Hab in Hb.
      assert (2 ^ a * 2 ^ (b - a) ≤ n * 2 ^ (b - a)) by nia.
      nia.
    + rewrite (scaled_nonneg n (- (a - b))), (scaled_neg d (a - b)) by lia.
      replace (- (a - b)) with (b - a) by lia.
      rewrite Hab in Hb.
      assert (n * 2 ^ (b - a) < 2 * 2 ^ a * 2 ^ (b - a)) by nia.
      nia.
Qed.

Lemma scaled_bracket (n d e : Z) :
  0 < n → 0 < d →
  scaled d e ≤ scaled n (- e) < 2 * scaled d e →
  scaled d (e - 52) * 2 ^ 52 ≤ scaled n (- (e - 52)) < scaled d (e - 52) * 2 ^ 53.
Proof.
  intros Hn Hd H.
  change (2 ^ 53) with (2 * 2 ^ 52).
  destruct (Z_le_gt_dec 52 e) as [He|He].
  - rewrite (scaled_nonneg d e), (scaled_neg n (- e)) in H by lia.
    rewrite (scaled_nonneg d (e - 52)), (scaled_neg n (- (e - 52))) by lia.
    assert (Hp : 2 ^ e = 2 ^ (e - 52) * 2 ^ 52).
    { rewrite <- Z.pow_add_r by lia. f_equal. lia. }
    rewrite Hp in H. lia.
  - rewrite (scaled_neg d (e - 52)), (scaled_nonneg n (- (e - 52))) by lia.
    destruct (Z_le_gt_dec 0 e) as [He0|He0].
    + rewrite (scaled_nonneg d e), (scaled_neg n (- e)) in H by lia.
      assert (Hp : 2 ^ 52 = 2 ^ e * 2 ^ (- (e - 52))).
      { rewrite <- Z.pow_add_r by lia. f_equal. lia. }
      pose proof (pow2_pos (- (e - 52)) ltac:(lia)) as HP.
      rewrite Hp. nia.
    + rewrite (scaled_neg d e), (scaled_nonneg n (- e)) in H by lia.
      assert (Hp : 2 ^ (- (e - 52)) = 2 ^ (- e) * 2 ^ 52).
      { rewrite <- Z.pow_add_r by lia. f_equal. lia. }
      rewrite Hp. lia.
Qed.

(** The quotient by 1000 of a non-zero int is in the normal range. *)
Lemma quotient_exponent_1000 (n : Z) : 0 < n → -10 ≤ quotient_exponent n 1000.
Proof.
  intros Hn. pose proof (quotient_exponent_spec n 1000 Hn ltac:(lia)) as H.
  cbv zeta in H. set (e := quotient_exponent n 1000) in *.
  destruct (Z_le_gt_dec (-10) e) as [?|He]; [assumption|exfalso].
  rewrite (scaled_neg 1000 e), (scaled_nonneg n (- e)) in H by lia.
  assert (2 ^ 11 ≤ 2 ^ (- e)) by (apply Z.pow_le_mono_r; lia).
  change (2 ^ 11) with 2048 in *. nia.
Qed.

(** The significand and the exponent of [a / 1000] for [a <> 0]. *)
Lemma nearest_float_1000 (a : Z) :
  a ≠ 0 →
  ∃ m s,
    nearest_float a 1000 = (Z.sgn a * m, s)
    ∧ s = quotient_exponent (Z.abs a) 1000 - 52
    ∧ m = round_half_even (scaled (Z.abs a) (- s)) (scaled 1000 s)
    ∧ 0 < scaled 1000 s
    ∧ scaled 1000 s * 2 ^ 52 ≤ scaled (Z.abs a) (- s) < scaled 1000 s * 2 ^ 53
    ∧ 2 ^ 52 ≤ m ≤ 2 ^ 53.
Proof.
  intros Ha. assert (Hn : 0 < Z.abs a) by lia.
  pose proof (quotient_exponent_1000 _ Hn) as He.
  pose proof (quotient_exponent_spec _ 1000 Hn ltac:(lia)) as Hb. cbv zeta in Hb.
  apply scaled_bracket in Hb; [|lia|lia].
  set (e := quotient_exponent (Z.abs a) 1000) in *.
  exists (round_half_even (scaled (Z.abs a) (- (e - 52))) (scaled 1000 (e - 52))), (e - 52).
  assert (HD : 0 < scaled 1000 (e - 52)).
  { unfold scaled. pose proof (pow2_pos (Z.max 0 (e - 52)) ltac:(lia)). lia. }
  split.
  { unfold nearest_float. change (Z.abs 1000) with 1000. fold e.
    unfold DBL_MANT_DIG, DBL_MIN_EXP.
    replace (Z.max (e + 1 - 53) (-1021 - 53)) with (e - 52) by lia.
    f_equal. change (Z.sgn 1000) with 1. lia. }
  split; [reflexivity|]. split; [reflexivity|]. split; [exact HD|].
  split; [exact Hb|].
  pose proof (round_half_even_spec (scaled (Z.abs a) (- (e - 52))) (scaled 1000 (e - 52))
                ltac:(lia) HD) as (Hm0 & Hlo & Hhi).
  set (N := scaled (Z.abs a) (- (e - 52))) in *.
  set (D := scaled 1000 (e - 52)) in *.
  set (m := round_half_even N D) in *.
  change (2 ^ 53) with (2 * 2 ^ 52) in *.
  set (P := 2 ^ 52) in *. assert (0 < P) by (unfold P; lia).
  split; nia.
Qed.

Lemma abs_sgn_mul (a m : Z) : a ≠ 0 → 0 ≤ m → Z.abs (Z.sgn a * m) = m.
Proof. intros Ha Hm. destruct a; [contradiction| |]; cbn; lia. Qed.

Lemma nearest_float_zero : ∃ s, nearest_float 0 1000 = (0, s).
Proof. eexists. unfold nearest_float. cbn [Z.sgn Z.mul]. reflexivity. Qed.

Lemma scaled_zero (s : Z) : scaled 0 s = 0.
Proof. reflexivity. Qed.

(** [a / 1000] is a float exactly when [|a| < 1000 * (2^1024 - 2^970)]. *)
Lemma int_true_divide_fits (a : Z) :
  Z.abs a < float_overflow_ms →
  int_true_divide a 1000 = Val (float_value (nearest_float a 1000)).
Proof.
  intros Hfit. unfold int_true_divide. cbn [Z.eqb].
  destruct (Z.eq_dec a 0) as [->|Ha].
  { destruct nearest_float_zero as (s & ->). cbn [Z.abs]. rewrite scaled_zero.
    reflexivity. }
  destruct (nearest_float_1000 a Ha) as (m & s & -> & _ & Hm & HD & Hb & Hmb).
  rewrite abs_sgn_mul by lia.
  destruct (Z.leb_spec (2 ^ DBL_MAX_EXP) (scaled m s)) as [Hov|_]; [exfalso|reflexivity].
  unfold DBL_MAX_EXP, float_overflow_ms in *.
  destruct (Z_le_gt_dec s 0) as [Hs|Hs].
  { rewrite scaled_neg in Hov by lia.
    assert (2 ^ 53 < 2 ^ 1024) by (apply Z.pow_lt_mono_r; lia). lia. }
  rewrite (scaled_nonneg m s) in Hov by lia.
  rewrite (scaled_nonneg 1000 s) in HD, Hb, Hm by lia.
  rewrite (scaled_neg _ (- s)) in Hb, Hm by lia.
  change (2 ^ 1024) with (2 ^ 53 * 2 ^ 971) in *.
  change (2 ^ 970) with (2 ^ 970 * 1) in Hfit.
  change (2 ^ 53) with (2 * 2 ^ 52) in *.
  assert (Hs971 : s ≤ 971).
  { destruct (Z_le_gt_dec s 971) as [?|Hgt]; [assumption|exfalso].
    assert (2 ^ 972 ≤ 2 ^ s) by (apply Z.pow_le_mono_r; lia).
    change (2 ^ 972) with (2 * 2 ^ 971) in *.
    set (P := 2 ^ 52) in *. assert (0 < P) by (unfold P; lia).
    set (R := 2 ^ 971) in *. assert (0 < R) by (unfold R; apply pow2_pos; lia).
    change (2 ^ 970 * 1) with (2 ^ 970) in Hfit.
    assert (0 < 2 ^ 970) by (apply pow2_pos; lia).
    nia. }
  destruct (Z.eq_dec s 971) as [->|Hne].
  - pose proof (round_half_even_spec (Z.abs a) (1000 * 2 ^ 971) ltac:(lia) HD)
      as (_ & _ & Hhi).
    rewrite <- Hm in Hhi.
    change (2 ^ 971) with (2 * 2 ^ 970) in *.
    set (Q0 := 2 ^ 970) in *. assert (0 < Q0) by (unfold Q0; apply pow2_pos; lia).
    set (P := 2 ^ 52) in *. assert (0 < P) by (unfold P; lia).
    nia.
  - assert (2 ^ s ≤ 2 ^ 970) by (apply Z.pow_le_mono_r; lia).
    change (2 ^ 971) with (2 * 2 ^ 970) in *.
    set (Q0 := 2 ^ 970) in *. assert (0 < Q0) by (unfold Q0; apply pow2_pos; lia).
    set (P := 2 ^ 52) in *. assert (0 < P) by (unfold P; lia).
    pose proof (pow2_pos s ltac:(lia)).
    nia.
Qed.

Lemma int_true_divide_overflow (a : Z) :
  float_overflow_ms ≤ Z.abs a →
  int_true_divide a 1000
  = Err (OverflowError "integer division result too large for a float").
Proof.
  intros Hbig. unfold int_true_divide. cbn [Z.eqb].
  assert (Hpos : 0 < float_overflow_ms) by reflexivity.
  assert (Ha : a ≠ 0) by lia.
  destruct (nearest_float_1000 a Ha) as (m & s & -> & _ & Hm & HD & Hb & Hmb).
  rewrite abs_sgn_mul by lia.
  destruct (Z.leb_spec (2 ^ DBL_MAX_EXP) (scaled m s)) as [_|Hno]; [reflexivity|exfalso].
  unfold DBL_MAX_EXP, float_overflow_ms in *. clear Hpos.
  change (2 ^ 1024) with (2 ^ 53 * 2 ^ 971) in *.
  change (2 ^ 53) with (2 * 2 ^ 52) in *.
  assert (Hs : 971 ≤ s).
  { destruct (Z_le_gt_dec 971 s) as [?|Hlt]; [assumption|exfalso].
    destruct (Z_le_gt_dec s 0) as [Hs0|Hs0].
    - rewrite (scaled_neg 1000) in Hb by lia.
      assert (Z.abs a ≤ scaled (Z.abs a) (- s)).
      { unfold scaled. pose proof (pow2_pos (Z.max 0 (- s)) ltac:(lia)). nia. }
      unfold scaled in Hb.
      (* |a| * 2^(-s) < 1000 * 2^53 while |a| >= 1000 * 2^1023 *)
      assert (1 ≤ 2 ^ Z.max 0 (- s)) by (pose proof (pow2_pos (Z.max 0 (- s)) ltac:(lia)); lia).
      change (2 ^ 971) with (2 ^ 53 * 2 ^ 918) in Hbig.
      change (2 ^ 970) with (2 ^ 52 * 2 ^ 918) in Hbig.
      change (2 ^ 53) with (2 * 2 ^ 52) in Hbig.
      set (P := 2 ^ 52) in *. assert (0 < P) by (unfold P; lia).
      set (R := 2 ^ 918) in *. assert (2 ≤ R) by (unfold R; apply (Z.pow_le_mono_r 2 1 918); lia).
      nia.
    - rewrite (scaled_nonneg _ s) in Hb by lia. rewrite (scaled_neg _ (- s)) in Hb by lia.
      assert (2 ^ s ≤ 2 ^ 970) by (apply Z.pow_le_mono_r; lia).
      change (2 ^ 971) with (2 * 2 ^ 970) in *.
      set (Q0 := 2 ^ 970) in *. assert (0 < Q0) by (unfold Q0; apply pow2_pos; lia).
      set (P := 2 ^ 52) in *. assert (0 < P) by (unfold P; lia).
      pose proof (pow2_pos s ltac:(lia)).
      nia. }
  rewrite (scaled_nonneg m s) in Hno by lia.
  rewrite (scaled_nonneg 1000 s) in HD, Hb, Hm by lia.
  rewrite (scaled_neg _ (- s)) in Hb, Hm by lia.
  destruct (Z.eq_dec s 971) as [->|Hne].
  - pose proof (round_half_even_spec (Z.abs a) (1000 * 2 ^ 971) ltac:(lia) HD)
      as (_ & Hlo & _).
    rewrite <- Hm in Hlo.
    assert (Hm53 : m < 2 * 2 ^ 52).
    { pose proof (pow2_pos 971 ltac:(lia)). nia. }
    assert (Hodd : m = 2 * 2 ^ 52 - 1 → Z.even m = false) by (intros ->; reflexivity).
    change (2 ^ 971) with (2 * 2 ^ 970) in *.
    set (Q0 := 2 ^ 970) in *. assert (0 < Q0) by (unfold Q0; apply pow2_pos; lia).
    set (P := 2 ^ 52) in *. assert (0 < P) by (unfold P; lia).
    assert (Hge : 2 * P - 1 ≤ m) by (destruct Hlo as [Hlo|[Hlo _]]; nia).
    assert (Heq : m = 2 * P - 1) by lia.
    destruct Hlo as [Hlo|[Hlo He]]; [nia|].
    rewrite (Hodd Heq) in He. discriminate.
  - assert (2 ^ 972 ≤ 2 ^ s) by (apply Z.pow_le_mono_r; lia).
    change (2 ^ 972) with (2 * 2 ^ 971) in *.
    set (R := 2 ^ 971) in *. assert (0 < R) by (unfold R; apply pow2_pos; lia).
    set (P := 2 ^ 52) in *. assert (0 < P) by (unfold P; lia).
    nia.
Qed.

Lemma float_value_positive (a : Z) :
  0 < a → Qle_bool (float_value (nearest_float a 1000)) 0 = false.
Proof.
  intros Ha.
  destruct (nearest_float_1000 a ltac:(lia)) as (m & s & -> & _ & _ & _ & _ & Hm).
  rewrite (Z.sgn_pos a Ha), Z.mul_1_l.
  unfold float_value, Qle_bool, scaled. cbn [Qnum Qden].
  pose proof (pow2_pos (Z.max 0 s) ltac:(lia)).
  assert (0 < 2 ^ 52) by reflexivity.
  apply Z.leb_gt. nia.
Qed.

Lemma float_value_nonpositive (a : Z) :
  a ≤ 0 → Qle_bool (float_value (nearest_float a 1000)) 0 = true.
Proof.
  intros Ha. destruct (Z.eq_dec a 0) as [->|Hne].
  { destruct nearest_float_zero as (s & ->). reflexivity. }
  destruct (nearest_float_1000 a Hne) as (m & s & -> & _ & _ & _ & _ & Hm).
  rewrite (Z.sgn_neg a) by lia.
  unfold float_value, Qle_bool, scaled. cbn [Qnum Qden].
  pose proof (pow2_pos (Z.max 0 s) ltac:(lia)).
  assert (0 < 2 ^ 52) by reflexivity.
  apply Z.leb_le. nia.
Qed.

Lemma sgn_factor (a m s E : Z) :
  scaled (Z.sgn a * m) s * 1000 - a * E
  = Z.sgn a * (m * scaled 1000 s - Z.abs a * E).
Proof.
  unfold scaled. destruct a as [|p|p]; cbn [Z.sgn Z.abs]; lia.
Qed.

(** The float is within a relative error of [2^-53] of the quotient:
    times 1000, it differs from [a] by at most [|a| / 2^53]. *)
Lemma float_value_accuracy (a : Z) :
  (Qabs (float_value (nearest_float a 1000) * 1000 - inject_Z a) * inject_Z (2 ^ 53)
   <= Qabs (inject_Z a))%Q.
Proof.
  destruct (Z.eq_dec a 0) as [->|Ha].
  { destruct nearest_float_zero as (s & ->). unfold float_value. rewrite scaled_zero.
    unfold Qle. cbn. lia. }
  destruct (nearest_float_1000 a Ha) as (m & s & -> & _ & Hm & HD & Hb & Hmb).
  assert (HN : 0 ≤ scaled (Z.abs a) (- s)).
  { unfold scaled. pose proof (pow2_pos (Z.max 0 (- s)) ltac:(lia)). nia. }
  pose proof (round_half_even_spec _ _ HN HD) as (_ & Hlo & Hhi).
  rewrite <- Hm in Hlo, Hhi.
  unfold float_value.
  set (N := scaled (Z.abs a) (- s)) in *. set (D := scaled 1000 s) in *.
  assert (HE : 0 < 2 ^ Z.max 0 (- s)) by (apply pow2_pos; lia).
  assert (Hnum : Z.abs (scaled (Z.sgn a * m) s * 1000 - a * 2 ^ Z.max 0 (- s)) * 2 ^ 53
                 ≤ Z.abs a * 2 ^ Z.max 0 (- s)).
  { rewrite sgn_factor. fold D. change (Z.abs a * 2 ^ Z.max 0 (- s)) with N.
    rewrite Z.abs_mul.
    replace (Z.abs (Z.sgn a)) with 1 by (destruct a; [contradiction| |]; reflexivity).
    change (2 ^ 53) with (2 * 2 ^ 52) in *.
    set (P := 2 ^ 52) in *. assert (0 < P) by (unfold P; lia).
    nia. }
  set (X := scaled (Z.sgn a * m) s) in *.
  set (E := 2 ^ Z.max 0 (- s)) in *.
  unfold Qle, Qabs, Qminus, Qplus, Qmult, Qopp, inject_Z. cbn [Qnum Qden].
  rewrite !Pos.mul_1_r, !Z.mul_1_r, !Z2Pos.id by exact HE.
  replace (X * 1000 + - a * E) with (X * 1000 - a * E) by lia.
  exact Hnum.
Qed.
End TrueDivision.

Lemma delay_fits_dec (w : world) :
  delay_fits w ∨ (float_overflow_ms ≤ Z.abs (interval_ms (exporter w)))%Z.
Proof. unfold delay_fits. lia. Qed.

Lemma poll_delay_positive (w : world) :
  (0 < interval_ms (exporter w))%Z → Qle_bool (poll_delay w) 0 = false.
Proof. apply float_value_positive. Qed.

Lemma poll_delay_nonpositive (w : world) :
  (interval_ms (exporter w) ≤ 0)%Z → Qle_bool (poll_delay w) 0 = true.
Proof. apply float_value_nonpositive. Qed.

(** *** The head of the loop *)

Lemma sleep_begin_fits (w : world) :
  delay_fits w →
  sleep_begin w
  = (Val (aw_sleep (poll_delay w), sleep_L166),
     with_trace (trace w ++ [ef_await (aw_sleep (poll_delay w))]) w).
Proof.
  intros H. unfold sleep_begin, bind, get_self.
  rewrite (int_true_divide_fits _ H). reflexivity.
Qed.

Lemma sleep_begin_overflow (w : world) :
  (float_overflow_ms ≤ Z.abs (interval_ms (exporter w)))%Z →
  sleep_begin w
  = (Err (OverflowError "integer division result too large for a float"), w).
Proof.
  intros H. unfold sleep_begin, bind, get_self.
  rewrite (int_true_divide_overflow _ H). reflexivity.
Qed.

Lemma run_loop_running (w : world) :
  stopping (exporter w) = false → delay_fits w →
  run_loop w
  = (Val (Yield (aw_sleep (poll_delay w)) (run_L189 sleep_L166)),
     with_trace
       ((trace w ++ [ef_create_task (length (tasks w)) (co_tick None)])
          ++ [ef_await (aw_sleep (poll_delay w))])
       (with_ready (ready w ++ [h_step (length (tasks w)) (Ok VNone)])
          (with_tasks (tasks w ++ [new_task (co_tick None)]) w))).
Proof.
  intros H Hfit. unfold run_loop, bind, get_self, create_task. rewrite H. cbn [negb].
  match goal with |- context [sleep_begin ?w1] =>
    rewrite (sleep_begin_fits w1 Hfit) end.
  reflexivity.
Qed.

Lemma run_loop_overflow (w : world) :
  stopping (exporter w) = false →
  (float_overflow_ms ≤ Z.abs (interval_ms (exporter w)))%Z →
  run_loop w
  = (Err (OverflowError "integer division result too large for a float"),
     snd (create_task (co_tick None) w)).
Proof.
  intros H Hbig. unfold run_loop, bind, get_self, create_task. rewrite H. cbn [negb].
  match goal with |- context [sleep_begin ?w1] =>
    rewrite (sleep_begin_overflow w1 Hbig) end.
  reflexivity.
Qed.

Lemma run_loop_stopping (w : world) :
  stopping (exporter w) = true →
  run_loop w = (Val Done, snd (Event_set w)).
Proof.
  intros H. unfold run_loop, bind, get_self. rewrite H. cbn.
  destruct (Event_set w) as [[[]|e] w'] eqn:E; [reflexivity|].
  unfold Event_set in E. destruct (stopped (exporter w)); [discriminate|].
  destruct (wake_waiters 0 (tasks w)); discriminate.
Qed.

Lemma Event_set_spec (w : world) :
  let w' := snd (Event_set w) in
  stopped (exporter w') = true
  ∧ stopping (exporter w') = stopping (exporter w)
  ∧ network (exporter w') = network (exporter w)
  ∧ contract (exporter w') = contract (exporter w)
  ∧ _runner_task (exporter w') = _runner_task (exporter w)
  ∧ trace w' = trace w
  ∧ hyperlane_contract_latest_checkpoint w' = hyperlane_contract_latest_checkpoint w
  ∧ script_todo w' = script_todo w ∧ script_done w' = script_done w.
Proof.
  unfold Event_set. destruct (stopped (exporter w)) eqn:E; cbn.
  - rewrite E. repeat split.
  - destruct (wake_waiters 0 (tasks w)); cbn. repeat split.
Qed.

Lemma wake_waiters_length (i : task_id) (ts : list task) :
  length (fst (wake_waiters i ts)) = length ts.
Proof.
  revert i. induction ts as [|t ts IH]; intros i; cbn; [reflexivity|].
  specialize (IH (S i)). destruct (wake_waiters (S i) ts) as [ts' hs].
  destruct (is_event_wait (t_waiting t)); cbn in *; congruence.
Qed.

Lemma Event_set_tasks_length (w : world) :
  length (tasks (snd (Event_set w))) = length (tasks w).
Proof.
  unfold Event_set. destruct (stopped (exporter w)); [reflexivity|].
  pose proof (wake_waiters_length 0 (tasks w)) as H.
  destruct (wake_waiters 0 (tasks w)); exact H.
Qed.

Lemma update_task_eq (tid : task_id) (f : task → task) (w : world) (t : task) :
  tasks w !! tid = Some t →
  update_task tid f w = with_tasks (<[tid := f t]> (tasks w)) w.
Proof. intros H. unfold update_task. rewrite H. reflexivity. Qed.

(** One step of the event loop on the task of [run], at its entry or at
    the return of its sleep: the task ends up blocked on the timer, and the
    new tick task is queued behind the handles that were ready. *)
Lemma run_step_on_loop (w : world) (tid : task_id) (t : task) (v : pyvalue)
    (rest : list handle) :
  ready w = h_step tid (Ok v) :: rest →
  tasks w !! tid = Some t → t_result t = None → t_must_cancel t = false →
  (t_coro t = co_run None ∨ t_coro t = co_run (Some (run_L189 sleep_L166))) →
  stopping (exporter w) = false → delay_fits w → (0 < interval_ms (exporter w))%Z →
  ∃ w' t',
    exec1 run_next w = Some w'
    ∧ tasks w' !! tid = Some t'
    ∧ t_coro t' = co_run (Some (run_L189 sleep_L166))
    ∧ t_waiting t' = Some (aw_sleep (poll_delay w))
    ∧ t_result t' = None
    ∧ tasks w' !! length (tasks w) = Some (new_task (co_tick None))
    ∧ ready w' = rest ++ [h_step (length (tasks w)) (Ok VNone)].
Proof.
  intros Hr Ht Hres Hmc Hc Hs Hfit Hi.
  assert (Hlt : (tid < length (tasks w))%nat) by (eapply lookup_lt_Some; eauto).
  set (t1 := set_t_must_cancel false t).
  set (w1 := with_tasks (<[tid := t1]> (tasks w)) (with_ready rest w)).
  assert (Hs1 : stopping (exporter w1) = false) by exact Hs.
  assert (Hfit1 : delay_fits w1) by exact Hfit.
  assert (Hresume : resume (t_coro t) (Ok v) w1
           = (Val (Yield (aw_sleep (poll_delay w)) (co_run (Some (run_L189 sleep_L166)))),
              snd (run_loop w1))).
  { destruct Hc as [-> | ->]; cbn -[run_loop];
      unfold lift_coro, await_coro, bind; cbn -[run_loop]; unfold run_begin;
      rewrite (run_loop_running w1 Hs1 Hfit1); reflexivity. }
  unfold exec1. rewrite Hr. unfold run_handle, task_step.
  change (tasks (with_ready rest w)) with (tasks w).
  rewrite Ht, Hres, Hmc.
  rewrite (update_task_eq tid _ (with_ready rest w) t Ht).
  change (with_tasks (<[tid:=set_t_must_cancel false t]> (tasks (with_ready rest w)))
            (with_ready rest w)) with w1.
  rewrite Hresume.
  rewrite (run_loop_running w1 Hs1 Hfit1). cbn [snd].
  unfold suspend_task.
  change (poll_delay w) with (poll_delay w1) at 1.
  rewrite (poll_delay_positive w1 Hi).
  match goal with |- context [update_task tid ?f ?w2] =>
    assert (Hl2 : tasks w2 !! tid = Some t1)
  end.
  { cbn. rewrite lookup_app_l by (rewrite length_insert; exact Hlt).
    apply list_lookup_insert_eq, Hlt. }
  rewrite (update_task_eq _ _ _ _ Hl2).
  eexists. eexists. split; [reflexivity|]. cbn.
  rewrite list_lookup_insert_eq by (rewrite length_app, length_insert; lia).
  split; [reflexivity|]. split; [reflexivity|]. split; [reflexivity|].
  split; [exact Hres|]. rewrite length_insert. split; [|reflexivity].
  rewrite list_lookup_insert_ne by lia.
  rewrite lookup_app_r by (rewrite length_insert; lia).
  rewrite length_insert, Nat.sub_diag. reflexivity.
Qed.

(** The same step when [interval_ms / 1000] overflows: the tick task is
    created and queued, then the division raises and the task of [run]
    is done with the error; its done callbacks are scheduled. *)
Lemma run_step_overflow (w : world) (tid : task_id) (t : task) (v : pyvalue)
    (rest : list handle) :
  ready w = h_step tid (Ok v) :: rest →
  tasks w !! tid = Some t → t_result t = None → t_must_cancel t = false →
  (t_coro t = co_run None ∨ t_coro t = co_run (Some (run_L189 sleep_L166))) →
  stopping (exporter w) = false → ¬ delay_fits w →
  ∃ w' t',
    exec1 run_next w = Some w'
    ∧ tasks w' !! tid = Some t'
    ∧ t_result t' = Some (Err division_overflow)
    ∧ t_waiting t' = None
    ∧ tasks w' !! length (tasks w) = Some (new_task (co_tick None))
    ∧ ready w' = (rest ++ [h_step (length (tasks w)) (Ok VNone)])
                 ++ map (λ cb, h_callback cb tid) (t_callbacks t)
    ∧ trace w' = trace w ++ [ef_create_task (length (tasks w)) (co_tick None)].
Proof.
  intros Hr Ht Hres Hmc Hc Hs Hbig.
  assert (Hlt : (tid < length (tasks w))%nat) by (eapply lookup_lt_Some; eauto).
  set (t1 := set_t_must_cancel false t).
  set (w1 := with_tasks (<[tid := t1]> (tasks w)) (with_ready rest w)).
  assert (Hs1 : stopping (exporter w1) = false) by exact Hs.
  assert (Hbig1 : (float_overflow_ms ≤ Z.abs (interval_ms (exporter w1)))%Z).
  { destruct (delay_fits_dec w) as [?|?]; [contradiction|assumption]. }
  assert (Hresume : resume (t_coro t) (Ok v) w1
           = (Err division_overflow, snd (create_task (co_tick None) w1))).
  { destruct Hc as [-> | ->]; cbn -[run_loop];
      unfold lift_coro, await_coro, bind; cbn -[run_loop]; unfold run_begin;
      rewrite (run_loop_overflow w1 Hs1 Hbig1); reflexivity. }
  unfold exec1. rewrite Hr. unfold run_handle, task_step.
  change (tasks (with_ready rest w)) with (tasks w).
  rewrite Ht, Hres, Hmc.
  rewrite (update_task_eq tid _ (with_ready rest w) t Ht).
  change (with_tasks (<[tid:=set_t_must_cancel false t]> (tasks (with_ready rest w)))
            (with_ready rest w)) with w1.
  rewrite Hresume. unfold finish_task.
  assert (Hl2 : tasks (snd (create_task (co_tick None) w1)) !! tid = Some t1).
  { cbn. rewrite lookup_app_l by (rewrite length_insert; exact Hlt).
    apply list_lookup_insert_eq, Hlt. }
  rewrite Hl2.
  eexists. eexists. split; [reflexivity|]. cbn.
  rewrite list_lookup_insert_eq by (rewrite length_app, length_insert; lia).
  split; [reflexivity|]. split; [reflexivity|]. split; [reflexivity|].
  rewrite length_insert. split; [|split; reflexivity].
  rewrite list_lookup_insert_ne by lia.
  rewrite lookup_app_r by (rewrite length_insert; lia).
  rewrite length_insert, Nat.sub_diag. reflexivity.
Qed.

(** C3, as stated, fails for an interval that no float can hold: with
    [interval_ms = 10 ** 400] and [stopping] false, the first iteration
    of [run] spawns the tick and then, instead of suspending, ends the
    task of [run] with [OverflowError]; no sleep is ever awaited, and
    the done callback sets [stopped] although [stopping] was never set. *)
Lemma C3_counterexample :
  let w := loop_overflow_world in
  stopping (exporter w) = false
  ∧ ready w = [h_step 1 (Ok VNone)]
  ∧ (∃ t, tasks w !! 1 = Some t ∧ t_coro t = co_run None ∧ t_result t = None)
  ∧ fst (run_loop w) = Err division_overflow
  ∧ ∃ w',
      exec [run_next; run_next; run_next] w = Some w'
      ∧ task_result w' 1 = Some (Err division_overflow)
      ∧ trace w' = [ef_create_task 1 (co_run None); ef_await aw_signal;
                    ef_create_task 2 (co_tick None)]
      ∧ stopping (exporter w') = false
      ∧ stopped (exporter w') = true.
Proof.
  split; [reflexivity|]. split; [reflexivity|].
  split; [eexists; repeat split|].
  split; [vm_compute; reflexivity|].
  eexists. split; [vm_compute; reflexivity|]. repeat split.
Qed.

(** C3, amended: at the head of every iteration of [run] (on
    entry and each time the sleep returns), while [stopping] is false the
    loop creates a task for [tick()] - registered and queued, its
    coroutine not started, and not awaited - and then evaluates
    [self.interval_ms / 1000].  When the quotient fits a float
    ([|interval_ms| < 1000 * (2^1024 - 2^970)]) the loop suspends on
    [asyncio.sleep] of that float, which is [interval_ms] milliseconds
    up to a relative error of [2^-53]; on the event loop, for a positive
    interval, the task is left blocked on the timer with the tick task
    queued behind it, so the tick runs while the loop sleeps.  Otherwise
    the division raises [OverflowError] after the tick was spawned:
    nothing is awaited, and on the event loop the task of [run] is done
    with that error once it has spawned this one tick.  When [run] finds
    [stopping] true it sets [stopped] and returns, spawning nothing. *)
Theorem C3_run_iteration (w : world) :
  run_begin w = run_loop w
  ∧ (∀ v, run_resume (run_L189 sleep_L166) (Ok v) w = run_loop w)
  ∧ (stopping (exporter w) = false → delay_fits w →
     ∃ w', run_loop w = (Val (Yield (aw_sleep (poll_delay w)) (run_L189 sleep_L166)), w')
       ∧ tasks w' = tasks w ++ [new_task (co_tick None)]
       ∧ ready w' = ready w ++ [h_step (length (tasks w)) (Ok VNone)]
       ∧ trace w' = trace w ++ [ef_create_task (length (tasks w)) (co_tick None);
                                ef_await (aw_sleep (poll_delay w))]
       ∧ exporter w' = exporter w
       ∧ int_true_divide (interval_ms (exporter w)) 1000 = Val (poll_delay w)
       ∧ (Qabs (poll_delay w * 1000 - inject_Z (interval_ms (exporter w)))
            * inject_Z (2 ^ 53)
          <= Qabs (inject_Z (interval_ms (exporter w))))%Q)
  ∧ (stopping (exporter w) = false → ¬ delay_fits w →
     ∃ w', run_loop w = (Err division_overflow, w')
       ∧ tasks w' = tasks w ++ [new_task (co_tick None)]
       ∧ ready w' = ready w ++ [h_step (length (tasks w)) (Ok VNone)]
       ∧ trace w' = trace w ++ [ef_create_task (length (tasks w)) (co_tick None)]
       ∧ exporter w' = exporter w)
  ∧ (stopping (exporter w) = true →
     ∃ w', run_loop w = (Val Done, w')
       ∧ stopped (exporter w') = true
       ∧ length (tasks w') = length (tasks w)
       ∧ trace w' = trace w)
  ∧ (∀ tid t v rest,
       ready w = h_step tid (Ok v) :: rest →
       tasks w !! tid = Some t → t_result t = None → t_must_cancel t = false →
       (t_coro t = co_run None ∨ t_coro t = co_run (Some (run_L189 sleep_L166))) →
       stopping (exporter w) = false →
       (delay_fits w → (0 < interval_ms (exporter w))%Z →
        ∃ w' t',
          exec1 run_next w = Some w'
          ∧ tasks w' !! tid = Some t'
          ∧ t_coro t' = co_run (Some (run_L189 sleep_L166))
          ∧ t_waiting t' = Some (aw_sleep (poll_delay w))
          ∧ t_result t' = None
          ∧ tasks w' !! length (tasks w) = Some (new_task (co_tick None))
          ∧ ready w' = rest ++ [h_step (length (tasks w)) (Ok VNone)])
       ∧ (¬ delay_fits w →
          ∃ w' t',
            exec1 run_next w = Some w'
            ∧ tasks w' !! tid = Some t'
            ∧ t_result t' = Some (Err division_overflow)
            ∧ t_waiting t' = None
            ∧ tasks w' !! length (tasks w) = Some (new_task (co_tick None))
            ∧ ready w' = (rest ++ [h_step (length (tasks w)) (Ok VNone)])
                         ++ map (λ cb, h_callback cb tid) (t_callbacks t)
            ∧ trace w' = trace w ++ [ef_create_task (length (tasks w)) (co_tick None)])).
Proof.
  split; [reflexivity|]. split; [reflexivity|]. split; [|split; [|split]].
  - intros H Hfit. eexists. split; [apply (run_loop_running w H Hfit)|].
    cbn. rewrite <- app_assoc. repeat split.
    + apply int_true_divide_fits, Hfit.
    + apply float_value_accuracy.
  - intros H Hbig. eexists. split.
    + apply (run_loop_overflow w H).
      destruct (delay_fits_dec w) as [?|?]; [contradiction|assumption].
    + cbn. repeat split.
  - intros H. eexists. split; [apply run_loop_stopping, H|].
    pose proof (Event_set_spec w) as (? & _ & _ & _ & _ & ? & _).
    split; [assumption|]. split; [apply Event_set_tasks_length|assumption].
  - intros tid t v rest Hr Ht Hres Hmc Hc Hs. split.
    + intros Hfit Hi. eapply run_step_on_loop; eauto.
    + intros Hbig. eapply run_step_overflow; eauto.
Qed.

Lemma C3_run_iteration_witness :
  let w := loop_entry_world in
  let wo := loop_overflow_world in
  let ws := loop_stopping_world in
  (stopping (exporter w) = false ∧ delay_fits w
   ∧ (∃ w', run_loop w = (Val (Yield (aw_sleep (poll_delay w)) (run_L189 sleep_L166)), w')
       ∧ tasks w' = tasks w ++ [new_task (co_tick None)]
       ∧ ready w' = ready w ++ [h_step (length (tasks w)) (Ok VNone)]
       ∧ trace w' = trace w ++ [ef_create_task (length (tasks w)) (co_tick None);
                                ef_await (aw_sleep (poll_delay w))]
       ∧ exporter w' = exporter w
       ∧ int_true_divide (interval_ms (exporter w)) 1000 = Val (poll_delay w)
       ∧ (Qabs (poll_delay w * 1000 - inject_Z (interval_ms (exporter w)))
            * inject_Z (2 ^ 53)
          <= Qabs (inject_Z (interval_ms (exporter w))))%Q)
   ∧ ready w = [h_step 1 (Ok VNone)]
   ∧ ∃ w' t',
       exec1 run_next w = Some w'
       ∧ tasks w' !! 1 = Some t'
       ∧ t_coro t' = co_run (Some (run_L189 sleep_L166))
       ∧ t_waiting t' = Some (aw_sleep (poll_delay w))
       ∧ t_result t' = None
       ∧ tasks w' !! length (tasks w) = Some (new_task (co_tick None))
       ∧ ready w' = [] ++ [h_step (length (tasks w)) (Ok VNone)])
  ∧ (stopping (exporter wo) = false ∧ ¬ delay_fits wo
     ∧ (∃ w', run_loop wo = (Err division_overflow, w')
         ∧ tasks w' = tasks wo ++ [new_task (co_tick None)]
         ∧ ready w' = ready wo ++ [h_step (length (tasks wo)) (Ok VNone)]
         ∧ trace w' = trace wo ++ [ef_create_task (length (tasks wo)) (co_tick None)]
         ∧ exporter w' = exporter wo)
     ∧ ∃ w' t',
         exec1 run_next wo = Some w'
         ∧ tasks w' !! 1 = Some t'
         ∧ t_result t' = Some (Err division_overflow)
         ∧ t_waiting t' = None
         ∧ tasks w' !! length (tasks wo) = Some (new_task (co_tick None))
         ∧ ready w' = ([] ++ [h_step (length (tasks wo)) (Ok VNone)])
                      ++ map (λ cb, h_callback cb 1) [cb_on_runner_task_done]
         ∧ trace w' = trace wo ++ [ef_create_task (length (tasks wo)) (co_tick None)])
  ∧ (stopping (exporter ws) = true ∧ stopped (exporter ws) = false
     ∧ (∃ rest, ready ws = h_step 1 (Ok VNone) :: rest)
     ∧ (∃ t, tasks ws !! 1 = Some t ∧ t_result t = None ∧ t_must_cancel t = false
             ∧ t_coro t = co_run (Some (run_L189 sleep_L166)))
     ∧ ∃ w', run_loop ws = (Val Done, w')
         ∧ stopped (exporter w') = true
         ∧ length (tasks w') = length (tasks ws)
         ∧ trace w' = trace ws).
Proof.
  assert (Hfit : delay_fits loop_entry_world) by (vm_compute; reflexivity).
  assert (Hbig : ¬ delay_fits loop_overflow_world)
    by (intros H; vm_compute in H; discriminate).
  split; [|split].
  - split; [reflexivity|]. split; [exact Hfit|]. split; [|split; [reflexivity|]].
    + apply (proj1 (proj2 (proj2 (C3_run_iteration loop_entry_world))));
        [reflexivity|exact Hfit].
    + apply (proj1 (proj2 (proj2 (proj2 (proj2 (proj2 (C3_run_iteration loop_entry_world)))))
               1 (add_t_callback cb_on_runner_task_done (new_task (co_run None)))
               VNone [] eq_refl eq_refl eq_refl eq_refl (or_introl eq_refl) eq_refl));
        [exact Hfit|reflexivity].
  - split; [reflexivity|]. split; [exact Hbig|]. split.
    + apply (proj1 (proj2 (proj2 (proj2 (C3_run_iteration loop_overflow_world)))));
        [reflexivity|exact Hbig].
    + apply (proj2 (proj2 (proj2 (proj2 (proj2 (proj2 (C3_run_iteration loop_overflow_world)))))
               1 (add_t_callback cb_on_runner_task_done (new_task (co_run None)))
               VNone [] eq_refl eq_refl eq_refl eq_refl (or_introl eq_refl) eq_refl)).
      exact Hbig.
  - split; [reflexivity|]. split; [reflexivity|].
    split; [eexists; vm_compute; reflexivity|].
    split; [eexists; vm_compute; repeat split|].
    apply (proj1 (proj2 (proj2 (proj2 (proj2 (C3_run_iteration loop_stopping_world)))))).
    reflexivity.
Defined.

(** With the default interval the loop sleeps exactly 30 seconds. *)
Example default_poll_delay : (poll_delay loop_entry_world == 30)%Q.
Proof. reflexivity. Qed.

(** ** [tick] up to its await, and after *)

Lemma get_contract_eq (n : SupportedNetworks) :
  get_hyperlane_merkle_tree_hook_contract n = Val (contract_of n).
Proof. destruct n; reflexivity. Qed.

(** The three ways [tick] can reach its [await]. *)
Lemma tick_begin_cached (w : world) (c : AsyncContract) :
  contract (exporter w) = Some c →
  tick_begin w
  = (Val (Yield (latestCheckpoint_call c) tick_L181),
     with_trace (trace w ++ [ef_await (latestCheckpoint_call c)]) w).
Proof.
  intros H. unfold tick_begin, self_contract, bind, get_self. rewrite H.
  reflexivity.
Qed.

Lemma tick_begin_first (w : world) (n : SupportedNetworks) :
  contract (exporter w) = None → network (exporter w) = Some n →
  tick_begin w
  = (Val (Yield (latestCheckpoint_call (contract_of n)) tick_L181),
     with_trace (trace w ++ [ef_await (latestCheckpoint_call (contract_of n))])
       (with_exporter (set_contract (contract_of n)) w)).
Proof.
  intros H1 H2.
  unfold tick_begin, self_contract, self_network, bind, get_self.
  rewrite H1, H2. cbn. rewrite get_contract_eq. reflexivity.
Qed.

Lemma tick_begin_unresolved (w : world) :
  contract (exporter w) = None → network (exporter w) = None →
  tick_begin w = (Err (AttributeError "network"), w).
Proof.
  intros H1 H2.
  unfold tick_begin, self_contract, self_network, bind, get_self.
  rewrite H1, H2. reflexivity.
Qed.

Lemma tick_resume_exc (w : world) (e : exn) :
  tick_resume tick_L181 (Exc e) w = (Err e, w).
Proof. reflexivity. Qed.

Lemma tick_resume_ok (w : world) (n : SupportedNetworks) (root : list Byte.byte) (v : Z) :
  network (exporter w) = Some n →
  tick_resume tick_L181 (Ok (VCheckpoint root v)) w
  = (Val Done,
     with_trace
       ((trace w ++ [ef_log "Fetched checkpoint index from contract: %s" [VInt v]])
          ++ [ef_gauge_set (str n) v])
       (with_gauge (<[str n := v]> (hyperlane_contract_latest_checkpoint w))
          (log "Fetched checkpoint index from contract: %s" [VInt v] w))).
Proof.
  intros H. unfold tick_resume, self_network, bind, get_self; cbn.
  rewrite H. reflexivity.
Qed.

Lemma gauge_sets_app (t1 t2 : list effect) :
  gauge_sets (t1 ++ t2) = gauge_sets t1 ++ gauge_sets t2.
Proof. apply omap_app. Qed.

Lemma tick_begin_no_write (w : world) :
  hyperlane_contract_latest_checkpoint (snd (tick_begin w))
  = hyperlane_contract_latest_checkpoint w
  ∧ gauge_sets (trace (snd (tick_begin w))) = gauge_sets (trace w).
Proof.
  destruct (contract (exporter w)) as [c|] eqn:Hc.
  - rewrite (tick_begin_cached _ _ Hc). cbn.
    rewrite gauge_sets_app, app_nil_r. auto.
  - destruct (network (exporter w)) as [n|] eqn:Hn.
    + rewrite (tick_begin_first _ _ Hc Hn). cbn.
      rewrite gauge_sets_app, app_nil_r. auto.
    + rewrite (tick_begin_unresolved _ Hc Hn). auto.
Qed.

(** * Invariants of the event loop *)

(** ** Predicates preserved by every coroutine *)

Section Preserves.
Context (P : world → Prop).

Lemma pres_ret {A : Type} (a : A) : preserves P (ret a).
Proof. intros w H. exact H. Qed.

Lemma pres_raise {A : Type} (e : exn) : preserves P (@raise A e).
Proof. intros w H. exact H. Qed.

Lemma pres_bind {A B : Type} (m : M A) (k : A → M B) :
  preserves P m → (∀ a, preserves P (k a)) → preserves P (bind m k).
Proof.
  intros Hm Hk w H. unfold bind. specialize (Hm w H).
  destruct (m w) as [[a|e] w']; cbn in *; [apply Hk, Hm|exact Hm].
Qed.

Lemma pres_get_self : preserves P get_self.
Proof. intros w H. exact H. Qed.

Lemma pres_lift_res {A : Type} (r : res A) : preserves P (lift_res r).
Proof. destruct r; intros w H; exact H. Qed.

Lemma pres_enter {PC : Type} (inp : outcome) (m : M (susp PC)) :
  preserves P m → preserves P (enter inp m).
Proof. intros H. destruct inp; [exact H|apply pres_raise]. Qed.

Lemma pres_await_coro {A B : Type} (f : M (susp A)) (wrap : A → B) (k : M (susp B)) :
  preserves P f → preserves P k → preserves P (await_coro f wrap k).
Proof.
  intros Hf Hk. apply pres_bind; [exact Hf|].
  intros [|aw p]; [exact Hk|apply pres_ret].
Qed.

Lemma pres_lift_coro {PC : Type} (wrap : option PC → coro) (m : M (susp PC)) :
  preserves P m → preserves P (lift_coro wrap m).
Proof. intros H. apply pres_bind; [exact H|]. intros s. apply pres_ret. Qed.

Context (HP : robust P).

Lemma pres_logger_info msg args :
  is_discovered msg = false → preserves P (logger_info msg args).
Proof. intros Hm w H. apply (rb_log P HP); assumption. Qed.

Lemma pres_await {PC : Type} (aw : awaitable) (pc : PC) :
  is_call aw = false → preserves P (await aw pc).
Proof. intros Ha w H. apply (rb_await P HP); assumption. Qed.

Lemma pres_create_task (c : coro) : unstarted c → preserves P (create_task c).
Proof. intros Hc w H. apply (rb_create P HP); assumption. Qed.

Lemma pres_task_cancel (t : task_id) : preserves P (task_cancel t).
Proof. intros w H. apply (rb_cancel P HP), H. Qed.

Lemma pres_add_done_callback t cb : preserves P (add_done_callback t cb).
Proof. intros w H. apply (rb_callback P HP), H. Qed.

Lemma pres_Event_set : preserves P Event_set.
Proof. intros w H. apply (rb_event P HP), H. Qed.

Lemma pres_self_network : preserves P self_network.
Proof.
  apply pres_bind; [apply pres_get_self|]. intros self.
  destruct (network self); [apply pres_ret|apply pres_raise].
Qed.

Lemma pres_self_runner_task : preserves P self_runner_task.
Proof.
  apply pres_bind; [apply pres_get_self|]. intros self.
  destruct (_runner_task self); [apply pres_ret|apply pres_raise].
Qed.

Lemma pres_start : preserves P start.
Proof.
  apply pres_bind; [apply pres_create_task; left; reflexivity|]. intros t.
  apply pres_bind; [|intros _; apply pres_add_done_callback].
  intros w H. apply (rb_runner P HP), H.
Qed.

Lemma pres_stop_begin : preserves P stop_begin.
Proof.
  apply pres_bind; [apply pres_logger_info; reflexivity|]. intros _.
  apply pres_bind; [intros w H; apply (rb_stopping P HP), H|]. intros _.
  apply pres_bind; [apply pres_self_runner_task|]. intros t.
  apply pres_bind; [apply pres_task_cancel|]. intros _.
  apply pres_bind; [apply pres_get_self|]. intros self.
  destruct (negb (stopped self)); apply pres_await; reflexivity.
Qed.

Lemma pres_stop_resume pc inp : preserves P (stop_resume pc inp).
Proof.
  destruct inp; [|apply pres_raise].
  destruct pc; [apply pres_await; reflexivity|].
  apply pres_bind; [apply pres_logger_info; reflexivity|]. intros _. apply pres_ret.
Qed.

Lemma pres_sleep_begin : preserves P sleep_begin.
Proof.
  apply pres_bind; [apply pres_get_self|]. intros self.
  apply pres_bind; [apply pres_lift_res|]. intros delay.
  apply pres_bind; [|intros _; apply pres_ret].
  intros w H. apply (rb_await P HP); [reflexivity|exact H].
Qed.

Lemma pres_sleep_resume pc inp : preserves P (sleep_resume pc inp).
Proof. destruct inp; [apply pres_ret|apply pres_raise]. Qed.

Lemma pres_init_begin : preserves P init_begin.
Proof. apply pres_await. reflexivity. Qed.

Lemma pres_init_resume pc inp : preserves P (init_resume pc inp).
Proof.
  destruct inp as [chain_id|e]; [|apply pres_raise]. cbn.
  destruct (py_eq_int chain_id 1).
  { intros w H. apply (rb_init P HP w MAINNET), H. }
  destruct (py_eq_int chain_id 17000); [|apply pres_raise].
  intros w H. apply (rb_init P HP w HOLESKY), H.
Qed.

Lemma pres_tick_begin : preserves P tick_begin.
Proof.
  intros w H. destruct (contract (exporter w)) as [c|] eqn:Hc.
  - rewrite (tick_begin_cached _ _ Hc). cbn.
    apply (rb_call P HP); assumption.
  - destruct (network (exporter w)) as [n|] eqn:Hn.
    + rewrite (tick_begin_first _ _ Hc Hn). cbn.
      apply (rb_call P HP (with_exporter (set_contract (contract_of n)) w));
        [reflexivity|].
      apply (rb_contract P HP w n); auto using get_contract_eq.
    + rewrite (tick_begin_unresolved _ Hc Hn). exact H.
Qed.

Lemma pres_tick_resume pc inp : preserves P (tick_resume pc inp).
Proof.
  destruct pc. intros w H.
  destruct inp as [v|e]; [|exact H].
  destruct v as [| | |root v]; try exact H.
  destruct (network (exporter w)) as [n|] eqn:Hn.
  - rewrite (tick_resume_ok _ _ _ _ Hn). cbn.
    apply (rb_set P HP (log "Fetched checkpoint index from contract: %s" [VInt v] w)
             n v Hn).
    apply (rb_log P HP); [reflexivity|exact H].
  - unfold tick_resume, bind, self_network, get_self; cbn. rewrite Hn. cbn.
    apply (rb_log P HP); [reflexivity|exact H].
Qed.

Lemma pres_run_loop : preserves P run_loop.
Proof.
  apply pres_bind; [apply pres_get_self|]. intros self.
  destruct (negb (stopping self)).
  - apply pres_bind; [apply pres_create_task; right; reflexivity|]. intros _.
    apply pres_bind; [apply pres_sleep_begin|]. intros [aw p]. apply pres_ret.
  - apply pres_bind; [apply pres_Event_set|]. intros _. apply pres_ret.
Qed.

Lemma pres_run_resume pc inp : preserves P (run_resume pc inp).
Proof.
  destruct pc. apply pres_await_coro; [apply pres_sleep_resume|apply pres_run_loop].
Qed.

Lemma pres_start_exporter_app_L87 : preserves P start_exporter_app_L87.
Proof. apply pres_bind; [apply pres_start|]. intros _. apply pres_ret. Qed.

Lemma pres_start_exporter_app_L86 : preserves P start_exporter_app_L86.
Proof.
  apply pres_await_coro; [apply pres_tick_begin|apply pres_start_exporter_app_L87].
Qed.

Lemma pres_start_exporter_app_L84 : preserves P start_exporter_app_L84.
Proof.
  apply pres_await_coro; [apply pres_init_begin|apply pres_start_exporter_app_L86].
Qed.

Lemma pres_start_exporter_app_resume pc inp :
  preserves P (start_exporter_app_resume pc inp).
Proof.
  destruct pc; cbn.
  - destruct inp; [apply pres_start_exporter_app_L84|apply pres_raise].
  - apply pres_await_coro; [apply pres_init_resume|apply pres_start_exporter_app_L86].
  - apply pres_await_coro; [apply pres_tick_resume|apply pres_start_exporter_app_L87].
Qed.

Lemma pres_stop_exporter_app_begin : preserves P stop_exporter_app_begin.
Proof. apply pres_await_coro; [apply pres_stop_begin|apply pres_ret]. Qed.

Lemma pres_stop_exporter_app_resume pc inp :
  preserves P (stop_exporter_app_resume pc inp).
Proof.
  destruct pc. apply pres_await_coro; [apply pres_stop_resume|apply pres_ret].
Qed.

Lemma pres_op_begin (o : op) : preserves P (op_begin o).
Proof.
  destruct o; cbn.
  - apply pres_await_coro; [apply pres_init_begin|apply pres_ret].
  - apply pres_await_coro; [apply pres_tick_begin|apply pres_ret].
  - apply pres_bind; [apply pres_start|]. intros _. apply pres_ret.
  - apply pres_await_coro; [apply pres_stop_begin|apply pres_ret].
  - apply pres_await_coro; [apply pres_await; reflexivity|apply pres_ret].
  - apply pres_await_coro; [apply pres_stop_exporter_app_begin|apply pres_ret].
  - apply pres_await. reflexivity.
Qed.

Lemma pres_op_resume (pc : op_pc) (inp : outcome) : preserves P (op_resume pc inp).
Proof.
  destruct pc; cbn.
  - apply pres_await_coro; [apply pres_init_resume|apply pres_ret].
  - apply pres_await_coro; [apply pres_tick_resume|apply pres_ret].
  - apply pres_await_coro; [apply pres_stop_resume|apply pres_ret].
  - apply pres_await_coro; [apply pres_start_exporter_app_resume|apply pres_ret].
  - apply pres_await_coro; [apply pres_stop_exporter_app_resume|apply pres_ret].
  - apply pres_enter, pres_ret.
Qed.

Context (HS : script_robust P).

Lemma pres_mark_done (o : op) : preserves P (mark_done o).
Proof. intros w H. apply (rb_script P HS), H. Qed.

Lemma pres_main_run (todo : list op) : preserves P (main_run todo).
Proof.
  induction todo as [|o rest IH]; cbn; [apply pres_ret|].
  apply pres_bind; [intros w H; apply (rb_script P HS), H|]. intros _.
  apply pres_bind; [apply pres_op_begin|]. intros [|aw p]; [|apply pres_ret].
  apply pres_bind; [apply pres_mark_done|]. intros _. exact IH.
Qed.

Lemma pres_main_begin : preserves P main_begin.
Proof. intros w H. apply (pres_main_run (script_todo w)), H. Qed.

Lemma pres_main_resume pc inp : preserves P (main_resume pc inp).
Proof.
  apply pres_bind; [apply pres_op_resume|]. intros [|aw p]; [|apply pres_ret].
  apply pres_bind; [apply pres_mark_done|]. intros _. apply pres_main_begin.
Qed.

Lemma pres_resume (c : coro) (inp : outcome) : preserves P (resume c inp).
Proof.
  destruct c as [[p|]|[p|]|[p|]]; cbn; apply pres_lift_coro.
  - apply pres_run_resume.
  - apply pres_enter, pres_run_loop.
  - apply pres_tick_resume.
  - apply pres_enter, pres_tick_begin.
  - apply pres_main_resume.
  - apply pres_enter, pres_main_begin.
Qed.
End Preserves.

(** ** Handles and blocked tasks *)

Lemma steps_of_app tid (a b : list handle) :
  steps_of tid (a ++ b) = steps_of tid a + steps_of tid b.
Proof. unfold steps_of. rewrite List.filter_app, length_app. reflexivity. Qed.

Lemma steps_of_cons_step tid t o (hs : list handle) :
  steps_of tid (h_step t o :: hs)
  = (if Nat.eqb t tid then 1 else 0) + steps_of tid hs.
Proof. unfold steps_of. cbn. destruct (Nat.eqb t tid); reflexivity. Qed.

Lemma steps_of_cons_callback tid cb t (hs : list handle) :
  steps_of tid (h_callback cb t :: hs) = steps_of tid hs.
Proof. reflexivity. Qed.

Lemma steps_of_callbacks tid t (cbs : list callback) :
  steps_of tid (map (λ cb, h_callback cb t) cbs) = 0.
Proof. induction cbs; [reflexivity|exact IHcbs]. Qed.

Lemma steps_of_one tid t o :
  steps_of tid [h_step t o] = if Nat.eqb t tid then 1 else 0.
Proof. unfold steps_of. cbn. destruct (Nat.eqb t tid); reflexivity. Qed.

Lemma steps_of_zero_not_in tid (hs : list handle) o :
  steps_of tid hs = 0 → ¬ In (h_step tid o) hs.
Proof.
  induction hs as [|h hs IH]; intros H [].
  - subst h. rewrite steps_of_cons_step, Nat.eqb_refl in H. discriminate.
  - destruct h; [rewrite steps_of_cons_step in H|rewrite steps_of_cons_callback in H];
      apply IH; [lia|assumption..].
Qed.

Lemma blocked_insert_eq (ts : list task) tid (t : task) :
  tid < length ts →
  blocked (<[tid := t]> ts) tid = match t_waiting t with Some _ => 1 | None => 0 end.
Proof. intros H. unfold blocked. rewrite list_lookup_insert_eq by exact H. reflexivity. Qed.

Lemma blocked_insert_ne (ts : list task) tid tid' (t : task) :
  tid ≠ tid' → blocked (<[tid := t]> ts) tid' = blocked ts tid'.
Proof. intros H. unfold blocked. rewrite list_lookup_insert_ne by exact H. reflexivity. Qed.

Lemma blocked_none (ts : list task) tid :
  (length ts ≤ tid)%nat → blocked ts tid = 0.
Proof. intros H. unfold blocked. rewrite lookup_ge_None_2 by exact H. reflexivity. Qed.

Lemma blocked_app_new (ts : list task) (c : coro) tid :
  blocked (ts ++ [new_task c]) tid = blocked ts tid.
Proof.
  unfold blocked. destruct (Nat.lt_ge_cases tid (length ts)) as [H|H].
  - rewrite lookup_app_l by exact H. reflexivity.
  - rewrite (lookup_ge_None_2 ts) by exact H.
    rewrite lookup_app_r by exact H.
    destruct (tid - length ts) as [|k]; [reflexivity|].
    cbn. reflexivity.
Qed.

(** What [wake_waiters] does to each task and which handles it adds. *)
Lemma wake_waiters_spec (i : task_id) (ts : list task) :
  let ts' := fst (wake_waiters i ts) in
  let hs := snd (wake_waiters i ts) in
  (∀ tid, tid < i → steps_of tid hs = 0)
  ∧ (∀ k, steps_of (i + k) hs + blocked ts' k = blocked ts k)
  ∧ (∀ k t, ts !! k = Some t →
       ∃ t', ts' !! k = Some t'
             ∧ t_coro t' = t_coro t ∧ t_result t' = t_result t
             ∧ (t_waiting t' = None ∨ t_waiting t' = t_waiting t))
  ∧ (∀ k t', ts' !! k = Some t' →
       ∃ t, ts !! k = Some t
            ∧ t_coro t' = t_coro t ∧ t_result t' = t_result t
            ∧ (t_waiting t' = None ∨ t_waiting t' = t_waiting t)).
Proof.
  revert i. induction ts as [|t ts IH]; intros i; cbn.
  - repeat split; intros; try reflexivity; try discriminate.
  - specialize (IH (S i)). destruct (wake_waiters (S i) ts) as [ts'' hs''].
    cbn in IH. destruct IH as (IH1 & IH2 & IH3 & IH4).
    destruct (is_event_wait (t_waiting t)) eqn:E; cbn.
    + destruct (t_waiting t) as [aw|] eqn:Ew; [|discriminate].
      repeat split.
      * intros tid Hlt. rewrite steps_of_cons_step.
        destruct (Nat.eqb_spec i tid); [lia|]. cbn. apply IH1. lia.
      * intros [|k].
        -- replace (i + 0) with i by lia.
           rewrite steps_of_cons_step, Nat.eqb_refl.
           unfold blocked; cbn. rewrite Ew, IH1 by lia. reflexivity.
        -- rewrite steps_of_cons_step.
           destruct (Nat.eqb_spec i (i + S k)); [lia|].
           replace (i + S k) with (S i + k) by lia. cbn. apply IH2.
      * intros [|k] t0 H; cbn in *.
        -- inversion H; subst. eexists. split; [reflexivity|]. cbn. auto.
        -- apply IH3, H.
      * intros [|k] t0 H; cbn in *.
        -- inversion H; subst. eexists. split; [reflexivity|]. cbn. auto.
        -- apply IH4, H.
    + repeat split.
      * intros tid Hlt. apply IH1. lia.
      * intros [|k].
        -- replace (i + 0) with i by lia. rewrite IH1 by lia. reflexivity.
        -- replace (i + S k) with (S i + k) by lia. apply IH2.
      * intros [|k] t0 H; cbn in *.
        -- inversion H; subst. eexists. split; [reflexivity|]. auto.
        -- apply IH3, H.
      * intros [|k] t0 H; cbn in *.
        -- inversion H; subst. eexists. split; [reflexivity|]. auto.
        -- apply IH4, H.
Qed.

(** ** What the primitives do to the loop state *)

Lemma task_cancel_view (t : task_id) (w : world) :
  let w' := snd (task_cancel t w) in
  same_state w w'
  ∧ ( (tasks w' = tasks w ∧ ready w' = ready w)
    ∨ (∃ x aw, tasks w !! t = Some x ∧ t_result x = None ∧ t_waiting x = Some aw
               ∧ tasks w' = <[t := set_t_waiting None x]> (tasks w)
               ∧ ready w' = ready w ++ [h_step t (Exc CancelledError)])
    ∨ (∃ x x', tasks w !! t = Some x ∧ same_task x x'
               ∧ tasks w' = <[t := x']> (tasks w) ∧ ready w' = ready w) ).
Proof.
  unfold task_cancel; cbn. split; [repeat split; destruct (tasks w !! t) as [x|];
    try destruct (t_result x); try destruct (t_waiting x); reflexivity|].
  destruct (tasks w !! t) as [x|] eqn:E; [|left; auto].
  destruct (t_result x) eqn:Er; [left; auto|].
  destruct (t_waiting x) as [aw|] eqn:Ew; cbn.
  - right; left. exists x, aw. auto.
  - right; right. exists x, (set_t_must_cancel true x).
    repeat split; auto.
Qed.

Lemma add_done_callback_view (t : task_id) (cb : callback) (w : world) :
  let w' := snd (add_done_callback t cb w) in
  same_state w w' ∧ trace w' = trace w
  ∧ ( (tasks w' = tasks w ∧ ready w' = ready w)
    ∨ (tasks w' = tasks w ∧ ready w' = ready w ++ [h_callback cb t])
    ∨ (∃ x x', tasks w !! t = Some x ∧ same_task x x'
               ∧ tasks w' = <[t := x']> (tasks w) ∧ ready w' = ready w) ).
Proof.
  unfold add_done_callback; cbn.
  destruct (tasks w !! t) as [x|] eqn:E; [|repeat split; auto].
  destruct (t_result x) eqn:Er; cbn.
  - repeat split; auto.
  - repeat split; auto. right; right. exists x, (add_t_callback cb x).
    repeat split; auto.
Qed.

Lemma Event_set_view (w : world) :
  let w' := snd (Event_set w) in
  trace w' = trace w
  ∧ hyperlane_contract_latest_checkpoint w' = hyperlane_contract_latest_checkpoint w
  ∧ script_todo w' = script_todo w ∧ script_done w' = script_done w
  ∧ ( w' = w
    ∨ (exporter w' = set_stopped true (exporter w)
       ∧ tasks w' = fst (wake_waiters 0 (tasks w))
       ∧ ready w' = ready w ++ snd (wake_waiters 0 (tasks w))) ).
Proof.
  unfold Event_set. destruct (stopped (exporter w)); cbn; [repeat split; auto|].
  destruct (wake_waiters 0 (tasks w)) as [ts hs]; cbn. repeat split; auto.
Qed.

(** ** Facts about the exporter that only become true *)

Lemma ext_refl e : ext e e.
Proof. split; auto. Qed.

Lemma ext_trans e1 e2 e3 : ext e1 e2 → ext e2 e3 → ext e1 e3.
Proof. intros [] []. split; auto. Qed.

Lemma extends_robust e0 : robust (extends e0).
Proof.
  split; unfold extends; try (intros; assumption).
  - intros w n []; split; cbn; auto.
  - intros w [] ; split; cbn; auto.
  - intros w n c _ _ _ []; split; cbn; auto.
  - intros w t []; split; cbn; auto.
  - intros w t H. destruct (task_cancel_view t w) as [(-> & _) _]. exact H.
  - intros w t cb H. destruct (add_done_callback_view t cb w) as [(-> & _) _]. exact H.
  - intros w H. destruct (Event_set_view w) as (_ & _ & _ & _ & [->| (-> & _)]);
      [exact H|]. destruct H; split; cbn; auto.
Qed.

Lemma extends_script_robust e0 : script_robust (extends e0).
Proof. split. intros; assumption. Qed.

(** Every step of every coroutine only extends the exporter's facts. *)
Lemma resume_ext (c : coro) (inp : outcome) (w : world) :
  ext (exporter w) (exporter (snd (resume c inp w))).
Proof.
  apply (pres_resume (extends (exporter w)) (extends_robust _)
           (extends_script_robust _) c inp w).
  apply ext_refl.
Qed.

(** ** One wake-up per task *)

Lemma blocked_same_task (ts : list task) t x x' tid :
  ts !! t = Some x → same_task x x' →
  blocked (<[t := x']> ts) tid = blocked ts tid.
Proof.
  intros Hx (_ & _ & Hw).
  destruct (Nat.eq_dec t tid) as [->|Hne].
  - rewrite blocked_insert_eq by (eapply lookup_lt_Some; eauto).
    unfold blocked. rewrite Hx, Hw. reflexivity.
  - apply blocked_insert_ne, Hne.
Qed.

Lemma unique_steps_robust : robust unique_steps.
Proof.
  split; try (intros; assumption).
  - (* create_task *)
    intros w c _ [H1 H2]. split; cbn; intros tid.
    + rewrite steps_of_app, steps_of_one, blocked_app_new.
      destruct (Nat.eqb_spec (length (tasks w)) tid) as [<-|Hne].
      * rewrite H2 by lia. rewrite blocked_none by lia. lia.
      * specialize (H1 tid). lia.
    + rewrite length_app; cbn. intros Hle.
      rewrite steps_of_app, steps_of_one, H2 by lia.
      destruct (Nat.eqb_spec (length (tasks w)) tid); lia.
  - (* cancel *)
    intros w t [H1 H2].
    destruct (task_cancel_view t w) as [_ [(Ht & Hr)|[(x & aw & Hx & _ & Hw & Ht & Hr)|(x & x' & Hx & Hs & Ht & Hr)]]];
      split; intros tid; rewrite Ht, Hr; try rewrite length_insert; auto.
    + rewrite steps_of_app, steps_of_one. specialize (H1 tid).
      destruct (Nat.eqb_spec t tid) as [->|Hne].
      * rewrite blocked_insert_eq by (eapply lookup_lt_Some; eauto). cbn.
        unfold blocked in H1. rewrite Hx, Hw in H1. lia.
      * rewrite blocked_insert_ne by exact Hne. lia.
    + intros Hle. rewrite steps_of_app, steps_of_one, H2 by exact Hle.
      apply lookup_lt_Some in Hx.
      destruct (Nat.eqb_spec t tid); lia.
    + rewrite (blocked_same_task _ _ _ _ _ Hx Hs). apply H1.
  - (* add_done_callback *)
    intros w t cb [H1 H2].
    destruct (add_done_callback_view t cb w) as (_ & _ & [(Ht & Hr)|[(Ht & Hr)|(x & x' & Hx & Hs & Ht & Hr)]]);
      split; intros tid; rewrite Ht, Hr; try rewrite length_insert; auto.
    + rewrite steps_of_app. cbn. specialize (H1 tid).
      change (steps_of tid [h_callback cb t]) with 0. lia.
    + intros Hle. rewrite steps_of_app, H2 by exact Hle. reflexivity.
    + rewrite (blocked_same_task _ _ _ _ _ Hx Hs). apply H1.
  - (* Event.set *)
    intros w [H1 H2].
    destruct (Event_set_view w) as (_ & _ & _ & _ & [->|(_ & Ht & Hr)]);
      [split; assumption|].
    destruct (wake_waiters_spec 0 (tasks w)) as (_ & Hk & Hl & Hl').
    split; intros tid; rewrite Ht, Hr.
    + rewrite steps_of_app. specialize (Hk tid). cbn in Hk.
      specialize (H1 tid). lia.
    + intros Hle. rewrite steps_of_app.
      assert (Hlen : (length (tasks w) ≤ tid)%nat).
      { destruct (Nat.lt_ge_cases tid (length (tasks w))) as [Hlt|]; [|assumption].
        apply lookup_lt_is_Some in Hlt as [x Hx].
        destruct (Hl _ _ Hx) as (x' & Hx' & _).
        apply lookup_lt_Some in Hx'. lia. }
      rewrite H2 by exact Hlen. specialize (Hk tid). cbn in Hk.
      rewrite (blocked_none (tasks w)) in Hk by exact Hlen. lia.
Qed.

Lemma unique_steps_script_robust : script_robust unique_steps.
Proof. split. intros; assumption. Qed.

Lemma running_robust tid : robust (running tid).
Proof.
  split; try (intros; assumption).
  - intros w c _ (Hl & Hs & Hb). split; [|split]; cbn.
    + rewrite length_app. lia.
    + rewrite steps_of_app, steps_of_one, Hs.
      destruct (Nat.eqb_spec (length (tasks w)) tid); lia.
    + rewrite blocked_app_new. exact Hb.
  - intros w t (Hl & Hs & Hb).
    destruct (task_cancel_view t w) as [_ [(Ht & Hr)|[(x & aw & Hx & _ & Hw & Ht & Hr)|(x & x' & Hx & Hss & Ht & Hr)]]];
      unfold running; rewrite Ht, Hr; try rewrite length_insert; auto.
    + assert (t ≠ tid).
      { intros ->. unfold blocked in Hb. rewrite Hx, Hw in Hb. discriminate. }
      rewrite steps_of_app, steps_of_one, Hs, blocked_insert_ne by assumption.
      destruct (Nat.eqb_spec t tid); [contradiction|auto].
    + rewrite (blocked_same_task _ _ _ _ _ Hx Hss). auto.
  - intros w t cb (Hl & Hs & Hb).
    destruct (add_done_callback_view t cb w) as (_ & _ & [(Ht & Hr)|[(Ht & Hr)|(x & x' & Hx & Hss & Ht & Hr)]]);
      unfold running; rewrite Ht, Hr; try rewrite length_insert; auto.
    + rewrite steps_of_app, Hs. auto.
    + rewrite (blocked_same_task _ _ _ _ _ Hx Hss). auto.
  - intros w (Hl & Hs & Hb).
    destruct (Event_set_view w) as (_ & _ & _ & _ & [->|(_ & Ht & Hr)]);
      [repeat split; assumption|].
    destruct (wake_waiters_spec 0 (tasks w)) as (_ & Hk & Hl1 & _).
    unfold running. rewrite Ht, Hr.
    specialize (Hk tid). cbn in Hk. rewrite Hb in Hk.
    split; [|rewrite steps_of_app; lia].
    apply lookup_lt_is_Some in Hl as [x Hx].
    destruct (Hl1 _ _ Hx) as (x' & Hx' & _). eapply lookup_lt_Some, Hx'.
Qed.

Lemma running_script_robust tid : script_robust (running tid).
Proof. split. intros; assumption. Qed.

(** ** What each suspended coroutine may rely on *)

Lemma stop_ok_ext q e e' : ext e e' → stop_ok q e → stop_ok q e'.
Proof. intros [] (? & ? & ?). repeat split; auto. Qed.

Lemma local_ok_ext c e e' : ext e e' → local_ok c e → local_ok c e'.
Proof.
  intros He. pose proof (λ q, stop_ok_ext q e e' He) as Hs. destruct He.
  destruct c as [[p|]|[p|]|[[| | |[]|[]|]|]]; cbn; auto.
Qed.

Lemma local_ok_unstarted c e : unstarted c → local_ok c e.
Proof. intros [->| ->]; exact I. Qed.

Lemma waits_unstarted c : unstarted c → waits_for_stopped c = false.
Proof. intros [->| ->]; reflexivity. Qed.

Lemma insert_lookup_inv (ts : list task) t x x' tid y :
  ts !! t = Some x → t_coro x' = t_coro x → t_result x' = t_result x →
  <[t := x']> ts !! tid = Some y →
  ∃ y0, ts !! tid = Some y0 ∧ t_coro y = t_coro y0 ∧ t_result y = t_result y0
        ∧ (t_waiting y = t_waiting y0 ∨ (y0 = x ∧ t_waiting y = t_waiting x')).
Proof.
  intros Hx Hc Hr Hy.
  apply list_lookup_insert_Some in Hy as [(-> & -> & _)|(Hne & Hy)].
  - exists x. repeat split; auto.
  - exists y. repeat split; auto.
Qed.

Lemma new_task_lookup_inv (ts : list task) c tid y :
  (ts ++ [new_task c]) !! tid = Some y →
  ts !! tid = Some y ∨ (tid = length ts ∧ y = new_task c).
Proof.
  intros H. apply lookup_app_Some in H as [H|[Hle H]]; [left; exact H|right].
  destruct (tid - length ts) as [|k] eqn:E; cbn in H; [|discriminate].
  inversion H. split; [lia|reflexivity].
Qed.

Lemma wakeups_ok_robust : robust wakeups_ok.
Proof.
  split; try (intros; assumption).
  - intros w c Hc H tid v y Hin Hy Hr Hw. cbn in *.
    apply new_task_lookup_inv in Hy as [Hy|[-> ->]].
    + apply in_app_or in Hin as [Hin|[Hin|[]]]; [eapply H; eauto|].
      inversion Hin; subst. apply lookup_lt_Some in Hy. lia.
    + cbn in Hw. rewrite (waits_unstarted _ Hc) in Hw. discriminate.
  - intros w t H tid v y.
    destruct (task_cancel_view t w) as [(-> & _) [(Ht & Hrd)|[(x & aw & Hx & _ & Hw & Ht & Hrd)|(x & x' & Hx & (? & ? & ?) & Ht & Hrd)]]];
      rewrite Ht, Hrd; [apply H|..]; intros Hin Hy Hr Hwt.
    + apply in_app_or in Hin as [Hin|[Hin|[]]]; [|discriminate].
      eapply insert_lookup_inv in Hy as (y0 & Hy0 & Hc & Hr0 & _); eauto.
      eapply H; eauto; congruence.
    + eapply insert_lookup_inv in Hy as (y0 & Hy0 & Hc & Hr0 & _); eauto.
      eapply H; eauto; congruence.
  - intros w t cb H tid v y.
    destruct (add_done_callback_view t cb w) as ((-> & _) & _ & [(Ht & Hrd)|[(Ht & Hrd)|(x & x' & Hx & (? & ? & ?) & Ht & Hrd)]]);
      rewrite Ht, Hrd; [apply H|..]; intros Hin Hy Hr Hwt.
    + apply in_app_or in Hin as [Hin|[Hin|[]]]; [|discriminate].
      eapply H; eauto.
    + eapply insert_lookup_inv in Hy as (y0 & Hy0 & Hc & Hr0 & _); eauto.
      eapply H; eauto; congruence.
  - intros w H.
    destruct (Event_set_view w) as (_ & _ & _ & _ & [->|(He & _)]); [exact H|].
    intros tid v y _ _ _ _. rewrite He. reflexivity.
Qed.

Lemma wakeups_ok_script_robust : script_robust wakeups_ok.
Proof. split. intros; assumption. Qed.

Lemma tasks_ok_ext (w w' : world) :
  tasks w' = tasks w → ext (exporter w) (exporter w') → tasks_ok w → tasks_ok w'.
Proof.
  intros Ht He H tid t Hl Hr. rewrite Ht in Hl.
  destruct (H tid t Hl Hr) as [H1 H2]. split; [|exact H2].
  eapply local_ok_ext; eauto.
Qed.

Lemma tasks_ok_robust : robust tasks_ok.
Proof.
  split; try (intros; assumption).
  - intros w n H. apply (tasks_ok_ext w); [reflexivity| |exact H].
    split; cbn; auto.
  - intros w H. apply (tasks_ok_ext w); [reflexivity| |exact H].
    split; cbn; auto.
  - intros w t H. apply (tasks_ok_ext w); [reflexivity| |exact H].
    split; cbn; auto.
  - intros w c Hc H tid y Hy Hr. cbn in *.
    apply new_task_lookup_inv in Hy as [Hy|[-> ->]]; [exact (H _ _ Hy Hr)|].
    split; [apply local_ok_unstarted, Hc|discriminate].
  - intros w t H tid y.
    destruct (task_cancel_view t w) as [(-> & _) [(Ht & Hrd)|[(x & aw & Hx & _ & Hw & Ht & Hrd)|(x & x' & Hx & (? & ? & Hsw) & Ht & Hrd)]]];
      rewrite Ht; [apply H|..]; intros Hy Hr.
    + eapply insert_lookup_inv in Hy as (y0 & Hy0 & Hc & Hr0 & Hwy); eauto.
      rewrite Hr0 in Hr. destruct (H _ _ Hy0 Hr) as [Hl1 Hl2].
      rewrite Hc. split; [exact Hl1|]. intros aw' Haw'.
      destruct Hwy as [Hwy|[-> Hwy]]; rewrite Hwy in Haw'; [eauto|discriminate].
    + eapply insert_lookup_inv in Hy as (y0 & Hy0 & Hc & Hr0 & Hwy); eauto.
      rewrite Hr0 in Hr. destruct (H _ _ Hy0 Hr) as [Hl1 Hl2].
      rewrite Hc. split; [exact Hl1|]. intros aw' Haw'.
      destruct Hwy as [Hwy|[-> Hwy]]; rewrite Hwy in Haw'; [eauto|].
      rewrite Hsw in Haw'. eauto.
  - intros w t cb H tid y.
    destruct (add_done_callback_view t cb w) as ((-> & _) & _ & [(Ht & Hrd)|[(Ht & Hrd)|(x & x' & Hx & (? & ? & Hsw) & Ht & Hrd)]]);
      rewrite Ht; [apply H|apply H|]; intros Hy Hr.
    eapply insert_lookup_inv in Hy as (y0 & Hy0 & Hc & Hr0 & Hwy); eauto.
    rewrite Hr0 in Hr. destruct (H _ _ Hy0 Hr) as [Hl1 Hl2].
    rewrite Hc. split; [exact Hl1|]. intros aw' Haw'.
    destruct Hwy as [Hwy|[-> Hwy]]; rewrite Hwy in Haw'; [eauto|].
    rewrite Hsw in Haw'. eauto.
  - intros w H.
    destruct (Event_set_view w) as (_ & _ & _ & _ & [->|(He & Ht & _)]); [exact H|].
    destruct (wake_waiters_spec 0 (tasks w)) as (_ & _ & _ & Hl').
    intros tid y Hy Hr. rewrite Ht in Hy.
    destruct (Hl' _ _ Hy) as (y0 & Hy0 & Hc & Hr0 & Hwy).
    rewrite Hr0 in Hr. destruct (H _ _ Hy0 Hr) as [Hl1 Hl2].
    rewrite Hc, He. split.
    + eapply local_ok_ext; [|exact Hl1]. split; cbn; auto.
    + intros aw Haw. destruct Hwy as [Hwy|Hwy]; rewrite Hwy in Haw;
        [discriminate|eauto].
Qed.

Lemma tasks_ok_script_robust : script_robust tasks_ok.
Proof. split. intros; assumption. Qed.

Lemma cache_ok_robust : robust cache_ok.
Proof.
  split; try (intros; assumption); unfold cache_ok.
  - intros w n _ _. cbn. eauto.
  - intros w n c Hn _ _ _ _. cbn. rewrite Hn. eauto.
  - intros w t H. destruct (task_cancel_view t w) as [(-> & _) _]. exact H.
  - intros w t cb H. destruct (add_done_callback_view t cb w) as [(-> & _) _]. exact H.
  - intros w H. destruct (Event_set_view w) as (_ & _ & _ & _ & [->| (-> & _)]);
      exact H.
Qed.

Lemma cache_ok_script_robust : script_robust cache_ok.
Proof. split. intros; assumption. Qed.

(** ** Equations for [stop] and [start] *)

Lemma task_cancel_val (t : task_id) (w : world) :
  ∃ b, task_cancel t w = (Val b, snd (task_cancel t w)).
Proof.
  unfold task_cancel.
  destruct (tasks _ !! t) as [x|]; [|eexists; reflexivity].
  destruct (t_result x); [eexists; reflexivity|].
  destruct (t_waiting x); eexists; reflexivity.
Qed.

Lemma add_done_callback_val (t : task_id) (cb : callback) (w : world) :
  add_done_callback t cb w = (Val tt, snd (add_done_callback t cb w)).
Proof.
  unfold add_done_callback.
  destruct (tasks w !! t) as [x|]; [|reflexivity].
  destruct (t_result x); reflexivity.
Qed.

Lemma Event_set_val (w : world) : Event_set w = (Val tt, snd (Event_set w)).
Proof.
  unfold Event_set. destruct (stopped (exporter w)); [reflexivity|].
  destruct (wake_waiters 0 (tasks w)); reflexivity.
Qed.

(** [stop] up to its first suspension, once [start] has been called. *)
Lemma stop_begin_started (w : world) (t : task_id) :
  _runner_task (exporter w) = Some t →
  let w2 := snd (task_cancel t (stop_enter w)) in
  stop_begin w
  = if stopped (exporter w)
    then (Val (Yield aw_session_close stop_L162),
          with_trace (trace w2 ++ [ef_await aw_session_close]) w2)
    else (Val (Yield aw_event_wait stop_L161),
          with_trace (trace w2 ++ [ef_await aw_event_wait]) w2).
Proof.
  intros H w2. unfold stop_begin, self_runner_task, bind, get_self; cbn.
  rewrite H. cbn. fold (log "Gracefully shutting down application" [] w).
  fold (stop_enter w).
  destruct (task_cancel_val t (stop_enter w)) as [b Hb]. rewrite Hb.
  fold w2.
  assert (He : exporter w2 = exporter (stop_enter w))
    by (destruct (task_cancel_view t (stop_enter w)) as [(He & _) _]; exact He).
  rewrite He. cbn. destruct (stopped (exporter w)); reflexivity.
Qed.

Lemma stop_begin_exporter (w : world) :
  exporter (snd (stop_begin w)) = set_stopping true (exporter w).
Proof.
  destruct (_runner_task (exporter w)) as [t|] eqn:H.
  - rewrite (stop_begin_started w t H).
    destruct (task_cancel_view t (stop_enter w)) as [(He & _) _].
    destruct (stopped (exporter w)); cbn; rewrite He; reflexivity.
  - unfold stop_begin, self_runner_task, bind, get_self; cbn. rewrite H.
    reflexivity.
Qed.

Lemma start_spec (w : world) :
  ∃ w', start w = (Val tt, w')
        ∧ exporter w' = set_runner_task (length (tasks w)) (exporter w)
        ∧ trace w' = trace w ++ [ef_create_task (length (tasks w)) (co_run None)]
        ∧ hyperlane_contract_latest_checkpoint w' = hyperlane_contract_latest_checkpoint w
        ∧ script_todo w' = script_todo w ∧ script_done w' = script_done w
        ∧ length (tasks w') = S (length (tasks w)).
Proof.
  unfold start, bind. cbn.
  rewrite add_done_callback_val. eexists. split; [reflexivity|].
  match goal with |- context [add_done_callback ?t ?cb ?w0] =>
    destruct (add_done_callback_view t cb w0) as ((He & Hg & Htd & Hd) & Htr & Hts)
  end.
  rewrite He, Htr, Hg, Htd, Hd. cbn. repeat split.
  destruct Hts as [(-> & _)|[(-> & _)|(x & x' & _ & _ & -> & _)]];
    try rewrite length_insert; cbn; rewrite length_app; cbn; lia.
Qed.

(** ** What a step of a coroutine establishes *)

Lemma tick_begin_post (w : world) :
  cache_ok w →
  match tick_begin w with
  | (Val (Yield aw p), w') => is_Some (network (exporter w'))
  | (Val Done, _) => False
  | (Err _, _) => True
  end.
Proof.
  intros Hc. destruct (contract (exporter w)) as [c|] eqn:E.
  - rewrite (tick_begin_cached _ _ E). cbn. apply Hc. rewrite E. eauto.
  - destruct (network (exporter w)) as [n|] eqn:En.
    + rewrite (tick_begin_first _ _ E En). cbn. rewrite En. eauto.
    + rewrite (tick_begin_unresolved _ E En). exact I.
Qed.

Lemma tick_resume_post (p : tick_pc) (inp : outcome) (w : world) :
  match tick_resume p inp w with
  | (Val (Yield _ _), _) => False
  | _ => True
  end.
Proof.
  destruct inp as [[]|]; cbn; try exact I.
  unfold bind, self_network, get_self; cbn.
  destruct (network (exporter w)); exact I.
Qed.

Lemma init_resume_post (p : init_pc) (inp : outcome) (w : world) :
  match init_resume p inp w with
  | (Val (Yield _ _), _) => False
  | (Val Done, w') => is_Some (network (exporter w'))
  | (Err _, _) => True
  end.
Proof.
  destruct inp as [v|]; cbn; [|exact I].
  destruct (py_eq_int v 1); [cbn; eauto|].
  destruct (py_eq_int v 17000); cbn; eauto.
Qed.

Lemma stop_begin_post (w : world) :
  match stop_begin w with
  | (Val (Yield aw q), w') =>
      stop_ok q (exporter w') ∧ (q = stop_L161 → aw = aw_event_wait)
  | (Val Done, _) => False
  | (Err _, _) => True
  end.
Proof.
  pose proof (stop_begin_exporter w) as He.
  destruct (_runner_task (exporter w)) as [t|] eqn:H.
  - rewrite (stop_begin_started w t H) in *.
    destruct (stopped (exporter w)) eqn:Hs; cbn in *; rewrite He;
      (split; [repeat split; cbn; rewrite ?H; eauto; discriminate|]);
      [discriminate|reflexivity].
  - unfold stop_begin, self_runner_task, bind, get_self; cbn. rewrite H.
    exact I.
Qed.

Lemma stop_resume_post (q : stop_pc) (inp : outcome) (w : world) :
  stop_ok q (exporter w) →
  (q = stop_L161 → (∃ v, inp = Ok v) → stopped (exporter w) = true) →
  match stop_resume q inp w with
  | (Val (Yield aw q'), w') => stop_ok q' (exporter w') ∧ q' = stop_L162
  | (Val Done, w') => stopping (exporter w') = true ∧ stopped (exporter w') = true
  | (Err _, _) => True
  end.
Proof.
  intros (H1 & H2 & H3) H4. destruct inp as [v|]; [|exact I].
  destruct q; cbn.
  - repeat split; eauto.
  - auto.
Qed.

Lemma await_coro_cases {P PC : Type} (f : M (susp P)) (wrap : P → PC)
  (k : M (susp PC)) (w : world) :
  match f w with
  | (Val Done, w') => await_coro f wrap k w = k w'
  | (Val (Yield aw p), w') => await_coro f wrap k w = (Val (Yield aw (wrap p)), w')
  | (Err e, w') => await_coro f wrap k w = (Err e, w')
  end.
Proof.
  unfold await_coro, bind. destruct (f w) as [[[|aw p]|e] w']; reflexivity.
Qed.

Lemma start_exporter_app_L87_post (w : world) :
  ∃ w', start_exporter_app_L87 w = (Val Done, w')
        ∧ is_Some (_runner_task (exporter w')).
Proof.
  destruct (start_spec w) as (w' & Hs & He & _).
  exists w'. unfold start_exporter_app_L87, bind. rewrite Hs. cbn.
  split; [reflexivity|]. rewrite He. cbn. eauto.
Qed.

Lemma start_exporter_app_L86_post (w : world) :
  cache_ok w →
  match start_exporter_app_L86 w with
  | (Val (Yield aw p), w') =>
      local_ok (co_main (Some (in_start_exporter_app p))) (exporter w')
  | (Val Done, w') => is_Some (_runner_task (exporter w'))
  | (Err _, _) => True
  end.
Proof.
  intros Hc. unfold start_exporter_app_L86.
  pose proof (await_coro_cases tick_begin startup_L86 start_exporter_app_L87 w) as E.
  pose proof (tick_begin_post w Hc) as Ht.
  destruct (tick_begin w) as [[[|aw p]|e] w']; rewrite E; try exact I.
  - destruct Ht.
  - exact Ht.
Qed.

Lemma start_exporter_app_resume_post (p : startup_pc) (inp : outcome) (w : world) :
  cache_ok w →
  local_ok (co_main (Some (in_start_exporter_app p))) (exporter w) →
  match start_exporter_app_resume p inp w with
  | (Val (Yield aw p'), w') =>
      local_ok (co_main (Some (in_start_exporter_app p'))) (exporter w')
  | (Val Done, w') => is_Some (_runner_task (exporter w'))
  | (Err _, _) => True
  end.
Proof.
  intros Hc Hl. destruct p as [|p|p]; cbn.
  - destruct inp; [|exact I]. cbn. exact I.
  - pose proof (await_coro_cases (init_resume p inp) startup_L84
                  start_exporter_app_L86 w) as E.
    pose proof (init_resume_post p inp w) as Hi.
    pose proof (pres_init_resume cache_ok cache_ok_robust p inp w Hc) as Hc'.
    destruct (init_resume p inp w) as [[[|aw p']|e] w']; rewrite E; try exact I.
    apply start_exporter_app_L86_post, Hc'.
  - pose proof (await_coro_cases (tick_resume p inp) startup_L86
                  start_exporter_app_L87 w) as E.
    pose proof (tick_resume_post p inp w) as Hi.
    destruct (tick_resume p inp w) as [[[|aw p']|e] w']; rewrite E; try exact I.
    + destruct (start_exporter_app_L87_post w') as (w'' & -> & Hr). exact Hr.
    + destruct Hi.
Qed.

Lemma op_begin_post (o : op) (w : world) :
  cache_ok w → op_post o (fst (op_begin o w)) (snd (op_begin o w)).
Proof.
  intros Hc. destruct o; cbn [op_begin].
  - cbn. split; [exact I|]. split; [discriminate|reflexivity].
  - pose proof (await_coro_cases tick_begin in_tick (ret Done) w) as E.
    pose proof (tick_begin_post w Hc) as Ht.
    destruct (tick_begin w) as [[[|aw p]|e] w']; rewrite E; cbn; auto.
    split; [exact Ht|]. split; [discriminate|reflexivity].
  - destruct (start_spec w) as (w' & Hs & He & _).
    unfold bind. rewrite Hs. cbn. rewrite He. cbn. eauto.
  - pose proof (await_coro_cases stop_begin in_stop (ret Done) w) as E.
    pose proof (stop_begin_post w) as Ht.
    destruct (stop_begin w) as [[[|aw p]|e] w']; rewrite E; cbn; auto.
    destruct Ht as [Ht1 Ht2]. split; [exact Ht1|]. split; [|reflexivity].
    unfold consistent. cbn. destruct p; [auto|discriminate].
  - cbn. split; [exact I|]. split; [discriminate|reflexivity].
  - unfold stop_exporter_app_begin.
    pose proof (await_coro_cases stop_begin shutdown_L92 (ret Done) w) as E.
    pose proof (await_coro_cases (await_coro stop_begin shutdown_L92 (ret Done))
                  in_stop_exporter_app (ret Done) w) as E2.
    pose proof (stop_begin_post w) as Ht.
    destruct (stop_begin w) as [[[|aw p]|e] w'];
      rewrite E in E2; rewrite E2; cbn; auto.
    destruct Ht as [Ht1 Ht2]. split; [exact Ht1|]. split; [|reflexivity].
    unfold consistent. cbn. destruct p; [auto|discriminate].
  - cbn. split; [exact I|]. split; [discriminate|reflexivity].
Qed.

Lemma op_resume_post (p : op_pc) (inp : outcome) (w : world) :
  cache_ok w →
  local_ok (co_main (Some p)) (exporter w) →
  (waits_for_stopped (co_main (Some p)) = true → (∃ v, inp = Ok v) →
   stopped (exporter w) = true) →
  op_post (op_of p) (fst (op_resume p inp w)) (snd (op_resume p inp w)).
Proof.
  intros Hc Hl Hw. destruct p as [p|p|p|p|[p]|]; cbn [op_resume op_of].
  - pose proof (await_coro_cases (init_resume p inp) in_init (ret Done) w) as E.
    pose proof (init_resume_post p inp w) as Ht.
    destruct (init_resume p inp w) as [[[|aw p']|e] w']; rewrite E; cbn; auto.
    destruct Ht.
  - pose proof (await_coro_cases (tick_resume p inp) in_tick (ret Done) w) as E.
    pose proof (tick_resume_post p inp w) as Ht.
    destruct (tick_resume p inp w) as [[[|aw p']|e] w']; rewrite E; cbn; auto.
    destruct Ht.
  - pose proof (await_coro_cases (stop_resume p inp) in_stop (ret Done) w) as E.
    assert (Ht := stop_resume_post p inp w Hl).
    cbn in Hw. destruct (stop_resume p inp w) as [[[|aw p']|e] w']; rewrite E; cbn; auto.
    + apply Ht. intros ->. auto.
    + destruct Ht as [Ht ->]; [intros ->; auto|].
      split; [exact Ht|]. split; [discriminate|reflexivity].
  - pose proof (await_coro_cases (start_exporter_app_resume p inp)
                  in_start_exporter_app (ret Done) w) as E.
    pose proof (start_exporter_app_resume_post p inp w Hc Hl) as Ht.
    destruct (start_exporter_app_resume p inp w) as [[[|aw p']|e] w'];
      rewrite E; cbn; auto.
    split; [exact Ht|]. split; [discriminate|reflexivity].
  - unfold stop_exporter_app_resume.
    pose proof (await_coro_cases (stop_resume p inp) shutdown_L92 (ret Done) w) as E.
    pose proof (await_coro_cases
                  (await_coro (stop_resume p inp) shutdown_L92 (ret Done))
                  in_stop_exporter_app (ret Done) w) as E2.
    assert (Ht := stop_resume_post p inp w Hl).
    cbn in Hw. destruct (stop_resume p inp w) as [[[|aw p']|e] w'];
      rewrite E in E2; rewrite E2; cbn; auto.
    + apply Ht. intros ->. auto.
    + destruct Ht as [Ht ->]; [intros ->; auto|].
      split; [exact Ht|]. split; [discriminate|reflexivity].
  - destruct inp; cbn; auto.
Qed.

(** ** The caller's script *)

Lemma script_ok_ext (w w' : world) :
  script_done w' = script_done w → ext (exporter w) (exporter w') →
  script_ok w → script_ok w'.
Proof.
  intros Hd [] [H1 H2]. unfold script_ok. rewrite Hd. split.
  - intros H. destruct (H1 H). auto.
  - auto.
Qed.

Lemma script_is_robust todo done : robust (script_is todo done).
Proof.
  split; try (intros; assumption); unfold script_is.
  - intros w t H. destruct (task_cancel_view t w) as [(_ & _ & -> & ->) _]. exact H.
  - intros w t cb H.
    destruct (add_done_callback_view t cb w) as [(_ & _ & -> & ->) _]. exact H.
  - intros w H. destruct (Event_set_view w) as (_ & _ & -> & -> & _). exact H.
Qed.

Lemma script_ok_mark_done (o : op) (w : world) :
  script_ok w → op_done_ok o (exporter w) →
  script_ok (snd (mark_done o w)).
Proof.
  intros [H1 H2] Ho. split; cbn; intros [H|H];
    apply in_app_or in H as [H|[Heq|[]]];
    try (subst o; exact Ho).
  - apply H1. left. exact H.
  - apply H1. right. exact H.
  - apply H2. left. exact H.
  - apply H2. right. exact H.
Qed.

Lemma main_run_cons (o : op) (rest : list op) (w : world) :
  main_run (o :: rest) w
  = match op_begin o (with_script rest (script_done w) w) with
    | (Val Done, w2) => main_run rest (snd (mark_done o w2))
    | (Val (Yield aw p), w2) => (Val (Yield aw p), w2)
    | (Err e, w2) => (Err e, w2)
    end.
Proof.
  cbn [main_run]. unfold bind at 1. cbn. unfold bind at 1.
  destruct (op_begin o _) as [[[|aw p]|e] w2]; reflexivity.
Qed.

Lemma main_resume_eq (p : op_pc) (inp : outcome) (w : world) :
  main_resume p inp w
  = match op_resume p inp w with
    | (Val Done, w2) =>
        main_run (script_todo w2) (snd (mark_done (op_of p) w2))
    | (Val (Yield aw p'), w2) => (Val (Yield aw p'), w2)
    | (Err e, w2) => (Err e, w2)
    end.
Proof.
  unfold main_resume, bind.
  destruct (op_resume p inp w) as [[[|aw p']|e] w2]; reflexivity.
Qed.

Lemma main_run_post (todo : list op) (w : world) :
  cache_ok w → script_ok w →
  main_post (fst (main_run todo w)) (snd (main_run todo w)).
Proof.
  revert w. induction todo as [|o rest IH]; intros w Hc Hs.
  - split; [exact Hs|exact I].
  - rewrite main_run_cons.
    set (w1 := with_script rest (script_done w) w).
    assert (Hc1 : cache_ok w1) by exact Hc.
    assert (Hs1 : script_ok w1) by exact Hs.
    pose proof (op_begin_post o w1 Hc1) as Hp.
    pose proof (pres_op_begin (extends (exporter w1)) (extends_robust _) o w1
                  (ext_refl _)) as He.
    pose proof (pres_op_begin cache_ok cache_ok_robust o w1 Hc1) as Hc2.
    pose proof (pres_op_begin _ (script_is_robust _ _) o w1 (conj eq_refl eq_refl))
      as [_ Hd].
    destruct (op_begin o w1) as [[[|aw p]|e] w2]; cbn in *.
    + apply IH; [exact Hc2|].
      apply (script_ok_mark_done o w2); [|exact Hp].
      eapply script_ok_ext; eauto.
    + split; [eapply script_ok_ext; eauto|]. destruct Hp as (? & ? & _). auto.
    + split; [eapply script_ok_ext; eauto|exact I].
Qed.

Lemma main_resume_post (p : op_pc) (inp : outcome) (w : world) :
  cache_ok w → script_ok w →
  local_ok (co_main (Some p)) (exporter w) →
  (waits_for_stopped (co_main (Some p)) = true → (∃ v, inp = Ok v) →
   stopped (exporter w) = true) →
  main_post (fst (main_resume p inp w)) (snd (main_resume p inp w)).
Proof.
  intros Hc Hs Hl Hw. rewrite main_resume_eq.
  pose proof (op_resume_post p inp w Hc Hl Hw) as Hp.
  pose proof (pres_op_resume (extends (exporter w)) (extends_robust _) p inp w
                (ext_refl _)) as He.
  pose proof (pres_op_resume cache_ok cache_ok_robust p inp w Hc) as Hc2.
  pose proof (pres_op_resume _ (script_is_robust _ _) p inp w (conj eq_refl eq_refl))
    as [_ Hd].
  destruct (op_resume p inp w) as [[[|aw p']|e] w2]; cbn in *.
  - apply (main_run_post (script_todo w2)); [exact Hc2|].
    apply (script_ok_mark_done (op_of p) w2); [|exact Hp].
    eapply script_ok_ext; eauto.
  - split; [eapply script_ok_ext; eauto|]. destruct Hp as (? & ? & _). auto.
  - split; [eapply script_ok_ext; eauto|exact I].
Qed.

Lemma resume_kind (c : coro) (inp : outcome) (w : world) aw c' w' :
  resume c inp w = (Val (Yield aw c'), w') → kind_of c' = kind_of c.
Proof.
  destruct c as [[p|]|[p|]|[p|]]; cbn; unfold lift_coro, bind;
    match goal with |- context [susp_map _ _] =>
      match goal with |- (match ?m with _ => _ end) = _ → _ =>
        destruct m as [[[|aw0 p0]|e0] w0]; cbn; intros H; inversion H; reflexivity
      end
    end.
Qed.

(** What a step of any coroutine establishes. *)
Lemma resume_post (c : coro) (inp : outcome) (w : world) :
  cache_ok w → script_ok w → local_ok c (exporter w) →
  (waits_for_stopped c = true → (∃ v, inp = Ok v) → stopped (exporter w) = true) →
  let r := fst (resume c inp w) in
  let w' := snd (resume c inp w) in
  script_ok w'
  ∧ match r with
    | Val (Yield aw c') => local_ok c' (exporter w') ∧ consistent aw c'
    | _ => True
    end.
Proof.
  intros Hc Hs Hl Hw.
  assert (Hnm : kind_of c ≠ k_main →
                script_ok (snd (resume c inp w))).
  { intros Hk.
    apply (script_ok_ext w); [| |exact Hs].
    - destruct c as [[p|]|[p|]|[p|]]; try (exfalso; apply Hk; reflexivity);
        cbn; unfold lift_coro.
      + apply (pres_bind _ _ _ (pres_run_resume _ (script_is_robust _ _) p inp)
                 (λ s, pres_ret _ _) w (conj eq_refl eq_refl)).
      + apply (pres_bind _ _ _ (pres_enter _ inp _ (pres_run_loop _ (script_is_robust _ _)))
                 (λ s, pres_ret _ _) w (conj eq_refl eq_refl)).
      + apply (pres_bind _ _ _ (pres_tick_resume _ (script_is_robust _ _) p inp)
                 (λ s, pres_ret _ _) w (conj eq_refl eq_refl)).
      + apply (pres_bind _ _ _ (pres_enter _ inp _ (pres_tick_begin _ (script_is_robust _ _)))
                 (λ s, pres_ret _ _) w (conj eq_refl eq_refl)).
    - apply resume_ext. }
  destruct c as [[p|]|[p|]|[p|]].
  - split; [apply Hnm; discriminate|].
    destruct (resume (co_run (Some p)) inp w) as [[[|aw c']|e] w'] eqn:E; cbn; auto.
    pose proof (resume_kind _ _ _ _ _ _ E) as Hk.
    destruct c' as [q|q|q]; try discriminate.
    split; [exact I|intros H; discriminate H].
  - split; [apply Hnm; discriminate|].
    destruct (resume (co_run None) inp w) as [[[|aw c']|e] w'] eqn:E; cbn; auto.
    pose proof (resume_kind _ _ _ _ _ _ E) as Hk.
    destruct c' as [q|q|q]; try discriminate.
    split; [exact I|intros H; discriminate H].
  - split; [apply Hnm; discriminate|].
    cbn. unfold lift_coro, bind.
    pose proof (tick_resume_post p inp w) as Ht.
    destruct (tick_resume p inp w) as [[[|aw p']|e] w']; cbn; auto.
    destruct Ht.
  - split; [apply Hnm; discriminate|].
    cbn. unfold lift_coro, bind.
    destruct inp as [v|e]; cbn; [|exact I].
    pose proof (tick_begin_post w Hc) as Ht.
    destruct (tick_begin w) as [[[|aw p']|e] w']; cbn; auto.
    split; [exact Ht|discriminate].
  - cbn. unfold lift_coro, bind.
    pose proof (main_resume_post p inp w Hc Hs Hl Hw) as [H1 H2].
    destruct (main_resume p inp w) as [[[|aw p']|e] w']; cbn in *; auto.
  - cbn. unfold lift_coro, bind.
    destruct inp as [v|e]; cbn; [|split; [exact Hs|exact I]].
    pose proof (main_run_post (script_todo w) w Hc Hs) as [H1 H2].
    unfold main_begin.
    destruct (main_run (script_todo w) w) as [[[|aw p']|e] w']; cbn in *; auto.
Qed.

(** ** The invariant of the event loop *)

Lemma robust_and (P Q : world → Prop) :
  robust P → robust Q → robust (λ w, P w ∧ Q w).
Proof.
  intros HP HQ. split.
  - intros w msg args Hm [? ?]. split; apply rb_log; assumption.
  - intros w aw Ha [? ?]. split; apply rb_await; assumption.
  - intros w c Hc [? ?]. split; apply rb_call; assumption.
  - intros w n v Hn [? ?]. split; apply rb_set; assumption.
  - intros w n [? ?]. split; apply rb_init; assumption.
  - intros w [? ?]. split; apply rb_stopping; assumption.
  - intros w n c Hn Hc Hg [? ?]. split; eapply rb_contract; eassumption.
  - intros w t [? ?]. split; apply rb_runner; assumption.
  - intros w c Hc [? ?]. split; apply rb_create; assumption.
  - intros w t [? ?]. split; apply rb_cancel; assumption.
  - intros w t cb [? ?]. split; apply rb_callback; assumption.
  - intros w [? ?]. split; apply rb_event; assumption.
Qed.

Lemma script_robust_and (P Q : world → Prop) :
  script_robust P → script_robust Q → script_robust (λ w, P w ∧ Q w).
Proof. intros [HP] [HQ]. split. intros w a b [? ?]. split; auto. Qed.

Lemma loop_ok_robust : robust loop_ok.
Proof.
  apply (robust_and unique_steps (λ w, wakeups_ok w ∧ tasks_ok w ∧ cache_ok w));
    [apply unique_steps_robust|].
  apply (robust_and wakeups_ok (λ w, tasks_ok w ∧ cache_ok w));
    [apply wakeups_ok_robust|].
  apply (robust_and tasks_ok cache_ok);
    [apply tasks_ok_robust|apply cache_ok_robust].
Qed.

Lemma loop_ok_script_robust : script_robust loop_ok.
Proof.
  split. intros w a b H. exact H.
Qed.

(** An update of a task that keeps its coroutine, result and future. *)
Lemma loop_ok_same (w : world) tid x x' :
  tasks w !! tid = Some x → same_task x x' →
  loop_ok w → loop_ok (with_tasks (<[tid := x']> (tasks w)) w).
Proof.
  intros Hx Hs ([U1 U2] & Hw & Ht & Hc).
  pose proof Hs as (Hsc & Hsr & Hsw).
  unfold loop_ok, unique_steps, wakeups_ok, tasks_ok; cbn.
  split; [|split; [|split]]; [split| | |exact Hc].
  - intros k. rewrite (blocked_same_task _ _ _ _ _ Hx Hs). apply U1.
  - intros k. rewrite length_insert. apply U2.
  - intros k v y Hin Hy Hr Hwt.
    eapply insert_lookup_inv in Hy as (y0 & Hy0 & Hc0 & Hr0 & _); eauto.
    eapply Hw; eauto; congruence.
  - intros k y Hy Hr.
    eapply insert_lookup_inv in Hy as (y0 & Hy0 & Hc0 & Hr0 & Hwy); eauto.
    rewrite Hr0 in Hr. destruct (Ht _ _ Hy0 Hr) as [Hl1 Hl2].
    rewrite Hc0. split; [exact Hl1|]. intros aw Haw.
    destruct Hwy as [Hwy|[-> Hwy]]; rewrite Hwy in Haw; [eauto|].
    rewrite Hsw in Haw. eauto.
Qed.

Lemma running_same (w : world) tid k x x' :
  tasks w !! k = Some x → same_task x x' →
  running tid w → running tid (with_tasks (<[k := x']> (tasks w)) w).
Proof.
  intros Hx Hs (H1 & H2 & H3). split; [|split]; cbn.
  - rewrite length_insert. exact H1.
  - exact H2.
  - rewrite (blocked_same_task _ _ _ _ _ Hx Hs). exact H3.
Qed.

Lemma loop_ok_pop_callback (w : world) cb t rest :
  ready w = h_callback cb t :: rest → loop_ok w → loop_ok (with_ready rest w).
Proof.
  intros Hr ([U1 U2] & Hw & Ht & Hc).
  unfold loop_ok, unique_steps, wakeups_ok, tasks_ok; cbn.
  split; [|split; [|split]]; [split| | |exact Hc].
  - intros k. specialize (U1 k). rewrite Hr, steps_of_cons_callback in U1. exact U1.
  - intros k Hk. specialize (U2 k Hk). rewrite Hr, steps_of_cons_callback in U2.
    exact U2.
  - intros k v y Hin. apply (Hw k v y). rewrite Hr. right. exact Hin.
  - exact Ht.
Qed.

Lemma loop_ok_pop_step (w : world) tid inp rest t :
  ready w = h_step tid inp :: rest → tasks w !! tid = Some t →
  loop_ok w →
  loop_ok (with_ready rest w) ∧ running tid (with_ready rest w).
Proof.
  intros Hr Hx ([U1 U2] & Hw & Ht & Hc).
  assert (Hs : ∀ k, steps_of k (ready w)
                    = (if Nat.eqb tid k then 1 else 0) + steps_of k rest).
  { intros k. rewrite Hr. apply steps_of_cons_step. }
  unfold loop_ok, unique_steps, wakeups_ok, tasks_ok, running; cbn.
  split; [split; [|split; [|split]]; [split| | |exact Hc]|].
  - intros k. specialize (U1 k). rewrite Hs in U1. lia.
  - intros k Hk. specialize (U2 k Hk). rewrite Hs in U2. lia.
  - intros k v y Hin. apply (Hw k v y). rewrite Hr. right. exact Hin.
  - exact Ht.
  - specialize (U1 tid). rewrite Hs, Nat.eqb_refl in U1.
    split; [eapply lookup_lt_Some; eauto|]. cbn. lia.
Qed.

(** The environment completes the future a task is blocked on. *)
Lemma loop_ok_wake (w : world) tid o t aw :
  tasks w !! tid = Some t → t_waiting t = Some aw → aw ≠ aw_event_wait →
  loop_ok w → loop_ok (wake tid o w).
Proof.
  intros Hx Haw Hne ([U1 U2] & Hw & Ht & Hc).
  unfold wake. rewrite (update_task_eq _ _ _ _ Hx).
  unfold loop_ok, unique_steps, wakeups_ok, tasks_ok; cbn.
  split; [|split; [|split]]; [split| | |exact Hc].
  - intros k. rewrite steps_of_app, steps_of_one. specialize (U1 k).
    destruct (Nat.eqb_spec tid k) as [->|Hk].
    + rewrite blocked_insert_eq by (eapply lookup_lt_Some; eauto). cbn.
      unfold blocked in U1. rewrite Hx, Haw in U1. lia.
    + rewrite blocked_insert_ne by exact Hk. lia.
  - intros k Hk. rewrite length_insert in Hk.
    rewrite steps_of_app, steps_of_one, U2 by exact Hk.
    apply lookup_lt_Some in Hx. destruct (Nat.eqb_spec tid k); lia.
  - intros k v y Hin Hy Hr Hwt.
    apply in_app_or in Hin as [Hin|[Hin|[]]].
    + eapply (insert_lookup_inv _ _ _ (set_t_waiting None t)) in Hy
        as (y0 & Hy0 & Hc0 & Hr0 & _); eauto.
      eapply Hw; eauto; congruence.
    + inversion Hin; subst k o.
      rewrite list_lookup_insert_eq in Hy by (eapply lookup_lt_Some; eauto).
      inversion Hy; subst y. cbn in *.
      destruct (Ht _ _ Hx Hr) as [_ Hl2]. elim Hne. eapply Hl2; eauto.
  - intros k y Hy Hr.
    eapply (insert_lookup_inv _ _ _ (set_t_waiting None t)) in Hy
      as (y0 & Hy0 & Hc0 & Hr0 & Hwy); eauto.
    rewrite Hr0 in Hr. destruct (Ht _ _ Hy0 Hr) as [Hl1 Hl2].
    rewrite Hc0. split; [exact Hl1|]. intros aw' Haw'.
    destruct Hwy as [Hwy|[-> Hwy]]; rewrite Hwy in Haw'; [eauto|discriminate].
Qed.

(** The running task is done. *)
Lemma loop_ok_finish (w : world) tid r :
  loop_ok w → running tid w → loop_ok (finish_task tid r w).
Proof.
  intros ([U1 U2] & Hw & Ht & Hc) (Hl & Hs & Hb).
  apply lookup_lt_is_Some in Hl as [x Hx].
  unfold finish_task. rewrite Hx.
  unfold loop_ok, unique_steps, wakeups_ok, tasks_ok; cbn.
  split; [|split; [|split]]; [split| | |exact Hc].
  - intros k. rewrite steps_of_app, steps_of_callbacks. specialize (U1 k).
    destruct (Nat.eq_dec tid k) as [->|Hk].
    + rewrite blocked_insert_eq by (eapply lookup_lt_Some; eauto). cbn. lia.
    + rewrite blocked_insert_ne by exact Hk. lia.
  - intros k Hk. rewrite length_insert in Hk.
    rewrite steps_of_app, steps_of_callbacks, U2 by exact Hk. reflexivity.
  - intros k v y Hin Hy Hr Hwt.
    apply in_app_or in Hin as [Hin|Hin].
    + apply list_lookup_insert_Some in Hy as [(-> & <- & _)|(Hne & Hy)];
        [discriminate|]. eapply Hw; eauto.
    + apply in_map_iff in Hin as (cb & Hcb & _). discriminate.
  - intros k y Hy Hr.
    apply list_lookup_insert_Some in Hy as [(-> & <- & _)|(Hne & Hy)];
      [discriminate|]. eapply Ht; eauto.
Qed.

(** The running task suspends at [c], awaiting [aw]. *)
Lemma loop_ok_suspend (w : world) tid aw c :
  loop_ok w → running tid w →
  local_ok c (exporter w) → consistent aw c →
  loop_ok (suspend_task tid aw c w).
Proof.
  intros ([U1 U2] & Hw & Ht & Hc) (Hl & Hs & Hb) Hlo Hco.
  pose proof Hl as Hl'. apply lookup_lt_is_Some in Hl' as [x Hx].
  assert (Hwx : t_waiting x = None).
  { unfold blocked in Hb. rewrite Hx in Hb. destruct (t_waiting x); [discriminate|reflexivity]. }
  assert (Hblock : loop_ok
            (update_task tid (λ t, set_t_waiting (Some aw) (set_t_coro c t)) w)).
  { rewrite (update_task_eq _ _ _ _ Hx).
    unfold loop_ok, unique_steps, wakeups_ok, tasks_ok; cbn.
  split; [|split; [|split]]; [split| | |exact Hc].
    - intros k. specialize (U1 k).
      destruct (Nat.eq_dec tid k) as [->|Hk].
      + rewrite blocked_insert_eq by exact Hl. cbn. lia.
      + rewrite blocked_insert_ne by exact Hk. lia.
    - intros k Hk. rewrite length_insert in Hk. apply U2, Hk.
    - intros k v y Hin Hy Hr Hwt.
      apply list_lookup_insert_Some in Hy as [(-> & <- & _)|(Hne & Hy)].
      + exfalso. eapply steps_of_zero_not_in; eauto.
      + eapply Hw; eauto.
    - intros k y Hy Hr.
      apply list_lookup_insert_Some in Hy as [(-> & <- & _)|(Hne & Hy)].
      + cbn. split; [exact Hlo|]. intros aw' Haw'. inversion Haw'; subst. exact Hco.
      + eapply Ht; eauto. }
  destruct aw; try exact Hblock. cbn.
  destruct (Qle_bool delay 0); [|exact Hblock].
  rewrite (update_task_eq _ _ _ _ Hx).
  unfold loop_ok, unique_steps, wakeups_ok, tasks_ok; cbn.
  split; [|split; [|split]]; [split| | |exact Hc].
  - intros k. rewrite steps_of_app, steps_of_one. specialize (U1 k).
    destruct (Nat.eqb_spec tid k) as [->|Hk].
    + rewrite blocked_insert_eq by exact Hl. cbn. rewrite Hwx. lia.
    + rewrite blocked_insert_ne by exact Hk. lia.
  - intros k Hk. rewrite length_insert in Hk.
    rewrite steps_of_app, steps_of_one, U2 by exact Hk.
    destruct (Nat.eqb_spec tid k); lia.
  - intros k v y Hin Hy Hr Hwt.
    apply in_app_or in Hin as [Hin|[Hin|[]]].
    + apply list_lookup_insert_Some in Hy as [(-> & <- & _)|(Hne & Hy)].
      * exfalso. eapply steps_of_zero_not_in; eauto.
      * eapply Hw; eauto.
    + inversion Hin; subst k v.
      rewrite list_lookup_insert_eq in Hy by exact Hl.
      inversion Hy; subst y. cbn in Hwt. specialize (Hco Hwt). discriminate.
  - intros k y Hy Hr.
    apply list_lookup_insert_Some in Hy as [(-> & <- & _)|(Hne & Hy)].
    + cbn. split; [exact Hlo|]. rewrite Hwx. discriminate.
    + eapply Ht; eauto.
Qed.

Lemma update_task_frame tid f w : same_program w (update_task tid f w).
Proof. unfold update_task. destruct (tasks w !! tid); repeat split. Qed.

Lemma finish_task_frame tid r w : same_program w (finish_task tid r w).
Proof. unfold finish_task. destruct (tasks w !! tid); repeat split. Qed.

Lemma suspend_task_frame tid aw c w : same_program w (suspend_task tid aw c w).
Proof.
  unfold suspend_task.
  destruct aw; try apply update_task_frame.
  destruct (Qle_bool delay 0); [|apply update_task_frame].
  destruct (update_task_frame tid (set_t_coro c) w) as (? & ? & ? & ? & ?).
  repeat split; assumption.
Qed.

Lemma wake_frame tid o w : same_program w (wake tid o w).
Proof.
  unfold wake.
  destruct (update_task_frame tid (set_t_waiting None) w) as (? & ? & ? & ? & ?).
  repeat split; assumption.
Qed.

Lemma script_ok_same_program w w' : same_program w w' → script_ok w → script_ok w'.
Proof.
  intros (He & _ & _ & _ & Hd) H. unfold script_ok. rewrite He, Hd. exact H.
Qed.

Lemma Inv_initial rpc interval script : Inv (initial_world rpc interval script).
Proof.
  split; [split; [|split; [|split]]|].
  - split; intros [|[|k]]; unfold steps_of, blocked; cbn; intros; cbn in *; lia.
  - intros tid v t Hin Hl _ Hw. cbn in *.
    destruct tid; [|discriminate]. inversion Hl; subst. discriminate.
  - intros tid t Hl _. cbn in *.
    destruct tid; [|discriminate]. inversion Hl; subst. cbn.
    split; [exact I|discriminate].
  - intros [c Hc]. discriminate.
  - split; intros [[]|[]].
Qed.

Lemma task_step_Inv (w w' : world) tid inp rest :
  Inv w → ready w = h_step tid inp :: rest →
  task_step tid inp (with_ready rest w) = Some w' → Inv w'.
Proof.
  intros [HL HS] Hr Hstep. unfold task_step in Hstep. cbn [tasks with_ready] in Hstep.
  destruct (tasks w !! tid) as [t|] eqn:Ht; [|discriminate].
  destruct (t_result t) eqn:Hres; [discriminate|].
  destruct (loop_ok_pop_step w tid inp rest t Hr Ht HL) as [HL0 HR0].
  set (w0 := with_ready rest w) in *.
  assert (Ht0 : tasks w0 !! tid = Some t) by exact Ht.
  rewrite (update_task_eq _ _ _ _ Ht0) in Hstep.
  set (w1 := with_tasks (<[tid := set_t_must_cancel false t]> (tasks w0)) w0) in *.
  assert (Hsame : same_task t (set_t_must_cancel false t)) by (repeat split).
  assert (HL1 : loop_ok w1) by (apply (loop_ok_same w0 tid t); assumption).
  assert (HR1 : running tid w1) by (apply (running_same w0 tid tid t); assumption).
  assert (HS1 : script_ok w1) by exact HS.
  set (inp' := if t_must_cancel t then Exc CancelledError else inp) in *.
  destruct HL as (_ & Hwk & Htk & _).
  destruct (Htk tid t Ht Hres) as [Hlo _].
  assert (Hstop : waits_for_stopped (t_coro t) = true → (∃ v, inp' = Ok v) →
                  stopped (exporter w1) = true).
  { intros Hw [v Hv]. unfold inp' in Hv.
    destruct (t_must_cancel t); [discriminate|]. subst inp.
    apply (Hwk tid v t); auto. rewrite Hr. left. reflexivity. }
  pose proof (resume_post (t_coro t) inp' w1 (proj2 (proj2 (proj2 HL1))) HS1 Hlo Hstop)
    as [HS2 Hy].
  pose proof (pres_resume loop_ok loop_ok_robust loop_ok_script_robust
                (t_coro t) inp' w1 HL1) as HL2.
  pose proof (pres_resume (running tid) (running_robust tid) (running_script_robust tid)
                (t_coro t) inp' w1 HR1) as HR2.
  destruct (resume (t_coro t) inp' w1) as [[[|aw c]|e] w2]; cbn in *;
    inversion Hstep; subst w'; clear Hstep.
  - split; [apply loop_ok_finish; assumption|].
    eapply script_ok_same_program; [apply finish_task_frame|exact HS2].
  - destruct Hy as [Hy1 Hy2].
    split; [apply loop_ok_suspend; assumption|].
    eapply script_ok_same_program; [apply suspend_task_frame|exact HS2].
  - split; [apply loop_ok_finish; assumption|].
    eapply script_ok_same_program; [apply finish_task_frame|exact HS2].
Qed.

Lemma exec1_Inv (e : event) (w w' : world) :
  Inv w → exec1 e w = Some w' → Inv w'.
Proof.
  intros HI H. destruct e as [|tid o|tid]; cbn in H.
  - destruct (ready w) as [|h rest] eqn:Hr; [discriminate|].
    destruct h as [tid inp|cb tid]; cbn in H.
    + eapply task_step_Inv; eauto.
    + inversion H; subst w'; clear H. destruct cb.
      change (Inv (snd (Event_set (with_ready rest w)))).
      destruct HI as [HL HS].
      pose proof (loop_ok_pop_callback w _ _ _ Hr HL) as HL0.
      split; [apply (rb_event _ loop_ok_robust), HL0|].
      apply (script_ok_ext (with_ready rest w)).
      * destruct (Event_set_view (with_ready rest w)) as (_ & _ & _ & -> & _).
        reflexivity.
      * apply (rb_event _ (extends_robust _)), ext_refl.
      * exact HS.
  - destruct (tasks w !! tid) as [t|] eqn:Ht; [|discriminate].
    destruct (t_waiting t) as [aw|] eqn:Haw; [|discriminate].
    destruct (answers aw o) eqn:Ha; [|discriminate].
    inversion H; subst w'; clear H. destruct HI as [HL HS].
    split; [eapply loop_ok_wake; eauto; intros ->; destruct o as [[]|[]]; discriminate|].
    eapply script_ok_same_program; [apply wake_frame|exact HS].
  - destruct (tasks w !! tid) as [t|] eqn:Ht; [|discriminate].
    destruct (t_waiting t) as [aw|] eqn:Haw; [|discriminate].
    destruct (is_sleep aw) eqn:Ha; [|discriminate].
    inversion H; subst w'; clear H. destruct HI as [HL HS].
    split; [eapply loop_ok_wake; eauto; intros ->; discriminate|].
    eapply script_ok_same_program; [apply wake_frame|exact HS].
Qed.

Theorem reachable_Inv (w : world) : reachable w → Inv w.
Proof.
  induction 1 as [rpc interval script|w e w' _ IH Hstep].
  - apply Inv_initial.
  - eapply exec1_Inv; eauto.
Qed.

Lemma exec_reachable (evs : list event) (w w' : world) :
  reachable w → exec evs w = Some w' → reachable w'.
Proof.
  revert w. induction evs as [|e evs IH]; cbn; intros w Hw He.
  - inversion He; subst; exact Hw.
  - destruct (exec1 e w) as [w1|] eqn:E; [|discriminate].
    eapply IH; [|exact He]. eapply reachable_step; eauto.
Qed.

(** * The claims about the lifecycle *)

(** ** Calling [stop] twice *)

(** C8: in every state of the system in which [start] has returned and
    one [stop] call has returned, a further [stop] call does not raise
    and does not wait for the completion signal: it cancels the (done)
    runner task, finds [stopped] set and goes straight to
    [await self.session.close()]; when that returns, [stop] logs and
    returns. *)
Theorem C8_second_stop_returns (w : world) :
  reachable w →
  start_done (script_done w) → stop_done (script_done w) →
  ∃ t,
    _runner_task (exporter w) = Some t
    ∧ stopped (exporter w) = true
    ∧ (let w2 := snd (task_cancel t (stop_enter w)) in
       stop_begin w
       = (Val (Yield aw_session_close stop_L162),
          with_trace (trace w2 ++ [ef_await aw_session_close]) w2))
    ∧ ∀ w' v,
        stop_resume stop_L162 (Ok v) w'
        = (Val Done, log "Stopped components, will exit" [] w').
Proof.
  intros Hr Hstart Hstop.
  destruct (reachable_Inv w Hr) as [_ [H1 H2]].
  destruct (H1 Hstop) as [_ Hs]. destruct (H2 Hstart) as [t Ht].
  exists t. split; [exact Ht|]. split; [exact Hs|]. split.
  - cbn zeta. rewrite (stop_begin_started w t Ht), Hs. reflexivity.
  - reflexivity.
Qed.

Lemma after_start_stop_reachable : reachable after_start_stop.
Proof.
  unfold after_start_stop.
  destruct (exec run_start_stop _) as [w'|] eqn:E; cbn.
  - eapply exec_reachable; [|exact E]. constructor.
  - constructor.
Qed.

Lemma C8_second_stop_returns_witness :
  ∃ t,
    _runner_task (exporter after_start_stop) = Some t
    ∧ stopped (exporter after_start_stop) = true
    ∧ (let w2 := snd (task_cancel t (stop_enter after_start_stop)) in
       stop_begin after_start_stop
       = (Val (Yield aw_session_close stop_L162),
          with_trace (trace w2 ++ [ef_await aw_session_close]) w2))
    ∧ ∀ w' v,
        stop_resume stop_L162 (Ok v) w'
        = (Val Done, log "Stopped components, will exit" [] w').
Proof.
  apply (C8_second_stop_returns after_start_stop).
  - exact after_start_stop_reachable.
  - left. vm_compute. auto.
  - left. vm_compute. auto.
Defined.

(** The caller calling [stop] twice in a row, on the event loop. *)
Example stop_twice_run :
  ∃ w, exec (run_start_stop ++ [complete main_tid (Ok VNone); run_next])
         (initial_world "rpc" 30000 [op_start; op_wait; op_stop; op_stop]) = Some w
       ∧ task_result w main_tid = Some (Val tt)
       ∧ script_done w = [op_start; op_wait; op_stop; op_stop]
       ∧ ready w = [].
Proof. eexists. split; [vm_compute; reflexivity|]. vm_compute. auto. Qed.

(** ** [tick] writes once or not at all *)

Lemma at_tick_call_network (w : world) tid t :
  reachable w → tasks w !! tid = Some t → t_result t = None →
  at_tick_call (t_coro t) = true → is_Some (network (exporter w)).
Proof.
  intros Hr Ht Hres Hc.
  destruct (reachable_Inv w Hr) as [(_ & _ & Htk & _) _].
  destruct (Htk tid t Ht Hres) as [Hl _].
  destruct (t_coro t) as [[p|]|[p|]|[[| | |[]|[]|]|]]; try discriminate; exact Hl.
Qed.

(** C1: up to its [await] a tick writes nothing; if the call fails or
    the tick is cancelled there (or before it started) the exception
    leaves [tick] and the world is exactly as before, so every published
    value is unchanged; if the call returns [(root, value)], [tick] sets
    the gauge for the resolved network's label to [value], once, and
    returns.  A tick that is suspended at the call always has a resolved
    network, so the third case is the only one for a successful call. *)
Theorem C1_tick_writes_once_or_never (w : world) :
  (hyperlane_contract_latest_checkpoint (snd (tick_begin w))
   = hyperlane_contract_latest_checkpoint w
   ∧ gauge_sets (trace (snd (tick_begin w))) = gauge_sets (trace w))
  ∧ (∀ e, tick_resume tick_L181 (Exc e) w = (Err e, w))
  ∧ (∀ e, resume (co_tick None) (Exc e) w = (Err e, w))
  ∧ (∀ n root v,
       network (exporter w) = Some n →
       ∃ w', tick_resume tick_L181 (Ok (VCheckpoint root v)) w = (Val Done, w')
             ∧ hyperlane_contract_latest_checkpoint w'
               = <[str n := v]> (hyperlane_contract_latest_checkpoint w)
             ∧ gauge_sets (trace w') = gauge_sets (trace w) ++ [(str n, v)])
  ∧ (reachable w →
     ∀ tid t, tasks w !! tid = Some t → t_result t = None →
              at_tick_call (t_coro t) = true →
              is_Some (network (exporter w))).
Proof.
  split; [apply tick_begin_no_write|].
  split; [reflexivity|]. split; [reflexivity|]. split.
  - intros n root v Hn. eexists. split; [apply tick_resume_ok, Hn|].
    cbn. split; [reflexivity|].
    rewrite !gauge_sets_app. cbn. rewrite app_nil_r. reflexivity.
  - intros Hr tid t. apply at_tick_call_network, Hr.
Qed.

Lemma C1_tick_writes_once_or_never_witness :
  network (exporter resolved_mainnet) = Some MAINNET
  ∧ ∃ w', tick_resume tick_L181 (Ok (VCheckpoint [] 12345)) resolved_mainnet
          = (Val Done, w')
          ∧ hyperlane_contract_latest_checkpoint w'
            = <["mainnet" := 12345%Z]> ∅
          ∧ gauge_sets (trace w') = [("mainnet", 12345%Z)].
Proof.
  split; [reflexivity|].
  apply (proj1 (proj2 (proj2 (proj2 (C1_tick_writes_once_or_never resolved_mainnet))))
           MAINNET [] 12345%Z).
  reflexivity.
Defined.

(** ** A failing chain call inside [tick] *)

(** C6, as stated, fails: [tick] has no handler, so a transport error or
    a revert raised by the call leaves [tick] as an exception, and
    nothing is logged. *)
Lemma C6_counterexample :
  tick_resume tick_L181 (Exc (ContractLogicError "execution reverted"))
    resolved_mainnet
  = (Err (ContractLogicError "execution reverted"), resolved_mainnet).
Proof. reflexivity. Qed.

(** C6, amended: a failure of the chain call is not caught by [tick]: it
    propagates to the caller of [tick] and [tick] logs and writes
    nothing.  In steady state the caller is the task that [run] created
    for this tick, so the exception only ends that task: it is stored as
    the task's result, and the exporter, the gauge, the trace and every
    other task, the loop task included, are as before. *)
Theorem C6_tick_failure_ends_only_its_task (w : world) tid t e rest :
  ready w = h_step tid (Exc e) :: rest →
  tasks w !! tid = Some t → t_result t = None →
  t_coro t = co_tick (Some tick_L181) →
  tick_resume tick_L181 (Exc e) w = (Err e, w)
  ∧ ∃ w', exec1 run_next w = Some w'
      ∧ task_result w' tid
        = Some (Err (if t_must_cancel t then CancelledError else e))
      ∧ (∀ k, k ≠ tid → tasks w' !! k = tasks w !! k)
      ∧ ready w' = rest ++ map (λ cb, h_callback cb tid) (t_callbacks t)
      ∧ exporter w' = exporter w
      ∧ hyperlane_contract_latest_checkpoint w'
        = hyperlane_contract_latest_checkpoint w
      ∧ trace w' = trace w.
Proof.
  intros Hr Ht Hres Hc. split; [reflexivity|].
  assert (Hlt : tid < length (tasks w)) by (eapply lookup_lt_Some; eauto).
  eexists. split.
  - cbn. rewrite Hr. cbn. unfold task_step. cbn. rewrite Ht, Hres.
    unfold update_task. cbn. rewrite Ht, Hc. cbn.
    unfold lift_coro, bind.
    replace (tick_resume tick_L181
               (if t_must_cancel t then Exc CancelledError else Exc e))
      with (@raise (susp tick_pc) (if t_must_cancel t then CancelledError else e))
      by (destruct (t_must_cancel t); reflexivity).
    cbn. unfold finish_task. cbn.
    rewrite list_lookup_insert_eq by exact Hlt. reflexivity.
  - cbn. unfold task_result. cbn.
    rewrite list_lookup_insert_eq by (rewrite length_insert; exact Hlt). cbn.
    split; [reflexivity|]. split; [|auto].
    intros k Hk. rewrite !list_lookup_insert_ne by auto. reflexivity.
Qed.

Lemma C6_tick_failure_ends_only_its_task_witness :
  ∃ w', exec1 run_next steady_failing = Some w'
      ∧ task_result w' 2 = Some (Err (ClientError "timeout"))
      ∧ (∀ k, k ≠ 2 → tasks w' !! k = tasks steady_failing !! k)
      ∧ ready w' = []
      ∧ exporter w' = exporter steady_failing
      ∧ hyperlane_contract_latest_checkpoint w'
        = hyperlane_contract_latest_checkpoint steady_failing
      ∧ trace w' = trace steady_failing.
Proof.
  apply (proj2 (C6_tick_failure_ends_only_its_task steady_failing 2
                  (new_task (co_tick (Some tick_L181))) (ClientError "timeout") []
                  eq_refl eq_refl eq_refl eq_refl)).
Defined.

(** ** Server startup *)

Lemma exec_app (l1 l2 : list event) (w : world) :
  exec (l1 ++ l2) w
  = match exec l1 w with
    | Some w1 => exec l2 w1
    | None => None
    end.
Proof.
  revert w. induction l1 as [|e l1 IH]; intros w; cbn; [reflexivity|].
  destruct (exec1 e w); [apply IH|reflexivity].
Qed.

Lemma init_resume_unsupported (id : Z) (w : world) :
  id ≠ 1%Z → id ≠ 17000%Z →
  init_resume init_L170 (Ok (VInt id)) w
  = (Err (RuntimeError "Unsupported network with chain id %s" [VInt id]), w).
Proof.
  intros H1 H2. unfold init_resume, py_eq_int.
  destruct (Z.eqb_spec id 1) as [?|_]; [contradiction|].
  destruct (Z.eqb_spec id 17000) as [?|_]; [contradiction|].
  reflexivity.
Qed.

(** C5: [start_exporter_app] awaits [init()], then one [tick()], then
    calls [start()], in that order.  If [init()] fails (the chain id
    request fails, or the chain id is unsupported) or the first [tick()]
    fails, the exception ends [start_exporter_app]: [start()] is not
    called, no loop task exists and nothing is left to run. *)
Theorem C5_startup_order (rpc : string) (interval : Z) :
  (∀ n root v,
     ∃ w, exec [ run_next; complete main_tid (Ok VNone);
                 run_next; complete main_tid (Ok (VInt (chain_id_of n)));
                 run_next; complete main_tid (Ok (VCheckpoint root v));
                 run_next ] (startup_world rpc interval) = Some w
          ∧ trace w = [ ef_await aw_cache_async_session;
                        ef_await aw_chain_id;
                        ef_log (discovered n) [];
                        ef_await (latestCheckpoint_call (contract_of n));
                        ef_log "Fetched checkpoint index from contract: %s" [VInt v];
                        ef_gauge_set (str n) v;
                        ef_create_task 1 (co_run None) ]
          ∧ task_result w main_tid = Some (Val tt)
          ∧ _runner_task (exporter w) = Some 1
          ∧ ready w = [h_step 1 (Ok VNone)])
  ∧ (∀ o e,
       (o = Exc e ∨ ∃ id, o = Ok (VInt id) ∧ id ≠ 1%Z ∧ id ≠ 17000%Z
                          ∧ e = RuntimeError "Unsupported network with chain id %s" [VInt id]) →
       answers aw_chain_id o = true →
       ∃ w, exec [ run_next; complete main_tid (Ok VNone);
                   run_next; complete main_tid o;
                   run_next ] (startup_world rpc interval) = Some w
            ∧ task_result w main_tid = Some (Err e)
            ∧ _runner_task (exporter w) = None
            ∧ length (tasks w) = 1
            ∧ ready w = []
            ∧ gauge_sets (trace w) = [])
  ∧ (∀ n e,
       answers (latestCheckpoint_call (contract_of n)) (Exc e) = true →
       ∃ w, exec [ run_next; complete main_tid (Ok VNone);
                   run_next; complete main_tid (Ok (VInt (chain_id_of n)));
                   run_next; complete main_tid (Exc e);
                   run_next ] (startup_world rpc interval) = Some w
            ∧ task_result w main_tid = Some (Err e)
            ∧ _runner_task (exporter w) = None
            ∧ length (tasks w) = 1
            ∧ ready w = []
            ∧ gauge_sets (trace w) = []).
Proof.
  split; [|split].
  - intros n root v.
    destruct n; eexists; (split; [vm_compute; reflexivity|vm_compute; auto]).
  - intros o e Ho Ha.
    destruct Ho as [->|(id & -> & H1 & H2 & ->)].
    + destruct e; try discriminate. eexists. split; [vm_compute; reflexivity|].
      vm_compute. auto.
    + eexists. split.
      * change [run_next; complete main_tid (Ok VNone); run_next;
                complete main_tid (Ok (VInt id)); run_next]
          with ([run_next; complete main_tid (Ok VNone); run_next;
                 complete main_tid (Ok (VInt id))] ++ [run_next]).
        rewrite exec_app.
        match goal with |- context [exec ?l ?w] =>
          let r := eval vm_compute in (exec l w) in change (exec l w) with r
        end.
        cbv beta iota.
        unfold exec, exec1, ready, run_handle, task_step.
        cbn [tasks with_ready lookup list_lookup t_result t_must_cancel t_coro].
        unfold update_task. cbn [tasks with_ready lookup list_lookup].
        unfold resume, lift_coro, main_resume, op_resume,
          start_exporter_app_resume, await_coro, bind.
        rewrite init_resume_unsupported by assumption.
        cbn. reflexivity.
      * cbn. auto.
  - intros n e Ha.
    destruct n; destruct e; try discriminate; eexists;
      (split; [vm_compute; reflexivity|vm_compute; auto]).
Qed.

Lemma C5_startup_order_witness :
  ∃ w, exec [ run_next; complete main_tid (Ok VNone);
              run_next; complete main_tid (Ok (VInt 5));
              run_next ] (startup_world "rpc" 30000) = Some w
       ∧ task_result w main_tid
         = Some (Err (RuntimeError "Unsupported network with chain id %s" [VInt 5]))
       ∧ _runner_task (exporter w) = None
       ∧ length (tasks w) = 1
       ∧ ready w = []
       ∧ gauge_sets (trace w) = [].
Proof.
  apply (proj1 (proj2 (C5_startup_order "rpc" 30000)) (Ok (VInt 5))).
  - right. exists 5%Z. repeat split; lia.
  - reflexivity.
Defined.

(** ** After [stop] *)

Lemma live_ticks_insert (ts : list task) tid t t' :
  ts !! tid = Some t →
  live_ticks (<[tid := t']> ts) + b2n (is_live_tick t)
  = live_ticks ts + b2n (is_live_tick t').
Proof.
  revert tid. induction ts as [|x ts IH]; intros [|tid] H; try discriminate.
  - inversion H; subst. unfold live_ticks. cbn. lia.
  - cbn in H. specialize (IH tid H). unfold live_ticks in *. cbn.
    rewrite <- !Nat.add_assoc. f_equal. exact IH.
Qed.

Lemma live_ticks_wake_waiters (i : task_id) (ts : list task) :
  live_ticks (fst (wake_waiters i ts)) = live_ticks ts.
Proof.
  revert i. induction ts as [|t ts IH]; intros i; cbn; [reflexivity|].
  specialize (IH (S i)). destruct (wake_waiters (S i) ts) as [ts' hs].
  cbn in IH. unfold live_ticks in *.
  destruct (is_event_wait (t_waiting t)); cbn; rewrite IH; reflexivity.
Qed.

Lemma evolves_refl ts : evolves ts ts.
Proof. split; [reflexivity|]. intros tid t H. exists t. auto. Qed.

Lemma evolves_trans ts1 ts2 ts3 : evolves ts1 ts2 → evolves ts2 ts3 → evolves ts1 ts3.
Proof.
  intros [L1 H1] [L2 H2]. split; [congruence|].
  intros tid t3 Ht3. destruct (H2 _ _ Ht3) as (t2 & Ht2 & K2 & R2).
  destruct (H1 _ _ Ht2) as (t1 & Ht1 & K1 & R1).
  exists t1. split; [exact Ht1|]. split; [congruence|auto].
Qed.

Lemma evolves_insert ts tid t t' :
  ts !! tid = Some t → kind_of (t_coro t') = kind_of (t_coro t) →
  (t_result t ≠ None → t_result t' ≠ None) →
  evolves ts (<[tid := t']> ts).
Proof.
  intros Ht Hk Hr. split; [apply length_insert|].
  intros k y Hy.
  apply list_lookup_insert_Some in Hy as [(-> & <- & _)|(Hne & Hy)].
  - exists t. auto.
  - exists y. auto.
Qed.

Lemma evolves_wake_waiters ts : evolves ts (fst (wake_waiters 0 ts)).
Proof.
  destruct (wake_waiters_spec 0 ts) as (_ & _ & Hl & Hl'). split.
  - apply Nat.le_antisymm.
    + destruct (Nat.le_gt_cases (length (wake_waiters 0 ts).1) (length ts)) as [H|H];
        [exact H|].
      apply lookup_lt_is_Some in H as [x Hx].
      destruct (Hl' _ _ Hx) as (y & Hy & _). apply lookup_lt_Some in Hy. lia.
    + destruct (Nat.le_gt_cases (length ts) (length (wake_waiters 0 ts).1)) as [H|H];
        [exact H|].
      apply lookup_lt_is_Some in H as [x Hx].
      destruct (Hl _ _ Hx) as (y & Hy & _). apply lookup_lt_Some in Hy. lia.
  - intros tid t' Ht'. destruct (Hl' _ _ Ht') as (t & Ht & Hc & Hr & _).
    exists t. split; [exact Ht|]. split; congruence.
Qed.

Lemma main_finished_evolves ts ts' : evolves ts ts' → main_finished ts → main_finished ts'.
Proof.
  intros [_ H] Hm tid t' Ht' Hk. destruct (H _ _ Ht') as (t & Ht & K & R).
  apply R. apply (Hm tid t Ht). congruence.
Qed.

(** With [stopping] set, a step of the loop task ends it without spawning. *)
Lemma resume_run_stopping (p : option run_pc) (inp : outcome) (w : world) :
  stopping (exporter w) = true →
  resume (co_run p) inp w
  = match inp with
    | Ok _ => (Val Done, snd (Event_set w))
    | Exc e => (Err e, w)
    end.
Proof.
  intros H. destruct p as [[[]]|]; destruct inp as [v|e]; cbn -[run_loop];
    unfold lift_coro, await_coro, bind; cbn -[run_loop]; try reflexivity;
    unfold run_begin; rewrite (run_loop_stopping w H); reflexivity.
Qed.

(** A step of a tick: it only appends to the trace, spawns nothing, and
    writes the gauge at most once, and only when it ends. *)
Lemma resume_tick_spec (p : option tick_pc) (inp : outcome) (w : world) :
  let r := fst (resume (co_tick p) inp w) in
  let w' := snd (resume (co_tick p) inp w) in
  tasks w' = tasks w ∧ ready w' = ready w
  ∧ stopping (exporter w') = stopping (exporter w)
  ∧ ∃ extra, trace w' = trace w ++ extra ∧ no_spawn extra
      ∧ match r with
        | Val (Yield aw c') => gauge_sets extra = [] ∧ kind_of c' = k_tick
        | _ => length (gauge_sets extra) ≤ 1
        end.
Proof.
  destruct p as [[]|]; cbn; unfold lift_coro, bind.
  - destruct inp as [[| | |root v]|e]; cbn;
      try (repeat split; exists []; rewrite app_nil_r;
           repeat split; [constructor|cbn; lia]).
    unfold bind, self_network, get_self; cbn.
    destruct (network (exporter w)) as [n|]; cbn.
    + repeat split. eexists. rewrite <- app_assoc. split; [reflexivity|].
      split; [repeat constructor|cbn; lia].
    + repeat split. eexists. split; [reflexivity|].
      split; [repeat constructor|cbn; lia].
  - destruct inp as [v|e]; cbn;
      [|repeat split; exists []; rewrite app_nil_r;
        repeat split; [constructor|cbn; lia]].
    destruct (contract (exporter w)) as [c|] eqn:Hc.
    + rewrite (tick_begin_cached _ _ Hc). cbn. repeat split.
      eexists. split; [reflexivity|]. repeat split. repeat constructor.
    + destruct (network (exporter w)) as [n|] eqn:Hn.
      * rewrite (tick_begin_first _ _ Hc Hn). cbn. repeat split.
        eexists. split; [reflexivity|]. repeat split. repeat constructor.
      * rewrite (tick_begin_unresolved _ Hc Hn). cbn. repeat split.
        exists []. rewrite app_nil_r. repeat split; [constructor|cbn; lia].
Qed.

Lemma finish_task_tasks tid r w t :
  tasks w !! tid = Some t →
  tasks (finish_task tid r w) = <[tid := set_t_result r t]> (tasks w).
Proof. intros H. unfold finish_task. rewrite H. reflexivity. Qed.

Lemma suspend_task_tasks tid aw c w t :
  tasks w !! tid = Some t →
  ∃ t', tasks (suspend_task tid aw c w) = <[tid := t']> (tasks w)
        ∧ t_coro t' = c ∧ t_result t' = t_result t.
Proof.
  intros H. unfold suspend_task.
  destruct aw; try (rewrite (update_task_eq _ _ _ _ H); eexists; split;
                    [reflexivity|split; reflexivity]).
  destruct (Qle_bool delay 0); rewrite (update_task_eq _ _ _ _ H);
    eexists; (split; [reflexivity|split; reflexivity]).
Qed.

Lemma quiet_step_same_trace (w w' : world) :
  stopping (exporter w') = true → evolves (tasks w) (tasks w') →
  trace w' = trace w → live_ticks (tasks w') = live_ticks (tasks w) →
  quiet_step w w'.
Proof.
  intros Hs He Ht Hl. split; [exact Hs|]. split; [exact He|].
  exists []. rewrite app_nil_r. split; [exact Ht|]. split; [constructor|].
  cbn. lia.
Qed.

Lemma is_live_tick_same (t t' : task) :
  t_coro t' = t_coro t → t_result t' = t_result t →
  is_live_tick t' = is_live_tick t.
Proof. intros Hc Hr. unfold is_live_tick. rewrite Hc, Hr. reflexivity. Qed.

Lemma wake_quiet (w : world) tid o t :
  stopping (exporter w) = true → tasks w !! tid = Some t →
  quiet_step w (wake tid o w).
Proof.
  intros Hs Ht. unfold wake. rewrite (update_task_eq _ _ _ _ Ht).
  apply quiet_step_same_trace; cbn; auto.
  - apply (evolves_insert _ _ t); auto.
  - pose proof (live_ticks_insert (tasks w) tid t (set_t_waiting None t) Ht) as H.
    rewrite (is_live_tick_same t (set_t_waiting None t)) in H by reflexivity. lia.
Qed.

Lemma Event_set_quiet (w : world) :
  stopping (exporter w) = true →
  stopping (exporter (snd (Event_set w))) = true
  ∧ evolves (tasks w) (tasks (snd (Event_set w)))
  ∧ trace (snd (Event_set w)) = trace w
  ∧ live_ticks (tasks (snd (Event_set w))) = live_ticks (tasks w).
Proof.
  intros Hs.
  destruct (Event_set_view w) as (Htr & _ & _ & _ & [->|(He & Ht & _)]).
  - repeat split; auto. intros tid t H. exists t. auto.
  - rewrite He, Ht. cbn. split; [exact Hs|].
    split; [apply evolves_wake_waiters|]. split; [exact Htr|].
    apply live_ticks_wake_waiters.
Qed.

Lemma task_step_quiet (w w' : world) tid inp rest :
  stopping (exporter w) = true → main_finished (tasks w) →
  ready w = h_step tid inp :: rest →
  task_step tid inp (with_ready rest w) = Some w' →
  quiet_step w w'.
Proof.
  intros Hs Hm Hr Hstep. unfold task_step in Hstep. cbn [tasks with_ready] in Hstep.
  destruct (tasks w !! tid) as [t|] eqn:Ht; [|discriminate].
  destruct (t_result t) eqn:Hres; [discriminate|].
  set (w0 := with_ready rest w) in *.
  assert (Ht0 : tasks w0 !! tid = Some t) by exact Ht.
  rewrite (update_task_eq _ _ _ _ Ht0) in Hstep.
  set (t1 := set_t_must_cancel false t) in *.
  set (w1 := with_tasks (<[tid := t1]> (tasks w0)) w0) in *.
  set (inp' := if t_must_cancel t then Exc CancelledError else inp) in *.
  assert (Hlt : tid < length (tasks w)) by (eapply lookup_lt_Some; eauto).
  assert (Ht1 : tasks w1 !! tid = Some t1)
    by (cbn; apply list_lookup_insert_eq; exact Hlt).
  assert (He1 : evolves (tasks w) (tasks w1))
    by (apply (evolves_insert _ _ t); auto).
  assert (Hl1 : live_ticks (tasks w1) = live_ticks (tasks w)).
  { pose proof (live_ticks_insert (tasks w) tid t t1 Ht) as H.
    rewrite (is_live_tick_same t t1) in H by reflexivity. cbn. lia. }
  destruct (t_coro t) as [p|p|p] eqn:Hc.
  - (* the loop task *)
    rewrite (resume_run_stopping p inp' w1 Hs) in Hstep.
    assert (Hfin : ∀ r w2,
              stopping (exporter w2) = true → evolves (tasks w1) (tasks w2) →
              trace w2 = trace w1 → live_ticks (tasks w2) = live_ticks (tasks w1) →
              quiet_step w (finish_task tid r w2)).
    { intros r w2 Hs2 He2 Htr2 Hl2.
      assert (∃ t2, tasks w2 !! tid = Some t2) as [t2 Ht2].
      { apply lookup_lt_is_Some. destruct He2 as [-> _].
        eapply lookup_lt_Some; eauto. }
      destruct (proj2 He2 _ _ Ht2) as (t1' & Ht1' & Hk & _).
      rewrite Ht1 in Ht1'. inversion Ht1'; subst t1'.
      destruct (finish_task_frame tid r w2) as (Hex & _ & Htrf & _).
      apply quiet_step_same_trace.
      - rewrite Hex. exact Hs2.
      - rewrite (finish_task_tasks _ _ _ _ Ht2).
        eapply evolves_trans; [exact He1|]. eapply evolves_trans; [exact He2|].
        apply (evolves_insert _ _ t2); auto; discriminate.
      - rewrite Htrf, Htr2. reflexivity.
      - rewrite (finish_task_tasks _ _ _ _ Ht2).
        pose proof (live_ticks_insert (tasks w2) tid t2 (set_t_result r t2) Ht2) as H.
        assert (is_live_tick t2 = false) as Hf.
        { unfold is_live_tick. rewrite Hk. cbn. rewrite Hc. reflexivity. }
        assert (is_live_tick (set_t_result r t2) = false) as Hf'.
        { unfold is_live_tick. cbn. destruct (kind_of (t_coro t2)); reflexivity. }
        rewrite Hf, Hf' in H. cbn in H. lia. }
    destruct inp' as [v|e]; inversion Hstep; subst w'; clear Hstep.
    + destruct (Event_set_quiet w1 Hs) as (? & ? & ? & ?). apply Hfin; auto.
    + apply Hfin; auto. apply evolves_refl.
  - (* a tick *)
    destruct (resume_tick_spec p inp' w1) as (Hts & _ & Hst & extra & Htr & Hns & Hr').
    destruct (resume (co_tick p) inp' w1) as [[[|aw c]|e] w2]; cbn in *;
      inversion Hstep; subst w'; clear Hstep.
    + (* returned *)
      assert (Ht2 : tasks w2 !! tid = Some t1) by (rewrite Hts; exact Ht1).
      destruct (finish_task_frame tid (Val tt) w2) as (Hex & _ & Htrf & _).
      split; [rewrite Hex, Hst; exact Hs|].
      rewrite (finish_task_tasks _ _ _ _ Ht2), Hts.
      split.
      { eapply evolves_trans; [exact He1|].
        apply (evolves_insert _ _ t1); auto; discriminate. }
      exists extra. rewrite Htrf, Htr. split; [reflexivity|]. split; [exact Hns|].
      pose proof (live_ticks_insert _ tid t1 (set_t_result (Val tt) t1) Ht1) as H.
      assert (is_live_tick t1 = true) as Hf
        by (unfold is_live_tick; cbn; rewrite Hc, Hres; reflexivity).
      assert (is_live_tick (set_t_result (Val tt) t1) = false) as Hf'
        by (unfold is_live_tick; cbn; rewrite Hc; reflexivity).
      rewrite Hf, Hf' in H. cbn in H. cbn in Hl1. lia.
    + (* suspended at the call *)
      destruct Hr' as [Hg Hk].
      assert (Ht2 : tasks w2 !! tid = Some t1) by (rewrite Hts; exact Ht1).
      destruct (suspend_task_tasks tid aw c w2 t1 Ht2) as (t' & Hts' & Hc' & Hr2).
      destruct (suspend_task_frame tid aw c w2) as (Hex & _ & Htrf & _).
      split; [rewrite Hex, Hst; exact Hs|].
      rewrite Hts', Hts. split.
      { eapply evolves_trans; [exact He1|].
        apply (evolves_insert _ _ t1);
          [exact Ht1|rewrite Hc'; cbn; rewrite Hc; exact Hk|rewrite Hr2; auto]. }
      exists extra. rewrite Htrf, Htr. split; [reflexivity|]. split; [exact Hns|].
      pose proof (live_ticks_insert _ tid t1 t' Ht1) as H.
      assert (is_live_tick t1 = true) as Hf
        by (unfold is_live_tick; cbn; rewrite Hc, Hres; reflexivity).
      assert (is_live_tick t' = true) as Hf'.
      { unfold is_live_tick. rewrite Hc', Hk, Hr2. cbn. rewrite Hres. reflexivity. }
      rewrite Hf, Hf' in H. rewrite Hg. cbn in *. lia.
    + (* raised *)
      assert (Ht2 : tasks w2 !! tid = Some t1) by (rewrite Hts; exact Ht1).
      destruct (finish_task_frame tid (Err e) w2) as (Hex & _ & Htrf & _).
      split; [rewrite Hex, Hst; exact Hs|].
      rewrite (finish_task_tasks _ _ _ _ Ht2), Hts.
      split.
      { eapply evolves_trans; [exact He1|].
        apply (evolves_insert _ _ t1); auto; discriminate. }
      exists extra. rewrite Htrf, Htr. split; [reflexivity|]. split; [exact Hns|].
      pose proof (live_ticks_insert _ tid t1 (set_t_result (Err e) t1) Ht1) as H.
      assert (is_live_tick t1 = true) as Hf
        by (unfold is_live_tick; cbn; rewrite Hc, Hres; reflexivity).
      assert (is_live_tick (set_t_result (Err e) t1) = false) as Hf'
        by (unfold is_live_tick; cbn; rewrite Hc; reflexivity).
      rewrite Hf, Hf' in H. cbn in H. cbn in Hl1. lia.
  - (* the caller is done *)
    exfalso. apply (Hm tid t Ht); [rewrite Hc; reflexivity|exact Hres].
Qed.

Lemma exec1_quiet (e : event) (w w' : world) :
  stopping (exporter w) = true → main_finished (tasks w) →
  exec1 e w = Some w' → quiet_step w w'.
Proof.
  intros Hs Hm H. destruct e as [|tid o|tid]; cbn in H.
  - destruct (ready w) as [|h rest] eqn:Hr; [discriminate|].
    destruct h as [tid inp|cb tid]; cbn in H.
    + eapply task_step_quiet; eauto.
    + inversion H; subst w'; clear H. destruct cb.
      change (quiet_step w (snd (Event_set (with_ready rest w)))).
      destruct (Event_set_quiet (with_ready rest w) Hs) as (? & ? & ? & ?).
      apply quiet_step_same_trace; auto.
  - destruct (tasks w !! tid) as [t|] eqn:Ht; [|discriminate].
    destruct (t_waiting t) as [aw|]; [|discriminate].
    destruct (answers aw o); [|discriminate].
    inversion H; subst w'. eapply wake_quiet; eauto.
  - destruct (tasks w !! tid) as [t|] eqn:Ht; [|discriminate].
    destruct (t_waiting t) as [aw|]; [|discriminate].
    destruct (is_sleep aw); [|discriminate].
    inversion H; subst w'. eapply wake_quiet; eauto.
Qed.

Lemma exec_quiet (evs : list event) (w w' : world) :
  stopping (exporter w) = true → main_finished (tasks w) →
  exec evs w = Some w' →
  quiet_step w w' ∧ main_finished (tasks w').
Proof.
  revert w. induction evs as [|e evs IH]; intros w Hs Hm H; cbn in H.
  - inversion H; subst w'. split; [|exact Hm].
    apply quiet_step_same_trace; auto. apply evolves_refl.
  - destruct (exec1 e w) as [w1|] eqn:E; [|discriminate].
    destruct (exec1_quiet e w w1 Hs Hm E) as (Hs1 & He1 & x1 & Ht1 & Hn1 & Hl1).
    pose proof (main_finished_evolves _ _ He1 Hm) as Hm1.
    destruct (IH w1 Hs1 Hm1 H) as [(Hs2 & He2 & x2 & Ht2 & Hn2 & Hl2) Hm2].
    split; [|exact Hm2]. split; [exact Hs2|].
    split; [eapply evolves_trans; eauto|].
    exists (x1 ++ x2). rewrite Ht2, Ht1, app_assoc. split; [reflexivity|].
    split; [apply Forall_app; auto|].
    rewrite gauge_sets_app, length_app. lia.
Qed.

(** C4, as stated, fails: the tick spawned by the loop before the
    cancellation is not cancelled by [stop]; here its call returns after
    [stop] has returned, and it sets the gauge. *)
Lemma C4_counterexample :
  exec serve_and_shutdown (initial_world "rpc" 30000 server_script)
  = Some after_shutdown
  ∧ script_done after_shutdown = server_script
  ∧ task_result after_shutdown main_tid = Some (Val tt)
  ∧ task_result after_shutdown 1 = Some (Err CancelledError)
  ∧ gauge_sets (trace after_shutdown) = [("mainnet", 100%Z)]
  ∧ ∃ w, exec [complete 2 (Ok (VCheckpoint [] 101)); run_next] after_shutdown = Some w
         ∧ gauge_sets (trace w) = [("mainnet", 100%Z); ("mainnet", 101%Z)]
         ∧ hyperlane_contract_latest_checkpoint w !! "mainnet" = Some 101%Z.
Proof.
  split; [vm_compute; reflexivity|].
  split; [vm_compute; reflexivity|].
  split; [vm_compute; reflexivity|].
  split; [vm_compute; reflexivity|].
  split; [vm_compute; reflexivity|].
  eexists. split; [vm_compute; reflexivity|].
  split; vm_compute; reflexivity.
Qed.

(** C4, amended: once [stop] has returned and the caller is done, the
    loop spawns nothing more - no task is ever created again - and the
    loop task writes nothing; the only Metric Store writes that can
    still happen are the single writes of tick tasks that were spawned
    before the cancellation and are still in flight, at most one per
    such task.  [stop] neither cancels nor awaits those. *)
Theorem C4_no_spawn_after_stop (w w' : world) (evs : list event) :
  reachable w → stop_done (script_done w) → main_finished (tasks w) →
  exec evs w = Some w' →
  length (tasks w') = length (tasks w)
  ∧ ∃ extra,
      trace w' = trace w ++ extra
      ∧ no_spawn extra
      ∧ length (gauge_sets extra) + live_ticks (tasks w') ≤ live_ticks (tasks w).
Proof.
  intros Hr Hstop Hm He.
  destruct (reachable_Inv w Hr) as [_ [H1 _]].
  destruct (H1 Hstop) as [Hs _].
  destruct (exec_quiet evs w w' Hs Hm He) as [(_ & [Hl _] & Hx) _].
  split; [exact Hl|exact Hx].
Qed.

Lemma after_shutdown_reachable : reachable after_shutdown.
Proof.
  apply (exec_reachable serve_and_shutdown (initial_world "rpc" 30000 server_script)).
  - constructor.
  - vm_compute. reflexivity.
Qed.

Lemma C4_no_spawn_after_stop_witness :
  ∃ w', exec [complete 2 (Ok (VCheckpoint [] 101)); run_next] after_shutdown = Some w'
        ∧ length (tasks w') = length (tasks after_shutdown)
        ∧ ∃ extra,
            trace w' = trace after_shutdown ++ extra
            ∧ no_spawn extra
            ∧ length (gauge_sets extra) + live_ticks (tasks w')
              ≤ live_ticks (tasks after_shutdown).
Proof.
  eexists. split; [vm_compute; reflexivity|].
  apply (C4_no_spawn_after_stop after_shutdown _
           [complete 2 (Ok (VCheckpoint [] 101)); run_next]).
  - exact after_shutdown_reachable.
  - right. vm_compute. auto.
  - intros [|[|[|tid]]] t H Hk; vm_compute in H; inversion H; subst t;
      try discriminate.
  - vm_compute. reflexivity.
Defined.

(** ** The resolved network and the labels written *)

Lemma with_ready_frame (r : list handle) (w : world) : same_program w (with_ready r w).
Proof. repeat split. Qed.

Lemma task_step_program (P : world → Prop) tid inp (w w' : world) :
  robust P → script_robust P → program_pred P →
  task_step tid inp w = Some w' → P w → P w'.
Proof.
  intros HP HS Hpp Hstep H. unfold task_step in Hstep.
  destruct (tasks w !! tid) as [t|]; [|discriminate].
  destruct (t_result t); [discriminate|].
  set (w1 := update_task tid (set_t_must_cancel false) w) in *.
  set (inp' := if t_must_cancel t then Exc CancelledError else inp) in *.
  assert (H1 : P w1) by (apply (Hpp w); [apply update_task_frame|exact H]).
  pose proof (pres_resume P HP HS (t_coro t) inp' w1 H1) as H2.
  destruct (resume (t_coro t) inp' w1) as [[[|aw c]|e] w2]; cbn in *;
    inversion Hstep; subst w'.
  - apply (Hpp w2); [apply finish_task_frame|exact H2].
  - apply (Hpp w2); [apply suspend_task_frame|exact H2].
  - apply (Hpp w2); [apply finish_task_frame|exact H2].
Qed.

Lemma exec1_program (P : world → Prop) (e : event) (w w' : world) :
  robust P → script_robust P → program_pred P →
  exec1 e w = Some w' → P w → P w'.
Proof.
  intros HP HS Hpp He H. destruct e as [|tid o|tid]; cbn in He.
  - destruct (ready w) as [|h rest]; [discriminate|].
    assert (H0 : P (with_ready rest w))
      by (apply (Hpp w); [apply with_ready_frame|exact H]).
    destruct h as [tid inp|cb tid]; cbn in He.
    + eapply task_step_program; eauto.
    + inversion He; subst w'. destruct cb. apply (rb_event P HP), H0.
  - destruct (tasks w !! tid) as [t|]; [|discriminate].
    destruct (t_waiting t) as [aw|]; [|discriminate].
    destruct (answers aw o); [|discriminate].
    inversion He; subst w'. apply (Hpp w); [apply wake_frame|exact H].
  - destruct (tasks w !! tid) as [t|]; [|discriminate].
    destruct (t_waiting t) as [aw|]; [|discriminate].
    destruct (is_sleep aw); [|discriminate].
    inversion He; subst w'. apply (Hpp w); [apply wake_frame|exact H].
Qed.

Lemma exec_program (P : world → Prop) (evs : list event) (w w' : world) :
  robust P → script_robust P → program_pred P →
  exec evs w = Some w' → P w → P w'.
Proof.
  intros HP HS Hpp. revert w. induction evs as [|e evs IH]; cbn; intros w He H.
  - inversion He; subst; exact H.
  - destruct (exec1 e w) as [w1|] eqn:E; [|discriminate].
    apply (IH w1 He). eapply exec1_program; eauto.
Qed.

Lemma task_cancel_trace (t : task_id) (w : world) :
  trace (snd (task_cancel t w)) = trace w ++ [ef_cancel t].
Proof.
  unfold task_cancel; cbn.
  destruct (tasks w !! t) as [x|]; [|reflexivity].
  destruct (t_result x); [reflexivity|].
  destruct (t_waiting x); reflexivity.
Qed.

Lemma trace_from_app tr0 w w' e :
  trace w' = trace w ++ [e] → trace_from tr0 w → trace_from tr0 w'.
Proof.
  intros Ht [x Hx]. exists (x ++ [e]). rewrite Ht, Hx, app_assoc. reflexivity.
Qed.

Lemma trace_from_same tr0 w w' :
  trace w' = trace w → trace_from tr0 w → trace_from tr0 w'.
Proof. intros Ht [x Hx]. exists x. congruence. Qed.

Lemma trace_from_robust tr0 : robust (trace_from tr0).
Proof.
  split; try (intros; assumption).
  - intros w msg args _. eapply trace_from_app; reflexivity.
  - intros w aw _. eapply trace_from_app; reflexivity.
  - intros w c _. eapply trace_from_app; reflexivity.
  - intros w n v _. eapply trace_from_app; reflexivity.
  - intros w n. eapply trace_from_app; reflexivity.
  - intros w c _. eapply trace_from_app; reflexivity.
  - intros w t. eapply trace_from_app; apply task_cancel_trace.
  - intros w t cb. apply trace_from_same.
    destruct (add_done_callback_view t cb w) as (_ & -> & _). reflexivity.
  - intros w. apply trace_from_same.
    destruct (Event_set_view w) as (-> & _). reflexivity.
Qed.

Lemma trace_from_script_robust tr0 : script_robust (trace_from tr0).
Proof. split. intros; assumption. Qed.

Lemma trace_from_program tr0 : program_pred (trace_from tr0).
Proof. intros w w' (_ & _ & Ht & _). apply trace_from_same, Ht. Qed.

Lemma exec_trace_extends (evs : list event) (w w' : world) :
  exec evs w = Some w' → ∃ extra, trace w' = trace w ++ extra.
Proof.
  intros He.
  apply (exec_program (trace_from (trace w)) evs w w'
           (trace_from_robust _) (trace_from_script_robust _)
           (trace_from_program _) He).
  exists []. rewrite app_nil_r. reflexivity.
Qed.

Lemma resolutions_app t1 t2 : resolutions (t1 ++ t2) = resolutions t1 ++ resolutions t2.
Proof. apply omap_app. Qed.

Lemma calls_app t1 t2 : calls (t1 ++ t2) = calls t1 ++ calls t2.
Proof. apply omap_app. Qed.

Lemma resolutions_one e :
  resolutions [e] = match resolution e with Some n => [n] | None => [] end.
Proof. unfold resolutions. cbn. destruct (resolution e); reflexivity. Qed.

Lemma resolution_discovered n args : resolution (ef_log (discovered n) args) = Some n.
Proof. destruct n; reflexivity. Qed.

Lemma resolution_other msg args :
  is_discovered msg = false → resolution (ef_log msg args) = None.
Proof.
  unfold is_discovered, resolution. intros H.
  apply orb_false_iff in H as [-> ->]. reflexivity.
Qed.

Lemma last_resolved_append w w' e :
  trace w' = trace w ++ [e] → resolution e = None →
  network (exporter w') = network (exporter w) →
  last_resolved w → last_resolved w'.
Proof.
  unfold last_resolved. intros Ht Hr Hn H.
  rewrite Hn, Ht, resolutions_app, resolutions_one, Hr, app_nil_r. exact H.
Qed.

Lemma last_resolved_same w w' :
  trace w' = trace w → network (exporter w') = network (exporter w) →
  last_resolved w → last_resolved w'.
Proof. unfold last_resolved. intros -> ->. auto. Qed.

Lemma resolution_await aw : resolution (ef_await aw) = None.
Proof. reflexivity. Qed.

Lemma last_resolved_robust : robust last_resolved.
Proof.
  split.
  - intros w msg args Hm. apply (last_resolved_append w _ (ef_log msg args));
      auto using resolution_other.
  - intros w aw _. apply (last_resolved_append w _ (ef_await aw)); auto.
  - intros w c _. apply (last_resolved_append w _ (ef_await (latestCheckpoint_call c)));
      auto.
  - intros w n v _. apply (last_resolved_append w _ (ef_gauge_set (str n) v)); auto.
  - intros w n _. unfold last_resolved. cbn.
    rewrite resolutions_app, resolutions_one, resolution_discovered.
    rewrite last_snoc. reflexivity.
  - intros w. apply last_resolved_same; reflexivity.
  - intros w n c _ _ _. apply last_resolved_same; reflexivity.
  - intros w t. apply last_resolved_same; reflexivity.
  - intros w c _.
    apply (last_resolved_append w _ (ef_create_task (length (tasks w)) c)); auto.
  - intros w t. destruct (task_cancel_view t w) as [(He & _) _].
    apply (last_resolved_append w _ (ef_cancel t));
      [apply task_cancel_trace|reflexivity|rewrite He; reflexivity].
  - intros w t cb. destruct (add_done_callback_view t cb w) as [(He & _) (Ht & _)].
    apply last_resolved_same; [exact Ht|rewrite He; reflexivity].
  - intros w. destruct (Event_set_view w) as (Ht & _ & _ & _ & [Hw|(He & _)]).
    + rewrite Hw. auto.
    + apply last_resolved_same; [exact Ht|rewrite He; reflexivity].
Qed.

Lemma last_resolved_script_robust : script_robust last_resolved.
Proof. split. intros; assumption. Qed.

Lemma last_resolved_program : program_pred last_resolved.
Proof.
  intros w w' (He & _ & Ht & _). apply last_resolved_same; [exact Ht|].
  rewrite He. reflexivity.
Qed.

Lemma labelled_append w w' e :
  trace w' = trace w ++ [e] →
  resolution e = None → gauge_sets [e] = [] → calls [e] = [] →
  network (exporter w') = network (exporter w) →
  contract (exporter w') = contract (exporter w) →
  labelled w → labelled w'.
Proof.
  unfold labelled. intros Ht Hr Hg Hc Hn Hk H.
  rewrite Hn, Hk, Ht, resolutions_app, gauge_sets_app, calls_app, Hg, Hc.
  rewrite resolutions_one, Hr, !app_nil_r. exact H.
Qed.

Lemma labelled_same w w' :
  trace w' = trace w →
  network (exporter w') = network (exporter w) →
  contract (exporter w') = contract (exporter w) →
  labelled w → labelled w'.
Proof. unfold labelled. intros -> -> ->. auto. Qed.

Lemma calls_await aw : is_call aw = false → calls [ef_await aw] = [].
Proof. destruct aw; try reflexivity. discriminate. Qed.

Lemma labelled_robust : robust labelled.
Proof.
  split.
  - intros w msg args Hm. apply (labelled_append w _ (ef_log msg args));
      auto using resolution_other.
  - intros w aw Ha. apply (labelled_append w _ (ef_await aw));
      auto using calls_await.
  - (* the call *)
    intros w c Hc. unfold labelled. cbn.
    rewrite resolutions_app, gauge_sets_app, calls_app, resolutions_one.
    cbn. rewrite !app_nil_r.
    destruct (resolutions (trace w)) as [|n [|m l]]; [| |auto].
    + intros (_ & Hk & _). congruence.
    + intros (Hn & Hk & Hs & Hcs). split; [exact Hn|]. split; [exact Hk|].
      split; [exact Hs|]. apply Forall_app. split; [exact Hcs|].
      constructor; [|constructor]. destruct Hk; congruence.
  - (* the gauge write *)
    intros w n v Hn. unfold labelled. cbn.
    rewrite resolutions_app, gauge_sets_app, calls_app, resolutions_one.
    cbn. rewrite !app_nil_r.
    destruct (resolutions (trace w)) as [|n0 [|m l]]; [| |auto].
    + intros (Hn0 & _). congruence.
    + intros (Hn0 & Hk & Hs & Hcs). split; [exact Hn0|]. split; [exact Hk|].
      split; [|exact Hcs]. apply Forall_app. split; [exact Hs|].
      constructor; [|constructor]. cbn. congruence.
  - (* a successful init *)
    intros w n. unfold labelled. cbn.
    rewrite resolutions_app, gauge_sets_app, calls_app, resolutions_one.
    rewrite resolution_discovered. cbn. rewrite !app_nil_r.
    destruct (resolutions (trace w)) as [|n0 [|m l]]; cbn; [|auto|auto].
    intros (_ & Hk & Hs & Hcs). rewrite Hk, Hs, Hcs. auto.
  - intros w. apply labelled_same; reflexivity.
  - (* the contract is cached *)
    intros w n c Hn Hk Hg. rewrite get_contract_eq in Hg. inversion Hg; subst c.
    unfold labelled. cbn.
    destruct (resolutions (trace w)) as [|n0 [|m l]]; [| |auto].
    + intros (Hn0 & _). congruence.
    + intros (Hn0 & _ & Hs & Hcs). split; [exact Hn0|].
      split; [right; congruence|auto].
  - intros w t. apply labelled_same; reflexivity.
  - intros w c _.
    apply (labelled_append w _ (ef_create_task (length (tasks w)) c)); auto.
  - intros w t. destruct (task_cancel_view t w) as [(He & _) _].
    apply (labelled_append w _ (ef_cancel t));
      [apply task_cancel_trace|reflexivity..|rewrite He; reflexivity|rewrite He; reflexivity].
  - intros w t cb. destruct (add_done_callback_view t cb w) as [(He & _) (Ht & _)].
    apply labelled_same; [exact Ht|rewrite He; reflexivity..].
  - intros w. destruct (Event_set_view w) as (Ht & _ & _ & _ & [Hw|(He & _)]).
    + rewrite Hw. auto.
    + apply labelled_same; [exact Ht|rewrite He; reflexivity..].
Qed.

Lemma labelled_script_robust : script_robust labelled.
Proof. split. intros; assumption. Qed.

Lemma labelled_program : program_pred labelled.
Proof.
  intros w w' (He & _ & Ht & _). apply labelled_same; [exact Ht|..];
    rewrite He; reflexivity.
Qed.

Lemma reachable_program (P : world → Prop) (w : world) :
  robust P → script_robust P → program_pred P →
  (∀ rpc interval script, P (initial_world rpc interval script)) →
  reachable w → P w.
Proof.
  intros HP HS Hpp H0. induction 1 as [|w e w' _ IH He]; [apply H0|].
  eapply exec1_program; eauto.
Qed.

Lemma reachable_labelled (w : world) :
  reachable w → last_resolved w ∧ labelled w.
Proof.
  intros Hr. split.
  - apply (reachable_program last_resolved w last_resolved_robust
             last_resolved_script_robust last_resolved_program); [|exact Hr].
    intros. reflexivity.
  - apply (reachable_program labelled w labelled_robust
             labelled_script_robust labelled_program); [|exact Hr].
    intros. unfold labelled, resolutions. cbn. auto.
Qed.

(** C7, as stated, fails: nothing stops a second [init]; it overwrites
    the network, while the [contract] property keeps the contract cached
    for the first network.  The next tick reads the MAINNET contract and
    publishes the value under the label "holesky". *)
Lemma C7_counterexample :
  network (exporter resolved_once) = Some MAINNET
  ∧ ∃ w, exec [ complete main_tid (Ok (VInt 17000));
                run_next; complete main_tid (Ok (VCheckpoint [] 101));
                run_next ] resolved_once = Some w
         ∧ network (exporter w) = Some HOLESKY
         ∧ trace w
           = [ ef_await aw_chain_id;
               ef_log (discovered MAINNET) [];
               ef_await (latestCheckpoint_call (contract_of MAINNET));
               ef_log "Fetched checkpoint index from contract: %s" [VInt 100];
               ef_gauge_set "mainnet" 100;
               ef_await aw_chain_id;
               ef_log (discovered HOLESKY) [];
               ef_await (latestCheckpoint_call (contract_of MAINNET));
               ef_log "Fetched checkpoint index from contract: %s" [VInt 101];
               ef_gauge_set "holesky" 101 ].
Proof.
  split; [vm_compute; reflexivity|].
  eexists. split; [vm_compute; reflexivity|].
  split; vm_compute; reflexivity.
Qed.

Lemma last_some_length {A : Type} (l : list A) (x : A) :
  last l = Some x → length l ≤ 1 → l = [x].
Proof.
  destruct l as [|a [|b l]]; cbn; intros H Hl; try discriminate; try lia.
  inversion H. reflexivity.
Qed.

(** C7, amended: the network attribute is written by a successful
    [init] and by nothing else: at every moment it is the network of the
    most recent successful [init], and unset before the first, when
    nothing has been called or written.  In every execution in which
    [init] succeeds at most once, the network, once resolved, never
    changes, every Metric Store write of [tick] carries the label of
    the resolved network, and every [latestCheckpoint] call goes to that
    network's contract. *)
Theorem C7_single_resolution (w : world) :
  reachable w →
  network (exporter w) = last (resolutions (trace w))
  ∧ (network (exporter w) = None →
     gauge_sets (trace w) = [] ∧ calls (trace w) = [])
  ∧ (length (resolutions (trace w)) ≤ 1 →
     ∀ n, network (exporter w) = Some n →
       Forall (λ lv, lv.1 = str n) (gauge_sets (trace w))
       ∧ Forall (λ c, c = contract_of n) (calls (trace w))
       ∧ ∀ evs w',
           exec evs w = Some w' → length (resolutions (trace w')) ≤ 1 →
           network (exporter w') = Some n).
Proof.
  intros Hr. destruct (reachable_labelled w Hr) as [Hl Hlab].
  split; [exact Hl|]. split.
  - intros Hn. unfold last_resolved in Hl. rewrite Hn in Hl.
    unfold labelled in Hlab.
    destruct (resolutions (trace w)) as [|a l] using rev_ind.
    + destruct Hlab as (_ & _ & ? & ?). auto.
    + rewrite last_snoc in Hl. discriminate.
  - intros Hlen n Hn. unfold last_resolved in Hl. rewrite Hn in Hl.
    symmetry in Hl. pose proof (last_some_length _ _ Hl Hlen) as Hres.
    unfold labelled in Hlab. rewrite Hres in Hlab.
    destruct Hlab as (_ & _ & Hs & Hc). split; [exact Hs|]. split; [exact Hc|].
    intros evs w' He Hlen'.
    destruct (reachable_labelled w' (exec_reachable evs w w' Hr He)) as [Hl' _].
    unfold last_resolved in Hl'. rewrite Hl'.
    destruct (exec_trace_extends evs w w' He) as [extra Hx].
    rewrite Hx, resolutions_app, Hres in Hlen' |- *.
    destruct (resolutions extra) as [|m l]; [reflexivity|].
    cbn in Hlen'. lia.
Qed.

Lemma resolved_once_reachable : reachable resolved_once.
Proof.
  apply (exec_reachable
           [ run_next; complete main_tid (Ok (VInt 1));
             run_next; complete main_tid (Ok (VCheckpoint [] 100));
             run_next ]
           (initial_world "rpc" 30000 reinit_script)).
  - constructor.
  - vm_compute. reflexivity.
Qed.

Lemma C7_single_resolution_witness :
  length (resolutions (trace resolved_once)) ≤ 1
  ∧ network (exporter resolved_once) = Some MAINNET
  ∧ Forall (λ lv, lv.1 = "mainnet") (gauge_sets (trace resolved_once))
  ∧ Forall (λ c, c = contract_of MAINNET) (calls (trace resolved_once)).
Proof.
  assert (Hlen : length (resolutions (trace resolved_once)) ≤ 1)
    by (vm_compute; lia).
  split; [exact Hlen|]. split; [reflexivity|].
  destruct (C7_single_resolution resolved_once resolved_once_reachable)
    as (_ & _ & H).
  destruct (H Hlen MAINNET eq_refl) as (H1 & H2 & _).
  split; assumption.
Defined.

(** * Further properties of the code *)

(** ** Attributes, gauge and trace along an execution *)

Lemma state_closed_robust F : state_closed F → robust (on_state F).
Proof.
  intros HF. unfold on_state. split.
  - intros w msg args Hm H. apply (sc_log F HF); assumption.
  - intros w aw Ha H. apply (sc_await F HF); assumption.
  - intros w c Hc H. apply (sc_call F HF); assumption.
  - intros w n v Hn H. cbn. apply (sc_set F HF); assumption.
  - intros w n H. cbn. apply (sc_init F HF); assumption.
  - intros w H. cbn. apply (sc_stopping F HF); assumption.
  - intros w n c Hn Hc Hg H. cbn.
    rewrite get_contract_eq in Hg. inversion Hg; subst c.
    apply (sc_contract F HF); assumption.
  - intros w t H. cbn. apply (sc_runner F HF); assumption.
  - intros w c Hc H. cbn. apply (sc_create F HF); assumption.
  - intros w t H.
    destruct (task_cancel_view t w) as [(He & Hg & _) _].
    rewrite He, Hg, task_cancel_trace. apply (sc_cancel F HF); assumption.
  - intros w t cb H.
    destruct (add_done_callback_view t cb w) as [(He & Hg & _) (Ht & _)].
    rewrite He, Hg, Ht. exact H.
  - intros w H.
    destruct (Event_set_view w) as (Ht & Hg & _ & _ & [Hw|(He & _)]).
    + rewrite Hw. exact H.
    + rewrite He, Hg, Ht. apply (sc_stopped F HF); assumption.
Qed.

Lemma on_state_script_robust F : script_robust (on_state F).
Proof. split. intros w a b H. exact H. Qed.

Lemma on_state_program F : program_pred (on_state F).
Proof.
  intros w w' (He & Hg & Ht & _). unfold on_state. rewrite He, Hg, Ht. auto.
Qed.

(** A property of attributes, gauge and trace that every primitive keeps
    is kept by every execution. *)
Lemma exec_state_closed F (evs : list event) (w w' : world) :
  state_closed F → exec evs w = Some w' → on_state F w → on_state F w'.
Proof.
  intros HF. apply exec_program;
    [apply state_closed_robust, HF|apply on_state_script_robust|apply on_state_program].
Qed.

Lemma reachable_state_closed F (w : world) :
  state_closed F →
  (∀ rpc interval, F (new_exporter rpc interval) ∅ []) →
  reachable w → on_state F w.
Proof.
  intros HF H0. apply reachable_program;
    [apply state_closed_robust, HF|apply on_state_script_robust|apply on_state_program|].
  intros rpc interval script. apply H0.
Qed.

Lemma gauge_sets_snoc_other tr e :
  (∀ l v, e ≠ ef_gauge_set l v) → gauge_sets (tr ++ [e]) = gauge_sets tr.
Proof.
  intros H. rewrite gauge_sets_app. destruct e; cbn; try apply app_nil_r.
  exfalso. eapply H. reflexivity.
Qed.

Lemma gauge_is_replay_closed : state_closed gauge_is_replay.
Proof.
  unfold gauge_is_replay.
  split; intros; try assumption;
    try (rewrite gauge_sets_snoc_other by (intros; discriminate); assumption).
  destruct H0 as [Hg Hf].
  rewrite gauge_sets_app. cbn. split.
  - unfold replay. rewrite foldl_app. cbn. fold (replay (gauge_sets tr)).
    rewrite Hg. reflexivity.
  - apply Forall_app. split; [exact Hf|]. repeat constructor. exists n. reflexivity.
Qed.

Lemma later_than_closed e0 : state_closed (later_than e0).
Proof.
  unfold later_than. split; intros; try assumption; cbn;
    repeat match goal with H : _ ∧ _ |- _ => destruct H end;
    repeat split; auto.
  intros c0 Hc0.
  match goal with H : ∀ c, contract e0 = Some c → _ |- _ => specialize (H c0 Hc0) end.
  congruence.
Qed.

Lemma resolutions_snoc_other tr e :
  resolution e = None → resolutions (tr ++ [e]) = resolutions tr.
Proof.
  intros H. rewrite resolutions_app, resolutions_one, H. apply app_nil_r.
Qed.

Lemma calls_snoc_other tr e :
  (∀ c fn, e ≠ ef_await (aw_call c fn)) → calls (tr ++ [e]) = calls tr.
Proof.
  intros H. rewrite calls_app.
  destruct e as [| | | |[]]; cbn; try apply app_nil_r.
  exfalso. eapply H. reflexivity.
Qed.

Lemma one_contract_closed : state_closed one_contract.
Proof.
  unfold one_contract. split; intros e g tr.
  - intros msg args Hm H.
    rewrite resolutions_snoc_other by (apply resolution_other, Hm).
    rewrite calls_snoc_other by (intros; discriminate). exact H.
  - intros aw Ha H.
    rewrite resolutions_snoc_other by reflexivity.
    rewrite calls_snoc_other by (intros c fn E; inversion E; subst; discriminate).
    exact H.
  - intros c Hc [Hn H]. rewrite Hc in *.
    rewrite resolutions_snoc_other by reflexivity. split; [exact Hn|].
    destruct H as [Hf Hx]. split; [|exact Hx].
    rewrite calls_app. apply Forall_app. split; [exact Hf|]. repeat constructor.
  - intros n v _ H.
    rewrite resolutions_snoc_other by reflexivity.
    rewrite calls_snoc_other by (intros; discriminate). exact H.
  - intros n [Hn H]. cbn.
    rewrite resolutions_app, resolutions_one, resolution_discovered, last_snoc.
    split; [reflexivity|].
    rewrite calls_snoc_other by (intros; discriminate).
    destruct (contract e) as [c|]; [|exact H].
    destruct H as [Hf (m & Hm & Hin)]. split; [exact Hf|].
    exists m. split; [exact Hm|]. apply in_or_app. left. exact Hin.
  - intros H. exact H.
  - intros n Hn Hc [Hl H]. cbn. rewrite Hc in H. split; [exact Hl|].
    rewrite H. split; [constructor|]. exists n. split; [reflexivity|].
    rewrite Hn in Hl. symmetry in Hl. apply last_Some in Hl as [l' ->].
    apply in_or_app. right. left. reflexivity.
  - intros t H. exact H.
  - intros tid c _ H.
    rewrite resolutions_snoc_other by reflexivity.
    rewrite calls_snoc_other by (intros; discriminate). exact H.
  - intros t H.
    rewrite resolutions_snoc_other by reflexivity.
    rewrite calls_snoc_other by (intros; discriminate). exact H.
  - intros H. exact H.
Qed.

Lemma replay_snoc sets l v : replay (sets ++ [(l, v)]) = <[l := v]> (replay sets).
Proof. unfold replay. rewrite foldl_app. reflexivity. Qed.

Lemma replay_lookup sets l : replay sets !! l = last (written l sets).
Proof.
  induction sets as [|[l' v] sets IH] using rev_ind; [reflexivity|].
  rewrite replay_snoc. unfold written. rewrite omap_app. cbn.
  destruct (String.eqb_spec l' l) as [->|Hne].
  - rewrite lookup_insert_eq, last_snoc. reflexivity.
  - rewrite lookup_insert_ne by exact Hne. rewrite app_nil_r. exact IH.
Qed.

Lemma str_inj (n m : SupportedNetworks) : str n = str m → n = m.
Proof. destruct n, m; cbn; intros H; congruence. Qed.

(** X1: in every reachable state each series of the gauge holds the value
    of the most recent write to its label, a label that was never written
    has no series, and every label written is the name of a supported
    network. *)
Theorem X1_gauge_holds_last_writes (w : world) :
  reachable w →
  (∀ l, hyperlane_contract_latest_checkpoint w !! l
        = last (written l (gauge_sets (trace w))))
  ∧ Forall (λ lv, ∃ n, lv.1 = str n) (gauge_sets (trace w)).
Proof.
  intros Hr.
  destruct (reachable_state_closed gauge_is_replay w gauge_is_replay_closed) as [Hg Hf];
    [intros; split; [reflexivity|constructor]|exact Hr|].
  split; [|exact Hf]. intros l. rewrite Hg. apply replay_lookup.
Qed.

Lemma X1_gauge_holds_last_writes_witness :
  (∀ l, hyperlane_contract_latest_checkpoint after_shutdown !! l
        = last (written l (gauge_sets (trace after_shutdown))))
  ∧ Forall (λ lv, ∃ n, lv.1 = str n) (gauge_sets (trace after_shutdown)).
Proof. exact (X1_gauge_holds_last_writes after_shutdown after_shutdown_reachable). Defined.

(** X2: along every execution the constructor's arguments [rpc_address]
    and [interval_ms] keep their values, [stopping] and the [stopped]
    event are never cleared, a resolved network and a runner task stay
    assigned, and a cached contract is never replaced. *)
Theorem X2_attributes_only_grow (evs : list event) (w w' : world) :
  exec evs w = Some w' →
  rpc_address (exporter w') = rpc_address (exporter w)
  ∧ interval_ms (exporter w') = interval_ms (exporter w)
  ∧ (stopping (exporter w) = true → stopping (exporter w') = true)
  ∧ (stopped (exporter w) = true → stopped (exporter w') = true)
  ∧ (is_Some (network (exporter w)) → is_Some (network (exporter w')))
  ∧ (is_Some (_runner_task (exporter w)) → is_Some (_runner_task (exporter w')))
  ∧ (∀ c, contract (exporter w) = Some c → contract (exporter w') = Some c).
Proof.
  intros He.
  apply (exec_state_closed (later_than (exporter w)) evs w w'
           (later_than_closed _) He).
  unfold on_state, later_than. repeat split; auto.
Qed.

Lemma X2_attributes_only_grow_witness :
  let w := server_closing in
  (stopping (exporter w) = true ∧ stopped (exporter w) = true
   ∧ network (exporter w) = Some MAINNET ∧ _runner_task (exporter w) = Some 1
   ∧ contract (exporter w) = Some (contract_of MAINNET))
  ∧ ∃ w', exec late_reply w = Some w'
      ∧ gauge_sets (trace w') = gauge_sets (trace w) ++ [("mainnet", 200%Z)]
      ∧ rpc_address (exporter w') = "rpc"
      ∧ interval_ms (exporter w') = 30000%Z
      ∧ stopping (exporter w') = true
      ∧ stopped (exporter w') = true
      ∧ is_Some (network (exporter w'))
      ∧ is_Some (_runner_task (exporter w'))
      ∧ contract (exporter w') = Some (contract_of MAINNET).
Proof.
  intros w.
  assert (Hpre : stopping (exporter w) = true ∧ stopped (exporter w) = true
                 ∧ network (exporter w) = Some MAINNET
                 ∧ _runner_task (exporter w) = Some 1
                 ∧ contract (exporter w) = Some (contract_of MAINNET))
    by (vm_compute; auto).
  split; [exact Hpre|].
  destruct Hpre as (H1 & H2 & H3 & H4 & H5).
  destruct (exec late_reply w) as [w'|] eqn:E; [|vm_compute in E; discriminate].
  destruct (X2_attributes_only_grow late_reply w w' E)
    as (A & B & C & D & F & G & H).
  exists w'. split; [reflexivity|].
  split; [vm_compute in E; injection E as <-; vm_compute; reflexivity|].
  split; [rewrite A; vm_compute; reflexivity|].
  split; [rewrite B; vm_compute; reflexivity|].
  split; [exact (C H1)|]. split; [exact (D H2)|].
  split; [apply F; rewrite H3; eexists; reflexivity|].
  split; [apply G; rewrite H4; eexists; reflexivity|].
  exact (H _ H5).
Defined.

(** X3: the [contract] property is computed once.  In every reachable
    state, if nothing is cached no [latestCheckpoint] call has been made;
    otherwise every call made so far went to the cached contract, which
    is the Merkle tree hook of a network that some [init] resolved. *)
Theorem X3_calls_go_to_the_cached_contract (w : world) :
  reachable w →
  match contract (exporter w) with
  | None => calls (trace w) = []
  | Some c =>
      Forall (λ c', c' = c) (calls (trace w))
      ∧ ∃ n, c = contract_of n ∧ In n (resolutions (trace w))
  end.
Proof.
  intros Hr.
  apply (reachable_state_closed one_contract w one_contract_closed); [|exact Hr].
  intros. split; reflexivity.
Qed.

Lemma X3_calls_go_to_the_cached_contract_witness :
  match contract (exporter resolved_once) with
  | None => calls (trace resolved_once) = []
  | Some c =>
      Forall (λ c', c' = c) (calls (trace resolved_once))
      ∧ ∃ n, c = contract_of n ∧ In n (resolutions (trace resolved_once))
  end.
Proof.
  exact (X3_calls_go_to_the_cached_contract resolved_once resolved_once_reachable).
Defined.

(** X4: a [tick] that runs before any [init] has resolved the network
    raises [AttributeError] for [network] at line 146, before any call:
    nothing is cached, awaited, logged or written, whether [tick] is
    awaited directly or runs as a task of the loop. *)
Theorem X4_tick_before_init (w : world) :
  reachable w → network (exporter w) = None →
  tick_begin w = (Err (AttributeError "network"), w)
  ∧ ∀ v, resume (co_tick None) (Ok v) w = (Err (AttributeError "network"), w).
Proof.
  intros Hr Hn.
  destruct (reachable_Inv w Hr) as [(_ & _ & _ & Hc) _].
  assert (Hcn : contract (exporter w) = None).
  { destruct (contract (exporter w)) eqn:E; [|reflexivity].
    destruct Hc as [n Hn']; [eauto|]. congruence. }
  pose proof (tick_begin_unresolved w Hcn Hn) as Ht.
  split; [exact Ht|]. intros v. cbn. unfold lift_coro, bind. rewrite Ht. reflexivity.
Qed.

Lemma X4_tick_before_init_witness :
  let w := initial_world "rpc" 30000 [op_tick] in
  tick_begin w = (Err (AttributeError "network"), w)
  ∧ ∀ v, resume (co_tick None) (Ok v) w = (Err (AttributeError "network"), w).
Proof.
  apply (X4_tick_before_init (initial_world "rpc" 30000 [op_tick])).
  - apply reachable_initial.
  - reflexivity.
Defined.

(** X5: [stop] reaches [await self.session.close()] only once the
    [stopped] event is set: in every reachable state in which a [stop] is
    suspended at line 162, [stopping] and [stopped] are both set and a
    runner task had been assigned. *)
Theorem X5_session_closed_after_stopped (w : world) (tid : task_id) (t : task) :
  reachable w →
  tasks w !! tid = Some t → t_result t = None →
  closing_session (t_coro t) = true →
  stopping (exporter w) = true
  ∧ stopped (exporter w) = true
  ∧ is_Some (_runner_task (exporter w)).
Proof.
  intros Hr Ht Hres Hc.
  destruct (reachable_Inv w Hr) as [(_ & _ & Hts & _) _].
  destruct (Hts tid t Ht Hres) as [Hl _].
  destruct (t_coro t) as [?|?|[[?|?|[]|?|[[]]|]|]]; try discriminate;
    destruct Hl as (? & ? & ?); auto.
Qed.

Lemma session_closing_reachable : reachable session_closing.
Proof.
  apply (exec_reachable (take 8 run_start_stop)
           (initial_world "rpc" 30000 [op_start; op_wait; op_stop])).
  - constructor.
  - vm_compute. reflexivity.
Qed.

Lemma X5_session_closed_after_stopped_witness :
  stopping (exporter session_closing) = true
  ∧ stopped (exporter session_closing) = true
  ∧ is_Some (_runner_task (exporter session_closing)).
Proof.
  apply (X5_session_closed_after_stopped session_closing main_tid
           {| t_coro := co_main (Some (in_stop stop_L162));
              t_waiting := Some aw_session_close;
              t_must_cancel := false; t_result := None; t_callbacks := [] |}).
  - exact session_closing_reachable.
  - vm_compute. reflexivity.
  - reflexivity.
  - reflexivity.
Defined.

(** ** The loop task without a delay, and under cancellation *)

(** With [interval_ms <= 0] a step of the loop task spawns the tick and
    puts the loop task itself back on the ready queue. *)
Lemma run_step_no_delay (w : world) (tid : task_id) (t : task) (v : pyvalue)
    (rest : list handle) :
  ready w = h_step tid (Ok v) :: rest →
  tasks w !! tid = Some t → t_result t = None → t_must_cancel t = false →
  at_loop_head (t_coro t) →
  stopping (exporter w) = false →
  (- float_overflow_ms < interval_ms (exporter w) ≤ 0)%Z →
  ∃ w',
    exec1 run_next w = Some w'
    ∧ tasks w' = <[tid := set_t_coro (co_run (Some (run_L189 sleep_L166))) t]> (tasks w)
                 ++ [new_task (co_tick None)]
    ∧ ready w' = rest ++ [h_step (length (tasks w)) (Ok VNone); h_step tid (Ok VNone)]
    ∧ exporter w' = exporter w
    ∧ trace w' = trace w ++ [ef_create_task (length (tasks w)) (co_tick None);
                             ef_await (aw_sleep (poll_delay w))].
Proof.
  intros Hr Ht Hres Hmc Hc Hs Hi.
  assert (Hlt : (tid < length (tasks w))%nat) by (eapply lookup_lt_Some; eauto).
  set (t1 := set_t_must_cancel false t).
  set (w1 := with_tasks (<[tid := t1]> (tasks w)) (with_ready rest w)).
  assert (Hs1 : stopping (exporter w1) = false) by exact Hs.
  assert (Hfit1 : delay_fits w1) by (unfold delay_fits; cbn; lia).
  assert (Hresume : resume (t_coro t) (Ok v) w1
           = (Val (Yield (aw_sleep (poll_delay w)) (co_run (Some (run_L189 sleep_L166)))),
              snd (run_loop w1))).
  { destruct Hc as [-> | ->]; cbn -[run_loop];
      unfold lift_coro, await_coro, bind; cbn -[run_loop]; unfold run_begin;
      rewrite (run_loop_running w1 Hs1 Hfit1); reflexivity. }
  unfold exec1. rewrite Hr. unfold run_handle, task_step.
  change (tasks (with_ready rest w)) with (tasks w).
  rewrite Ht, Hres, Hmc.
  rewrite (update_task_eq tid _ (with_ready rest w) t Ht).
  change (with_tasks (<[tid:=set_t_must_cancel false t]> (tasks (with_ready rest w)))
            (with_ready rest w)) with w1.
  rewrite Hresume.
  rewrite (run_loop_running w1 Hs1 Hfit1). cbn [snd].
  unfold suspend_task.
  change (poll_delay w) with (poll_delay w1) at 1.
  rewrite (poll_delay_nonpositive w1 (proj2 Hi)).
  match goal with |- context [update_task tid ?f ?w2] =>
    assert (Hl2 : tasks w2 !! tid = Some t1)
  end.
  { cbn. rewrite lookup_app_l by (rewrite length_insert; exact Hlt).
    apply list_lookup_insert_eq, Hlt. }
  rewrite (update_task_eq _ _ _ _ Hl2).
  eexists. split; [reflexivity|]. cbn.
  rewrite length_insert.
  split; [|split; [|split; [reflexivity|]]].
  - rewrite insert_app_l by (rewrite length_insert; exact Hlt).
    rewrite list_insert_insert_eq. f_equal. f_equal.
    unfold t1. destruct t; cbn in *. subst. reflexivity.
  - rewrite <- app_assoc. reflexivity.
  - rewrite <- app_assoc. reflexivity.
Qed.

(** The first step of a task that [run] has just created for [tick]: it
    ends with an error or blocks on the chain call; either way it leaves
    the ready queue and the other tasks alone. *)
Lemma tick_first_step (w : world) (k : task_id) (v : pyvalue) (rest : list handle) :
  ready w = h_step k (Ok v) :: rest →
  tasks w !! k = Some (new_task (co_tick None)) →
  ∃ w' t',
    exec1 run_next w = Some w'
    ∧ tasks w' = <[k := t']> (tasks w)
    ∧ ready w' = rest
    ∧ stopping (exporter w') = stopping (exporter w)
    ∧ interval_ms (exporter w') = interval_ms (exporter w).
Proof.
  intros Hr Ht.
  assert (Hlt : (k < length (tasks w))%nat) by (eapply lookup_lt_Some; eauto).
  unfold exec1. rewrite Hr. unfold run_handle, task_step.
  change (tasks (with_ready rest w)) with (tasks w). rewrite Ht. cbn [t_result new_task t_must_cancel t_coro].
  rewrite (update_task_eq k _ (with_ready rest w) _ Ht).
  set (w1 := with_tasks _ _).
  assert (Ht1 : tasks w1 !! k = Some (new_task (co_tick None))).
  { unfold w1. cbn. apply list_lookup_insert_eq, Hlt. }
  assert (Htasks : tasks w1 = tasks w).
  { unfold w1. cbn. apply list_insert_id, Ht. }
  cbn [resume]. unfold lift_coro, bind, enter.
  destruct (contract (exporter w1)) as [c|] eqn:Hc;
    [|destruct (network (exporter w1)) as [n|] eqn:Hn].
  - rewrite (tick_begin_cached _ _ Hc). cbn [susp_map ret].
    unfold suspend_task, latestCheckpoint_call.
    match goal with |- context [update_task k ?f ?w2] =>
      rewrite (update_task_eq k f w2 _ Ht1) end.
    eexists. eexists. split; [reflexivity|]. cbn.
    rewrite list_insert_insert_eq. repeat split.
  - rewrite (tick_begin_first _ _ Hc Hn). cbn [susp_map ret].
    unfold suspend_task, latestCheckpoint_call.
    match goal with |- context [update_task k ?f ?w2] =>
      rewrite (update_task_eq k f w2 _ Ht1) end.
    eexists. eexists. split; [reflexivity|]. cbn.
    rewrite list_insert_insert_eq. repeat split.
  - rewrite (tick_begin_unresolved _ Hc Hn).
    unfold finish_task. rewrite Ht1.
    eexists. eexists. split; [reflexivity|]. cbn.
    rewrite list_insert_insert_eq, app_nil_r. repeat split.
Qed.

Lemma spinning_round (tid : task_id) (w : world) :
  spinning tid w →
  ∃ w', exec [run_next; run_next] w = Some w'
        ∧ spinning tid w'
        ∧ length (tasks w') = S (length (tasks w)).
Proof.
  intros (v & t & Hr & Ht & Hres & Hmc & Hc & Hs & Hi).
  assert (Hlt : tid < length (tasks w)) by (eapply lookup_lt_Some; eauto).
  destruct (run_step_no_delay w tid t v [] Hr Ht Hres Hmc Hc Hs Hi)
    as (w1 & He1 & Ht1 & Hr1 & Hx1 & _).
  assert (Hk : tasks w1 !! length (tasks w) = Some (new_task (co_tick None))).
  { rewrite Ht1, lookup_app_r by (rewrite length_insert; lia).
    rewrite length_insert, Nat.sub_diag. reflexivity. }
  destruct (tick_first_step w1 (length (tasks w)) VNone [h_step tid (Ok VNone)] Hr1 Hk)
    as (w2 & t' & He2 & Ht2 & Hr2 & Hs2 & Hi2).
  exists w2. split; [cbn [exec]; rewrite He1, He2; reflexivity|].
  split.
  - exists VNone, (set_t_coro (co_run (Some (run_L189 sleep_L166))) t).
    split; [exact Hr2|]. split.
    + rewrite Ht2, list_lookup_insert_ne by lia.
      rewrite Ht1, lookup_app_l by (rewrite length_insert; lia).
      apply list_lookup_insert_eq, Hlt.
    + cbn. split; [exact Hres|]. split; [exact Hmc|].
      split; [right; reflexivity|].
      rewrite Hs2, Hi2, Hx1. auto.
  - rewrite Ht2, length_insert, Ht1, length_app, length_insert. cbn. lia.
Qed.

(** X6: with [interval_ms <= 0], and not so far below zero that
    [interval_ms / 1000] overflows, the sleep of line 166 does not wait
    ([asyncio.sleep] with a delay [<= 0] only yields to the loop), so the
    poll loop spins: when only the loop task is ready, every two turns of
    the event loop - no timer and no reply from the chain involved -
    spawn one more tick task and leave the loop task ready again. *)
Theorem X6_nonpositive_interval_spins (tid : task_id) (w : world) (k : nat) :
  spinning tid w →
  ∃ w', exec (repeat run_next (2 * k)) w = Some w'
        ∧ length (tasks w') = length (tasks w) + k
        ∧ spinning tid w'.
Proof.
  revert w. induction k as [|k IH]; intros w Hs.
  - exists w. cbn. split; [reflexivity|]. split; [lia|exact Hs].
  - destruct (spinning_round tid w Hs) as (w1 & He1 & Hs1 & Hl1).
    destruct (IH w1 Hs1) as (w2 & He2 & Hl2 & Hs2).
    exists w2. split; [|split; [lia|exact Hs2]].
    replace (2 * S k) with (2 + 2 * k) by lia.
    rewrite repeat_app. change (repeat run_next 2) with [run_next; run_next].
    rewrite exec_app, He1. exact He2.
Qed.

Lemma X6_nonpositive_interval_spins_witness :
  ∃ w', exec (repeat run_next (2 * 3)) spinning_world = Some w'
        ∧ length (tasks w') = length (tasks spinning_world) + 3
        ∧ spinning 1 w'.
Proof.
  apply (X6_nonpositive_interval_spins 1 spinning_world 3).
  exists VNone, (add_t_callback cb_on_runner_task_done (new_task (co_run None))).
  vm_compute. repeat split; auto.
  discriminate.
Defined.

Lemma wake_waiters_wakes (i : task_id) (ts : list task) (k : nat) (t : task) :
  ts !! k = Some t → t_waiting t = Some aw_event_wait →
  fst (wake_waiters i ts) !! k = Some (set_t_waiting None t)
  ∧ In (h_step (i + k) (Ok (VBool true))) (snd (wake_waiters i ts)).
Proof.
  revert i k. induction ts as [|x ts IH]; intros i k Hk Hw; [discriminate|].
  cbn. specialize (IH (S i)).
  destruct (wake_waiters (S i) ts) as [ts' hs] eqn:E.
  destruct k as [|k]; cbn in Hk.
  - inversion Hk; subst x. rewrite Hw. cbn.
    replace (i + 0) with i by lia. split; [reflexivity|left; reflexivity].
  - destruct (IH k Hk Hw) as [H1 H2]. cbn in H1, H2.
    replace (i + S k) with (S i + k) by lia.
    destruct (is_event_wait (t_waiting x)); cbn; split; auto.
Qed.

(** X7: cancelling the loop task does not make [run] reach line 190.  A
    step of the loop task that delivers the cancellation ends the task
    with [CancelledError] and leaves the exporter - the [stopped] event
    included - the gauge and the trace as they were, scheduling only the
    task's done callbacks; it is [on_runner_task_done], once run, that
    sets the event and wakes every task blocked in [stopped.wait()]. *)
Theorem X7_cancelled_loop_sets_stopped_by_callback (w : world) :
  (∀ tid t p inp rest,
     ready w = h_step tid inp :: rest →
     tasks w !! tid = Some t → t_result t = None → t_coro t = co_run p →
     (inp = Exc CancelledError ∨ t_must_cancel t = true) →
     ∃ w', exec1 run_next w = Some w'
       ∧ tasks w' = <[tid := set_t_result (Err CancelledError) t]> (tasks w)
       ∧ ready w' = rest ++ map (λ cb, h_callback cb tid) (t_callbacks t)
       ∧ exporter w' = exporter w
       ∧ hyperlane_contract_latest_checkpoint w'
         = hyperlane_contract_latest_checkpoint w
       ∧ trace w' = trace w)
  ∧ (∀ tid rest,
       ready w = h_callback cb_on_runner_task_done tid :: rest →
       ∃ w', exec1 run_next w = Some w'
         ∧ stopped (exporter w') = true
         ∧ trace w' = trace w
         ∧ length (tasks w') = length (tasks w)
         ∧ (stopped (exporter w) = false →
            ∀ k t, tasks w !! k = Some t → t_waiting t = Some aw_event_wait →
              tasks w' !! k = Some (set_t_waiting None t)
              ∧ In (h_step k (Ok (VBool true))) (ready w'))).
Proof.
  split.
  - intros tid t p inp rest Hr Ht Hres Hc Hcancel.
    assert (Hlt : tid < length (tasks w)) by (eapply lookup_lt_Some; eauto).
    unfold exec1. rewrite Hr. unfold run_handle, task_step.
    change (tasks (with_ready rest w)) with (tasks w). rewrite Ht, Hres.
    rewrite (update_task_eq tid _ (with_ready rest w) t Ht).
    set (w1 := with_tasks _ _).
    assert (Hin : (if t_must_cancel t then Exc CancelledError else inp)
                  = Exc CancelledError).
    { destruct Hcancel as [->| ->]; [destruct (t_must_cancel t)|]; reflexivity. }
    rewrite Hin, Hc.
    assert (Hres1 : resume (co_run p) (Exc CancelledError) w1 = (Err CancelledError, w1)).
    { destruct p as [[[]]|]; reflexivity. }
    rewrite Hres1. unfold finish_task.
    assert (Ht1 : tasks w1 !! tid = Some (set_t_must_cancel false t)).
    { unfold w1. cbn. apply list_lookup_insert_eq, Hlt. }
    rewrite Ht1. eexists. split; [reflexivity|]. cbn.
    rewrite list_insert_insert_eq. repeat split.
  - intros tid rest Hr. unfold exec1. rewrite Hr. cbn [run_handle run_callback].
    eexists. split; [reflexivity|].
    unfold on_runner_task_done.
    pose proof (Event_set_spec (with_ready rest w)) as (H1 & _ & _ & _ & _ & H2 & _).
    split; [exact H1|]. split; [exact H2|].
    split; [apply (Event_set_tasks_length (with_ready rest w))|].
    intros Hs k t Hk Hw. unfold Event_set. cbn [exporter with_ready]. rewrite Hs.
    pose proof (wake_waiters_wakes 0 (tasks w) k t Hk Hw) as [Ha Hb].
    cbn [tasks with_ready].
    destruct (wake_waiters 0 (tasks w)) as [ts hs]. cbn in *.
    split; [exact Ha|]. apply in_or_app. right. exact Hb.
Qed.

Lemma X7_cancelled_loop_sets_stopped_by_callback_witness :
  ∃ w', exec1 run_next stop_waiting = Some w'
    ∧ task_result w' 1 = Some (Err CancelledError)
    ∧ ready w' = [h_callback cb_on_runner_task_done 1]
    ∧ stopped (exporter w') = false
    ∧ ∃ w'', exec1 run_next w' = Some w''
        ∧ stopped (exporter w'') = true
        ∧ In (h_step main_tid (Ok (VBool true))) (ready w'').
Proof.
  destruct (proj1 (X7_cancelled_loop_sets_stopped_by_callback stop_waiting) 1
              {| t_coro := co_run (Some (run_L189 sleep_L166)); t_waiting := None;
                 t_must_cancel := false; t_result := None;
                 t_callbacks := [cb_on_runner_task_done] |}
              (Some (run_L189 sleep_L166)) (Exc CancelledError) [])
    as (w' & He & Ht & Hr & Hx & _ & _);
    [vm_compute; reflexivity|vm_compute; reflexivity|reflexivity|reflexivity
    |left; reflexivity|].
  exists w'. split; [exact He|].
  split; [unfold task_result; rewrite Ht; vm_compute; reflexivity|].
  split; [rewrite Hr; reflexivity|].
  split; [rewrite Hx; vm_compute; reflexivity|].
  destruct (proj2 (X7_cancelled_loop_sets_stopped_by_callback w') 1 [])
    as (w'' & He' & Hs & _ & _ & Hw); [rewrite Hr; reflexivity|].
  exists w''. split; [exact He'|]. split; [exact Hs|].
  apply (Hw (eq_trans (f_equal stopped Hx) eq_refl) main_tid
           {| t_coro := co_main (Some (in_stop stop_L161));
              t_waiting := Some aw_event_wait;
              t_must_cancel := false; t_result := None; t_callbacks := [] |}).
  - rewrite Ht. vm_compute. reflexivity.
  - reflexivity.
Defined.

(** ** What every suspended coroutine waits for *)

Lemma yields_ret_Done {PC : Type} (A : PC → awaitable → world → Prop) :
  yields A (ret Done).
Proof. intros w. exact I. Qed.

Lemma yields_raise {PC : Type} (A : PC → awaitable → world → Prop) (e : exn) :
  yields A (raise e).
Proof. intros w. exact I. Qed.

Lemma yields_await_coro {P PC : Type} (A : P → awaitable → world → Prop)
    (B : PC → awaitable → world → Prop) (f : M (susp P)) (wrap : P → PC)
    (k : M (susp PC)) :
  yields A f → yields B k → (∀ p aw w, A p aw w → B (wrap p) aw w) →
  yields B (await_coro f wrap k).
Proof.
  intros Hf Hk HAB w. specialize (Hf w).
  pose proof (await_coro_cases f wrap k w) as E.
  destruct (f w) as [[[|aw p]|e] w']; rewrite E.
  - apply Hk.
  - apply HAB, Hf.
  - exact I.
Qed.

Lemma yields_enter {PC : Type} (A : PC → awaitable → world → Prop) inp (m : M (susp PC)) :
  yields A m → yields A (enter inp m).
Proof. intros H. destruct inp; [exact H|apply yields_raise]. Qed.

Lemma yields_init_begin : yields A_init init_begin.
Proof. intros w. reflexivity. Qed.

Lemma yields_init_resume pc inp : yields A_init (init_resume pc inp).
Proof.
  intros w. destruct inp as [v|e]; cbn; [|exact I].
  destruct (py_eq_int v 1); [exact I|]. destruct (py_eq_int v 17000); exact I.
Qed.

Lemma yields_tick_begin : yields A_tick tick_begin.
Proof.
  intros w. destruct (contract (exporter w)) as [c|] eqn:Hc.
  - rewrite (tick_begin_cached _ _ Hc). reflexivity.
  - destruct (network (exporter w)) as [n|] eqn:Hn.
    + rewrite (tick_begin_first _ _ Hc Hn). reflexivity.
    + rewrite (tick_begin_unresolved _ Hc Hn). exact I.
Qed.

Lemma yields_tick_resume pc inp : yields A_tick (tick_resume pc inp).
Proof.
  intros w. destruct inp as [[| | |root v]|e]; cbn; try exact I.
  unfold bind, self_network, get_self; cbn.
  destruct (network (exporter w)); exact I.
Qed.

Lemma stop_begin_unstarted (w : world) :
  _runner_task (exporter w) = None →
  stop_begin w = (Err (AttributeError "_runner_task"), stop_enter w).
Proof.
  intros H. unfold stop_begin, self_runner_task, bind, get_self; cbn.
  rewrite H. reflexivity.
Qed.

Lemma yields_stop_begin : yields A_stop stop_begin.
Proof.
  intros w. destruct (_runner_task (exporter w)) as [t|] eqn:Hr.
  - rewrite (stop_begin_started w t Hr).
    destruct (task_cancel_view t (stop_enter w)) as [(He & _) _].
    destruct (stopped (exporter w)) eqn:Hs; cbn; [reflexivity|].
    split; [reflexivity|]. rewrite He. exact Hs.
  - rewrite (stop_begin_unstarted w Hr). exact I.
Qed.

Lemma yields_stop_resume pc inp : yields A_stop (stop_resume pc inp).
Proof.
  intros w. destruct inp as [v|e]; [|exact I].
  destruct pc; cbn; [reflexivity|exact I].
Qed.

Lemma suspended_ok_simple (c : coro) (aw : awaitable) (w : world) :
  awaits c aw → aw ≠ aw_event_wait → is_sleep aw = false → suspended_ok c aw w.
Proof.
  intros Ha Hne Hs. split; [exact Ha|]. split; [intros ->; contradiction|].
  rewrite Hs. discriminate.
Qed.

Lemma is_call_simple aw : is_call aw = true → aw ≠ aw_event_wait ∧ is_sleep aw = false.
Proof. destruct aw; cbn; intros H; try discriminate. split; [discriminate|reflexivity]. Qed.

Lemma yields_start_exporter_app_L87 : yields A_startup start_exporter_app_L87.
Proof.
  intros w. destruct (start_exporter_app_L87_post w) as (w' & -> & _). exact I.
Qed.

Lemma yields_start_exporter_app_L86 : yields A_startup start_exporter_app_L86.
Proof.
  apply (yields_await_coro A_tick);
    [apply yields_tick_begin|apply yields_start_exporter_app_L87|].
  intros p aw w H. destruct (is_call_simple aw H).
  apply suspended_ok_simple; auto.
Qed.

Lemma yields_start_exporter_app_L84 : yields A_startup start_exporter_app_L84.
Proof.
  apply (yields_await_coro A_init);
    [apply yields_init_begin|apply yields_start_exporter_app_L86|].
  intros p aw w ->. apply suspended_ok_simple; [reflexivity|discriminate|reflexivity].
Qed.

Lemma yields_start_exporter_app_begin : yields A_startup start_exporter_app_begin.
Proof.
  intros w. cbn. apply suspended_ok_simple; [reflexivity|discriminate|reflexivity].
Qed.

Lemma yields_start_exporter_app_resume pc inp :
  yields A_startup (start_exporter_app_resume pc inp).
Proof.
  destruct pc as [|p|p]; cbn [start_exporter_app_resume].
  - destruct inp; [apply yields_start_exporter_app_L84|apply yields_raise].
  - apply (yields_await_coro A_init);
      [apply yields_init_resume|apply yields_start_exporter_app_L86|].
    intros q aw w ->. apply suspended_ok_simple; [reflexivity|discriminate|reflexivity].
  - apply (yields_await_coro A_tick);
      [apply yields_tick_resume|apply yields_start_exporter_app_L87|].
    intros q aw w H. destruct (is_call_simple aw H).
    apply suspended_ok_simple; auto.
Qed.

Lemma A_stop_suspended (wrap : stop_pc → op_pc) (q : stop_pc) aw w :
  (∀ q aw, awaits (co_main (Some (in_stop q))) aw → awaits (co_main (Some (wrap q))) aw) →
  A_stop q aw w → suspended_ok (co_main (Some (wrap q))) aw w.
Proof.
  intros Hw H. destruct q; cbn in H.
  - destruct H as [-> Hs]. split; [apply Hw; reflexivity|].
    split; [intros _; exact Hs|discriminate].
  - subst aw. apply suspended_ok_simple; [apply Hw; reflexivity|discriminate|reflexivity].
Qed.

Lemma yields_op_begin (o : op) : yields A_op (op_begin o).
Proof.
  destruct o; cbn [op_begin].
  - apply (yields_await_coro A_init); [apply yields_init_begin|apply yields_ret_Done|].
    intros p aw w ->. apply suspended_ok_simple; [reflexivity|discriminate|reflexivity].
  - apply (yields_await_coro A_tick); [apply yields_tick_begin|apply yields_ret_Done|].
    intros p aw w H. destruct (is_call_simple aw H). apply suspended_ok_simple; auto.
  - intros w. destruct (start_spec w) as (w' & E & _).
    unfold bind. rewrite E. exact I.
  - apply (yields_await_coro A_stop); [apply yields_stop_begin|apply yields_ret_Done|].
    intros q aw w. apply (A_stop_suspended in_stop). auto.
  - apply (yields_await_coro A_startup);
      [apply yields_start_exporter_app_begin|apply yields_ret_Done|].
    intros p aw w H. exact H.
  - apply (yields_await_coro
             (λ p aw w, suspended_ok (co_main (Some (in_stop_exporter_app p))) aw w));
      [|apply yields_ret_Done|intros p aw w H; exact H].
    apply (yields_await_coro A_stop); [apply yields_stop_begin|apply yields_ret_Done|].
    intros q aw w.
    apply (A_stop_suspended (λ q, in_stop_exporter_app (shutdown_L92 q))).
    intros [] aw'; auto.
  - intros w. cbn. apply suspended_ok_simple; [reflexivity|discriminate|reflexivity].
Qed.

Lemma yields_op_resume (pc : op_pc) inp : yields A_op (op_resume pc inp).
Proof.
  destruct pc as [p|p|p|p|p|]; cbn [op_resume].
  - apply (yields_await_coro A_init); [apply yields_init_resume|apply yields_ret_Done|].
    intros q aw w ->. apply suspended_ok_simple; [reflexivity|discriminate|reflexivity].
  - apply (yields_await_coro A_tick); [apply yields_tick_resume|apply yields_ret_Done|].
    intros q aw w H. destruct (is_call_simple aw H). apply suspended_ok_simple; auto.
  - apply (yields_await_coro A_stop); [apply yields_stop_resume|apply yields_ret_Done|].
    intros q aw w. apply (A_stop_suspended in_stop). auto.
  - apply (yields_await_coro A_startup);
      [apply yields_start_exporter_app_resume|apply yields_ret_Done|].
    intros q aw w H. exact H.
  - apply (yields_await_coro
             (λ p aw w, suspended_ok (co_main (Some (in_stop_exporter_app p))) aw w));
      [|apply yields_ret_Done|intros q aw w H; exact H].
    destruct p as [q]. cbn [stop_exporter_app_resume].
    apply (yields_await_coro A_stop); [apply yields_stop_resume|apply yields_ret_Done|].
    intros q' aw w.
    apply (A_stop_suspended (λ q, in_stop_exporter_app (shutdown_L92 q))).
    intros [] aw'; auto.
  - apply yields_enter, yields_ret_Done.
Qed.

Lemma yields_main_run (todo : list op) : yields A_op (main_run todo).
Proof.
  induction todo as [|o rest IH]; intros w; [exact I|].
  rewrite main_run_cons.
  pose proof (yields_op_begin o (with_script rest (script_done w) w)) as H.
  destruct (op_begin o _) as [[[|aw p]|e] w2]; [apply IH|exact H|exact I].
Qed.

Lemma yields_main_resume (pc : op_pc) inp : yields A_op (main_resume pc inp).
Proof.
  intros w. rewrite main_resume_eq.
  pose proof (yields_op_resume pc inp w) as H.
  destruct (op_resume pc inp w) as [[[|aw p]|e] w2];
    [apply yields_main_run|exact H|exact I].
Qed.

Lemma yields_run_loop :
  yields (λ p aw w, suspended_ok (co_run (Some p)) aw w) run_loop.
Proof.
  intros w. destruct (stopping (exporter w)) eqn:Hs.
  - rewrite (run_loop_stopping w Hs). exact I.
  - destruct (delay_fits_dec w) as [Hfit|Hbig].
    + rewrite (run_loop_running w Hs Hfit). cbn.
      split; [reflexivity|]. split; [discriminate|]. intros _. split; [exact Hs|reflexivity].
    + rewrite (run_loop_overflow w Hs Hbig). exact I.
Qed.

Lemma yields_lift_coro {PC : Type} (wrap : option PC → coro) (m : M (susp PC)) :
  yields (λ p aw w, suspended_ok (wrap (Some p)) aw w) m →
  yields (λ c aw w, suspended_ok c aw w) (lift_coro wrap m).
Proof.
  intros H w. specialize (H w). unfold lift_coro, bind.
  destruct (m w) as [[[|aw p]|e] w']; cbn; auto.
Qed.

(** Whatever a coroutine suspends on is what its new program point
    awaits. *)
Lemma resume_suspended_ok (c : coro) (inp : outcome) (w : world) :
  match resume c inp w with
  | (Val (Yield aw c'), w') => suspended_ok c' aw w'
  | _ => True
  end.
Proof.
  assert (Htick : ∀ m, yields A_tick m →
            yields (λ p aw w, suspended_ok (co_tick (Some p)) aw w) m).
  { intros m H w0. specialize (H w0).
    destruct (m w0) as [[[|aw p]|e] w']; auto.
    destruct (is_call_simple aw H). apply suspended_ok_simple; auto. }
  destruct c as [[p|]|[p|]|[p|]]; cbn [resume]; apply yields_lift_coro.
  - destruct p as [q]. cbn [run_resume].
    apply (yields_await_coro (λ _ _ _, False)); [|apply yields_run_loop|contradiction].
    intros w0. destruct inp; exact I.
  - apply yields_enter, yields_run_loop.
  - apply Htick, yields_tick_resume.
  - apply yields_enter, Htick, yields_tick_begin.
  - apply yields_main_resume.
  - apply yields_enter. intros w0. apply (yields_main_run (script_todo w0) w0).
Qed.

(** ** Code between two awaits, as the event loop sees it *)

Lemma same_loop_refl w : same_loop w w.
Proof. repeat split. Qed.

Section Blocks.
Context (P : world → Prop) (HP : block_closed P).

Lemma blk_neutral {A : Type} (m : M A) :
  (∀ w, same_loop w (snd (m w))) → preserves P m.
Proof. intros H w Hw. apply (bc_neutral P HP w); [apply H|exact Hw]. Qed.

Lemma blk_init_begin : preserves P init_begin.
Proof. apply blk_neutral. intros w. repeat split. Qed.

Lemma blk_init_resume pc inp : preserves P (init_resume pc inp).
Proof.
  apply blk_neutral. intros w. destruct inp as [v|e]; cbn; [|repeat split].
  destruct (py_eq_int v 1); [repeat split|].
  destruct (py_eq_int v 17000); repeat split.
Qed.

Lemma blk_tick_begin : preserves P tick_begin.
Proof.
  apply blk_neutral. intros w. destruct (contract (exporter w)) as [c|] eqn:Hc.
  - rewrite (tick_begin_cached _ _ Hc). repeat split.
  - destruct (network (exporter w)) as [n|] eqn:Hn.
    + rewrite (tick_begin_first _ _ Hc Hn). repeat split.
    + rewrite (tick_begin_unresolved _ Hc Hn). repeat split.
Qed.

Lemma blk_tick_resume pc inp : preserves P (tick_resume pc inp).
Proof.
  apply blk_neutral. intros w.
  destruct inp as [[| | |root v]|e];
    [repeat split|repeat split|repeat split| |repeat split].
  cbn. unfold bind, self_network, get_self; cbn.
  destruct (network (exporter w)); repeat split.
Qed.

Lemma blk_stop_begin : preserves P stop_begin.
Proof.
  intros w H. destruct (_runner_task (exporter w)) as [t|] eqn:Hr.
  - rewrite (stop_begin_started w t Hr).
    pose proof (bc_stop P HP w t Hr H) as H2.
    destruct (stopped (exporter w)); cbn;
      (eapply (bc_neutral P HP); [|exact H2]); repeat split.
  - rewrite (stop_begin_unstarted w Hr). apply (bc_stop_unstarted P HP w Hr H).
Qed.

Lemma blk_stop_resume pc inp : preserves P (stop_resume pc inp).
Proof.
  apply blk_neutral. intros w. destruct inp; [|repeat split].
  destruct pc; repeat split.
Qed.

Lemma blk_start : preserves P start.
Proof. intros w H. apply (bc_start P HP w H). Qed.

Lemma blk_start_exporter_app_L87 : preserves P start_exporter_app_L87.
Proof. apply pres_bind; [apply blk_start|]. intros _. apply pres_ret. Qed.

Lemma blk_start_exporter_app_L86 : preserves P start_exporter_app_L86.
Proof.
  apply pres_await_coro; [apply blk_tick_begin|apply blk_start_exporter_app_L87].
Qed.

Lemma blk_start_exporter_app_L84 : preserves P start_exporter_app_L84.
Proof.
  apply pres_await_coro; [apply blk_init_begin|apply blk_start_exporter_app_L86].
Qed.

Lemma blk_start_exporter_app_resume pc inp :
  preserves P (start_exporter_app_resume pc inp).
Proof.
  destruct pc as [|p|p]; cbn [start_exporter_app_resume].
  - destruct inp; [apply blk_start_exporter_app_L84|apply pres_raise].
  - apply pres_await_coro; [apply blk_init_resume|apply blk_start_exporter_app_L86].
  - apply pres_await_coro; [apply blk_tick_resume|apply blk_start_exporter_app_L87].
Qed.

Lemma blk_op_begin (o : op) : preserves P (op_begin o).
Proof.
  destruct o; cbn [op_begin].
  - apply pres_await_coro; [apply blk_init_begin|apply pres_ret].
  - apply pres_await_coro; [apply blk_tick_begin|apply pres_ret].
  - apply pres_bind; [apply blk_start|]. intros _. apply pres_ret.
  - apply pres_await_coro; [apply blk_stop_begin|apply pres_ret].
  - apply pres_await_coro; [|apply pres_ret].
    apply blk_neutral. intros w. repeat split.
  - apply pres_await_coro; [|apply pres_ret].
    apply pres_await_coro; [apply blk_stop_begin|apply pres_ret].
  - apply blk_neutral. intros w. repeat split.
Qed.

Lemma blk_op_resume (pc : op_pc) inp : preserves P (op_resume pc inp).
Proof.
  destruct pc as [p|p|p|p|p|]; cbn [op_resume].
  - apply pres_await_coro; [apply blk_init_resume|apply pres_ret].
  - apply pres_await_coro; [apply blk_tick_resume|apply pres_ret].
  - apply pres_await_coro; [apply blk_stop_resume|apply pres_ret].
  - apply pres_await_coro; [apply blk_start_exporter_app_resume|apply pres_ret].
  - apply pres_await_coro; [|apply pres_ret]. destruct p as [q].
    apply pres_await_coro; [apply blk_stop_resume|apply pres_ret].
  - apply pres_enter, pres_ret.
Qed.

Lemma blk_mark_done (o : op) : preserves P (mark_done o).
Proof. apply blk_neutral. intros w. repeat split. Qed.

Lemma blk_main_run (todo : list op) : preserves P (main_run todo).
Proof.
  induction todo as [|o rest IH]; [apply pres_ret|]. cbn [main_run].
  apply pres_bind; [apply blk_neutral; intros w; repeat split|]. intros _.
  apply pres_bind; [apply blk_op_begin|]. intros [|aw p]; [|apply pres_ret].
  apply pres_bind; [apply blk_mark_done|]. intros _. exact IH.
Qed.

Lemma blk_main_resume (pc : op_pc) inp : preserves P (main_resume pc inp).
Proof.
  apply pres_bind; [apply blk_op_resume|]. intros [|aw p]; [|apply pres_ret].
  apply pres_bind; [apply blk_mark_done|]. intros _.
  intros w H. apply (blk_main_run (script_todo w) w H).
Qed.

(** Every step of the caller and of a tick is made of such blocks. *)
Lemma blk_resume (c : coro) (inp : outcome) :
  kind_of c ≠ k_run → preserves P (resume c inp).
Proof.
  intros Hk. destruct c as [p|[p|]|[p|]]; [elim Hk; reflexivity| | | |];
    cbn [resume]; apply pres_lift_coro.
  - apply blk_tick_resume.
  - apply pres_enter, blk_tick_begin.
  - apply blk_main_resume.
  - apply pres_enter. intros w H. apply (blk_main_run (script_todo w) w H).
Qed.

End Blocks.

(** ** Every live task has exactly one wake-up *)

Lemma blocked_waiting_n (ts : list task) tid t :
  ts !! tid = Some t → blocked ts tid = waiting_n t.
Proof. intros H. unfold blocked, waiting_n. rewrite H. reflexivity. Qed.

Lemma due_other cur cur' tid k :
  (∀ c, cur = Some c → c = tid) → (∀ c, cur' = Some c → c = tid) → k ≠ tid →
  due cur' k = due cur k.
Proof.
  intros H1 H2 Hk. unfold due.
  assert (E : Nat.eqb tid k = false) by (apply Nat.eqb_neq; auto).
  destruct cur as [c|]; [rewrite (H1 c eq_refl), E|];
    (destruct cur' as [c'|]; [rewrite (H2 c' eq_refl), E|]); reflexivity.
Qed.

(** A task other than the one touched keeps its facts. *)
Lemma task_ok_other (w w' : world) cur cur' tid k t :
  (∀ c, cur = Some c → c = tid) → (∀ c, cur' = Some c → c = tid) → k ≠ tid →
  steps_of k (ready w') = steps_of k (ready w) →
  (stopped (exporter w) = false → stopped (exporter w') = false) →
  (stopping (exporter w') = true → _runner_task (exporter w') = Some k →
   stopping (exporter w) = true ∧ _runner_task (exporter w) = Some k) →
  task_ok w cur k t → task_ok w' cur' k t.
Proof.
  intros H1 H2 Hk Hs Hst Hc [A B C D E F G H]. split.
  - rewrite Hs, (due_other cur cur' tid k H1 H2 Hk). exact A.
  - intros ->. elim Hk. apply (H2 k eq_refl).
  - exact C.
  - intros Hw. apply Hst, D, Hw.
  - exact E.
  - intros Ha Hb. destruct (Hc Ha Hb). auto.
  - exact G.
  - exact H.
Qed.

(** One task is replaced; the others keep their wake-ups. *)
Lemma K_core_update (cur cur' : option task_id) (w w' : world) tid x x' :
  K_core cur w →
  tasks w !! tid = Some x →
  tasks w' = <[tid := x']> (tasks w) →
  (∀ c, cur = Some c → c = tid) → (∀ c, cur' = Some c → c = tid) →
  (∀ k, k ≠ tid → steps_of k (ready w') = steps_of k (ready w)) →
  (stopped (exporter w) = false → stopped (exporter w') = false) →
  _runner_task (exporter w') = _runner_task (exporter w) →
  (stopping (exporter w') = stopping (exporter w)
   ∨ _runner_task (exporter w) = Some tid) →
  kind_of (t_coro x') = kind_of (t_coro x) →
  task_ok w' cur' tid x' →
  K_core cur' w'.
Proof.
  intros [KT KF KR KC] Hx Ht H1 H2 Hs Hst Hr Hsg Hk Hok.
  assert (Hlt : tid < length (tasks w)) by (eapply lookup_lt_Some; eauto).
  split.
  - intros k t Hl. rewrite Ht in Hl.
    apply list_lookup_insert_Some in Hl as [(-> & <- & _)|(Hne & Hl)]; [exact Hok|].
    apply (task_ok_other w w' cur cur' tid k t); auto.
    intros Ha Hb. rewrite Hr in Hb. destruct Hsg as [Hsg|Hsg].
    + rewrite Hsg in Ha. auto.
    + congruence.
  - intros k Hle. rewrite Ht, length_insert in Hle.
    rewrite Hs by lia. apply KF, Hle.
  - intros r Hrr. rewrite Hr in Hrr. destruct (KR r Hrr) as (t & Hl & Hkt).
    rewrite Ht. destruct (Nat.eq_dec r tid) as [->|Hne].
    + exists x'. rewrite list_lookup_insert_eq by exact Hlt.
      split; [reflexivity|]. rewrite Hx in Hl. inversion Hl; subst. congruence.
    + exists t. rewrite list_lookup_insert_ne by auto. auto.
  - intros c Hc. rewrite (H2 c Hc), Ht, length_insert. exact Hlt.
Qed.

(** Nothing but the attributes changes. *)
Lemma K_core_frame (cur : option task_id) (w w' : world) :
  K_core cur w →
  tasks w' = tasks w →
  (∀ k, steps_of k (ready w') = steps_of k (ready w)) →
  (stopped (exporter w) = false → stopped (exporter w') = false) →
  _runner_task (exporter w') = _runner_task (exporter w) →
  (stopping (exporter w') = stopping (exporter w)
   ∨ _runner_task (exporter w) = None) →
  K_core cur w'.
Proof.
  intros [KT KF KR KC] Ht Hs Hst Hr Hsg. split.
  - intros k t Hl. rewrite Ht in Hl. destruct (KT k t Hl) as [A B C D E F G H]. split; auto.
    + rewrite Hs. exact A.
    + intros Ha Hb. rewrite Hr in Hb. destruct Hsg as [Hsg|Hsg]; [|congruence].
      rewrite Hsg in Ha. auto.
  - intros k Hle. rewrite Ht in Hle. rewrite Hs. auto.
  - intros r Hrr. rewrite Hr in Hrr. rewrite Ht. auto.
  - intros c Hc. rewrite Ht. auto.
Qed.

Lemma K_core_same_loop cur (w w' : world) :
  same_loop w w' → K_core cur w → K_core cur w'.
Proof.
  intros (Ht & Hr & Hsg & Hsd & Hrt & _) H.
  apply (K_core_frame cur w w' H); auto.
  - intros k. rewrite Hr. reflexivity.
  - intros Hf. congruence.
Qed.

Lemma callbacks_pending_frame (w w' : world) :
  callbacks_pending w →
  tasks w' = tasks w →
  (∀ cb k, In (h_callback cb k) (ready w) → In (h_callback cb k) (ready w')) →
  (stopped (exporter w) = true → stopped (exporter w') = true) →
  callbacks_pending w'.
Proof.
  intros H Ht Hr Hs k t Hl Hk Hd. rewrite Ht in Hl.
  destruct (H k t Hl Hk Hd) as [?|?]; [left|right]; auto.
Qed.

Lemma callbacks_pending_same_loop (w w' : world) :
  same_loop w w' → callbacks_pending w → callbacks_pending w'.
Proof.
  intros (Ht & Hr & _ & Hsd & _) H.
  apply (callbacks_pending_frame w w' H Ht).
  - intros cb k. rewrite Hr. auto.
  - congruence.
Qed.

Lemma callbacks_pending_update (w w' : world) tid x x' :
  callbacks_pending w →
  tasks w !! tid = Some x →
  tasks w' = <[tid := x']> (tasks w) →
  (∀ cb k, In (h_callback cb k) (ready w) → In (h_callback cb k) (ready w')) →
  (stopped (exporter w) = true → stopped (exporter w') = true) →
  (kind_of (t_coro x') = k_run → is_Some (t_result x') →
   stopped (exporter w') = true
   ∨ In (h_callback cb_on_runner_task_done tid) (ready w')) →
  callbacks_pending w'.
Proof.
  intros H Hx Ht Hr Hs Hnew k t Hl Hk Hd. rewrite Ht in Hl.
  apply list_lookup_insert_Some in Hl as [(-> & <- & _)|(Hne & Hl)]; [auto|].
  destruct (H k t Hl Hk Hd) as [?|?]; [left|right]; auto.
Qed.

Lemma steps_of_head_other tid k inp rest :
  k ≠ tid → steps_of k (h_step tid inp :: rest) = steps_of k rest.
Proof.
  intros H. rewrite steps_of_cons_step.
  destruct (Nat.eqb_spec tid k); [congruence|reflexivity].
Qed.

Lemma steps_of_snoc_other tid k o hs :
  k ≠ tid → steps_of k (hs ++ [h_step tid o]) = steps_of k hs.
Proof.
  intros H. rewrite steps_of_app, steps_of_one.
  destruct (Nat.eqb_spec tid k); [congruence|lia].
Qed.

Lemma steps_of_snoc_eq tid o hs :
  steps_of tid (hs ++ [h_step tid o]) = S (steps_of tid hs).
Proof. rewrite steps_of_app, steps_of_one, Nat.eqb_refl. lia. Qed.

(** The loop takes the next step off the queue: its task exists, is not
    done and is not blocked, and becomes the task being run. *)
Lemma K_pop_step (w : world) tid inp rest :
  K w → ready w = h_step tid inp :: rest →
  ∃ t, tasks w !! tid = Some t ∧ t_result t = None ∧ t_waiting t = None
       ∧ K_running tid
           (with_tasks (<[tid := set_t_must_cancel false t]> (tasks w))
              (with_ready rest w)).
Proof.
  intros [HK HC] Hr.
  assert (Hhead : steps_of tid (ready w) = S (steps_of tid rest)).
  { rewrite Hr, steps_of_cons_step, Nat.eqb_refl. reflexivity. }
  destruct (tasks w !! tid) as [t|] eqn:Ht.
  2:{ apply lookup_ge_None in Ht. rewrite (k_fresh _ _ HK tid Ht) in Hhead. lia. }
  pose proof (to_wakeup _ _ _ _ (k_tasks _ _ HK tid t Ht)) as Hw.
  destruct (t_result t) eqn:Hres; [destruct Hw as [Hw _]; lia|].
  cbn in Hw. rewrite Hhead in Hw.
  assert (Hwn : waiting_n t = 0) by lia.
  assert (Hrest : steps_of tid rest = 0) by lia.
  assert (Hwt : t_waiting t = None).
  { unfold waiting_n in Hwn. destruct (t_waiting t); [discriminate|reflexivity]. }
  exists t. split; [reflexivity|]. split; [exact Hres|]. split; [exact Hwt|].
  split.
  - apply (K_core_update None (Some tid) w _ tid t (set_t_must_cancel false t) HK Ht);
      cbn; auto; try discriminate.
    + intros c Hc. inversion Hc. reflexivity.
    + intros k Hk. rewrite Hr. symmetry. apply steps_of_head_other, Hk.
    + destruct (k_tasks _ _ HK tid t Ht) as [A B C D E F G H].
      split; cbn; auto; try discriminate.
      rewrite Hres. unfold due. rewrite Nat.eqb_refl.
      unfold waiting_n. cbn. rewrite Hwt, Hrest. reflexivity.
  - apply (callbacks_pending_update w _ tid t (set_t_must_cancel false t) HC Ht);
      cbn; auto.
    + intros cb k Hin. rewrite Hr in Hin. destruct Hin as [Hin|Hin]; [discriminate|exact Hin].
    + rewrite Hres. intros _ [? ?]. discriminate.
Qed.

(** A task is registered and its first step scheduled. *)
Lemma K_core_spawn (cur : option task_id) (w w' : world) (x : task) (o : outcome) :
  K_core cur w →
  tasks w' = tasks w ++ [x] →
  (∀ k, steps_of k (ready w')
        = steps_of k (ready w) + (if Nat.eqb (length (tasks w)) k then 1 else 0)) →
  stopping (exporter w') = stopping (exporter w) →
  stopped (exporter w') = stopped (exporter w) →
  (_runner_task (exporter w') = _runner_task (exporter w)
   ∨ (_runner_task (exporter w') = Some (length (tasks w))
      ∧ kind_of (t_coro x) = k_run)) →
  t_result x = None → t_waiting x = None →
  (kind_of (t_coro x) = k_run → In cb_on_runner_task_done (t_callbacks x)) →
  t_must_cancel x = false → kind_of (t_coro x) ≠ k_main →
  K_core cur w'.
Proof.
  intros [KT KF KR KC] Ht Hs Hsg Hsd Hr Hres Hwt Hcb Hmc Hnm.
  set (n := length (tasks w)) in *.
  assert (Hcur : ∀ c, cur = Some c → c ≠ n).
  { intros c Hc. specialize (KC c Hc). unfold n. lia. }
  split.
  - intros k t Hl. rewrite Ht in Hl.
    apply lookup_app_Some in Hl as [Hl|[Hle Hl]].
    + assert (Hk : k < n) by (eapply lookup_lt_Some; eauto).
      destruct (KT k t Hl) as [A B C D E F G H]. split; auto.
      * rewrite Hs. destruct (Nat.eqb_spec n k); [lia|]. rewrite Nat.add_0_r. exact A.
      * rewrite Hsd. exact D.
      * intros Ha Hb. rewrite Hsg in Ha. destruct Hr as [Hr|[Hr _]]; [|rewrite Hr in Hb].
        -- rewrite Hr in Hb. auto.
        -- inversion Hb; lia.
    + fold n in Hle, Hl. destruct (k - n) as [|j] eqn:E; cbn in Hl; [|discriminate].
      inversion Hl; subst t. assert (k = n) by lia. subst k.
      split.
      * rewrite Hres, Hs, Nat.eqb_refl, (KF n) by (unfold n; lia).
        unfold waiting_n. rewrite Hwt. unfold due.
        destruct cur as [c|]; [|reflexivity].
        destruct (Nat.eqb_spec c n) as [->|_]; [|reflexivity].
        elim (Hcur n eq_refl). reflexivity.
      * intros _. exact Hres.
      * intros Hk _. apply Hcb, Hk.
      * rewrite Hwt. discriminate.
      * rewrite Hwt. discriminate.
      * intros _ _. exact Hwt.
      * rewrite Hmc. discriminate.
      * intros Hm. contradiction.
  - intros k Hle. rewrite Ht, length_app in Hle. cbn in Hle. fold n in Hle.
    rewrite Hs, (KF k) by (unfold n in *; lia).
    destruct (Nat.eqb_spec n k); [lia|reflexivity].
  - intros r Hrr. rewrite Ht. destruct Hr as [Hr|[Hr Hk]].
    + rewrite Hr in Hrr. destruct (KR r Hrr) as (t & Hl & Hkt).
      exists t. split; [|exact Hkt]. apply lookup_app_l_Some, Hl.
    + rewrite Hr in Hrr. inversion Hrr; subst r. exists x. split; [|exact Hk].
      rewrite lookup_app_r by (unfold n; lia). fold n. rewrite Nat.sub_diag. reflexivity.
  - intros c Hc. rewrite Ht, length_app. specialize (KC c Hc). lia.
Qed.

Lemma callbacks_pending_spawn (w w' : world) (x : task) :
  callbacks_pending w →
  tasks w' = tasks w ++ [x] →
  (∀ cb k, In (h_callback cb k) (ready w) → In (h_callback cb k) (ready w')) →
  (stopped (exporter w) = true → stopped (exporter w') = true) →
  t_result x = None →
  callbacks_pending w'.
Proof.
  intros H Ht Hr Hs Hres k t Hl Hk Hd. rewrite Ht in Hl.
  apply lookup_app_Some in Hl as [Hl|[Hle Hl]].
  - destruct (H k t Hl Hk Hd) as [?|?]; [left|right]; auto.
  - destruct (k - length (tasks w)) as [|j]; cbn in Hl; [|discriminate].
    inversion Hl; subst t. rewrite Hres in Hd. destruct Hd. discriminate.
Qed.

(** [start()], as the loop sees it. *)
Lemma start_eq (w : world) :
  let w' := snd (start w) in
  tasks w' = tasks w ++ [add_t_callback cb_on_runner_task_done (new_task (co_run None))]
  ∧ ready w' = ready w ++ [h_step (length (tasks w)) (Ok VNone)]
  ∧ exporter w' = set_runner_task (length (tasks w)) (exporter w).
Proof.
  unfold start, bind, create_task, modify, add_done_callback. cbn.
  rewrite lookup_app_r by lia. rewrite Nat.sub_diag. cbn.
  split; [|split; reflexivity].
  rewrite insert_app_r_alt by lia. rewrite Nat.sub_diag. reflexivity.
Qed.

Lemma K_running_start (tid : task_id) (w : world) :
  K_running tid w → K_running tid (snd (start w)).
Proof.
  intros [HK HC]. destruct (start_eq w) as (Ht & Hr & He). split.
  - apply (K_core_spawn (Some tid) w _ _ (Ok VNone) HK Ht).
    + intros k. rewrite Hr, steps_of_app, steps_of_one. reflexivity.
    + rewrite He. reflexivity.
    + rewrite He. reflexivity.
    + right. rewrite He. split; reflexivity.
    + reflexivity.
    + reflexivity.
    + intros _. left. reflexivity.
    + reflexivity.
    + discriminate.
  - apply (callbacks_pending_spawn w _ _ HC Ht).
    + intros cb k Hin. rewrite Hr. apply in_or_app. left. exact Hin.
    + rewrite He. auto.
    + reflexivity.
Qed.

(** [Task.cancel()], case by case. *)
Lemma task_cancel_eq (t : task_id) (w : world) (x : task) :
  tasks w !! t = Some x →
  let w' := snd (task_cancel t w) in
  exporter w' = exporter w
  ∧ match t_result x, t_waiting x with
    | Some _, _ => tasks w' = tasks w ∧ ready w' = ready w
    | None, Some _ =>
        tasks w' = <[t := set_t_waiting None x]> (tasks w)
        ∧ ready w' = ready w ++ [h_step t (Exc CancelledError)]
    | None, None =>
        tasks w' = <[t := set_t_must_cancel true x]> (tasks w)
        ∧ ready w' = ready w
    end.
Proof.
  intros Hx. unfold task_cancel. cbn. rewrite Hx.
  destruct (t_result x); [repeat split|].
  destruct (t_waiting x); repeat split.
Qed.

Lemma K_running_stop (tid r : task_id) (κ : kind) (w : world) :
  κ ≠ k_run →
  _runner_task (exporter w) = Some r →
  K_running tid w ∧ has_kind tid κ w →
  let w' := snd (task_cancel r (stop_enter w)) in
  K_running tid w' ∧ has_kind tid κ w'.
Proof.
  intros Hκ Hr [[HK HC] (t & Ht & Hkt)] w'.
  destruct (k_runner _ _ HK r Hr) as (x & Hx & Hkx).
  assert (Hne : r ≠ tid) by (intros ->; congruence).
  assert (Hlt : r < length (tasks w)) by (eapply lookup_lt_Some; eauto).
  destruct (task_cancel_eq r (stop_enter w) x Hx) as [He Hcase]. fold w' in He, Hcase.
  change (ready (stop_enter w)) with (ready w) in Hcase.
  change (tasks (stop_enter w)) with (tasks w) in Hcase.
  assert (He' : exporter w' = set_stopping true (exporter w)) by (rewrite He; reflexivity).
  destruct (k_tasks _ _ HK r x Hx) as [A B C D E F G H].
  assert (Hdue : due (Some tid) r = 1).
  { unfold due. destruct (Nat.eqb_spec tid r); [congruence|reflexivity]. }
  assert (Hcur : ∀ c, Some tid = Some c → c ≠ r) by (intros c Hc; inversion Hc; congruence).
  assert (Hgen : ∀ x',
            tasks w' = <[r := x']> (tasks w) →
            (∀ k, k ≠ r → steps_of k (ready w') = steps_of k (ready w)) →
            (∀ cb k, In (h_callback cb k) (ready w) → In (h_callback cb k) (ready w')) →
            t_coro x' = t_coro x → t_result x' = t_result x →
            t_callbacks x' = t_callbacks x → t_waiting x' = None →
            (t_result x = None →
             steps_of r (ready w') = steps_of r (ready w) + waiting_n x) →
            (is_Some (t_result x) → steps_of r (ready w') = steps_of r (ready w)) →
            K_running tid w' ∧ has_kind tid κ w').
  { intros x' Hts Hsteps Hcbs Hco Hre Hca Hwa Hlive Hdone.
    split; [split|].
    - split.
      + intros k y Hl. rewrite Hts in Hl.
        apply list_lookup_insert_Some in Hl as [(Hkr & <- & _)|(Hk & Hl)];
          [subst k|].
        * split.
          -- rewrite Hre. destruct (t_result x) eqn:Hrx.
             ++ destruct A as [A1 A2]. split; [|exact Hwa].
                rewrite Hdone by eauto. exact A1.
             ++ rewrite (Hlive eq_refl). unfold waiting_n at 2. rewrite Hwa.
                rewrite Nat.add_0_r. exact A.
          -- intros Hc. elim (Hcur r Hc). reflexivity.
          -- rewrite Hco, Hre, Hca. exact C.
          -- rewrite Hwa. discriminate.
          -- rewrite Hwa. discriminate.
          -- intros _ _. exact Hwa.
          -- intros _. rewrite Hco. exact Hkx.
          -- rewrite Hco. exact H.
        * destruct (k_tasks _ _ HK k y Hl) as [A' B' C' D' E' F' G' H']. split; auto.
          -- rewrite Hsteps by auto. exact A'.
          -- rewrite He'. exact D'.
          -- rewrite He'. cbn. intros _ Hb. congruence.
      + intros k Hle. rewrite Hts, length_insert in Hle.
        rewrite Hsteps by lia. apply (k_fresh _ _ HK), Hle.
      + intros r' Hr'. rewrite He' in Hr'. cbn in Hr'.
        rewrite Hr in Hr'. inversion Hr'; subst r'.
        exists x'. rewrite Hts, list_lookup_insert_eq by exact Hlt.
        split; [reflexivity|]. rewrite Hco. exact Hkx.
      + intros c Hc. rewrite Hts, length_insert. apply (k_current _ _ HK c Hc).
    - apply (callbacks_pending_update w w' r x x' HC Hx Hts Hcbs).
      + rewrite He'. auto.
      + rewrite Hco, Hre. intros Hk Hd.
        destruct (HC r x Hx Hk Hd) as [Hs|Hin]; [left; rewrite He'; exact Hs|right; auto].
    - exists t. rewrite Hts, list_lookup_insert_ne by exact Hne. auto. }
  destruct (t_result x) eqn:Hrx.
  - destruct A as [A1 A2]. destruct Hcase as [Hts Hrd].
    apply (Hgen x); auto.
    + rewrite Hts. symmetry. apply list_insert_id, Hx.
    + intros k _. rewrite Hrd. reflexivity.
    + intros cb k. rewrite Hrd. auto.
    + discriminate.
    + intros _. rewrite Hrd. reflexivity.
  - destruct (t_waiting x) as [aw|] eqn:Hwx; destruct Hcase as [Hts Hrd].
    + apply (Hgen (set_t_waiting None x)); auto.
      * intros k Hk. rewrite Hrd. apply steps_of_snoc_other, Hk.
      * intros cb k Hin. rewrite Hrd. apply in_or_app. left. exact Hin.
      * intros _. rewrite Hrd, steps_of_snoc_eq. unfold waiting_n. rewrite Hwx. lia.
      * intros [? ?]. discriminate.
    + apply (Hgen (set_t_must_cancel true x)); auto.
      * intros k _. rewrite Hrd. reflexivity.
      * intros cb k. rewrite Hrd. auto.
      * intros _. rewrite Hrd. unfold waiting_n. rewrite Hwx. lia.
      * intros [? ?]. discriminate.
Qed.

Lemma K_running_blocks (tid : task_id) (κ : kind) :
  κ ≠ k_run → block_closed (λ w, K_running tid w ∧ has_kind tid κ w).
Proof.
  intros Hκ. split.
  - intros w w' Hs [[HK HC] (t & Ht & Hk)]. pose proof Hs as (Hts & _).
    split; [split|].
    + apply (K_core_same_loop _ w w' Hs HK).
    + apply (callbacks_pending_same_loop w w' Hs HC).
    + exists t. rewrite Hts. auto.
  - intros w [HR (t & Ht & Hk)]. split; [apply K_running_start, HR|].
    exists t. destruct (start_eq w) as (Hts & _). rewrite Hts.
    split; [apply lookup_app_l_Some, Ht|exact Hk].
  - intros w r Hr H. apply (K_running_stop tid r κ w Hκ Hr H).
  - intros w Hr [[HK HC] Hn]. split; [split|exact Hn].
    + apply (K_core_frame _ w _ HK); cbn; auto.
    + apply (callbacks_pending_frame w _ HC); cbn; auto.
Qed.

Lemma wake_waiters_lookup (i : task_id) (ts : list task) (k : nat) :
  fst (wake_waiters i ts) !! k
  = (λ t, if is_event_wait (t_waiting t) then set_t_waiting None t else t) <$> ts !! k.
Proof.
  revert i k. induction ts as [|x ts IH]; intros i k; [reflexivity|].
  cbn [wake_waiters]. specialize (IH (S i)).
  destruct (wake_waiters (S i) ts) as [ts' hs].
  destruct (is_event_wait (t_waiting x)) eqn:E; destruct k as [|k]; cbn;
    try rewrite E; try reflexivity; apply IH.
Qed.

Lemma wake_waiters_callbacks (i : task_id) (ts : list task) cb k :
  ¬ In (h_callback cb k) (snd (wake_waiters i ts)).
Proof.
  revert i. induction ts as [|x ts IH]; intros i; [intros []|].
  cbn [wake_waiters]. specialize (IH (S i)).
  destruct (wake_waiters (S i) ts) as [ts' hs].
  destruct (is_event_wait (t_waiting x)); cbn in *; [|exact IH].
  intros [H|H]; [discriminate|exact (IH H)].
Qed.

(** [Event.set()] keeps the invariant and leaves the event set. *)
Lemma K_core_Event_set (cur : option task_id) (w : world) :
  K_core cur w → K_core cur (snd (Event_set w)).
Proof.
  intros HK. pose proof HK as [KT KF KR KC].
  destruct (Event_set_view w) as (_ & _ & _ & _ & [->|(He & Hts & Hrd)]); [exact HK|].
  pose proof (wake_waiters_spec 0 (tasks w)) as (_ & Hcount & _ & _).
  cbn in Hcount. rewrite <- Hts in Hcount.
  set (w' := snd (Event_set w)) in *.
  assert (Hsteps : ∀ k, steps_of k (ready w') + blocked (tasks w') k
                        = steps_of k (ready w) + blocked (tasks w) k).
  { intros k. rewrite Hrd, steps_of_app. specialize (Hcount k). lia. }
  assert (Hlen : length (tasks w') = length (tasks w)).
  { rewrite Hts. apply wake_waiters_length. }
  split.
  - intros k y Hl. rewrite Hts, wake_waiters_lookup in Hl.
    destruct (tasks w !! k) as [t|] eqn:Ht; [|discriminate]. cbn in Hl.
    destruct (KT k t Ht) as [A B C D E F G H].
    specialize (Hsteps k). rewrite (blocked_waiting_n _ _ _ Ht) in Hsteps.
    assert (Hl' : tasks w' !! k = Some y).
    { rewrite Hts, wake_waiters_lookup, Ht. exact Hl. }
    rewrite (blocked_waiting_n _ _ _ Hl') in Hsteps.
    destruct (is_event_wait (t_waiting t)) eqn:Hev; inversion Hl; subst y; clear Hl.
    + destruct (t_waiting t) as [[]|] eqn:Hw; try discriminate.
      split; cbn; auto; try discriminate.
      destruct (t_result t); [destruct A; discriminate|].
      unfold waiting_n in *. cbn in *. rewrite Hw in *. lia.
    + split; auto.
      * destruct (t_result t).
        -- destruct A as [A1 A2]. split; [|exact A2].
           unfold waiting_n in Hsteps. rewrite A2 in Hsteps. lia.
        -- lia.
      * intros Hw. rewrite Hw in Hev. discriminate.
      * rewrite He. exact F.
  - intros k Hle. rewrite Hlen in Hle. specialize (Hsteps k).
    rewrite !blocked_none, (KF k Hle) in Hsteps by lia. lia.
  - intros r Hr. rewrite He in Hr. destruct (KR r Hr) as (t & Ht & Hk).
    rewrite Hts, wake_waiters_lookup, Ht. cbn.
    eexists. split; [reflexivity|]. destruct (is_event_wait (t_waiting t)); exact Hk.
  - intros c Hc. rewrite Hlen. auto.
Qed.

Lemma callbacks_pending_Event_set (w : world) : callbacks_pending (snd (Event_set w)).
Proof.
  intros k t _ _ _. left.
  destruct (Event_set_spec w) as (H & _). exact H.
Qed.

Lemma due_current tid : due (Some tid) tid = 0.
Proof. unfold due. rewrite Nat.eqb_refl. reflexivity. Qed.

Lemma K_running_current (tid : task_id) (w : world) :
  K_running tid w →
  ∃ t, tasks w !! tid = Some t ∧ t_result t = None ∧ t_waiting t = None
       ∧ steps_of tid (ready w) = 0.
Proof.
  intros [HK _]. pose proof (k_current _ _ HK tid eq_refl) as Hlt.
  apply lookup_lt_is_Some in Hlt as [t Ht]. exists t.
  destruct (k_tasks _ _ HK tid t Ht) as [A B _ _ _ _ _ _].
  specialize (B eq_refl). rewrite B, due_current in A.
  split; [exact Ht|]. split; [exact B|].
  unfold waiting_n in A. destruct (t_waiting t); [lia|]. split; [reflexivity|lia].
Qed.

(** The task being run is done. *)
Lemma K_finish (tid : task_id) (r : res unit) (w : world) :
  K_running tid w → K (finish_task tid r w).
Proof.
  intros HR. destruct (K_running_current tid w HR) as (t & Ht & Hres & Hwt & Hst).
  destruct HR as [HK HC].
  destruct (k_tasks _ _ HK tid t Ht) as [A B C D E F G H].
  unfold finish_task. rewrite Ht.
  set (w' := with_ready _ _).
  assert (Hsteps : ∀ k, steps_of k (ready w') = steps_of k (ready w)).
  { intros k. unfold w'. cbn. rewrite steps_of_app, steps_of_callbacks. lia. }
  split.
  - apply (K_core_update (Some tid) None w w' tid t (set_t_result r t) HK Ht);
      try reflexivity; auto.
    + intros c Hc. inversion Hc. reflexivity.
    + discriminate.
    + split; cbn; try discriminate; auto.
      rewrite Hsteps. auto.
  - apply (callbacks_pending_update w w' tid t (set_t_result r t) HC Ht);
      try reflexivity; auto.
    + intros cb k Hin. unfold w'. cbn. apply in_or_app. left. exact Hin.
    + cbn. intros Hk _. right. unfold w'. cbn. apply in_or_app. right.
      apply in_map_iff. exists cb_on_runner_task_done. split; [reflexivity|]. auto.
Qed.

(** The task being run suspends at [c], awaiting [aw]. *)
Lemma K_suspend (tid : task_id) (aw : awaitable) (c : coro) (w : world) (t : task) :
  K_running tid w → tasks w !! tid = Some t →
  kind_of c = kind_of (t_coro t) → suspended_ok c aw w →
  K (suspend_task tid aw c w).
Proof.
  intros HR Ht Hkind (Haw & Hev & Hsl).
  destruct (K_running_current tid w HR) as (t0 & Ht0 & Hres & Hwt & Hst).
  rewrite Ht in Ht0. inversion Ht0; subst t0; clear Ht0.
  destruct HR as [HK HC].
  destruct (k_tasks _ _ HK tid t Ht) as [A B C D E F G H].
  assert (Hrun : kind_of c = k_run → is_sleep aw = true).
  { intros Hk. destruct c as [[p|]|p|p]; try discriminate; [exact Haw|contradiction]. }
  assert (Hblock : K (update_task tid (λ t, set_t_waiting (Some aw) (set_t_coro c t)) w)).
  { rewrite (update_task_eq _ _ _ _ Ht). split.
    - apply (K_core_update (Some tid) None w _ tid t
               (set_t_waiting (Some aw) (set_t_coro c t)) HK Ht);
        try reflexivity; auto.
      + intros k Hc. inversion Hc. reflexivity.
      + discriminate.
      + split; cbn; try discriminate.
        * rewrite Hres. cbn. rewrite Hst. reflexivity.
        * rewrite Hkind. exact C.
        * intros Hw. inversion Hw; subst. auto.
        * intros aw' Hw. inversion Hw; subst. exact Haw.
        * intros Hs Hr. exfalso.
          destruct (k_runner _ _ HK tid Hr) as (t' & Ht' & Hk').
          rewrite Ht in Ht'. inversion Ht'; subst t'.
          rewrite <- Hkind in Hk'. destruct (Hsl (Hrun Hk')). congruence.
        * rewrite Hkind. exact G.
        * rewrite Hkind. exact H.
    - apply (callbacks_pending_update w _ tid t
               (set_t_waiting (Some aw) (set_t_coro c t)) HC Ht); try reflexivity; auto.
      cbn. rewrite Hres. intros _ [? ?]. discriminate. }
  destruct aw; try exact Hblock. cbn [suspend_task].
  destruct (Qle_bool delay 0); [|exact Hblock].
  rewrite (update_task_eq _ _ _ _ Ht). split.
  - apply (K_core_update (Some tid) None w _ tid t (set_t_coro c t) HK Ht);
      try reflexivity; auto.
    + intros k Hc. inversion Hc. reflexivity.
    + discriminate.
    + intros k Hk. cbn. apply steps_of_snoc_other. auto.
    + split; cbn; try discriminate.
      * rewrite Hres. cbn. rewrite steps_of_snoc_eq, Hst.
        unfold waiting_n. cbn. rewrite Hwt. reflexivity.
      * rewrite Hkind. exact C.
      * rewrite Hwt. discriminate.
      * rewrite Hwt. discriminate.
      * intros _ _. exact Hwt.
      * rewrite Hkind. exact G.
      * rewrite Hkind. exact H.
  - apply (callbacks_pending_update w _ tid t (set_t_coro c t) HC Ht);
      try reflexivity; auto.
    + intros cb k Hin. cbn. apply in_or_app. left. exact Hin.
    + cbn. rewrite Hres. intros _ [? ?]. discriminate.
Qed.

(** The future a task is blocked on completes. *)
Lemma K_wake (tid : task_id) (o : outcome) (w : world) (t : task) (aw : awaitable) :
  K w → tasks w !! tid = Some t → t_waiting t = Some aw → K (wake tid o w).
Proof.
  intros [HK HC] Ht Hw.
  destruct (k_tasks _ _ HK tid t Ht) as [A B C D E F G H].
  assert (Hres : t_result t = None).
  { destruct (t_result t); [destruct A; congruence|reflexivity]. }
  rewrite Hres in A. unfold waiting_n in A. rewrite Hw in A. cbn in A.
  unfold wake. rewrite (update_task_eq _ _ _ _ Ht). split.
  - apply (K_core_update None None w _ tid t (set_t_waiting None t) HK Ht);
      try reflexivity; auto; try discriminate.
    + intros k Hk. cbn. apply steps_of_snoc_other. auto.
    + split; cbn; try discriminate; auto.
      rewrite Hres. cbn. rewrite steps_of_snoc_eq. unfold waiting_n. cbn. lia.
  - apply (callbacks_pending_update w _ tid t (set_t_waiting None t) HC Ht);
      try reflexivity; auto.
    + intros cb k Hin. cbn. apply in_or_app. left. exact Hin.
    + cbn. rewrite Hres. intros _ [? ?]. discriminate.
Qed.

Lemma K_running_create_tick (tid : task_id) (κ : kind) (w : world) :
  K_running tid w ∧ has_kind tid κ w →
  let w' := snd (create_task (co_tick None) w) in
  K_running tid w' ∧ has_kind tid κ w'.
Proof.
  intros [[HK HC] (t & Ht & Hk)] w'. split; [split|].
  - apply (K_core_spawn (Some tid) w w' (new_task (co_tick None)) (Ok VNone) HK);
      try reflexivity; auto.
    + intros k. unfold w'. cbn. rewrite steps_of_app, steps_of_one. reflexivity.
    + discriminate.
  - apply (callbacks_pending_spawn w w' (new_task (co_tick None)) HC);
      try reflexivity; auto.
    intros cb k Hin. unfold w'. cbn. apply in_or_app. left. exact Hin.
  - exists t. split; [|exact Hk]. unfold w'. cbn. apply lookup_app_l_Some, Ht.
Qed.

Lemma resume_run_running (p : option run_pc) (v : pyvalue) (w : world) :
  stopping (exporter w) = false → delay_fits w →
  resume (co_run p) (Ok v) w
  = (Val (Yield (aw_sleep (poll_delay w)) (co_run (Some (run_L189 sleep_L166)))),
     with_trace (trace (snd (create_task (co_tick None) w))
                 ++ [ef_await (aw_sleep (poll_delay w))])
       (snd (create_task (co_tick None) w))).
Proof.
  intros H Hfit. destruct p as [[[]]|]; cbn -[run_loop];
    unfold lift_coro, await_coro, bind; cbn -[run_loop]; unfold run_begin;
    rewrite (run_loop_running w H Hfit); reflexivity.
Qed.

Lemma resume_run_overflow (p : option run_pc) (v : pyvalue) (w : world) :
  stopping (exporter w) = false →
  (float_overflow_ms ≤ Z.abs (interval_ms (exporter w)))%Z →
  resume (co_run p) (Ok v) w
  = (Err division_overflow, snd (create_task (co_tick None) w)).
Proof.
  intros H Hbig. destruct p as [[[]]|]; cbn -[run_loop];
    unfold lift_coro, await_coro, bind; cbn -[run_loop]; unfold run_begin;
    rewrite (run_loop_overflow w H Hbig); reflexivity.
Qed.

Lemma resume_run_exc (p : option run_pc) (e : exn) (w : world) :
  resume (co_run p) (Exc e) w = (Err e, w).
Proof. destruct p as [[[]]|]; reflexivity. Qed.

(** Every step of every coroutine keeps the invariant of the task being
    run. *)
Lemma K_resume (tid : task_id) (c : coro) (inp : outcome) (w : world) :
  K_running tid w ∧ has_kind tid (kind_of c) w →
  let w' := snd (resume c inp w) in
  K_running tid w' ∧ has_kind tid (kind_of c) w'.
Proof.
  intros H. destruct (kind_of c) eqn:Hk.
  - destruct c as [p| |]; try discriminate.
    destruct inp as [v|e]; [|rewrite resume_run_exc; exact H].
    destruct (stopping (exporter w)) eqn:Hs.
    + rewrite (resume_run_stopping p (Ok v) w Hs). cbn.
      destruct H as [[HK HC] (t & Ht & Hkt)].
      destruct (K_running_current tid w (conj HK HC)) as (t0 & Ht0 & _ & Hwt & _).
      rewrite Ht in Ht0. inversion Ht0; subst t0.
      split; [split|].
      * apply K_core_Event_set, HK.
      * apply callbacks_pending_Event_set.
      * destruct (Event_set_view w) as (_ & _ & _ & _ & [->|(_ & Hts & _)]);
          [exists t; auto|].
        exists t. rewrite Hts, wake_waiters_lookup, Ht. cbn. rewrite Hwt. cbn. auto.
    + pose proof (K_running_create_tick tid k_run w H) as H2. cbv zeta in H2.
      destruct (delay_fits_dec w) as [Hfit|Hbig];
        [|rewrite (resume_run_overflow p v w Hs Hbig); exact H2].
      rewrite (resume_run_running p v w Hs Hfit). cbn [snd].
      revert H2. set (w1 := snd (create_task (co_tick None) w)).
      intros [[HK HC] (t & Ht & Hkt)]. split; [split|].
      * apply (K_core_same_loop _ w1); [repeat split|exact HK].
      * apply (callbacks_pending_same_loop w1); [repeat split|exact HC].
      * exists t. auto.
  - apply (blk_resume _ (K_running_blocks tid k_tick ltac:(discriminate)) c inp);
      [rewrite Hk; discriminate|exact H].
  - apply (blk_resume _ (K_running_blocks tid k_main ltac:(discriminate)) c inp);
      [rewrite Hk; discriminate|exact H].
Qed.

(** A scheduled step always finds its task, runs it, and leaves the
    invariant in place. *)
Lemma task_step_K (w : world) tid inp rest :
  K w → ready w = h_step tid inp :: rest →
  ∃ w', task_step tid inp (with_ready rest w) = Some w' ∧ K w'.
Proof.
  intros HKw Hr.
  destruct (K_pop_step w tid inp rest HKw Hr) as (t & Ht & Hres & Hwt & HR).
  assert (Hlt : tid < length (tasks w)) by (eapply lookup_lt_Some; eauto).
  unfold task_step. change (tasks (with_ready rest w)) with (tasks w).
  rewrite Ht, Hres. rewrite (update_task_eq tid _ (with_ready rest w) t Ht).
  revert HR.
  change (tasks (with_ready rest w)) with (tasks w).
  set (w1 := with_tasks _ _).
  set (inp' := if t_must_cancel t then Exc CancelledError else inp).
  intros HR.
  assert (Hk1 : has_kind tid (kind_of (t_coro t)) w1).
  { exists (set_t_must_cancel false t). split; [|reflexivity].
    unfold w1. cbn. apply list_lookup_insert_eq, Hlt. }
  pose proof (K_resume tid (t_coro t) inp' w1 (conj HR Hk1)) as [HR2 (t2 & Ht2 & Hk2)].
  pose proof (resume_suspended_ok (t_coro t) inp' w1) as Hsus.
  pose proof (resume_kind (t_coro t) inp' w1) as Hkind.
  destruct (resume (t_coro t) inp' w1) as [[[|aw c]|e] w2]; cbn [snd] in *.
  - eexists. split; [reflexivity|]. apply K_finish, HR2.
  - eexists. split; [reflexivity|].
    apply (K_suspend tid aw c w2 t2 HR2 Ht2); [|exact Hsus].
    rewrite Hk2. eapply Hkind. reflexivity.
  - eexists. split; [reflexivity|]. apply K_finish, HR2.
Qed.

Lemma K_initial rpc interval script : K (initial_world rpc interval script).
Proof.
  split; [split|].
  - intros [|k] t Hl; [|discriminate]. cbn in Hl. inversion Hl; subst t.
    split; cbn; try discriminate; auto.
  - intros [|k] H; cbn in H; [lia|]. reflexivity.
  - discriminate.
  - discriminate.
  - intros [|k] t Hl; [|discriminate]. cbn in Hl. inversion Hl; subst t. discriminate.
Qed.

Lemma exec1_K (e : event) (w w' : world) : K w → exec1 e w = Some w' → K w'.
Proof.
  intros HKw H. destruct e as [|tid o|tid]; cbn in H.
  - destruct (ready w) as [|h rest] eqn:Hr; [discriminate|].
    destruct h as [tid inp|cb tid]; cbn in H.
    + destruct (task_step_K w tid inp rest HKw Hr) as (w2 & E & HK2). congruence.
    + inversion H; subst w'; clear H. destruct cb. destruct HKw as [HK HC].
      split; [|apply callbacks_pending_Event_set].
      apply K_core_Event_set. apply (K_core_frame None w _ HK); cbn; auto.
      intros k. rewrite Hr, steps_of_cons_callback. reflexivity.
  - destruct (tasks w !! tid) as [t|] eqn:Ht; [|discriminate].
    destruct (t_waiting t) as [aw|] eqn:Haw; [|discriminate].
    destruct (answers aw o); [|discriminate].
    inversion H; subst w'. eapply K_wake; eauto.
  - destruct (tasks w !! tid) as [t|] eqn:Ht; [|discriminate].
    destruct (t_waiting t) as [aw|] eqn:Haw; [|discriminate].
    destruct (is_sleep aw); [|discriminate].
    inversion H; subst w'. eapply K_wake; eauto.
Qed.

Lemma reachable_K (w : world) : reachable w → K w.
Proof.
  induction 1 as [rpc interval script|w e w' _ IH Hstep].
  - apply K_initial.
  - eapply exec1_K; eauto.
Qed.

(** ** [stop] does not wait forever *)

Lemma finish_task_shape (k : task_id) (r : res unit) (w : world) (t : task) :
  tasks w !! k = Some t →
  tasks (finish_task k r w) = <[k := set_t_result r t]> (tasks w)
  ∧ ready (finish_task k r w)
    = ready w ++ map (λ cb, h_callback cb k) (t_callbacks t)
  ∧ exporter (finish_task k r w) = exporter w.
Proof. intros H. unfold finish_task. rewrite H. repeat split. Qed.

Lemma suspend_task_shape (k : task_id) (aw : awaitable) (c : coro) (w : world) (t : task) :
  tasks w !! k = Some t →
  ∃ t' extra,
    tasks (suspend_task k aw c w) = <[k := t']> (tasks w)
    ∧ ready (suspend_task k aw c w) = ready w ++ extra
    ∧ exporter (suspend_task k aw c w) = exporter w
    ∧ t_result t' = t_result t.
Proof.
  intros H. unfold suspend_task.
  destruct aw; try (rewrite (update_task_eq _ _ _ _ H); eexists; exists [];
                    rewrite app_nil_r; repeat split; fail).
  destruct (Qle_bool delay 0); rewrite (update_task_eq _ _ _ _ H).
  - eexists. eexists. repeat split.
  - eexists. exists []. rewrite app_nil_r. repeat split.
Qed.

(** A step of a tick changes nothing the loop depends on. *)
Lemma resume_tick_same_loop (p : option tick_pc) (inp : outcome) (w : world) :
  same_loop w (snd (resume (co_tick p) inp w)).
Proof.
  destruct p as [[]|]; cbn [resume]; unfold lift_coro, bind.
  - destruct inp as [[| | |root v]|e];
      [repeat split|repeat split|repeat split| |repeat split].
    cbn. unfold bind, self_network, get_self; cbn.
    destruct (network (exporter w)); repeat split.
  - destruct inp as [v|e]; [|repeat split]. cbn [enter].
    destruct (contract (exporter w)) as [c|] eqn:Hc.
    + rewrite (tick_begin_cached _ _ Hc). repeat split.
    + destruct (network (exporter w)) as [n|] eqn:Hn.
      * rewrite (tick_begin_first _ _ Hc Hn). repeat split.
      * rewrite (tick_begin_unresolved _ Hc Hn). repeat split.
Qed.

Lemma Event_set_frame (w : world) :
  let w1 := snd (Event_set w) in
  stopped (exporter w1) = true
  ∧ stopping (exporter w1) = stopping (exporter w)
  ∧ _runner_task (exporter w1) = _runner_task (exporter w)
  ∧ ∃ extra,
      ready w1 = ready w ++ extra
      ∧ ∀ j t, tasks w !! j = Some t →
          tasks w1 !! j = Some t
          ∨ (t_waiting t = Some aw_event_wait
             ∧ tasks w1 !! j = Some (set_t_waiting None t)
             ∧ In (h_step j (Ok (VBool true))) extra).
Proof.
  intros w1. destruct (Event_set_spec w) as (H1 & H2 & _ & _ & H3 & _).
  fold w1 in H1, H2, H3. split; [exact H1|]. split; [exact H2|]. split; [exact H3|].
  unfold w1, Event_set. destruct (stopped (exporter w)).
  - exists []. cbn. rewrite app_nil_r. split; [reflexivity|]. intros j t Ht. left. exact Ht.
  - pose proof (wake_waiters_lookup 0 (tasks w)) as Hl.
    pose proof (wake_waiters_wakes 0 (tasks w)) as Hw.
    destruct (wake_waiters 0 (tasks w)) as [ts hs]. cbn in *.
    exists hs. split; [reflexivity|]. intros j t Ht.
    rewrite Hl, Ht. cbn.
    destruct (is_event_wait (t_waiting t)) eqn:E; [|left; reflexivity].
    assert (Hwt : t_waiting t = Some aw_event_wait).
    { destruct (t_waiting t) as [[]|]; try discriminate. reflexivity. }
    right. split; [exact Hwt|]. split; [reflexivity|].
    apply (Hw j t Ht Hwt).
Qed.

(** One turn of the loop once [stopping] is set, on a handle that does
    not belong to the caller: the rest of the queue keeps its order,
    every other task is as it was unless the turn set the event and woke
    it, and a loop task that was stepped is done. *)
Lemma turn_frame (w : world) (h : handle) (rest : list handle) :
  K w → stopping (exporter w) = true → ready w = h :: rest →
  (∀ k inp t, h = h_step k inp → tasks w !! k = Some t →
              kind_of (t_coro t) ≠ k_main) →
  ∃ w1 extra,
    exec1 run_next w = Some w1
    ∧ ready w1 = rest ++ extra
    ∧ stopping (exporter w1) = true
    ∧ _runner_task (exporter w1) = _runner_task (exporter w)
    ∧ (∀ j t, (∀ inp, h ≠ h_step j inp) → tasks w !! j = Some t →
              woken_or_same w w1 j t)
    ∧ (∀ k inp t, h = h_step k inp → tasks w !! k = Some t →
         kind_of (t_coro t) = k_run →
         ∃ t1, tasks w1 !! k = Some t1 ∧ is_Some (t_result t1)
               ∧ kind_of (t_coro t1) = k_run)
    ∧ (∀ cb k, h = h_callback cb k → stopped (exporter w1) = true).
Proof.
  intros HKw Hs Hr Hnm. unfold exec1. rewrite Hr.
  destruct h as [k inp|cb k]; cbn [run_handle].
  2:{ destruct cb. cbn [run_callback]. unfold on_runner_task_done.
      destruct (Event_set_frame (with_ready rest w)) as (H1 & H2 & H3 & extra & H4 & H5).
      eexists. exists extra. split; [reflexivity|].
      split; [exact H4|]. split; [rewrite H2; exact Hs|]. split; [exact H3|].
      split; [|split; [discriminate|intros; exact H1]].
      intros j t _ Ht. destruct (H5 j t Ht) as [Hsame|(Ha & Hb & Hc)]; [left; exact Hsame|].
      right. split; [exact Ha|]. split; [exact H1|]. split; [exact Hb|].
      rewrite H4. apply in_or_app. right. exact Hc. }
  destruct (K_pop_step w k inp rest HKw Hr) as (t & Ht & Hres & Hwt & HR).
  assert (Hlt : k < length (tasks w)) by (eapply lookup_lt_Some; eauto).
  specialize (Hnm k inp t eq_refl Ht).
  unfold task_step. change (tasks (with_ready rest w)) with (tasks w).
  rewrite Ht, Hres. rewrite (update_task_eq k _ (with_ready rest w) t Ht).
  change (tasks (with_ready rest w)) with (tasks w).
  set (w1 := with_tasks _ _).
  set (inp' := if t_must_cancel t then Exc CancelledError else inp).
  assert (Ht1 : tasks w1 !! k = Some (set_t_must_cancel false t)).
  { unfold w1. cbn. apply list_lookup_insert_eq, Hlt. }
  assert (Hother : ∀ j, j ≠ k → tasks w1 !! j = tasks w !! j).
  { intros j Hj. unfold w1. cbn. apply list_lookup_insert_ne. auto. }
  assert (Hfin : ∀ (w2 : world) (r : res unit) (tk : task) (extra : list handle),
            tasks w2 !! k = Some tk →
            kind_of (t_coro tk) = kind_of (t_coro t) →
            ready w2 = rest ++ extra →
            stopping (exporter w2) = true →
            _runner_task (exporter w2) = _runner_task (exporter w) →
            (∀ j t0, j ≠ k → tasks w !! j = Some t0 →
               tasks w2 !! j = Some t0
               ∨ (t_waiting t0 = Some aw_event_wait
                  ∧ stopped (exporter w2) = true
                  ∧ tasks w2 !! j = Some (set_t_waiting None t0)
                  ∧ In (h_step j (Ok (VBool true))) (ready w2))) →
            ∃ w3 extra3,
              Some (finish_task k r w2) = Some w3
              ∧ ready w3 = rest ++ extra3
              ∧ stopping (exporter w3) = true
              ∧ _runner_task (exporter w3) = _runner_task (exporter w)
              ∧ (∀ j t0, (∀ inp0, h_step k inp ≠ h_step j inp0) →
                   tasks w !! j = Some t0 → woken_or_same w w3 j t0)
              ∧ (∀ k0 inp0 t0, h_step k inp = h_step k0 inp0 → tasks w !! k0 = Some t0 →
                   kind_of (t_coro t0) = k_run →
                   ∃ t1, tasks w3 !! k0 = Some t1 ∧ is_Some (t_result t1)
                         ∧ kind_of (t_coro t1) = k_run)
              ∧ (∀ cb k0, h_step k inp = h_callback cb k0 →
                   stopped (exporter w3) = true)).
  { intros w2 r tk extra Htk Hkk Hrd Hsg Hrn Hfr.
    destruct (finish_task_shape k r w2 tk Htk) as (F1 & F2 & F3).
    eexists. eexists. split; [reflexivity|].
    split; [rewrite F2, Hrd, <- app_assoc; reflexivity|].
    split; [rewrite F3; exact Hsg|]. split; [rewrite F3; exact Hrn|].
    split; [|split; [|discriminate]].
    - intros j t0 Hj Ht0.
      assert (Hjk : j ≠ k) by (intros ->; eapply Hj; reflexivity).
      unfold woken_or_same. rewrite F1, F2, F3.
      rewrite list_lookup_insert_ne by auto.
      destruct (Hfr j t0 Hjk Ht0) as [?|(? & ? & ? & ?)]; [left; assumption|].
      right. repeat split; auto. apply in_or_app. left. assumption.
    - intros k0 inp0 t0 E Ht0 Hk0. inversion E; subst k0 inp0.
      rewrite Ht in Ht0. inversion Ht0; subst t0.
      exists (set_t_result r tk). rewrite F1.
      rewrite list_lookup_insert_eq by (eapply lookup_lt_Some; eauto).
      split; [reflexivity|]. split; [eexists; reflexivity|]. cbn. congruence. }
  destruct (t_coro t) as [p|p|p] eqn:Hco; [| |elim Hnm; reflexivity].
  - (* the loop task *)
    assert (Hs1 : stopping (exporter w1) = true) by exact Hs.
    destruct inp' as [v|e].
    + rewrite (resume_run_stopping p (Ok v) w1 Hs1).
      destruct (Event_set_frame w1) as (H1 & H2 & H3 & extra & H4 & H5).
      assert (Hfr : ∀ j t0, j ≠ k → tasks w !! j = Some t0 →
                tasks (snd (Event_set w1)) !! j = Some t0
                ∨ (t_waiting t0 = Some aw_event_wait
                   ∧ stopped (exporter (snd (Event_set w1))) = true
                   ∧ tasks (snd (Event_set w1)) !! j = Some (set_t_waiting None t0)
                   ∧ In (h_step j (Ok (VBool true))) (ready (snd (Event_set w1))))).
      { intros j t0 Hj Ht0. rewrite <- (Hother j Hj) in Ht0.
        destruct (H5 j t0 Ht0) as [?|(? & ? & ?)]; [left; assumption|].
        right. repeat split; auto. rewrite H4. apply in_or_app. right. assumption. }
      assert (Hsg : stopping (exporter (snd (Event_set w1))) = true)
        by (rewrite H2; exact Hs1).
      destruct (H5 k _ Ht1) as [Hk|(_ & Hk & _)].
      * exact (Hfin _ (Val tt) _ extra Hk (f_equal kind_of Hco) H4 Hsg H3 Hfr).
      * exact (Hfin _ (Val tt) _ extra Hk (f_equal kind_of Hco) H4 Hsg H3 Hfr).
    + rewrite resume_run_exc.
      apply (Hfin w1 (Err e) _ [] Ht1 (f_equal kind_of Hco)); [| exact Hs1 | reflexivity |].
      * unfold w1. cbn. rewrite app_nil_r. reflexivity.
      * intros j t0 Hj Ht0. left. rewrite (Hother j Hj). exact Ht0.
  - (* a tick *)
    pose proof (resume_tick_same_loop p inp' w1) as (S1 & S2 & S3 & S4 & S5 & _).
    pose proof (resume_kind (co_tick p) inp' w1) as Hkind.
    destruct (resume (co_tick p) inp' w1) as [[[|aw c]|e] w2]; cbn [snd] in *.
    + assert (Ht2 : tasks w2 !! k = Some (set_t_must_cancel false t))
        by (rewrite S1; exact Ht1).
      apply (Hfin w2 _ _ [] Ht2 (f_equal kind_of Hco)).
      * rewrite S2. unfold w1. cbn. rewrite app_nil_r. reflexivity.
      * rewrite S3. exact Hs.
      * rewrite S5. reflexivity.
      * intros j t0 Hj Ht0. left. rewrite S1, (Hother j Hj). exact Ht0.
    + assert (Ht2 : tasks w2 !! k = Some (set_t_must_cancel false t))
        by (rewrite S1; exact Ht1).
      destruct (suspend_task_shape k aw c w2 _ Ht2) as (t' & extra & U1 & U2 & U3 & U4).
      eexists. exists extra. split; [reflexivity|].
      split; [rewrite U2, S2; reflexivity|].
      split; [rewrite U3, S3; exact Hs|]. split; [rewrite U3, S5; reflexivity|].
      split; [|split; [|discriminate]].
      * intros j t0 Hj Ht0.
        assert (Hjk : j ≠ k) by (intros ->; eapply Hj; reflexivity).
        left. rewrite U1, list_lookup_insert_ne by auto.
        rewrite S1, (Hother j Hjk). exact Ht0.
      * intros k0 inp0 t0 E Ht0 Hk0. inversion E; subst k0 inp0.
        rewrite Ht in Ht0. inversion Ht0; subst t0. rewrite Hco in Hk0. discriminate.
    + assert (Ht2 : tasks w2 !! k = Some (set_t_must_cancel false t))
        by (rewrite S1; exact Ht1).
      apply (Hfin w2 _ _ [] Ht2 (f_equal kind_of Hco)).
      * rewrite S2. unfold w1. cbn. rewrite app_nil_r. reflexivity.
      * rewrite S3. exact Hs.
      * rewrite S5. reflexivity.
      * intros j t0 Hj Ht0. left. rewrite S1, (Hother j Hj). exact Ht0.
Qed.

Lemma steps_of_In tid inp hs : In (h_step tid inp) hs → 1 ≤ steps_of tid hs.
Proof.
  intros H. apply in_split in H as (pre & post & ->).
  rewrite steps_of_app, steps_of_cons_step, Nat.eqb_refl. lia.
Qed.

Lemma steps_of_split tid hs :
  1 ≤ steps_of tid hs → ∃ pre inp post, hs = pre ++ h_step tid inp :: post.
Proof.
  induction hs as [|h hs IH]; intros H; [unfold steps_of in H; cbn in H; lia|].
  destruct h as [k inp|cb k].
  - rewrite steps_of_cons_step in H. destruct (Nat.eqb_spec k tid) as [->|Hne].
    + exists [], inp, hs. reflexivity.
    + destruct (IH H) as (pre & inp' & post & ->).
      exists (h_step k inp :: pre), inp', post. reflexivity.
  - rewrite steps_of_cons_callback in H.
    destruct (IH H) as (pre & inp' & post & ->).
    exists (h_callback cb k :: pre), inp', post. reflexivity.
Qed.

Lemma stop_blocked_facts (m : task_id) (t : task) (w : world) :
  stop_blocked m t w →
  stopped (exporter w) = false ∧ t_result t = None
  ∧ steps_of m (ready w) = 0 ∧ m = main_tid.
Proof.
  intros [[HK _] _ Ht Hw Hm].
  destruct (k_tasks _ _ HK m t Ht) as [A B C D E F G H].
  split; [apply D, Hw|].
  destruct (t_result t); [destruct A; congruence|].
  split; [reflexivity|]. split; [|apply H, Hm].
  unfold waiting_n in A. rewrite Hw in A. cbn in A. lia.
Qed.

(** One turn of the loop while [stop] is blocked. *)
Lemma blocked_turn (m : task_id) (t : task) (w : world) (h : handle) (rest : list handle) :
  stop_blocked m t w → ready w = h :: rest →
  ∃ w1 extra,
    exec1 run_next w = Some w1
    ∧ ready w1 = rest ++ extra
    ∧ _runner_task (exporter w1) = _runner_task (exporter w)
    ∧ (stop_woken m t w1
       ∨ (stop_blocked m t w1
          ∧ (∀ cb k, h ≠ h_callback cb k)
          ∧ ∀ k inp tk, h = h_step k inp → tasks w !! k = Some tk →
              kind_of (t_coro tk) = k_run →
              ∃ t1, tasks w1 !! k = Some t1 ∧ is_Some (t_result t1)
                    ∧ kind_of (t_coro t1) = k_run)).
Proof.
  intros Hb Hr. pose proof (stop_blocked_facts m t w Hb) as (Hsd & Hres & Hst & Hm0).
  destruct Hb as [HKw Hsg Ht Hw Hm].
  assert (Hhead : ∀ inp, h ≠ h_step m inp).
  { intros inp ->. rewrite Hr, steps_of_cons_step, Nat.eqb_refl in Hst. lia. }
  destruct (turn_frame w h rest HKw Hsg Hr) as (w1 & extra & E & Hrd & Hsg1 & Hrn & Hfr & Hdone & Hcb).
  { intros k inp tk -> Htk Hk. destruct HKw as [HK _].
    pose proof (to_main _ _ _ _ (k_tasks _ _ HK k tk Htk) Hk) as Hk0.
    eapply (Hhead inp). congruence. }
  exists w1, extra. split; [exact E|]. split; [exact Hrd|]. split; [exact Hrn|].
  pose proof (exec1_K run_next w w1 HKw E) as HK1.
  destruct (Hfr m t Hhead Ht) as [Hsame|(_ & Hs1 & Ht1 & Hin)].
  - right. assert (Hb1 : stop_blocked m t w1) by (split; assumption).
    split; [exact Hb1|]. split; [|exact Hdone].
    intros cb k ->. pose proof (Hcb cb k eq_refl) as Hs1.
    destruct (stop_blocked_facts m t w1 Hb1) as (Hf & _). congruence.
  - left. split; assumption.
Qed.

Lemma exec_run_next_S (n : nat) (w w1 w' : world) :
  exec1 run_next w = Some w1 → exec (repeat run_next n) w1 = Some w' →
  exec (repeat run_next (S n)) w = Some w'.
Proof. intros H1 H2. cbn [repeat exec]. rewrite H1. exact H2. Qed.

(** A done callback is in the queue: the event gets set. *)
Lemma callback_sets_event (m : task_id) (t : task) (pre : list handle) :
  ∀ (w : world) cb k post,
    stop_blocked m t w → ready w = pre ++ h_callback cb k :: post →
    ∃ n w', exec (repeat run_next n) w = Some w' ∧ stop_woken m t w'.
Proof.
  induction pre as [|h0 pre IH]; intros w cb k post Hb Hr; cbn in Hr.
  - destruct (blocked_turn m t w _ _ Hb Hr) as (w1 & extra & E & _ & _ & [Hw|(_ & Hc & _)]).
    + exists 1, w1. split; [apply (exec_run_next_S 0 w w1 w1 E); reflexivity|exact Hw].
    + elim (Hc cb k). reflexivity.
  - destruct (blocked_turn m t w _ _ Hb Hr) as (w1 & extra & E & Hrd & _ & [Hw|(Hb1 & _)]).
    + exists 1, w1. split; [apply (exec_run_next_S 0 w w1 w1 E); reflexivity|exact Hw].
    + rewrite <- app_assoc in Hrd. cbn in Hrd.
      destruct (IH w1 cb k (post ++ extra) Hb1 Hrd) as (n & w' & En & Hw').
      exists (S n), w'. split; [eapply exec_run_next_S; eauto|exact Hw'].
Qed.

(** The runner task is scheduled: it ends, and the event gets set. *)
Lemma runner_step_sets_event (m : task_id) (t : task) (r : task_id) (pre : list handle) :
  ∀ (w : world) inp post,
    stop_blocked m t w → _runner_task (exporter w) = Some r →
    ready w = pre ++ h_step r inp :: post →
    ∃ n w', exec (repeat run_next n) w = Some w' ∧ stop_woken m t w'.
Proof.
  assert (Hhead : ∀ (w : world) inp rest,
            stop_blocked m t w → _runner_task (exporter w) = Some r →
            ready w = h_step r inp :: rest →
            ∃ n w', exec (repeat run_next n) w = Some w' ∧ stop_woken m t w').
  { intros w inp rest Hb Hrn Hr.
    destruct (blocked_turn m t w _ _ Hb Hr) as (w1 & extra & E & Hrd & _ & [Hw|(Hb1 & _ & Hd)]).
    - exists 1, w1. split; [apply (exec_run_next_S 0 w w1 w1 E); reflexivity|exact Hw].
    - destruct Hb as [[HK _] _ _ _ _].
      destruct (k_runner _ _ HK r Hrn) as (tr & Htr & Hkr).
      destruct (Hd r inp tr eq_refl Htr Hkr) as (t1 & Ht1 & Hres1 & Hk1).
      pose proof (stop_blocked_facts m t w1 Hb1) as (Hsd1 & _).
      destruct Hb1 as [[HK1 HC1] ? ? ? ?].
      destruct (HC1 r t1 Ht1 Hk1 Hres1) as [Hs|Hin]; [congruence|].
      apply in_split in Hin as (pre1 & post1 & Hsplit).
      destruct (callback_sets_event m t pre1 w1 cb_on_runner_task_done r post1)
        as (n & w' & En & Hw');
        [split; auto; split; assumption|exact Hsplit|].
      exists (S n), w'. split; [eapply exec_run_next_S; eauto|exact Hw']. }
  induction pre as [|h0 pre IH]; intros w inp post Hb Hrn Hr; cbn in Hr.
  - eapply Hhead; eauto.
  - destruct h0 as [k inp0|cb k].
    + destruct (Nat.eq_dec k r) as [->|Hne]; [eapply Hhead; eauto|].
      destruct (blocked_turn m t w _ _ Hb Hr) as (w1 & extra & E & Hrd & Hrn1 & [Hw|(Hb1 & _)]).
      * exists 1, w1. split; [apply (exec_run_next_S 0 w w1 w1 E); reflexivity|exact Hw].
      * rewrite <- app_assoc in Hrd. cbn in Hrd. rewrite <- Hrn1 in Hrn.
        destruct (IH w1 inp (post ++ extra) Hb1 Hrn Hrd) as (n & w' & En & Hw').
        exists (S n), w'. split; [eapply exec_run_next_S; eauto|exact Hw'].
    + destruct (blocked_turn m t w _ _ Hb Hr) as (w1 & extra & E & _ & _ & [Hw|(_ & Hc & _)]).
      * exists 1, w1. split; [apply (exec_run_next_S 0 w w1 w1 E); reflexivity|exact Hw].
      * elim (Hc cb k). reflexivity.
Qed.

(** [stop] blocked in [stopped.wait()] is woken by the loop alone. *)
Lemma stop_blocked_woken (m : task_id) (t : task) (w : world) :
  stop_blocked m t w → is_Some (_runner_task (exporter w)) →
  ∃ n w', exec (repeat run_next n) w = Some w' ∧ stop_woken m t w'.
Proof.
  intros Hb [r Hrn]. pose proof (stop_blocked_facts m t w Hb) as (Hsd & _).
  pose proof Hb as [[HK HC] Hsg _ _ _].
  destruct (k_runner _ _ HK r Hrn) as (tr & Htr & Hkr).
  destruct (k_tasks _ _ HK r tr Htr) as [A B C D E F G H].
  destruct (t_result tr) eqn:Hres.
  - destruct (HC r tr Htr Hkr) as [Hs|Hin]; [rewrite Hres; eauto|congruence|].
    apply in_split in Hin as (pre & post & Hsplit).
    eapply callback_sets_event; eauto.
  - unfold waiting_n in A. rewrite (F Hsg Hrn) in A. cbn in A. destruct (steps_of_split r (ready w)) as (pre & inp & post & Hsplit); [lia|].
    eapply runner_step_sets_event; eauto.
Qed.

Lemma waits_for_stopped_main (c : coro) :
  waits_for_stopped c = true → kind_of c = k_main.
Proof. destruct c as [?|?|?]; try discriminate. reflexivity. Qed.

Lemma stopped_stays (w w1 : world) :
  exec1 run_next w = Some w1 → stopped (exporter w) = true →
  stopped (exporter w1) = true.
Proof.
  intros E.
  assert (He : exec [run_next] w = Some w1) by (cbn [exec]; rewrite E; reflexivity).
  pose proof (exec_state_closed (later_than (exporter w)) [run_next] w w1
                (later_than_closed _) He) as H.
  unfold on_state, later_than in H.
  destruct H as (_ & _ & _ & H & _); [repeat split; auto|exact H].
Qed.

Lemma resuming_turn (m : task_id) (t : task) (w : world) (h : handle) (rest : list handle) :
  stop_resuming m t w → ready w = h :: rest → (∀ inp, h ≠ h_step m inp) →
  ∃ w1 extra,
    exec1 run_next w = Some w1 ∧ ready w1 = rest ++ extra ∧ stop_resuming m t w1.
Proof.
  intros [HKw Hsg Hsd Ht Hw Hat] Hr Hhead.
  pose proof (waits_for_stopped_main _ Hat) as Hm.
  destruct (turn_frame w h rest HKw Hsg Hr) as (w1 & extra & E & Hrd & Hsg1 & _ & Hfr & _).
  { intros k inp tk -> Htk Hk. destruct HKw as [HK _].
    pose proof (to_main _ _ _ _ (k_tasks _ _ HK k tk Htk) Hk) as Hk0.
    pose proof (to_main _ _ _ _ (k_tasks _ _ HK m t Ht) Hm) as Hm0.
    eapply (Hhead inp). congruence. }
  exists w1, extra. split; [exact E|]. split; [exact Hrd|].
  destruct (Hfr m t Hhead Ht) as [Hsame|(Hc & _)]; [|congruence].
  split; auto.
  - eapply exec1_K; eauto.
  - eapply stopped_stays; eauto.
Qed.

(** The caller's turn: [stop] goes on to [await self.session.close()]. *)
Lemma resuming_step (m : task_id) (t : task) (w : world) (v : pyvalue) (rest : list handle) :
  stop_resuming m t w → ready w = h_step m (Ok v) :: rest →
  ∃ w1 t',
    exec1 run_next w = Some w1
    ∧ stopped (exporter w1) = true
    ∧ tasks w1 !! m = Some t'
    ∧ closing_session (t_coro t') = true
    ∧ t_waiting t' = Some aw_session_close
    ∧ t_result t' = None.
Proof.
  intros [HKw Hsg Hsd Ht Hw Hat] Hr.
  pose proof (waits_for_stopped_main _ Hat) as Hm.
  destruct (K_pop_step w m (Ok v) rest HKw Hr) as (t0 & Ht0 & Hres & _ & _).
  rewrite Ht in Ht0. inversion Ht0; subst t0; clear Ht0.
  assert (Hmc : t_must_cancel t = false).
  { destruct HKw as [HK _].
    destruct (t_must_cancel t) eqn:E; [|reflexivity].
    pose proof (to_must_cancel _ _ _ _ (k_tasks _ _ HK m t Ht) E). congruence. }
  assert (Hlt : m < length (tasks w)) by (eapply lookup_lt_Some; eauto).
  unfold exec1. rewrite Hr. cbn [run_handle]. unfold task_step.
  change (tasks (with_ready rest w)) with (tasks w).
  rewrite Ht, Hres, Hmc. rewrite (update_task_eq m _ (with_ready rest w) t Ht).
  change (tasks (with_ready rest w)) with (tasks w).
  remember (with_tasks (<[m := set_t_must_cancel false t]> (tasks w))
              (with_ready rest w)) as w1 eqn:Hw1.
  assert (Ht1 : tasks w1 !! m = Some (set_t_must_cancel false t)).
  { rewrite Hw1. cbn. apply list_lookup_insert_eq, Hlt. }
  assert (Hsd1 : stopped (exporter w1) = true) by (rewrite Hw1; exact Hsd).
  assert (Hlt1 : m < length (tasks w1)) by (eapply lookup_lt_Some; eauto).
  destruct (t_coro t) as [?|?|[[?|?|[]|?|[[]]|]|]] eqn:Hco; try discriminate.
  - cbn. unfold update_task. cbn. rewrite Ht1.
    eexists. eexists. split; [reflexivity|]. cbn.
    rewrite list_lookup_insert_eq by exact Hlt1.
    repeat split; auto.
  - cbn. unfold update_task. cbn. rewrite Ht1.
    eexists. eexists. split; [reflexivity|]. cbn.
    rewrite list_lookup_insert_eq by exact Hlt1.
    repeat split; auto.
Qed.

Lemma woken_reaches_close (m : task_id) (t : task) (pre : list handle) :
  ∀ (w : world) v post,
    stop_resuming m t w → ready w = pre ++ h_step m (Ok v) :: post →
    ∃ n w' t',
      exec (repeat run_next n) w = Some w'
      ∧ stopped (exporter w') = true
      ∧ tasks w' !! m = Some t'
      ∧ closing_session (t_coro t') = true
      ∧ t_waiting t' = Some aw_session_close
      ∧ t_result t' = None.
Proof.
  induction pre as [|h0 pre IH]; intros w v post Hs Hr; cbn in Hr.
  - destruct (resuming_step m t w v post Hs Hr) as (w1 & t' & E & H).
    exists 1, w1, t'. split; [apply (exec_run_next_S 0 w w1 w1 E); reflexivity|exact H].
  - assert (Hhead : ∀ inp, h0 ≠ h_step m inp).
    { intros inp ->. pose proof Hs as [[HK _] _ _ Ht Hw _].
      pose proof (to_wakeup _ _ _ _ (k_tasks _ _ HK m t Ht)) as A.
      rewrite Hr in A.
      change (h_step m inp :: pre ++ h_step m (Ok v) :: post)
        with ([h_step m inp] ++ pre ++ [h_step m (Ok v)] ++ post) in A.
      rewrite !steps_of_app, !steps_of_one, Nat.eqb_refl in A.
      unfold due in A. destruct (t_result t); [destruct A; lia|lia]. }
    destruct (resuming_turn m t w h0 _ Hs Hr Hhead) as (w1 & extra & E & Hrd & Hs1).
    rewrite <- app_assoc in Hrd. cbn in Hrd.
    destruct (IH w1 v (post ++ extra) Hs1 Hrd) as (n & w' & t' & En & H).
    exists (S n), w', t'. split; [eapply exec_run_next_S; eauto|exact H].
Qed.

Lemma exec_repeat_add (n1 n2 : nat) (w w1 w2 : world) :
  exec (repeat run_next n1) w = Some w1 → exec (repeat run_next n2) w1 = Some w2 →
  exec (repeat run_next (n1 + n2)) w = Some w2.
Proof. intros H1 H2. rewrite repeat_app, exec_app, H1. exact H2. Qed.

Lemma stop_waiting_reachable : reachable stop_waiting.
Proof.
  apply (exec_reachable (take 5 run_start_stop)
           (initial_world "rpc" 30000 [op_start; op_wait; op_stop])).
  - constructor.
  - vm_compute. reflexivity.
Qed.

(** X8: [stop] cannot hang in [await self.stopped.wait()].  From every
    reachable state in which a [stop] is blocked there, a bounded number
    of turns of the event loop - no timer has to fire and no request has
    to complete - sets the [stopped] event and brings that [stop] to
    [await self.session.close()]: the cancelled loop task ends at its
    next step and its done callback, or line 190, sets the event. *)
Theorem X8_stop_does_not_wait_forever (w : world) (m : task_id) (t : task) :
  reachable w →
  tasks w !! m = Some t → waits_for_stopped (t_coro t) = true →
  t_waiting t = Some aw_event_wait →
  ∃ n w' t',
    exec (repeat run_next n) w = Some w'
    ∧ stopped (exporter w') = true
    ∧ tasks w' !! m = Some t'
    ∧ closing_session (t_coro t') = true
    ∧ t_waiting t' = Some aw_session_close
    ∧ t_result t' = None.
Proof.
  intros Hr Ht Hat Hw.
  pose proof (reachable_K w Hr) as HKw.
  destruct (reachable_Inv w Hr) as [(_ & _ & Hts & _) _].
  assert (Hres : t_result t = None).
  { destruct HKw as [HK _].
    pose proof (to_wakeup _ _ _ _ (k_tasks _ _ HK m t Ht)) as A.
    destruct (t_result t); [destruct A; congruence|reflexivity]. }
  destruct (Hts m t Ht Hres) as [Hl _].
  assert (Hstop : stopping (exporter w) = true ∧ is_Some (_runner_task (exporter w))).
  { destruct (t_coro t) as [?|?|[[?|?|[]|?|[[]]|]|]]; try discriminate;
      destruct Hl as (? & ? & _); auto. }
  destruct Hstop as [Hsg Hrn].
  assert (Hb : stop_blocked m t w).
  { split; auto. apply waits_for_stopped_main, Hat. }
  destruct (stop_blocked_woken m t w Hb Hrn) as (n1 & w1 & E1 & [HK1 Hsg1 Hsd1 Ht1 Hin]).
  apply in_split in Hin as (pre & post & Hsplit).
  destruct (woken_reaches_close m (set_t_waiting None t) pre w1 (VBool true) post)
    as (n2 & w2 & t' & E2 & H); [split; auto|exact Hsplit|].
  exists (n1 + n2), w2, t'. split; [eapply exec_repeat_add; eauto|exact H].
Qed.

Lemma X8_stop_does_not_wait_forever_witness :
  ∃ n w' t',
    exec (repeat run_next n) stop_waiting = Some w'
    ∧ stopped (exporter w') = true
    ∧ tasks w' !! main_tid = Some t'
    ∧ closing_session (t_coro t') = true
    ∧ t_waiting t' = Some aw_session_close
    ∧ t_result t' = None.
Proof.
  apply (X8_stop_does_not_wait_forever stop_waiting main_tid
           {| t_coro := co_main (Some (in_stop stop_L161));
              t_waiting := Some aw_event_wait;
              t_must_cancel := false; t_result := None; t_callbacks := [] |}).
  - exact stop_waiting_reachable.
  - vm_compute. reflexivity.
  - reflexivity.
  - reflexivity.
Defined.

(** X9: the event loop never loses or doubles a wake-up.  In every
    reachable state a task that is not done is either scheduled exactly
    once or blocked on exactly one future, never both; a task that is
    done is neither; and whenever the ready queue is not empty the next
    turn of the loop can be taken: the handle at its head belongs to a
    task that exists and is not done. *)
Theorem X9_one_wakeup_per_live_task (w : world) :
  reachable w →
  (∀ tid t, tasks w !! tid = Some t →
     match t_result t with
     | None => steps_of tid (ready w) + waiting_n t = 1
     | Some _ => steps_of tid (ready w) = 0 ∧ t_waiting t = None
     end)
  ∧ (∀ h rest, ready w = h :: rest → ∃ w', exec1 run_next w = Some w').
Proof.
  intros Hr. pose proof (reachable_K w Hr) as HKw. split.
  - intros tid t Ht. destruct HKw as [HK _].
    exact (to_wakeup _ _ _ _ (k_tasks _ _ HK tid t Ht)).
  - intros h rest Hrd. unfold exec1. rewrite Hrd.
    destruct h as [tid inp|cb tid]; cbn [run_handle].
    + destruct (task_step_K w tid inp rest HKw Hrd) as (w' & E & _). eauto.
    + eauto.
Qed.

Lemma X9_one_wakeup_per_live_task_witness :
  (∀ tid t, tasks stop_waiting !! tid = Some t →
     match t_result t with
     | None => steps_of tid (ready stop_waiting) + waiting_n t = 1
     | Some _ => steps_of tid (ready stop_waiting) = 0 ∧ t_waiting t = None
     end)
  ∧ (∀ h rest, ready stop_waiting = h :: rest →
       ∃ w', exec1 run_next stop_waiting = Some w').
Proof. exact (X9_one_wakeup_per_live_task stop_waiting stop_waiting_reachable). Defined.

(** X10: what blocked tasks wait for.  In every reachable state a task
    blocked on a future is not done and waits for what the line it is
    suspended at awaits; only the loop task ever sleeps, and it sleeps
    only on [asyncio.sleep]; a task blocked in [stopped.wait()] exists
    only while the event is not set; and only a loop task is ever
    cancelled. *)
Theorem X10_blocked_tasks (w : world) (tid : task_id) (t : task) :
  reachable w → tasks w !! tid = Some t →
  (∀ aw, t_waiting t = Some aw →
     t_result t = None
     ∧ awaits (t_coro t) aw
     ∧ (is_sleep aw = true ↔ kind_of (t_coro t) = k_run)
     ∧ (aw = aw_event_wait → stopped (exporter w) = false))
  ∧ (t_must_cancel t = true → kind_of (t_coro t) = k_run)
  ∧ (kind_of (t_coro t) = k_main → tid = main_tid).
Proof.
  intros Hr Ht. destruct (reachable_K w Hr) as [HK _].
  destruct (k_tasks _ _ HK tid t Ht) as [A B C D E F G H].
  split; [|split; [exact G|exact H]].
  intros aw Hw. specialize (E aw Hw).
  split; [destruct (t_result t); [destruct A; congruence|reflexivity]|].
  split; [exact E|]. split; [|intros ->; apply D, Hw].
  destruct (t_coro t) as [[p|]|[p|]|[[?|?|[]|[]|[[]]|]|]]; cbn in E |- *;
    try contradiction; subst; split; intros X; try discriminate; try reflexivity;
    try exact E; destruct aw; discriminate.
Qed.

Lemma X10_blocked_tasks_witness :
  (∀ aw, Some aw_event_wait = Some aw →
     @None (res unit) = None
     ∧ awaits (co_main (Some (in_stop stop_L161))) aw
     ∧ (is_sleep aw = true ↔ k_main = k_run)
     ∧ (aw = aw_event_wait → stopped (exporter stop_waiting) = false))
  ∧ (false = true → k_main = k_run)
  ∧ (k_main = k_main → main_tid = main_tid).
Proof.
  apply (X10_blocked_tasks stop_waiting main_tid
           {| t_coro := co_main (Some (in_stop stop_L161));
              t_waiting := Some aw_event_wait;
              t_must_cancel := false; t_result := None; t_callbacks := [] |}).
  - exact stop_waiting_reachable.
  - vm_compute. reflexivity.
Defined.

(** ** One tick per interval *)

Lemma armed_of_app ks hs1 hs2 :
  armed_of ks (hs1 ++ hs2) = armed_of ks hs1 + armed_of ks hs2.
Proof. unfold armed_of. rewrite List.filter_app, length_app. reflexivity. Qed.

Lemma armed_of_cons ks h hs :
  armed_of ks (h :: hs) = (if armed_handle ks h then 1 else 0) + armed_of ks hs.
Proof. unfold armed_of. cbn. destruct (armed_handle ks h); reflexivity. Qed.

Lemma armed_of_nil ks : armed_of ks [] = 0.
Proof. reflexivity. Qed.

Lemma armed_of_callbacks ks k (cbs : list callback) :
  armed_of ks (map (λ cb, h_callback cb k) cbs) = 0.
Proof.
  induction cbs as [|cb cbs IH]; [reflexivity|].
  cbn [map]. rewrite armed_of_cons. cbn. exact IH.
Qed.

Lemma armed_of_grow ks κ hs :
  in_range (length ks) hs → armed_of (ks ++ [κ]) hs = armed_of ks hs.
Proof.
  intros H. induction hs as [|h hs IH]; [reflexivity|].
  rewrite !armed_of_cons, IH by (intros k inp Hin; apply (H k inp); right; exact Hin).
  f_equal. destruct h as [k [v|e]|cb k]; cbn; try reflexivity.
  rewrite lookup_app_l by (apply (H k (Ok v)); left; reflexivity). reflexivity.
Qed.

Lemma K_core_in_range cur (w : world) : K_core cur w → in_range (length (tasks w)) (ready w).
Proof.
  intros HK k inp Hin. destruct (Nat.lt_ge_cases k (length (tasks w))) as [?|Hge]; [assumption|].
  pose proof (k_fresh _ _ HK k Hge) as H0.
  pose proof (steps_of_zero_not_in k (ready w) inp H0). contradiction.
Qed.

Lemma kinds_length w : length (kinds w) = length (tasks w).
Proof. unfold kinds. apply length_map. Qed.

Lemma kinds_insert_same (ts : list task) k x x' :
  ts !! k = Some x → kind_of (t_coro x') = kind_of (t_coro x) →
  map (λ t, kind_of (t_coro t)) (<[k := x']> ts) = map (λ t, kind_of (t_coro t)) ts.
Proof.
  intros Hx Hk. rewrite list_fmap_insert. rewrite Hk.
  apply list_insert_id. rewrite list_lookup_fmap, Hx. reflexivity.
Qed.

Lemma kinds_lookup w k t : tasks w !! k = Some t → kinds w !! k = Some (kind_of (t_coro t)).
Proof. intros H. unfold kinds. rewrite list_lookup_fmap, H. reflexivity. Qed.

Lemma count_snoc κ ks k :
  length (List.filter (is_kind κ) (ks ++ [k]))
  = length (List.filter (is_kind κ) ks) + (if is_kind κ k then 1 else 0).
Proof. rewrite List.filter_app, length_app. cbn. destruct (is_kind κ k); reflexivity. Qed.

Lemma armed_of_zero ks hs :
  (∀ h, In h hs → armed_handle ks h = false) → armed_of ks hs = 0.
Proof.
  induction hs as [|h hs IH]; intros H; [reflexivity|].
  rewrite armed_of_cons, (H h) by (left; reflexivity).
  apply IH. intros h' Hin. apply H. right. exact Hin.
Qed.

Lemma rate_same (a b : nat) (w w' : world) :
  kinds w' = kinds w → armed_of (kinds w) (ready w') ≤ armed_of (kinds w) (ready w) →
  rate_le a b w → rate_le a b w'.
Proof.
  unfold rate_le, ticks, loops, armed. intros -> H. lia.
Qed.

Lemma rate_spawn (a b : nat) (w w' : world) (κ : kind) :
  kinds w' = kinds w ++ [κ] →
  ready w' = ready w ++ [h_step (length (tasks w)) (Ok VNone)] →
  in_range (length (tasks w)) (ready w) →
  match κ with
  | k_run => rate_le a b w
  | k_tick => rate_le (S a) b w
  | k_main => False
  end →
  rate_le a b w'.
Proof.
  unfold rate_le, ticks, loops, armed. intros Hk Hr Hin H.
  rewrite Hk, Hr, !count_snoc, armed_of_app, armed_of_cons, armed_of_nil.
  rewrite armed_of_grow by (rewrite kinds_length; exact Hin).
  cbn [armed_handle]. rewrite lookup_app_r by (rewrite kinds_length; lia).
  rewrite kinds_length, Nat.sub_diag. cbn [lookup list_lookup].
  destruct κ; cbn in *; try contradiction; lia.
Qed.

Lemma kinds_wake_waiters (i : task_id) (ts : list task) :
  map (λ t, kind_of (t_coro t)) (fst (wake_waiters i ts))
  = map (λ t, kind_of (t_coro t)) ts.
Proof.
  revert i. induction ts as [|x ts IH]; intros i; [reflexivity|].
  cbn [wake_waiters]. specialize (IH (S i)).
  destruct (wake_waiters (S i) ts) as [ts' hs]. cbn in IH.
  destruct (is_event_wait (t_waiting x)); cbn; rewrite IH; reflexivity.
Qed.

Lemma wake_waiters_handles (i : task_id) (ts : list task) (h : handle) :
  In h (snd (wake_waiters i ts)) →
  ∃ j t, h = h_step (i + j) (Ok (VBool true)) ∧ ts !! j = Some t
         ∧ t_waiting t = Some aw_event_wait.
Proof.
  revert i. induction ts as [|x ts IH]; intros i; [intros []|].
  cbn [wake_waiters]. specialize (IH (S i)).
  destruct (wake_waiters (S i) ts) as [ts' hs]. cbn in IH.
  assert (Hrec : In h hs → ∃ j t, h = h_step (i + j) (Ok (VBool true))
                                  ∧ (x :: ts) !! j = Some t
                                  ∧ t_waiting t = Some aw_event_wait).
  { intros Hin. destruct (IH Hin) as (j & t & -> & Ht & Hw).
    exists (S j), t. split; [f_equal; lia|]. auto. }
  destruct (is_event_wait (t_waiting x)) eqn:E; cbn; [|exact Hrec].
  intros [<-|Hin]; [|exact (Hrec Hin)].
  exists 0, x. split; [f_equal; lia|]. split; [reflexivity|].
  destruct (t_waiting x) as [[]|]; try discriminate. reflexivity.
Qed.

(** [Event.set()] arms nothing: the tasks it wakes belong to the
    caller. *)
Lemma Event_set_armed (cur : option task_id) (w : world) :
  K_core cur w →
  kinds (snd (Event_set w)) = kinds w
  ∧ armed (snd (Event_set w)) = armed w.
Proof.
  intros HK.
  destruct (Event_set_view w) as (_ & _ & _ & _ & [->|(_ & Hts & Hrd)]); [auto|].
  assert (Hk : kinds (snd (Event_set w)) = kinds w).
  { unfold kinds. rewrite Hts. apply kinds_wake_waiters. }
  split; [exact Hk|]. unfold armed. rewrite Hk, Hrd, armed_of_app.
  rewrite (armed_of_zero _ (snd (wake_waiters 0 (tasks w)))); [lia|].
  intros h Hin. destruct (wake_waiters_handles 0 (tasks w) h Hin) as (j & t & -> & Ht & Hw).
  cbn. rewrite (kinds_lookup w j t Ht).
  pose proof (to_awaits _ _ _ _ (k_tasks _ _ HK j t Ht) _ Hw) as Ha.
  destruct (t_coro t) as [[p|]|[p|]|[p|]]; cbn in Ha |- *; try contradiction;
    try discriminate; reflexivity.
Qed.

(** With a positive interval a suspending task always blocks. *)
Lemma suspend_task_blocks (tid : task_id) (aw : awaitable) (c : coro) (w : world) :
  suspended_ok c aw w → (0 < interval_ms (exporter w))%Z →
  suspend_task tid aw c w
  = update_task tid (λ t, set_t_waiting (Some aw) (set_t_coro c t)) w.
Proof.
  intros (_ & _ & Hs) Hi. destruct aw; try reflexivity. cbn [suspend_task].
  destruct (Hs eq_refl) as [_ E]. inversion E; subst delay.
  rewrite (poll_delay_positive w Hi). reflexivity.
Qed.

(** What the caller's code and [tick] do between two awaits keeps the
    bound. *)
Lemma rate_blocks (tid : task_id) (κ : kind) (a b : nat) :
  κ ≠ k_run →
  block_closed (λ w, (K_running tid w ∧ has_kind tid κ w) ∧ rate_le a b w).
Proof.
  intros Hκ. pose proof (K_running_blocks tid κ Hκ) as HB. split.
  - intros w w' Hs [HK Hr]. split; [apply (bc_neutral _ HB w w' Hs HK)|].
    destruct Hs as (Ht & Hrd & _).
    apply (rate_same a b w w'); [unfold kinds; rewrite Ht; reflexivity| |exact Hr].
    rewrite Hrd. lia.
  - intros w [HK Hr]. split; [apply (bc_start _ HB w HK)|].
    destruct (start_eq w) as (Ht & Hrd & _).
    apply (rate_spawn a b w _ k_run); [|exact Hrd| |exact Hr].
    + unfold kinds. rewrite Ht, map_app. reflexivity.
    + destruct HK as [[HK _] _]. apply (K_core_in_range _ w HK).
  - intros w r Hrn [HK Hr]. split; [apply (bc_stop _ HB w r Hrn HK)|].
    destruct HK as [[HK _] _].
    destruct (k_runner _ _ HK r Hrn) as (x & Hx & Hkx).
    destruct (task_cancel_eq r (stop_enter w) x Hx) as [_ Hcase].
    change (ready (stop_enter w)) with (ready w) in Hcase.
    change (tasks (stop_enter w)) with (tasks w) in Hcase.
    apply (rate_same a b w); [| |exact Hr].
    + unfold kinds. destruct (t_result x); [destruct Hcase as [-> _]; reflexivity|].
      destruct (t_waiting x); destruct Hcase as [-> _];
        apply (kinds_insert_same _ _ x); auto.
    + destruct (t_result x); [destruct Hcase as [_ ->]; lia|].
      destruct (t_waiting x); destruct Hcase as [_ ->]; [|lia].
      rewrite armed_of_app, armed_of_cons, armed_of_nil. cbn. lia.
  - intros w Hrn [HK Hr]. split; [apply (bc_stop_unstarted _ HB w Hrn HK)|].
    apply (rate_same a b w); [reflexivity|cbn; lia|exact Hr].
Qed.

Lemma interval_blocks (i : Z) : block_closed (λ w, interval_ms (exporter w) = i).
Proof.
  split.
  - intros w w' (_ & _ & _ & _ & _ & H) Hi. congruence.
  - intros w Hi. destruct (start_eq w) as (_ & _ & ->). exact Hi.
  - intros w t _ Hi. destruct (task_cancel_view t (stop_enter w)) as [(-> & _) _].
    exact Hi.
  - intros w _ Hi. exact Hi.
Qed.

Lemma block_closed_and (P Q : world → Prop) :
  block_closed P → block_closed Q → block_closed (λ w, P w ∧ Q w).
Proof.
  intros HP HQ. split.
  - intros w w' Hs [? ?]. split; eapply bc_neutral; eauto.
  - intros w [? ?]. split; apply bc_start; assumption.
  - intros w t Hr [? ?]. split; apply bc_stop; assumption.
  - intros w Hr [? ?]. split; apply bc_stop_unstarted; assumption.
Qed.

Lemma rate_update_task (a b : nat) (w : world) (k : task_id) (x : task) (f : task → task) :
  tasks w !! k = Some x → kind_of (t_coro (f x)) = kind_of (t_coro x) →
  rate_le a b w → rate_le a b (update_task k f w).
Proof.
  intros Hx Hk. rewrite (update_task_eq _ _ _ _ Hx).
  apply rate_same; [|cbn; lia].
  unfold kinds. cbn. apply (kinds_insert_same _ _ x); auto.
Qed.

Lemma rate_finish_task (a b : nat) (w : world) (k : task_id) (r : res unit) :
  rate_le a b w → rate_le a b (finish_task k r w).
Proof.
  unfold finish_task. destruct (tasks w !! k) as [x|] eqn:Hx; [|auto].
  apply rate_same.
  - unfold kinds. cbn. apply (kinds_insert_same _ _ x); auto.
  - cbn. rewrite armed_of_app, armed_of_callbacks. lia.
Qed.

Lemma rate_weaken (a b : nat) (w : world) : rate_le (S a) b w → rate_le a b w.
Proof. unfold rate_le. lia. Qed.

(** A step of a task keeps the bound: a loop task that spawns a tick has
    used up the step that resumed it, and blocks on its timer. *)
Lemma task_step_rate (w w' : world) (k : task_id) (inp : outcome) (rest : list handle)
    (a b : nat) :
  K w → (0 < interval_ms (exporter w))%Z →
  ready w = h_step k inp :: rest →
  task_step k inp (with_ready rest w) = Some w' →
  rate_le a b w → rate_le a b w'.
Proof.
  intros HKw Hi Hr Hstep Hrate.
  destruct (K_pop_step w k inp rest HKw Hr) as (t & Ht & Hres & Hwt & HR).
  assert (Hlt : k < length (tasks w)) by (eapply lookup_lt_Some; eauto).
  unfold task_step in Hstep. change (tasks (with_ready rest w)) with (tasks w) in Hstep.
  rewrite Ht, Hres in Hstep.
  rewrite (update_task_eq k _ (with_ready rest w) t Ht) in Hstep.
  change (tasks (with_ready rest w)) with (tasks w) in Hstep.
  remember (with_tasks (<[k := set_t_must_cancel false t]> (tasks w))
              (with_ready rest w)) as w1 eqn:Hw1.
  assert (Ht1 : tasks w1 !! k = Some (set_t_must_cancel false t)).
  { rewrite Hw1. cbn. apply list_lookup_insert_eq, Hlt. }
  assert (Hk1 : kinds w1 = kinds w).
  { rewrite Hw1. unfold kinds. cbn. apply (kinds_insert_same _ _ t); auto. }
  assert (Hr1 : ready w1 = rest) by (rewrite Hw1; reflexivity).
  assert (Hi1 : (0 < interval_ms (exporter w1))%Z) by (rewrite Hw1; exact Hi).
  assert (Harmed : armed w = (if armed_handle (kinds w) (h_step k inp) then 1 else 0)
                             + armed w1).
  { unfold armed. rewrite Hk1, Hr1, Hr, armed_of_cons. reflexivity. }
  assert (Hrate1 : rate_le a b w1).
  { unfold rate_le, ticks, loops in *. rewrite Hk1. fold (armed w1). lia. }
  assert (Hkind1 : has_kind k (kind_of (t_coro t)) w1).
  { exists (set_t_must_cancel false t). split; [exact Ht1|reflexivity]. }
  try rewrite <- Hw1 in HR.
  set (inp' := if t_must_cancel t then Exc CancelledError else inp) in *.
  destruct (kind_of (t_coro t)) eqn:Hkt.
  - (* the loop task *)
    destruct (t_coro t) as [p| |] eqn:Hco; try discriminate.
    destruct inp' as [v|e] eqn:Hinp.
    + assert (Hrate1' : rate_le (S a) b w1).
      { assert (Harm : armed_handle (kinds w) (h_step k inp) = true).
        { unfold inp' in Hinp. destruct (t_must_cancel t); [discriminate|]. subst inp.
          cbn. rewrite (kinds_lookup w k t Ht), Hco. reflexivity. }
        rewrite Harm in Harmed.
        unfold rate_le, ticks, loops in *. rewrite Hk1. fold (armed w1). lia. }
      destruct (stopping (exporter w1)) eqn:Hs.
      * rewrite (resume_run_stopping p (Ok v) w1 Hs) in Hstep.
        inversion Hstep; subst w'. apply rate_finish_task, rate_weaken.
        destruct HR as [HK1 _]. destruct (Event_set_armed _ w1 HK1) as [E1 E2].
        unfold rate_le, ticks, loops in *. rewrite E1, E2. exact Hrate1'.
      * assert (Hrate2 : rate_le a b (snd (create_task (co_tick None) w1))).
        { apply (rate_spawn a b w1 _ k_tick); [| | |exact Hrate1'].
          - unfold kinds. cbn. rewrite map_app. reflexivity.
          - reflexivity.
          - destruct HR as [HK1 _]. apply (K_core_in_range _ w1 HK1). }
        destruct (delay_fits_dec w1) as [Hfit|Hbig].
        2:{ rewrite (resume_run_overflow p v w1 Hs Hbig) in Hstep.
            injection Hstep as <-. apply rate_finish_task, Hrate2. }
        rewrite (resume_run_running p v w1 Hs Hfit) in Hstep.
        rewrite suspend_task_blocks in Hstep;
          [|split; [reflexivity|]; split; [discriminate|];
            intros _; split; [exact Hs|reflexivity]
           |exact Hi1].
        injection Hstep as <-.
        set (w2 := snd (create_task (co_tick None) w1)) in *.
        apply (rate_update_task a b _ k (set_t_must_cancel false t)).
        -- cbn. apply lookup_app_l_Some, Ht1.
        -- cbn. rewrite Hco. reflexivity.
        -- eapply rate_same; [| |exact Hrate2]; [reflexivity|cbn; lia].
    + rewrite resume_run_exc in Hstep. inversion Hstep; subst w'.
      apply rate_finish_task, Hrate1.
  - (* a tick *)
    pose proof (blk_resume _ (block_closed_and _ _ (rate_blocks k k_tick a b ltac:(discriminate))
                                (interval_blocks (interval_ms (exporter w1))))
                  (t_coro t) inp' ltac:(rewrite Hkt; discriminate) w1
                  (conj (conj (conj HR Hkind1) Hrate1) eq_refl))
      as [[[HR2 (t2 & Ht2 & Hk2)] Hrate2] Hi2].
    pose proof (resume_suspended_ok (t_coro t) inp' w1) as Hsus.
    pose proof (resume_kind (t_coro t) inp' w1) as Hkind.
    destruct (resume (t_coro t) inp' w1) as [[[|aw c]|e] w2]; cbn [snd] in *;
      inversion Hstep; subst w'.
    + apply rate_finish_task, Hrate2.
    + rewrite suspend_task_blocks; [|exact Hsus|rewrite Hi2; exact Hi1].
      apply (rate_update_task a b w2 k t2 _ Ht2); [|exact Hrate2].
      cbn. rewrite Hk2, <- Hkt. eapply Hkind. reflexivity.
    + apply rate_finish_task, Hrate2.
  - (* the caller *)
    pose proof (blk_resume _ (block_closed_and _ _ (rate_blocks k k_main a b ltac:(discriminate))
                                (interval_blocks (interval_ms (exporter w1))))
                  (t_coro t) inp' ltac:(rewrite Hkt; discriminate) w1
                  (conj (conj (conj HR Hkind1) Hrate1) eq_refl))
      as [[[HR2 (t2 & Ht2 & Hk2)] Hrate2] Hi2].
    pose proof (resume_suspended_ok (t_coro t) inp' w1) as Hsus.
    pose proof (resume_kind (t_coro t) inp' w1) as Hkind.
    destruct (resume (t_coro t) inp' w1) as [[[|aw c]|e] w2]; cbn [snd] in *;
      inversion Hstep; subst w'.
    + apply rate_finish_task, Hrate2.
    + rewrite suspend_task_blocks; [|exact Hsus|rewrite Hi2; exact Hi1].
      apply (rate_update_task a b w2 k t2 _ Ht2); [|exact Hrate2].
      cbn. rewrite Hk2, <- Hkt. eapply Hkind. reflexivity.
    + apply rate_finish_task, Hrate2.
Qed.

Lemma rate_budget (a b b' : nat) (w : world) : b ≤ b' → rate_le a b w → rate_le a b' w.
Proof. unfold rate_le. lia. Qed.

Lemma rate_wake (a b : nat) (w : world) (tid : task_id) (o : outcome) (t : task) :
  tasks w !! tid = Some t →
  rate_le a b w →
  rate_le a (b + (if armed_handle (kinds w) (h_step tid o) then 1 else 0)) (wake tid o w).
Proof.
  intros Ht. unfold wake. rewrite (update_task_eq _ _ _ _ Ht).
  unfold rate_le, ticks, loops, armed, kinds. cbn.
  rewrite (kinds_insert_same _ _ t) by auto.
  rewrite armed_of_app, armed_of_cons, armed_of_nil. cbn. lia.
Qed.

(** One transition: only a timer can add to the budget. *)
Lemma exec1_rate (e : event) (w w' : world) (a b : nat) :
  K w → (0 < interval_ms (exporter w))%Z → exec1 e w = Some w' →
  rate_le a b w → rate_le a (b + (if is_timer e then 1 else 0)) w'.
Proof.
  intros HKw Hi H Hrate. destruct e as [|tid o|tid]; cbn [is_timer exec1] in *.
  - apply (rate_budget a b); [lia|].
    destruct (ready w) as [|h rest] eqn:Hr; [discriminate|].
    destruct h as [k inp|cb k]; cbn in H.
    + eapply task_step_rate; eauto.
    + inversion H; subst w'. destruct cb. destruct HKw as [HK _].
      assert (HK0 : K_core None (with_ready rest w)).
      { apply (K_core_frame None w _ HK); cbn; auto.
        intros j. rewrite Hr, steps_of_cons_callback. reflexivity. }
      destruct (Event_set_armed _ _ HK0) as [E1 E2].
      unfold run_callback, on_runner_task_done.
      unfold rate_le, ticks, loops in *. rewrite E1, E2.
      unfold armed in *. cbn. rewrite Hr, armed_of_cons in Hrate. cbn in Hrate.
      exact Hrate.
  - destruct (tasks w !! tid) as [t|] eqn:Ht; [|discriminate].
    destruct (t_waiting t) as [aw|] eqn:Haw; [|discriminate].
    destruct (answers aw o) eqn:Ha; [|discriminate].
    inversion H; subst w'.
    pose proof (rate_wake a b w tid o t Ht Hrate) as Hw.
    assert (Hna : armed_handle (kinds w) (h_step tid o) = false).
    { destruct o as [v|e]; [|reflexivity]. cbn.
      rewrite (kinds_lookup w tid t Ht).
      destruct HKw as [HK _].
      pose proof (to_awaits _ _ _ _ (k_tasks _ _ HK tid t Ht) _ Haw) as Hawt.
      destruct (t_coro t) as [[p|]|p|p]; cbn in Hawt |- *; try reflexivity;
        try contradiction.
      destruct aw; try discriminate. }
    rewrite Hna in Hw. exact Hw.
  - destruct (tasks w !! tid) as [t|] eqn:Ht; [|discriminate].
    destruct (t_waiting t) as [aw|] eqn:Haw; [|discriminate].
    destruct (is_sleep aw); [|discriminate].
    inversion H; subst w'.
    apply (rate_budget a (b + (if armed_handle (kinds w) (h_step tid (Ok VNone))
                               then 1 else 0))).
    + destruct (armed_handle _ _); lia.
    + apply (rate_wake a b w tid (Ok VNone) t); assumption.
Qed.

Lemma interval_stays (e : event) (w w' : world) :
  exec1 e w = Some w' → interval_ms (exporter w') = interval_ms (exporter w).
Proof.
  intros E.
  assert (He : exec [e] w = Some w') by (cbn [exec]; rewrite E; reflexivity).
  pose proof (exec_state_closed (later_than (exporter w)) [e] w w'
                (later_than_closed _) He) as H.
  unfold on_state, later_than in H.
  destruct H as (_ & H & _); [repeat split; auto|exact H].
Qed.

Lemma exec_rate (evs : list event) :
  ∀ (w w' : world) (a b : nat),
    K w → (0 < interval_ms (exporter w))%Z → exec evs w = Some w' →
    rate_le a b w → rate_le a (b + timers evs) w'.
Proof.
  induction evs as [|e evs IH]; intros w w' a b HKw Hi He Hrate; cbn in He.
  - inversion He; subst w'. unfold timers. cbn. rewrite Nat.add_0_r. exact Hrate.
  - destruct (exec1 e w) as [w1|] eqn:E; [|discriminate].
    pose proof (exec1_rate e w w1 a b HKw Hi E Hrate) as H1.
    pose proof (exec1_K e w w1 HKw E) as HK1.
    assert (Hi1 : (0 < interval_ms (exporter w1))%Z)
      by (rewrite (interval_stays e w w1 E); exact Hi).
    pose proof (IH w1 w' a _ HK1 Hi1 He H1) as H2.
    eapply rate_budget; [|exact H2].
    unfold timers. cbn. destruct (is_timer e); cbn; lia.
Qed.

(** X11: with a positive interval the loop spawns at most one tick per
    interval.  Along every execution the tick tasks created are covered
    by the loop tasks started and the timers that fired: a loop task
    spawns a tick when it starts and again only after its
    [asyncio.sleep] timer has fired.  From any reachable state the same
    holds of the increase, counting the scheduled steps of loop tasks
    that may still spawn one. *)
Theorem X11_one_tick_per_interval (evs : list event) (w0 w : world) :
  reachable w0 → (0 < interval_ms (exporter w0))%Z →
  exec evs w0 = Some w →
  ticks w + armed w + loops w0 ≤ ticks w0 + armed w0 + loops w + timers evs
  ∧ ((∃ rpc interval script, w0 = initial_world rpc interval script) →
     ticks w ≤ loops w + timers evs).
Proof.
  intros Hr Hi He.
  pose proof (exec_rate evs w0 w (loops w0) (ticks w0 + armed w0)
                (reachable_K w0 Hr) Hi He) as H.
  unfold rate_le in H. specialize (H ltac:(lia)).
  split; [lia|]. intros (rpc & interval & script & ->).
  change (ticks (initial_world rpc interval script)) with 0 in H.
  change (loops (initial_world rpc interval script)) with 0 in H.
  change (armed (initial_world rpc interval script)) with 0 in H.
  lia.
Qed.

Lemma X11_one_tick_per_interval_witness :
  ticks after_shutdown ≤ loops after_shutdown + timers serve_and_shutdown.
Proof.
  apply (X11_one_tick_per_interval serve_and_shutdown
           (initial_world "rpc" 30000 server_script) after_shutdown).
  - apply reachable_initial.
  - reflexivity.
  - vm_compute. reflexivity.
  - exists "rpc", 30000%Z, server_script. reflexivity.
Defined.

(** ** [start] twice, and the two networks *)

Lemma start_val (w : world) : start w = (Val tt, snd (start w)).
Proof. destruct (start_spec w) as (w' & E & _). rewrite E. reflexivity. Qed.

(** [stop] when the runner task is scheduled: the task is marked for
    cancellation and nothing else changes in the loop. *)
Lemma stop_begin_marks (w : world) (r : task_id) (x : task) :
  _runner_task (exporter w) = Some r →
  tasks w !! r = Some x → t_result x = None → t_waiting x = None →
  tasks (snd (stop_begin w)) = <[r := set_t_must_cancel true x]> (tasks w)
  ∧ ready (snd (stop_begin w)) = ready w
  ∧ stopping (exporter (snd (stop_begin w))) = true.
Proof.
  intros Hrn Hx Hres Hwt.
  assert (Hx' : tasks (stop_enter w) !! r = Some x) by exact Hx.
  destruct (task_cancel_eq r (stop_enter w) x Hx') as [He Hc].
  rewrite Hres, Hwt in Hc. destruct Hc as [Ht Hr].
  rewrite (stop_begin_started w r Hrn).
  destruct (stopped (exporter w)); cbn [snd tasks ready exporter with_trace];
    rewrite Ht, Hr, He; repeat split.
Qed.

Lemma start_twice (w w1 w2 : world) :
  w1 = snd (start w) → w2 = snd (start w1) →
  _runner_task (exporter w2) = Some (S (length (tasks w)))
  ∧ tasks w2 = tasks w ++ [loop_task; loop_task]
  ∧ ready w2 = ready w ++ [h_step (length (tasks w)) (Ok VNone);
                           h_step (S (length (tasks w))) (Ok VNone)].
Proof.
  intros H1 H2.
  destruct (start_eq w) as (T1 & R1 & E1). rewrite <- H1 in T1, R1, E1.
  destruct (start_eq w1) as (T2 & R2 & E2). rewrite <- H2 in T2, R2, E2.
  assert (Hlen : length (tasks w1) = S (length (tasks w))).
  { rewrite T1, length_app. cbn. lia. }
  rewrite Hlen in R2, E2.
  split; [rewrite E2; reflexivity|].
  split; [rewrite T2, T1, <- app_assoc; reflexivity|].
  rewrite R2, R1, <- app_assoc. reflexivity.
Qed.

(** X12: [start] is not idempotent.  A second [start()] creates a second
    loop task and overwrites [_runner_task]; the first loop task is
    neither cancelled nor remembered.  A [stop()] that follows cancels
    the second loop task only and leaves the first as it is. *)
Theorem X12_start_twice (w : world) :
  let n := length (tasks w) in
  let w2 := snd (start (snd (start w))) in
  let w3 := snd (stop_begin w2) in
  start (snd (start w)) = (Val tt, w2)
  ∧ _runner_task (exporter w2) = Some (S n)
  ∧ tasks w2 = tasks w ++ [loop_task; loop_task]
  ∧ ready w2 = ready w ++ [h_step n (Ok VNone); h_step (S n) (Ok VNone)]
  ∧ tasks w3 = tasks w ++ [loop_task; set_t_must_cancel true loop_task]
  ∧ ready w3 = ready w2
  ∧ stopping (exporter w3) = true.
Proof.
  cbv zeta. split; [apply start_val|].
  destruct (start_twice w _ _ eq_refl eq_refl) as (Hrn & Hts & Hrd).
  generalize dependent (snd (start (snd (start w)))). intros w2 Hrn Hts Hrd.
  split; [exact Hrn|]. split; [exact Hts|]. split; [exact Hrd|].
  assert (Hx : tasks w2 !! S (length (tasks w)) = Some loop_task).
  { rewrite Hts, lookup_app_r by lia.
    replace (S (length (tasks w)) - length (tasks w)) with 1 by lia. reflexivity. }
  destruct (stop_begin_marks w2 _ loop_task Hrn Hx eq_refl eq_refl) as (Ht & Hr & Hs).
  split; [|split; assumption].
  rewrite Ht, Hts, insert_app_r_alt by lia.
  replace (S (length (tasks w)) - length (tasks w)) with 1 by lia. reflexivity.
Qed.

Lemma fixed_address_inj (n m : SupportedNetworks) :
  hyperlane_merkle_tree_hook_contract n = hyperlane_merkle_tree_hook_contract m → n = m.
Proof. destruct n, m; cbn; intros H; congruence. Qed.

(** X13: the two networks are told apart by their label and by their
    contract address, and a successful tick publishes under the series of
    its own network only: the series of the other network keeps its
    value. *)
Theorem X13_networks_are_told_apart (w : world) :
  (∀ n m, str n = str m → n = m)
  ∧ (∀ n m, hyperlane_merkle_tree_hook_contract n
            = hyperlane_merkle_tree_hook_contract m → n = m)
  ∧ (∀ n m root v,
       network (exporter w) = Some n → m ≠ n →
       let w' := snd (tick_resume tick_L181 (Ok (VCheckpoint root v)) w) in
       hyperlane_contract_latest_checkpoint w' !! str n = Some v
       ∧ hyperlane_contract_latest_checkpoint w' !! str m
         = hyperlane_contract_latest_checkpoint w !! str m).
Proof.
  split; [exact str_inj|]. split; [exact fixed_address_inj|].
  intros n m root v Hn Hm w'. unfold w'. rewrite (tick_resume_ok w n root v Hn). cbn.
  split; [apply lookup_insert_eq|].
  apply lookup_insert_ne. intros E. apply Hm. symmetry. apply str_inj, E.
Qed.

Lemma X13_networks_are_told_apart_witness :
  let w' := snd (tick_resume tick_L181 (Ok (VCheckpoint [] 7)) resolved_mainnet) in
  hyperlane_contract_latest_checkpoint w' !! str MAINNET = Some 7%Z
  ∧ hyperlane_contract_latest_checkpoint w' !! str HOLESKY
    = hyperlane_contract_latest_checkpoint resolved_mainnet !! str HOLESKY.
Proof.
  apply (proj2 (proj2 (X13_networks_are_told_apart resolved_mainnet)) MAINNET HOLESKY [] 7%Z).
  - reflexivity.
  - discriminate.
Defined.

(** ** [stop] returns *)

Lemma closing_session_main (c : coro) : closing_session c = true → kind_of c = k_main.
Proof. destruct c as [?|?|?]; try discriminate. reflexivity. Qed.

Lemma closing_session_pc (c : coro) :
  closing_session c = true →
  ∃ pc, c = co_main (Some pc) ∧ (op_of pc = op_stop ∨ op_of pc = op_stop_exporter_app).
Proof.
  destruct c as [?|?|[[?|?|[]|?|[[]]|]|]]; try discriminate; intros _;
    eexists; (split; [reflexivity|]); [left|right]; reflexivity.
Qed.

Lemma main_run_script_extends (todo : list op) :
  ∀ w : world, ∃ more, script_done (snd (main_run todo w)) = script_done w ++ more.
Proof.
  induction todo as [|o' rest IH]; intros w.
  { exists []. rewrite app_nil_r. reflexivity. }
  rewrite main_run_cons.
  set (w0 := with_script rest (script_done w) w).
  pose proof (pres_op_begin (script_is (script_todo w0) (script_done w0))
                (script_is_robust _ _) o' w0 (conj eq_refl eq_refl)) as [_ Hd].
  destruct (op_begin o' w0) as [[[|aw p]|e] w2]; cbn [snd] in *.
  - destruct (IH (snd (mark_done o' w2))) as [more Hm].
    exists (o' :: more). rewrite Hm. cbn. rewrite Hd, <- app_assoc. reflexivity.
  - exists []. rewrite app_nil_r. exact Hd.
  - exists []. rewrite app_nil_r. exact Hd.
Qed.

Lemma main_run_trace_extends (todo : list op) (w : world) :
  ∃ post, trace (snd (main_run todo w)) = trace w ++ post.
Proof.
  apply (pres_main_run (trace_from (trace w)) (trace_from_robust _)
           (trace_from_script_robust _) todo w).
  exists []. rewrite app_nil_r. reflexivity.
Qed.

(** The caller's step after [session.close()]: line 163 logs and [stop]
    returns to the caller, which records it and goes on with its
    script. *)
Lemma closing_resume (c : coro) (v : pyvalue) (w : world) :
  closing_session c = true →
  ∃ pc, c = co_main (Some pc) ∧ returns_from_stop pc w (snd (resume c (Ok v) w)).
Proof.
  intros Hc.
  assert (Hgen : ∀ (pc : op_pc),
            op_resume pc (Ok v) w = (Val Done, log "Stopped components, will exit" [] w) →
            returns_from_stop pc w (snd (resume (co_main (Some pc)) (Ok v) w))).
  { intros pc E. cbn [resume].
    assert (Hlift : ∀ (m : M (susp op_pc)) (w0 : world),
              snd (lift_coro co_main m w0) = snd (m w0)).
    { intros m w0. unfold lift_coro, bind. destruct (m w0) as [[x|e] w1]; reflexivity. }
    rewrite Hlift, main_resume_eq, E.
    set (w2 := snd (mark_done (op_of pc) (log "Stopped components, will exit" [] w))).
    destruct (main_run_trace_extends (script_todo (log "Stopped components, will exit" [] w)) w2)
      as [post Hp].
    destruct (main_run_script_extends (script_todo (log "Stopped components, will exit" [] w)) w2)
      as [more Hm].
    split; [exists post|exists more].
    - rewrite Hp. unfold w2. cbn. rewrite <- app_assoc. reflexivity.
    - rewrite Hm. unfold w2. cbn. rewrite <- app_assoc. reflexivity. }
  destruct c as [?|?|[[?|?|[]|?|[[]]|]|]]; try discriminate;
    eexists; (split; [reflexivity|]); apply Hgen; reflexivity.
Qed.

(** The turn of a task other than the caller leaves the caller's script
    as it is. *)
Lemma other_turn_script (w w1 : world) (h : handle) (rest : list handle) :
  ready w = h :: rest →
  (∀ k inp t, h = h_step k inp → tasks w !! k = Some t →
              kind_of (t_coro t) ≠ k_main) →
  exec1 run_next w = Some w1 →
  script_done w1 = script_done w.
Proof.
  intros Hr Hk E. unfold exec1 in E. rewrite Hr in E.
  destruct h as [k inp|cb k]; cbn [run_handle] in E.
  - unfold task_step in E. change (tasks (with_ready rest w)) with (tasks w) in E.
    destruct (tasks w !! k) as [t|] eqn:Ht; [|discriminate].
    destruct (t_result t); [discriminate|].
    specialize (Hk k inp t eq_refl Ht).
    set (w0 := update_task k (set_t_must_cancel false) (with_ready rest w)) in E.
    set (inp' := if t_must_cancel t then Exc CancelledError else inp) in E.
    assert (H0 : script_is (script_todo w) (script_done w) w0).
    { destruct (update_task_frame k (set_t_must_cancel false) (with_ready rest w))
        as (_ & _ & _ & H1 & H2).
      split; [exact H1|exact H2]. }
    assert (H2 : script_is (script_todo w) (script_done w)
                   (snd (resume (t_coro t) inp' w0))).
    { pose proof (script_is_robust (script_todo w) (script_done w)) as HP.
      destruct (t_coro t) as [[p|]|[p|]|p]; cbn [resume];
        try (contradiction Hk; reflexivity).
      - apply (pres_lift_coro _ _ _ (pres_run_resume _ HP p inp') w0 H0).
      - apply (pres_lift_coro _ _ _ (pres_enter _ inp' _ (pres_run_loop _ HP)) w0 H0).
      - apply (pres_lift_coro _ _ _ (pres_tick_resume _ HP p inp') w0 H0).
      - apply (pres_lift_coro _ _ _ (pres_enter _ inp' _ (pres_tick_begin _ HP)) w0 H0). }
    destruct H2 as [_ H2].
    destruct (resume (t_coro t) inp' w0) as [[[|aw c]|e] w2]; cbn [snd] in H2;
      inversion E; subst w1.
    + destruct (finish_task_frame k (Val tt) w2) as (_ & _ & _ & _ & ->). exact H2.
    + destruct (suspend_task_frame k aw c w2) as (_ & _ & _ & _ & ->). exact H2.
    + destruct (finish_task_frame k (Err e) w2) as (_ & _ & _ & _ & ->). exact H2.
  - inversion E; subst w1. destruct cb. cbn [run_callback]. unfold on_runner_task_done.
    destruct (Event_set_view (with_ready rest w)) as (_ & _ & _ & -> & _). reflexivity.
Qed.

Lemma closing_turn (m : task_id) (t : task) (w : world) (h : handle) (rest : list handle) :
  stop_closing m t w → ready w = h :: rest → (∀ inp, h ≠ h_step m inp) →
  ∃ w1 extra,
    exec1 run_next w = Some w1 ∧ ready w1 = rest ++ extra ∧ stop_closing m t w1
    ∧ script_done w1 = script_done w.
Proof.
  intros [HKw Hsg Ht Hw Hat] Hr Hhead.
  pose proof (closing_session_main _ Hat) as Hm.
  assert (Hother : ∀ k inp tk, h = h_step k inp → tasks w !! k = Some tk →
                               kind_of (t_coro tk) ≠ k_main).
  { intros k inp tk -> Htk Hk. destruct HKw as [HK _].
    pose proof (to_main _ _ _ _ (k_tasks _ _ HK k tk Htk) Hk) as Hk0.
    pose proof (to_main _ _ _ _ (k_tasks _ _ HK m t Ht) Hm) as Hm0.
    eapply (Hhead inp). congruence. }
  destruct (turn_frame w h rest HKw Hsg Hr Hother)
    as (w1 & extra & E & Hrd & Hsg1 & _ & Hfr & _).
  exists w1, extra. split; [exact E|]. split; [exact Hrd|].
  split; [|apply (other_turn_script w w1 h rest Hr Hother E)].
  destruct (Hfr m t Hhead Ht) as [Hsame|(Hc & _)]; [|congruence].
  split; auto. eapply exec1_K; eauto.
Qed.

Lemma returns_from_stop_same_program (pc : op_pc) (w0 w w' : world) :
  same_program w w' → returns_from_stop pc w0 w → returns_from_stop pc w0 w'.
Proof.
  intros (_ & _ & Ht & _ & Hd) [H1 H2]. unfold returns_from_stop. rewrite Ht, Hd. auto.
Qed.

Lemma closing_step (m : task_id) (t : task) (w : world) (v : pyvalue) (rest : list handle) :
  stop_closing m t w → ready w = h_step m (Ok v) :: rest →
  ∃ w' pc, exec1 run_next w = Some w' ∧ t_coro t = co_main (Some pc)
           ∧ returns_from_stop pc w w'.
Proof.
  intros [HKw Hsg Ht Hw Hat] Hr.
  destruct (K_pop_step w m (Ok v) rest HKw Hr) as (t0 & Ht0 & Hres & _ & _).
  rewrite Ht in Ht0. inversion Ht0; subst t0; clear Ht0.
  assert (Hmc : t_must_cancel t = false).
  { destruct HKw as [HK _].
    destruct (t_must_cancel t) eqn:E; [|reflexivity].
    pose proof (to_must_cancel _ _ _ _ (k_tasks _ _ HK m t Ht) E) as Hk.
    rewrite (closing_session_main _ Hat) in Hk. discriminate. }
  unfold exec1. rewrite Hr. cbn [run_handle]. unfold task_step.
  change (tasks (with_ready rest w)) with (tasks w).
  rewrite Ht, Hres, Hmc.
  set (w1 := update_task m (set_t_must_cancel false) (with_ready rest w)).
  destruct (closing_resume (t_coro t) v w1 Hat) as (pc & Hpc & Hret).
  assert (Hret' : ∀ w2, same_program (snd (resume (t_coro t) (Ok v) w1)) w2 →
                        returns_from_stop pc w w2).
  { intros w2 Hsp. apply (returns_from_stop_same_program pc w _ w2 Hsp).
    destruct (update_task_frame m (set_t_must_cancel false) (with_ready rest w))
      as (_ & _ & Htr & _ & Hsd).
    destruct Hret as [[post Hp] [more Hq]]. fold w1 in Htr, Hsd.
    split; [exists post|exists more].
    - rewrite Hp, Htr. reflexivity.
    - rewrite Hq, Hsd. reflexivity. }
  destruct (resume (t_coro t) (Ok v) w1) as [[[|aw c]|e] w2]; cbn [snd] in Hret';
    eexists; exists pc; (split; [reflexivity|]); (split; [exact Hpc|]); apply Hret'.
  - apply finish_task_frame.
  - apply suspend_task_frame.
  - apply finish_task_frame.
Qed.

Lemma closing_returns (m : task_id) (t : task) (pre : list handle) :
  ∀ (w : world) v post,
    stop_closing m t w → ready w = pre ++ h_step m (Ok v) :: post →
    ∃ n w1 w' pc,
      exec (repeat run_next n) w = Some w1
      ∧ script_done w1 = script_done w
      ∧ tasks w1 !! m = Some t
      ∧ (∃ rest, ready w1 = h_step m (Ok v) :: rest)
      ∧ exec1 run_next w1 = Some w'
      ∧ t_coro t = co_main (Some pc)
      ∧ returns_from_stop pc w1 w'.
Proof.
  induction pre as [|h0 pre IH]; intros w v post Hs Hr; cbn in Hr.
  - destruct (closing_step m t w v post Hs Hr) as (w' & pc & E & Hpc & H).
    exists 0, w, w', pc. split; [reflexivity|]. split; [reflexivity|].
    split; [apply (cls_task _ _ _ Hs)|]. split; [exists post; exact Hr|]. auto.
  - assert (Hhead : ∀ inp, h0 ≠ h_step m inp).
    { intros inp ->. pose proof Hs as [[HK _] _ Ht Hw _].
      pose proof (to_wakeup _ _ _ _ (k_tasks _ _ HK m t Ht)) as A.
      rewrite Hr in A.
      change (h_step m inp :: pre ++ h_step m (Ok v) :: post)
        with ([h_step m inp] ++ pre ++ [h_step m (Ok v)] ++ post) in A.
      rewrite !steps_of_app, !steps_of_one, Nat.eqb_refl in A.
      unfold due in A. destruct (t_result t); [destruct A; lia|lia]. }
    destruct (closing_turn m t w h0 _ Hs Hr Hhead) as (w1 & extra & E & Hrd & Hs1 & Hsd).
    rewrite <- app_assoc in Hrd. cbn in Hrd.
    destruct (IH w1 v (post ++ extra) Hs1 Hrd)
      as (n & w2 & w' & pc & En & Hsd2 & Ht2 & Hr2 & E2 & Hpc & H).
    exists (S n), w2, w', pc. split; [eapply exec_run_next_S; eauto|].
    split; [congruence|]. auto.
Qed.

(** X14: [stop] returns once the session is closed.  From every
    reachable state in which the caller's task [m] is blocked in the
    [await self.session.close()] of a [stop], the completion of that
    call followed by a bounded number of turns of the other scheduled
    tasks brings the turn of [m]; until then this [stop] has not
    returned (the caller's record of finished operations is unchanged
    and [m] is where it was, scheduled), and in its turn [m] first logs
    "Stopped components, will exit" and then records this [stop] as
    done. *)
Theorem X14_stop_returns_after_close (w : world) (m : task_id) (t : task) :
  reachable w →
  tasks w !! m = Some t → closing_session (t_coro t) = true →
  t_waiting t = Some aw_session_close →
  ∃ n w1 w' pc,
    t_coro t = co_main (Some pc)
    ∧ (op_of pc = op_stop ∨ op_of pc = op_stop_exporter_app)
    ∧ exec (complete m (Ok VNone) :: repeat run_next n) w = Some w1
    ∧ script_done w1 = script_done w
    ∧ tasks w1 !! m = Some (set_t_waiting None t)
    ∧ (∃ rest, ready w1 = h_step m (Ok VNone) :: rest)
    ∧ exec1 run_next w1 = Some w'
    ∧ (∃ post, trace w' = trace w1 ++ ef_log "Stopped components, will exit" [] :: post)
    ∧ (∃ more, script_done w' = script_done w ++ op_of pc :: more).
Proof.
  intros Hr Ht Hat Hw.
  pose proof (reachable_K w Hr) as HKw.
  destruct (reachable_Inv w Hr) as [(_ & _ & Hts & _) _].
  assert (Hres : t_result t = None).
  { destruct HKw as [HK _].
    pose proof (to_wakeup _ _ _ _ (k_tasks _ _ HK m t Ht)) as A.
    destruct (t_result t); [destruct A; congruence|reflexivity]. }
  destruct (Hts m t Ht Hres) as [Hl _].
  assert (Hsg : stopping (exporter w) = true).
  { destruct (t_coro t) as [?|?|[[?|?|[]|?|[[]]|]|]]; try discriminate;
      destruct Hl as (? & _); auto. }
  assert (E : exec1 (complete m (Ok VNone)) w = Some (wake m (Ok VNone) w)).
  { cbn. rewrite Ht, Hw. reflexivity. }
  assert (Hlt : m < length (tasks w)) by (eapply lookup_lt_Some; eauto).
  assert (Hs : stop_closing m (set_t_waiting None t) (wake m (Ok VNone) w)).
  { split.
    - eapply exec1_K; eauto.
    - destruct (wake_frame m (Ok VNone) w) as (-> & _). exact Hsg.
    - unfold wake. rewrite (update_task_eq _ _ _ _ Ht). cbn.
      apply list_lookup_insert_eq, Hlt.
    - reflexivity.
    - exact Hat. }
  destruct (closing_returns m _ (ready w) (wake m (Ok VNone) w) VNone [] Hs)
    as (n & w1 & w' & pc & En & Hsd & Ht1 & Hr1 & E1 & Hpc & [Hlog Hdone]).
  { unfold wake. rewrite (update_task_eq _ _ _ _ Ht). reflexivity. }
  destruct (wake_frame m (Ok VNone) w) as (_ & _ & _ & _ & Hsd0).
  destruct (closing_session_pc _ Hat) as (pc' & Hpc' & Hop).
  cbn in Hpc. rewrite Hpc' in Hpc. inversion Hpc; subst pc'.
  exists n, w1, w', pc. split; [exact Hpc'|]. split; [exact Hop|].
  split; [cbn [exec]; rewrite E; exact En|].
  split; [congruence|]. split; [exact Ht1|]. split; [exact Hr1|].
  split; [exact E1|]. split; [exact Hlog|].
  destruct Hdone as [more Hd]. exists more. rewrite Hd. congruence.
Qed.

Lemma X14_stop_returns_after_close_witness :
  let w := session_closing in
  let t := {| t_coro := co_main (Some (in_stop stop_L162));
              t_waiting := Some aw_session_close;
              t_must_cancel := false; t_result := None; t_callbacks := [] |} in
  ¬ In (ef_log "Stopped components, will exit" []) (trace w)
  ∧ script_done w = [op_start; op_wait]
  ∧ ∃ n w1 w' pc,
      t_coro t = co_main (Some pc)
      ∧ (op_of pc = op_stop ∨ op_of pc = op_stop_exporter_app)
      ∧ exec (complete main_tid (Ok VNone) :: repeat run_next n) w = Some w1
      ∧ script_done w1 = script_done w
      ∧ tasks w1 !! main_tid = Some (set_t_waiting None t)
      ∧ (∃ rest, ready w1 = h_step main_tid (Ok VNone) :: rest)
      ∧ exec1 run_next w1 = Some w'
      ∧ (∃ post, trace w' = trace w1 ++ ef_log "Stopped components, will exit" [] :: post)
      ∧ (∃ more, script_done w' = script_done w ++ op_of pc :: more).
Proof.
  split.
  { vm_compute. intros H. repeat (destruct H as [H|H]; [discriminate|]). exact H. }
  split; [vm_compute; reflexivity|].
  apply (X14_stop_returns_after_close session_closing main_tid
           {| t_coro := co_main (Some (in_stop stop_L162));
              t_waiting := Some aw_session_close;
              t_must_cancel := false; t_result := None; t_callbacks := [] |}).
  - exact session_closing_reachable.
  - vm_compute. reflexivity.
  - reflexivity.
  - reflexivity.
Defined.
